(** * Boid simulation (raylib-boid, [src/main.c]): spatial grid, force
    systems, integrator and entity store, embedded function by function.

    The C program computes on [float] and [int].  The embedding is written
    once over an abstract scalar type ([Scalar]) and instantiated twice:

    - [binary32]: IEEE 754 single precision, through the executable
      specification of the Standard Library ([SpecFloat], precision 24,
      maximal exponent 128).  This is the arithmetic of the program.
    - [real]: exact real arithmetic.  The exact lengths and distances that
      the statements about [binary32] bound are expressed in it, and the
      geometry of the grid is proved in it.

    [int] values are modelled by [Z]; every [int] the program computes stays
    far inside 32 bits except the result of a [float]-to-[int] cast, which is
    modelled with its range (see [b32_to_int]). *)

From Stdlib Require Import ZArith Bool Lia Reals Lra Psatz.
From Stdlib Require Import Floats.SpecFloat.
From stdpp Require Import base tactics option list list_numbers.

Set Default Proof Using "Type".
Local Open Scope Z_scope.

(** ** Compile-time constants of [main.c] *)

Definition SCREEN_WIDTH : Z := 2560.
Definition SCREEN_HEIGHT : Z := 1440.
Definition CELL_SIZE : Z := 50.
Definition GRID_WIDTH : Z := SCREEN_WIDTH ÷ CELL_SIZE + 1.
Definition GRID_HEIGHT : Z := SCREEN_HEIGHT ÷ CELL_SIZE + 1.
Definition MAX_ENTITIES_PER_CELL : Z := 100.
Definition MAX_ENTITIES : Z := 8000.

(** Range of the C type [int] (32 bits). *)
Definition INT_MIN : Z := - 2 ^ 31.
Definition INT_MAX : Z := 2 ^ 31 - 1.

(** ** Scalars

    The operations the program applies to [float] values.  [of_int] is the
    implicit conversion of an [int] operand, [to_int] the cast [(int)f],
    [ltb a b] the comparison [a < b] ([a > b] is [ltb b a]). *)

Class Scalar := {
  num : Type;
  of_int : Z → num;
  to_int : num → Z;
  add : num → num → num;
  sub : num → num → num;
  mul : num → num → num;
  div : num → num → num;
  sqrtf : num → num;
  ltb : num → num → bool;
}.

Declare Scope num_scope.
Delimit Scope num_scope with num.
Bind Scope num_scope with num.
Infix "+" := add : num_scope.
Infix "-" := sub : num_scope.
Infix "*" := mul : num_scope.
Infix "/" := div : num_scope.
Infix "<?" := ltb : num_scope.
Notation "a >? b" := (ltb b a) (only parsing) : num_scope.

Global Instance num_inhabited `{Scalar} : Inhabited num := populate (of_int 0).

(** *** IEEE 754 binary32 *)

Module B32.
Definition prec : Z := 24.
Definition emax : Z := 128.

(** [(float)z]: the integer rounded to the nearest float, ties to even. *)
Definition b32_of_int (z : Z) : spec_float :=
  binary_normalize prec emax z 0 false.

(** The integer part of a finite float (rounding toward zero). *)
Definition b32_trunc (f : spec_float) : option Z :=
  match f with
  | S754_zero _ => Some 0
  | S754_finite s m e =>
      let t := match e with
               | Z0 => Zpos m
               | Zpos _ => Z.shiftl (Zpos m) e
               | Zneg p => Z.shiftr (Zpos m) (Zpos p)
               end in
      Some (if s then - t else t)
  | _ => None
  end.

(** [(int)f].  C leaves the cast undefined when the integer part does not
    fit in [int] (and for infinities and NaN); the x86-64 conversion
    instruction the program is compiled to then yields [INT_MIN], which is
    what the model returns. *)
Definition b32_to_int (f : spec_float) : Z :=
  match b32_trunc f with
  | Some v => if (INT_MIN <=? v) && (v <=? INT_MAX) then v else INT_MIN
  | None => INT_MIN
  end.
End B32.

Definition binary32 : Scalar := {|
  num := spec_float;
  of_int := B32.b32_of_int;
  to_int := B32.b32_to_int;
  add := SFadd B32.prec B32.emax;
  sub := SFsub B32.prec B32.emax;
  mul := SFmul B32.prec B32.emax;
  div := SFdiv B32.prec B32.emax;
  sqrtf := SFsqrt B32.prec B32.emax;
  ltb := SFltb;
|}.

(** *** Exact real arithmetic *)

Module Exact.
(** The integer part of a real (rounding toward zero). *)
Definition Rtrunc (r : R) : Z :=
  if Rle_dec 0 r then Zfloor r else Zceil r.

Definition R_to_int (r : R) : Z :=
  let v := Rtrunc r in
  if (INT_MIN <=? v) && (v <=? INT_MAX) then v else INT_MIN.

Definition Rltb (a b : R) : bool := if Rlt_dec a b then true else false.
End Exact.

Definition real : Scalar := {|
  num := R;
  of_int := IZR;
  to_int := Exact.R_to_int;
  add := Rplus;
  sub := Rminus;
  mul := Rmult;
  div := Rdiv;
  sqrtf := sqrt;
  ltb := Exact.Rltb;
|}.

(** ** Arrays

    A C array is a list; an index is an [int].  C leaves an access outside
    the array undefined: the model reads the default element there and drops
    the write.  Every theorem below is about indices inside the arrays. *)

Definition aget {A} `{Inhabited A} (l : list A) (i : Z) : A :=
  if i <? 0 then inhabitant else l !!! Z.to_nat i.

Definition aset {A} (l : list A) (i : Z) (v : A) : list A :=
  if i <? 0 then l else <[Z.to_nat i := v]> l.

Section Program.
Context {S : Scalar}.
Local Open Scope num_scope.

(** ** Components *)

(** raylib's [Vector2] (fields [x] and [y]). *)
Record Vector2 := mkVector2 { vx : num; vy : num }.

(** raylib's [Color] (four bytes). *)
Record Color := mkColor { cr : Z; cg : Z; cb : Z; ca : Z }.

Record Entity := mkEntity { active : bool }.

(** [(Vector2){ 0, 0 }] *)
Definition Vector2Zero : Vector2 := mkVector2 (of_int 0) (of_int 0).

Global Instance Vector2_inhabited : Inhabited Vector2 := populate Vector2Zero.
Global Instance Entity_inhabited : Inhabited Entity := populate (mkEntity false).
Global Instance Color_inhabited : Inhabited Color := populate (mkColor 0 0 0 0).

(** The three functions of raymath.h the program calls. *)
Definition Vector2Add (v1 v2 : Vector2) : Vector2 :=
  mkVector2 (vx v1 + vx v2) (vy v1 + vy v2).

Definition Vector2Subtract (v1 v2 : Vector2) : Vector2 :=
  mkVector2 (vx v1 - vx v2) (vy v1 - vy v2).

Definition Vector2Distance (v1 v2 : Vector2) : num :=
  sqrtf ((vx v1 - vx v2) * (vx v1 - vx v2) + (vy v1 - vy v2) * (vy v1 - vy v2)).

(** ** Spatial grid *)

Record GridCell := mkGridCell { cell_entities : list Z; cell_count : Z }.

Global Instance GridCell_inhabited : Inhabited GridCell := populate (mkGridCell [] 0).

(** [cells[GRID_WIDTH][GRID_HEIGHT]]: the outer index is the column. *)
Definition SpatialGrid := list (list GridCell).

Definition cell_at (grid : SpatialGrid) (gx gy : Z) : GridCell :=
  aget (aget grid gx) gy.

Definition set_cell (grid : SpatialGrid) (gx gy : Z) (c : GridCell) : SpatialGrid :=
  aset grid gx (aset (aget grid gx) gy c).

(** [memset(grid, 0, sizeof(SpatialGrid))] *)
Definition ClearSpatialGrid (grid : SpatialGrid) : SpatialGrid :=
  replicate (Z.to_nat GRID_WIDTH)
    (replicate (Z.to_nat GRID_HEIGHT)
       (mkGridCell (replicate (Z.to_nat MAX_ENTITIES_PER_CELL) 0%Z) 0)).

(** The two clamps of [AddToSpatialGrid] on one axis. *)
Definition clamp_cell (gc dim : Z) : Z :=
  let gc := if (gc <? 0)%Z then 0%Z else gc in
  if (gc >=? dim)%Z then (dim - 1)%Z else gc.

Definition cell_of (pos : Vector2) : Z * Z :=
  let gridX := to_int (vx pos / of_int CELL_SIZE) in
  let gridY := to_int (vy pos / of_int CELL_SIZE) in
  (clamp_cell gridX GRID_WIDTH, clamp_cell gridY GRID_HEIGHT).

Definition AddToSpatialGrid (grid : SpatialGrid) (entityId : Z) (pos : Vector2)
  : SpatialGrid :=
  let '(gridX, gridY) := cell_of pos in
  let cell := cell_at grid gridX gridY in
  if (cell_count cell <? MAX_ENTITIES_PER_CELL)%Z then
    set_cell grid gridX gridY
      (mkGridCell (aset (cell_entities cell) (cell_count cell) entityId)
                  (cell_count cell + 1)%Z)
  else grid.

(** The innermost loop of [QuerySpatialGrid]: the ids of one cell are
    appended to the output while it holds fewer than [maxResults]. *)
Definition collect_cell (maxResults : Z) (out : list Z) (cell : GridCell) : list Z :=
  fold_left
    (fun out i =>
       if (Z.of_nat (length out) <? maxResults)%Z
       then out ++ [aget (cell_entities cell) i]
       else out)
    (seqZ 0 (cell_count cell)) out.

(** The cell range of a query on one axis, after its two clamps. *)
Definition query_range (p radius : num) (dim : Z) : Z * Z :=
  let lo := to_int ((p - radius) / of_int CELL_SIZE) in
  let hi := to_int ((p + radius) / of_int CELL_SIZE) in
  let lo := if (lo <? 0)%Z then 0%Z else lo in
  let hi := if (hi >=? dim)%Z then (dim - 1)%Z else hi in
  (lo, hi).

(** [QuerySpatialGrid]: the output buffer and [*outCount] are the returned
    list and its length. *)
Definition QuerySpatialGrid (grid : SpatialGrid) (pos : Vector2) (radius : num)
    (maxResults : Z) : list Z :=
  let '(minX, maxX) := query_range (vx pos) radius GRID_WIDTH in
  let '(minY, maxY) := query_range (vy pos) radius GRID_HEIGHT in
  fold_left
    (fun out gy =>
       fold_left
         (fun out gx => collect_cell maxResults out (cell_at grid gx gy))
         (seqZ minX (maxX - minX + 1)) out)
    (seqZ minY (maxY - minY + 1)) [].

(** ** Entity store (the global arrays and [entityCount]) *)

Record Store := mkStore {
  entities : list Entity;
  positions : list Vector2;
  velocities : list Vector2;
  accelerations : list Vector2;
  colors : list Color;
  entityCount : Z;
}.

Record BoidParams := mkBoidParams {
  perceptionRadius : num;
  separationRadius : num;
  maxSpeed : num;
  maxForce : num;
  separationWeight : num;
  alignmentWeight : num;
  cohesionWeight : num;
}.

(** A decimal literal [n / 10^k] of the source, as the correctly rounded
    quotient of two small integers. *)
Definition decimal (n d : Z) : num := of_int n / of_int d.

Definition boidParams : BoidParams := {|
  perceptionRadius := of_int 20;
  separationRadius := of_int 10;
  maxSpeed := of_int 5;
  maxForce := decimal 7 10;
  separationWeight := of_int 3;
  alignmentWeight := of_int 1;
  cohesionWeight := decimal 5 10;
|}.

(** ** Utility functions *)

Definition Vector2Limit (v : Vector2) (max : num) : Vector2 :=
  let magSq := vx v * vx v + vy v * vy v in
  if magSq >? max * max then
    let mag := sqrtf magSq in
    mkVector2 ((vx v / mag) * max) ((vy v / mag) * max)
  else v.

Definition Vector2SetMag (v : Vector2) (mag : num) : Vector2 :=
  let currentMag := sqrtf (vx v * vx v + vy v * vy v) in
  if currentMag >? of_int 0 then
    mkVector2 ((vx v / currentMag) * mag) ((vy v / currentMag) * mag)
  else v.

(** ** Entity management *)

Definition CreateEntity (s : Store) (position velocity : Vector2) (color : Color)
  : Z * Store :=
  if (entityCount s >=? MAX_ENTITIES)%Z then (-1, s)%Z
  else
    let id := entityCount s in
    (id, {| entities := aset (entities s) id (mkEntity true);
            positions := aset (positions s) id position;
            velocities := aset (velocities s) id velocity;
            accelerations := aset (accelerations s) id Vector2Zero;
            colors := aset (colors s) id color;
            entityCount := (entityCount s + 1)%Z |}).

(** ** Systems *)

Definition SpatialGridUpdateSystem (grid : SpatialGrid) (pos : list Vector2)
    (ent : list Entity) (count : Z) : SpatialGrid :=
  fold_left
    (fun grid i =>
       if negb (active (aget ent i)) then grid
       else AddToSpatialGrid grid i (aget pos i))
    (seqZ 0 count) (ClearSpatialGrid grid).

(** Size of the [nearbyEntities] buffer of the force systems. *)
Definition NEARBY_MAX : Z := MAX_ENTITIES_PER_CELL * 9.

(** [v.x /= d; v.y /= d;] and [v.x *= w; v.y *= w;] *)
Definition Vector2DivScalar (v : Vector2) (d : num) : Vector2 :=
  mkVector2 (vx v / d) (vy v / d).
Definition Vector2MulScalar (v : Vector2) (w : num) : Vector2 :=
  mkVector2 (vx v * w) (vy v * w).

(** Adding a steering force into [acc[i]]; [None] is the branch [total == 0],
    which writes nothing. *)
Definition accumulate (acc : list Vector2) (i : Z) (f : option Vector2)
  : list Vector2 :=
  match f with
  | Some steering => aset acc i (Vector2Add (aget acc i) steering)
  | None => acc
  end.

(** The neighbour loop of [BoidSeparationSystem] for agent [i]. *)
Definition separation_sum (pos : list Vector2) (ent : list Entity)
    (params : BoidParams) (i : Z) (nearby : list Z) : Vector2 * Z :=
  fold_left
    (fun '(steering, total) j =>
       if (i =? j)%Z || negb (active (aget ent j)) then (steering, total)
       else
         let dist := Vector2Distance (aget pos i) (aget pos j) in
         if (dist <? separationRadius params) && (dist >? of_int 0) then
           let diff := Vector2Subtract (aget pos i) (aget pos j) in
           let diff := Vector2DivScalar diff dist in
           (Vector2Add steering diff, (total + 1)%Z)
         else (steering, total))
    nearby (Vector2Zero, 0%Z).

(** The body of [BoidSeparationSystem] for an active agent [i], up to the
    write into [acc[i]]. *)
Definition separation_steering (grid : SpatialGrid) (pos vel : list Vector2)
    (ent : list Entity) (params : BoidParams) (i : Z) : option Vector2 :=
  let nearby :=
    QuerySpatialGrid grid (aget pos i) (separationRadius params) NEARBY_MAX in
  let '(steering, total) := separation_sum pos ent params i nearby in
  if (total >? 0)%Z then
    let steering := Vector2DivScalar steering (of_int total) in
    let steering := Vector2SetMag steering (maxSpeed params) in
    let steering := Vector2Subtract steering (aget vel i) in
    let steering := Vector2Limit steering (maxForce params) in
    Some (Vector2MulScalar steering (separationWeight params))
  else None.

Definition BoidSeparationSystem (grid : SpatialGrid) (pos vel acc : list Vector2)
    (ent : list Entity) (count : Z) (params : BoidParams) : list Vector2 :=
  fold_left
    (fun acc i =>
       if negb (active (aget ent i)) then acc
       else accumulate acc i (separation_steering grid pos vel ent params i))
    (seqZ 0 count) acc.

Definition alignment_sum (pos vel : list Vector2) (ent : list Entity)
    (params : BoidParams) (i : Z) (nearby : list Z) : Vector2 * Z :=
  fold_left
    (fun '(steering, total) j =>
       if (i =? j)%Z || negb (active (aget ent j)) then (steering, total)
       else
         let dist := Vector2Distance (aget pos i) (aget pos j) in
         if dist <? perceptionRadius params then
           (Vector2Add steering (aget vel j), (total + 1)%Z)
         else (steering, total))
    nearby (Vector2Zero, 0%Z).

Definition alignment_steering (grid : SpatialGrid) (pos vel : list Vector2)
    (ent : list Entity) (params : BoidParams) (i : Z) : option Vector2 :=
  let nearby :=
    QuerySpatialGrid grid (aget pos i) (perceptionRadius params) NEARBY_MAX in
  let '(steering, total) := alignment_sum pos vel ent params i nearby in
  if (total >? 0)%Z then
    let steering := Vector2DivScalar steering (of_int total) in
    let steering := Vector2SetMag steering (maxSpeed params) in
    let steering := Vector2Subtract steering (aget vel i) in
    let steering := Vector2Limit steering (maxForce params) in
    Some (Vector2MulScalar steering (alignmentWeight params))
  else None.

Definition BoidAlignmentSystem (grid : SpatialGrid) (pos vel acc : list Vector2)
    (ent : list Entity) (count : Z) (params : BoidParams) : list Vector2 :=
  fold_left
    (fun acc i =>
       if negb (active (aget ent i)) then acc
       else accumulate acc i (alignment_steering grid pos vel ent params i))
    (seqZ 0 count) acc.

Definition cohesion_sum (pos : list Vector2) (ent : list Entity)
    (params : BoidParams) (i : Z) (nearby : list Z) : Vector2 * Z :=
  fold_left
    (fun '(steering, total) j =>
       if (i =? j)%Z || negb (active (aget ent j)) then (steering, total)
       else
         let dist := Vector2Distance (aget pos i) (aget pos j) in
         if dist <? perceptionRadius params then
           (Vector2Add steering (aget pos j), (total + 1)%Z)
         else (steering, total))
    nearby (Vector2Zero, 0%Z).

Definition cohesion_steering (grid : SpatialGrid) (pos vel : list Vector2)
    (ent : list Entity) (params : BoidParams) (i : Z) : option Vector2 :=
  let nearby :=
    QuerySpatialGrid grid (aget pos i) (perceptionRadius params) NEARBY_MAX in
  let '(steering, total) := cohesion_sum pos ent params i nearby in
  if (total >? 0)%Z then
    let steering := Vector2DivScalar steering (of_int total) in
    let steering := Vector2Subtract steering (aget pos i) in
    let steering := Vector2SetMag steering (maxSpeed params) in
    let steering := Vector2Subtract steering (aget vel i) in
    let steering := Vector2Limit steering (maxForce params) in
    Some (Vector2MulScalar steering (cohesionWeight params))
  else None.

Definition BoidCohesionSystem (grid : SpatialGrid) (pos vel acc : list Vector2)
    (ent : list Entity) (count : Z) (params : BoidParams) : list Vector2 :=
  fold_left
    (fun acc i =>
       if negb (active (aget ent i)) then acc
       else accumulate acc i (cohesion_steering grid pos vel ent params i))
    (seqZ 0 count) acc.

(** ** Core systems *)

Definition AccelerationResetSystem (acc : list Vector2) (ent : list Entity)
    (count : Z) : list Vector2 :=
  fold_left
    (fun acc i =>
       if negb (active (aget ent i)) then acc else aset acc i Vector2Zero)
    (seqZ 0 count) acc.

(** [PhysicsSystem] updates [pos] and [vel] in place; both are returned. *)
Definition PhysicsSystem (pos vel acc : list Vector2) (ent : list Entity)
    (count : Z) (maxSpeed : num) : list Vector2 * list Vector2 :=
  fold_left
    (fun '(pos, vel) i =>
       if negb (active (aget ent i)) then (pos, vel)
       else
         let vel := aset vel i (Vector2Add (aget vel i) (aget acc i)) in
         let vel := aset vel i (Vector2Limit (aget vel i) maxSpeed) in
         let pos := aset pos i (Vector2Add (aget pos i) (aget vel i)) in
         (pos, vel))
    (seqZ 0 count) (pos, vel).

(** The two tests of [WrapAroundSystem] on one axis, in sequence. *)
Definition wrap_axis (p : num) (extent : Z) : num :=
  let p := if p <? of_int 0 then of_int extent else p in
  if p >? of_int extent then of_int 0 else p.

Definition wrap_position (p : Vector2) (width height : Z) : Vector2 :=
  mkVector2 (wrap_axis (vx p) width) (wrap_axis (vy p) height).

Definition WrapAroundSystem (pos : list Vector2) (ent : list Entity)
    (count width height : Z) : list Vector2 :=
  fold_left
    (fun pos i =>
       if negb (active (aget ent i)) then pos
       else aset pos i (wrap_position (aget pos i) width height))
    (seqZ 0 count) pos.

(** ** One frame of [main]

    The three force systems, named so that their order can be varied. *)
Inductive ForceSystem := Separation | Alignment | Cohesion.

Definition run_force (grid : SpatialGrid) (pos vel : list Vector2)
    (ent : list Entity) (count : Z) (params : BoidParams)
    (acc : list Vector2) (f : ForceSystem) : list Vector2 :=
  match f with
  | Separation => BoidSeparationSystem grid pos vel acc ent count params
  | Alignment => BoidAlignmentSystem grid pos vel acc ent count params
  | Cohesion => BoidCohesionSystem grid pos vel acc ent count params
  end.

(** The force phase of a frame, with the systems run in the given order. *)
Definition run_forces (order : list ForceSystem) (grid : SpatialGrid)
    (pos vel acc : list Vector2) (ent : list Entity) (count : Z)
    (params : BoidParams) : list Vector2 :=
  fold_left (run_force grid pos vel ent count params) order acc.

(** The order of [main]. *)
Definition main_order : list ForceSystem := [Separation; Alignment; Cohesion].

(** The simulation part of one iteration of the loop of [main]. *)
Definition Tick (grid : SpatialGrid) (s : Store) (params : BoidParams)
  : SpatialGrid * Store :=
  let grid := SpatialGridUpdateSystem grid (positions s) (entities s) (entityCount s) in
  let acc := AccelerationResetSystem (accelerations s) (entities s) (entityCount s) in
  let acc := run_forces main_order grid (positions s) (velocities s) acc
               (entities s) (entityCount s) params in
  let '(pos, vel) := PhysicsSystem (positions s) (velocities s) acc (entities s)
                       (entityCount s) (maxSpeed params) in
  let pos := WrapAroundSystem pos (entities s) (entityCount s)
               SCREEN_WIDTH SCREEN_HEIGHT in
  (grid, {| entities := entities s; positions := pos; velocities := vel;
            accelerations := acc; colors := colors s;
            entityCount := entityCount s |}).

End Program.

(** * Vocabulary of the statements *)

Section Vocabulary.
Context {S : Scalar}.

(** The global arrays have [MAX_ENTITIES] elements each. *)
Definition store_arrays_ok (s : Store) : Prop :=
  length (entities s) = Z.to_nat MAX_ENTITIES ∧
  length (positions s) = Z.to_nat MAX_ENTITIES ∧
  length (velocities s) = Z.to_nat MAX_ENTITIES ∧
  length (accelerations s) = Z.to_nat MAX_ENTITIES ∧
  length (colors s) = Z.to_nat MAX_ENTITIES.

(** The slots of the store other than [id] are the same in [s] and [s']. *)
Definition same_slots_except (id : Z) (s s' : Store) : Prop :=
  ∀ k, k ≠ id →
    aget (entities s') k = aget (entities s) k ∧
    aget (positions s') k = aget (positions s) k ∧
    aget (velocities s') k = aget (velocities s) k ∧
    aget (accelerations s') k = aget (accelerations s) k ∧
    aget (colors s') k = aget (colors s) k.

(** The ids a cell holds: the first [count] slots of its array. *)
Definition cell_ids (c : GridCell) : list Z :=
  take (Z.to_nat (cell_count c)) (cell_entities c).

(** What the innermost loop of the query reads from a cell. *)
Definition cell_reads (c : GridCell) : list Z :=
  aget (cell_entities c) <$> seqZ 0 (cell_count c).

Definition cell_ok (c : GridCell) : Prop :=
  0 ≤ cell_count c ≤ MAX_ENTITIES_PER_CELL ∧
  length (cell_entities c) = Z.to_nat MAX_ENTITIES_PER_CELL.

(** The shape of the [SpatialGrid] struct. *)
Definition grid_ok (grid : SpatialGrid) : Prop :=
  length grid = Z.to_nat GRID_WIDTH ∧
  ∀ gx, 0 ≤ gx < GRID_WIDTH →
    length (aget grid gx) = Z.to_nat GRID_HEIGHT ∧
    ∀ gy, 0 ≤ gy < GRID_HEIGHT → cell_ok (cell_at grid gx gy).

(** The active agents among the first [count] whose position falls into
    cell [c], in index order. *)
Definition cell_members (pos : list Vector2) (ent : list Entity) (count : Z)
    (c : Z * Z) : list Z :=
  filter (λ i, active (aget ent i) = true ∧ cell_of (aget pos i) = c)
         (seqZ 0 count).

(** The cells a query visits, in the order of its two loops. *)
Definition query_cells (pos : Vector2) (radius : num) : list (Z * Z) :=
  let '(minX, maxX) := query_range (vx pos) radius GRID_WIDTH in
  let '(minY, maxY) := query_range (vy pos) radius GRID_HEIGHT in
  gy ← seqZ minY (maxY - minY + 1);
  gx ← seqZ minX (maxX - minX + 1);
  [(gx, gy)].

(** Everything the query would read with an unbounded output buffer. *)
Definition query_candidates (grid : SpatialGrid) (pos : Vector2) (radius : num)
  : list Z :=
  c ← query_cells pos radius; cell_reads (cell_at grid c.1 c.2).

(** raymath's [Vector2Length]. *)
Definition Vector2Length (v : Vector2) : num :=
  sqrtf (vx v * vx v + vy v * vy v)%num.

(** The value the two divisions of [Vector2Limit] divide by, on the path
    that divides. *)
Definition Vector2Limit_divisor (v : Vector2) (max : num) : option num :=
  let magSq := (vx v * vx v + vy v * vy v)%num in
  if (magSq >? max * max)%num then Some (sqrtf magSq) else None.

(** The same for [Vector2SetMag]. *)
Definition Vector2SetMag_divisor (v : Vector2) (mag : num) : option num :=
  let currentMag := sqrtf (vx v * vx v + vy v * vy v)%num in
  if (currentMag >? of_int 0)%num then Some currentMag else None.

(** The steering force a system computes for agent [i] (the body of its
    loop for an active agent), and what it adds to [acc[i]]: nothing for an
    inactive agent. *)
Definition steering_of (f : ForceSystem) (grid : SpatialGrid)
    (pos vel : list Vector2) (ent : list Entity) (params : BoidParams) (i : Z)
  : option Vector2 :=
  match f with
  | Separation => separation_steering grid pos vel ent params i
  | Alignment => alignment_steering grid pos vel ent params i
  | Cohesion => cohesion_steering grid pos vel ent params i
  end.

Definition contribution (f : ForceSystem) (grid : SpatialGrid)
    (pos vel : list Vector2) (ent : list Entity) (params : BoidParams) (i : Z)
  : option Vector2 :=
  if active (aget ent i) then steering_of f grid pos vel ent params i else None.

Definition add_contribution (a : Vector2) (c : option Vector2) : Vector2 :=
  match c with Some steering => Vector2Add a steering | None => a end.

(** The radius a system queries with and filters by. *)
Definition radius_of (f : ForceSystem) (params : BoidParams) : num :=
  match f with
  | Separation => separationRadius params
  | Alignment | Cohesion => perceptionRadius params
  end.

(** The candidates of agent [i] that qualify as neighbours for a system of
    the given radius: not [i] itself, active, and closer than the radius. *)
Definition qualifying (grid : SpatialGrid) (pos : list Vector2)
    (ent : list Entity) (i : Z) (radius : num) : list Z :=
  filter
    (λ j, j ≠ i ∧ active (aget ent j) = true ∧
          ltb (Vector2Distance (aget pos i) (aget pos j)) radius = true)
    (QuerySpatialGrid grid (aget pos i) radius NEARBY_MAX).

End Vocabulary.

(** A position inside the world rectangle, in exact arithmetic. *)
Definition in_world (q : @Vector2 real) : Prop :=
  (0 <= vx q <= IZR SCREEN_WIDTH)%R ∧ (0 <= vy q <= IZR SCREEN_HEIGHT)%R.

(** The vector [k * v], in exact arithmetic. *)
Definition scale (k : R) (v : @Vector2 real) : @Vector2 real :=
  @mkVector2 real (k * vx v)%R (k * vy v)%R.

(** The weight a system multiplies its limited steering force by. *)
Definition weight_of {S : Scalar} (f : ForceSystem) (params : BoidParams) : num :=
  match f with
  | Separation => separationWeight params
  | Alignment => alignmentWeight params
  | Cohesion => cohesionWeight params
  end.

(** A float that is zero ([+0] or [-0]). *)
Definition is_zero (f : spec_float) : bool :=
  match f with S754_zero _ => true | _ => false end.

(** A float that is the result of a rounding: its exponent is not below the
    smallest exponent of the format. *)
Definition rounded (f : spec_float) : Prop :=
  match f with
  | S754_finite _ _ e => emin B32.prec B32.emax ≤ e
  | _ => True
  end.

(** Neither negative nor a negative zero. *)
Definition nonneg_or_nan (f : spec_float) : Prop :=
  match f with
  | S754_zero s | S754_infinity s | S754_finite s _ _ => s = false
  | S754_nan => True
  end.

(** * Concrete scenarios (binary32) *)

Module Scenario.
Abbreviation vec32 := (@Vector2 binary32).

(** The vector with integer coordinates [(x, y)]. *)
Definition vec (x y : Z) : vec32 :=
  @mkVector2 binary32 (B32.b32_of_int x) (B32.b32_of_int y).

Definition two_active : list Entity := [mkEntity true; mkEntity true].

(** Two agents five units apart, with different headings. *)
Definition pos_a : list vec32 := [vec 100 100; vec 103 104].
Definition vel_a : list vec32 := [vec 1 0; vec 0 1].

(** The state of the force phase of a frame: rebuilt grid, reset
    accelerations. *)
Definition grid_a : SpatialGrid :=
  @SpatialGridUpdateSystem binary32 [] pos_a two_active 2.
Definition acc_a : list vec32 :=
  @AccelerationResetSystem binary32 [vec 7 7; vec 9 9] two_active 2.

Definition forces_a (order : list ForceSystem) : list vec32 :=
  @run_forces binary32 order grid_a pos_a vel_a acc_a two_active 2
    (@boidParams binary32).

(** Two agents at rest, one unit apart. *)
Definition store_b : @Store binary32 :=
  @mkStore binary32 two_active [vec 100 100; vec 101 100]
    [vec 0 0; vec 0 0] [vec 0 0; vec 0 0] [mkColor 0 0 0 255; mkColor 0 0 0 255] 2.

(** Two agents far from each other. *)
Definition pos_c : list vec32 := [vec 100 100; vec 500 500].
Definition grid_c : SpatialGrid :=
  @SpatialGridUpdateSystem binary32 [] pos_c two_active 2.

(** 101 agents on the same spot: one more than a cell can hold. *)
Definition crowd : list Entity := replicate 101 (mkEntity true).
Definition pos_d : list vec32 := replicate 101 (vec 100 100).

(** The store before the first and after the last possible creation. *)
Definition store_of (count : Z) : @Store binary32 :=
  @mkStore binary32
    (replicate (Z.to_nat MAX_ENTITIES) (mkEntity false))
    (replicate (Z.to_nat MAX_ENTITIES) (vec 0 0))
    (replicate (Z.to_nat MAX_ENTITIES) (vec 0 0))
    (replicate (Z.to_nat MAX_ENTITIES) (vec 0 0))
    (replicate (Z.to_nat MAX_ENTITIES) (mkColor 0 0 0 0))
    count.
End Scenario.

(** ** The real value of a binary32 float *)

Definition bpow (e : Z) : R := powerRZ 2 e.

Definition F2R (m e : Z) : R := (IZR m * bpow e)%R.

Definition B2R (f : spec_float) : R :=
  match f with
  | S754_finite s m e => F2R (cond_Zopp s (Zpos m)) e
  | _ => 0%R
  end.

(** [x] lies in the interval from [m * 2^e] to [(m+1) * 2^e], at the place
    the location says. *)
Definition inbetween (m e : Z) (l : location) (x : R) : Prop :=
  match l with
  | loc_Exact => x = F2R m e
  | loc_Inexact c =>
      (F2R m e < x < F2R (m + 1) e)%R ∧
      match c with
      | Lt => (2 * x < F2R (2 * m + 1) e)%R
      | Eq => (2 * x = F2R (2 * m + 1) e)%R
      | Gt => (F2R (2 * m + 1) e < 2 * x)%R
      end
  end.

(** A mantissa and an exponent of the format: 24 bits, or fewer at the least
    exponent. *)
Definition canon (m e : Z) : Prop :=
  (2 ^ 23 ≤ m < 2 ^ 24 ∧ emin B32.prec B32.emax ≤ e) ∨
  (0 ≤ m < 2 ^ 23 ∧ e = emin B32.prec B32.emax).

(** [v] is [x >= 0] rounded to the nearest float, ties to even, overflow
    apart. *)
Definition RN (x v : R) : Prop :=
  ∃ m e l, canon m e ∧ inbetween m e l x ∧ v = F2R (round_nearest_even m l) e.

(** The float [f] has sign [s] and magnitude [x > 0] rounded to nearest; the
    infinity stands for an overflow. *)
Definition rounds (s : bool) (x : R) (f : spec_float) : Prop :=
  match f with
  | S754_nan => False
  | S754_infinity s' => s' = s ∧ (bpow 127 <= x)%R
  | S754_zero s' => s' = s ∧ RN x 0
  | S754_finite s' m e => s' = s ∧ RN x (F2R (Zpos m) e)
  end.

(** Neither an infinity nor a NaN. *)
Definition is_finite (f : spec_float) : bool :=
  match f with
  | S754_zero _ | S754_finite _ _ _ => true
  | _ => false
  end.

(** [f] is the float computed for the exact value [x]: exactly [x], or [x]
    rounded. *)
Definition approx (x : R) (f : spec_float) : Prop :=
  (is_finite f = true ∧ B2R f = x) ∨
  ((0 < x)%R ∧ rounds false x f) ∨
  ((x < 0)%R ∧ rounds true (- x) f).

(** A float of the format: finite, with a canonical mantissa and exponent. *)
Definition float_ok (f : spec_float) : bool :=
  is_finite f && valid_binary B32.prec B32.emax f.

(** The C cast [(int)f] is defined: [f] is finite and its integer part fits
    in [int]. *)
Definition cast_defined (f : spec_float) : Prop :=
  ∃ t, B32.b32_trunc f = Some t ∧ INT_MIN ≤ t ≤ INT_MAX.

(** The exact position a vector of floats stands for. *)
Definition Vector2_value (v : @Vector2 binary32) : @Vector2 real :=
  @mkVector2 real (B2R (vx v)) (B2R (vy v)).

(** The float [f] is finite, of the format, and within half a unit in the
    last place of the exact value [x] (the relative error is at most [2^-24],
    or the absolute error at most [2^-150] for a subnormal result), and it
    has the sign of [x]. *)
Definition near (x : R) (f : spec_float) : Prop :=
  float_ok f = true ∧
  (Rabs (B2R f - x) <= bpow (-24) * Rabs x + bpow (-150))%R ∧
  ((0 <= x)%R → (0 <= B2R f)%R) ∧ ((x <= 0)%R → (B2R f <= 0)%R).

(** A vector of finite floats with components of magnitude at most [B]. *)
Definition within (B : R) (v : @Vector2 binary32) : Prop :=
  float_ok (vx v) = true ∧ float_ok (vy v) = true ∧
  (Rabs (B2R (vx v)) <= B)%R ∧ (Rabs (B2R (vy v)) <= B)%R.

(** ** Random initialisation *)

Section Init.
Context {S : Scalar}.
Local Open Scope num_scope.

(** [colorPalette[GetRandomValue(0, 4)]], as a function of the value drawn. *)
Definition GetRandomColor (r : Z) : Color :=
  let blue := mkColor 100 143 255 255 in
  let purple := mkColor 120 94 240 255 in
  let pink := mkColor 220 38 127 255 in
  let orange := mkColor 254 97 0 255 in
  let yellow := mkColor 255 176 0 255 in
  aget [blue; purple; pink; orange; yellow] r.

(** [CreateRandomEntity]; [rand n lo hi] is what the [n]-th call of
    raylib's [GetRandomValue] returns when called with bounds [lo] and [hi],
    and the calls are numbered in the order of the text (C does not fix the
    order of the two calls inside one initialiser; nothing below depends on
    it).  The number of the next call is returned with the store. *)
Definition CreateRandomEntity (rand : Z → Z → Z → Z) (n : Z) (s : Store)
    (width height border : Z) : Z * Store :=
  let pos := mkVector2 (of_int (rand n border (width - border)%Z) * of_int 1)
                       (of_int (rand (n + 1)%Z border (height - border)%Z) * of_int 1) in
  let vel := mkVector2 (of_int (rand (n + 2)%Z (-4)%Z 4%Z) * decimal 25 100)
                       (of_int (rand (n + 3)%Z (-4)%Z 4%Z) * decimal 25 100) in
  let color := GetRandomColor (rand (n + 4)%Z 0%Z 4%Z) in
  ((n + 5)%Z, (CreateEntity s pos vel color).2).

(** The global arrays and [entityCount] at program start (C initialises
    them with zeros). *)
Definition initial_store : Store :=
  mkStore (replicate (Z.to_nat MAX_ENTITIES) (mkEntity false))
          (replicate (Z.to_nat MAX_ENTITIES) Vector2Zero)
          (replicate (Z.to_nat MAX_ENTITIES) Vector2Zero)
          (replicate (Z.to_nat MAX_ENTITIES) Vector2Zero)
          (replicate (Z.to_nat MAX_ENTITIES) (mkColor 0 0 0 0))
          0.

(** The first loop of [main], run [n] times from the store [s]. *)
Definition create_entities (rand : Z → Z → Z → Z) (n : Z) (st : Z * Store)
  : Z * Store :=
  fold_left
    (fun '(calls, s) _ =>
       CreateRandomEntity rand calls s SCREEN_WIDTH SCREEN_HEIGHT 20)
    (seqZ 0 n) st.

Definition init_entities (rand : Z → Z → Z → Z) : Store :=
  (create_entities rand MAX_ENTITIES (0%Z, initial_store)).2.

End Init.

(** * Facts about arrays and loops *)

Section ArrayFacts.
Context {A : Type} `{Inhabited A}.
Implicit Types (l : list A) (i j : Z) (v : A).

Lemma length_aset l i v : length (aset l i v) = length l.
Proof. unfold aset. destruct (i <? 0); [done | apply length_insert]. Qed.

Lemma aget_aset_eq l i v :
  0 ≤ i → (Z.to_nat i < length l)%nat → aget (aset l i v) i = v.
Proof.
  intros Hi Hlt. unfold aget, aset.
  destruct (Z.ltb_spec i 0); [lia |].
  by apply list_lookup_total_insert_eq.
Qed.

Lemma aget_aset_ne l i j v : i ≠ j → aget (aset l i v) j = aget l j.
Proof.
  intros Hne. unfold aget, aset.
  destruct (Z.ltb_spec j 0); [done |].
  destruct (Z.ltb_spec i 0); [done |].
  apply list_lookup_total_insert_ne. lia.
Qed.

Lemma aset_aget_id l i : aset l i (aget l i) = l.
Proof.
  unfold aget, aset. destruct (Z.ltb_spec i 0); [done |].
  destruct (decide (Z.to_nat i < length l)%nat) as [Hlt | Hge].
  - apply list_insert_id. by apply list_lookup_lookup_total_lt.
  - apply list_insert_ge. lia.
Qed.

Lemma aset_out_of_range l i v : Z.of_nat (length l) ≤ i → aset l i v = l.
Proof.
  intros Hge. unfold aset. destruct (Z.ltb_spec i 0); [done |].
  apply list_insert_ge. lia.
Qed.

(** A loop that rewrites slot [i] from its own old content, for each index
    of a duplicate-free list. *)
Lemma pointwise_loop (step : Z → A → A) (idx : list Z) l :
  NoDup idx →
  let res := fold_left (fun l i => aset l i (step i (aget l i))) idx l in
  length res = length l ∧
  ∀ k, aget res k =
       if decide (k ∈ idx ∧ 0 ≤ k < Z.of_nat (length l))
       then step k (aget l k) else aget l k.
Proof.
  intros Hnd. revert l. induction Hnd as [| i idx Hni Hnd IH]; intros l res.
  - split; [done |]. intros k. case_decide as Hk; [| done].
    destruct Hk as [Hk _]. by apply elem_of_nil in Hk.
  - subst res. cbn [fold_left].
    destruct (IH (aset l i (step i (aget l i)))) as [Hlen Hget].
    rewrite length_aset in Hlen, Hget. split; [done |].
    intros k. rewrite Hget. clear Hget IH.
    destruct (decide (k = i)) as [-> | Hne].
    + rewrite decide_False by (intros [? _]; done).
      case_decide as Hk.
      * destruct Hk as [_ Hk]. apply aget_aset_eq; lia.
      * assert (i < 0 ∨ Z.of_nat (length l) ≤ i) as [Hneg | Hge].
        { destruct (decide (i < 0)); [by left | right].
          destruct (decide (Z.of_nat (length l) ≤ i)); [done |].
          exfalso. apply Hk. split; [apply elem_of_cons; by left | lia]. }
        -- unfold aset. by destruct (Z.ltb_spec i 0); [| lia].
        -- by rewrite aset_out_of_range.
    + rewrite (aget_aset_ne _ i k) by done.
      assert (k ∈ i :: idx ↔ k ∈ idx) as Hiff
        by (rewrite elem_of_cons; tauto).
      repeat case_decide; try done; tauto.
Qed.

Lemma pointwise_loop_seqZ (step : Z → A → A) (count : Z) l :
  let res := fold_left (fun l i => aset l i (step i (aget l i))) (seqZ 0 count) l in
  length res = length l ∧
  ∀ k, aget res k =
       if decide (0 ≤ k < count ∧ k < Z.of_nat (length l))
       then step k (aget l k) else aget l k.
Proof.
  intros res. destruct (pointwise_loop step (seqZ 0 count) l (NoDup_seqZ _ _))
    as [Hlen Hget].
  split; [done |]. intros k. subst res. rewrite Hget.
  repeat case_decide; try done; rewrite elem_of_seqZ in *; lia.
Qed.

Lemma aget_ext l1 l2 :
  length l1 = length l2 → (∀ k, aget l1 k = aget l2 k) → l1 = l2.
Proof.
  intros Hlen Hget. apply (list_eq_same_length _ _ (length l1)); [done.. |].
  intros k a1 a2 Hk H1 H2. specialize (Hget (Z.of_nat k)). unfold aget in Hget.
  destruct (Z.ltb_spec (Z.of_nat k) 0); [lia |]. rewrite Nat2Z.id in Hget.
  apply list_lookup_total_correct in H1, H2. congruence.
Qed.

Lemma aset_aset l i v v' : aset (aset l i v) i v' = aset l i v'.
Proof.
  unfold aset. destruct (Z.ltb_spec i 0); [done |].
  apply list_insert_insert_eq.
Qed.

Lemma aset_aget_aset l i v (F : A → A) :
  aset (aset l i v) i (F (aget (aset l i v) i)) = aset l i (F v).
Proof.
  destruct (decide (0 ≤ i ∧ (Z.to_nat i < length l)%nat)) as [[? ?] | Hout].
  - rewrite aget_aset_eq by done. apply aset_aset.
  - rewrite aset_aset. unfold aset. destruct (Z.ltb_spec i 0); [done |].
    rewrite !list_insert_ge by lia. done.
Qed.

End ArrayFacts.

Lemma fold_left_commute {A B} (f : A → B → A) (l1 l2 : list B) (a : A) :
  (∀ a b1 b2, f (f a b1) b2 = f (f a b2) b1) →
  l1 ≡ₚ l2 → fold_left f l1 a = fold_left f l2 a.
Proof.
  intros Hcomm Hperm. revert a.
  induction Hperm as [| b l1 l2 _ IH | b1 b2 l | l1 l2 l3 _ IH1 _ IH2]; intros a; cbn.
  - done.
  - apply IH.
  - by rewrite Hcomm.
  - by rewrite IH1.
Qed.

(** A loop over candidates of which only [j] is not skipped. *)
Lemma fold_left_single {St} (body : St → Z → St) (i j : Z) (l : list Z) (st : St) :
  NoDup l → (∀ k, k ∈ l → k = i ∨ k = j) → j ∈ l → i ≠ j →
  (∀ st, body st i = st) →
  fold_left body l st = body st j.
Proof.
  intros Hnd Hall Hj Hij Hskip.
  assert (∀ l st, (∀ k, k ∈ l → k = i) → fold_left body l st = st) as Honly.
  { clear -Hskip. intros l. induction l as [| a l IH]; intros st Hl; [done |].
    cbn. rewrite (Hl a) by (apply elem_of_cons; by left). rewrite Hskip.
    apply IH. intros k Hk. apply Hl, elem_of_cons. by right. }
  revert st. induction l as [| a l IH]; intros st.
  - by apply elem_of_nil in Hj.
  - apply NoDup_cons in Hnd as [Ha Hnd]. cbn.
    destruct (decide (a = j)) as [-> | Haj].
    + apply Honly. intros k Hk.
      destruct (Hall k) as [-> | ->]; [apply elem_of_cons; by right | done | done].
    + destruct (Hall a) as [-> | ->]; [apply elem_of_cons; by left | | done].
      rewrite Hskip. apply IH; [done | | ].
      * intros k Hk. apply Hall, elem_of_cons. by right.
      * apply elem_of_cons in Hj as [-> | Hj]; done.
Qed.

Lemma NoDup_bounded_length (l : list Z) (n : Z) :
  NoDup l → (∀ k, k ∈ l → 0 ≤ k < n) → Z.of_nat (length l) ≤ Z.max n 0.
Proof.
  intros Hnd Hall.
  assert (l ⊆+ seqZ 0 n) as Hsub.
  { apply NoDup_submseteq; [done |]. intros k Hk. apply elem_of_seqZ.
    specialize (Hall k Hk). lia. }
  apply submseteq_length in Hsub. rewrite length_seqZ in Hsub. lia.
Qed.

Lemma take_take_app {A} (n : nat) (l k : list A) :
  take n (take n l ++ k) = take n (l ++ k).
Proof.
  rewrite !take_app, take_take, Nat.min_id, length_take.
  destruct (decide (n ≤ length l)%nat).
  - rewrite Nat.min_l by lia.
    replace (n - n)%nat with 0%nat by lia.
    by replace (n - length l)%nat with 0%nat by lia.
  - by rewrite Nat.min_r by lia.
Qed.

(** * The entity store *)

Section StoreFacts.
Context {S : Scalar}.

(** C7. Below capacity [CreateEntity] returns the current entity count as
    the new id, writes an active entity with the given position, velocity and
    colour and a zero acceleration into that slot, leaves every other slot as
    it was and increments [entityCount]; at capacity it returns -1 and the
    store is unchanged. *)
Theorem CreateEntity_spec (s : Store) (position velocity : Vector2) (color : Color) :
  store_arrays_ok s →
  0 ≤ entityCount s →
  (entityCount s < MAX_ENTITIES →
     ∃ s', CreateEntity s position velocity color = (entityCount s, s') ∧
           active (aget (entities s') (entityCount s)) = true ∧
           aget (positions s') (entityCount s) = position ∧
           aget (velocities s') (entityCount s) = velocity ∧
           aget (accelerations s') (entityCount s) = Vector2Zero ∧
           aget (colors s') (entityCount s) = color ∧
           entityCount s' = entityCount s + 1 ∧
           store_arrays_ok s' ∧
           same_slots_except (entityCount s) s s') ∧
  (MAX_ENTITIES ≤ entityCount s →
     CreateEntity s position velocity color = (-1, s)).
Proof.
  intros (He & Hp & Hv & Ha & Hc) Hnonneg. unfold CreateEntity. split.
  - intros Hlt. destruct (Z.geb_spec (entityCount s) MAX_ENTITIES); [lia |].
    eexists. split; [reflexivity |]. cbn.
    assert (Z.to_nat (entityCount s) < Z.to_nat MAX_ENTITIES)%nat by lia.
    rewrite !aget_aset_eq by (done || congruence).
    repeat split; try done; cbn; try (rewrite length_aset; done).
    all: by apply aget_aset_ne.
  - intros Hge. by destruct (Z.geb_spec (entityCount s) MAX_ENTITIES); [| lia].
Qed.

End StoreFacts.

(** * The spatial grid *)

Section GridFacts.
Context {S : Scalar}.

Lemma GRID_WIDTH_eq : GRID_WIDTH = 52.
Proof. reflexivity. Qed.

Lemma GRID_HEIGHT_eq : GRID_HEIGHT = 29.
Proof. reflexivity. Qed.

Lemma clamp_cell_range gc dim : 0 < dim → 0 ≤ clamp_cell gc dim < dim.
Proof.
  intros Hd. unfold clamp_cell.
  destruct (Z.ltb_spec gc 0);
    [destruct (Z.geb_spec 0 dim) | destruct (Z.geb_spec gc dim)]; lia.
Qed.

Lemma clamp_cell_id gc dim : 0 ≤ gc < dim → clamp_cell gc dim = gc.
Proof.
  intros Hd. unfold clamp_cell.
  destruct (Z.ltb_spec gc 0); [lia |]. destruct (Z.geb_spec gc dim); lia.
Qed.

Lemma cell_of_range (pos : Vector2) :
  0 ≤ (cell_of pos).1 < GRID_WIDTH ∧ 0 ≤ (cell_of pos).2 < GRID_HEIGHT.
Proof. unfold cell_of; cbn. split; by apply clamp_cell_range. Qed.

Lemma cell_reads_ids (c : GridCell) : cell_ok c → cell_reads c = cell_ids c.
Proof.
  intros [[Hlo Hhi] Hlen]. unfold cell_reads, cell_ids. apply list_eq. intros k.
  rewrite list_lookup_fmap.
  destruct (decide (Z.of_nat k < cell_count c)) as [Hk | Hk].
  - rewrite lookup_seqZ_lt by done. rewrite lookup_take_lt by lia. cbn.
    unfold aget. destruct (Z.ltb_spec (0 + Z.of_nat k) 0); [lia |].
    rewrite Z.add_0_l, Nat2Z.id. symmetry.
    apply list_lookup_lookup_total_lt. lia.
  - rewrite lookup_seqZ_ge by lia. rewrite lookup_take_ge by lia. done.
Qed.

Lemma cell_at_set_cell_eq (grid : SpatialGrid) gx gy c :
  0 ≤ gx → (Z.to_nat gx < length grid)%nat →
  0 ≤ gy → (Z.to_nat gy < length (aget grid gx))%nat →
  cell_at (set_cell grid gx gy c) gx gy = c.
Proof.
  intros. unfold cell_at, set_cell.
  rewrite aget_aset_eq by done. by rewrite aget_aset_eq.
Qed.

Lemma cell_at_set_cell_ne (grid : SpatialGrid) gx gy c gx' gy' :
  0 ≤ gx → (Z.to_nat gx < length grid)%nat →
  (gx, gy) ≠ (gx', gy') →
  cell_at (set_cell grid gx gy c) gx' gy' = cell_at grid gx' gy'.
Proof.
  intros ? ? Hne. unfold cell_at, set_cell.
  destruct (decide (gx = gx')) as [<- | Hx].
  - rewrite aget_aset_eq by done. apply aget_aset_ne. congruence.
  - by rewrite aget_aset_ne.
Qed.

Lemma column_set_cell (grid : SpatialGrid) gx gy c gx' :
  length (aget (set_cell grid gx gy c) gx') = length (aget grid gx').
Proof.
  unfold set_cell. destruct (decide (gx = gx')) as [<- | Hx].
  - destruct (decide (0 ≤ gx ∧ (Z.to_nat gx < length grid)%nat)) as [[? ?] | Hout].
    + rewrite aget_aset_eq by done. apply length_aset.
    + replace (aset grid gx (aset (aget grid gx) gy c)) with grid; [done |].
      unfold aset at 1. destruct (Z.ltb_spec gx 0); [done |].
      symmetry. apply list_insert_ge. lia.
  - by rewrite aget_aset_ne.
Qed.

Lemma grid_ok_clear (grid : SpatialGrid) :
  grid_ok (ClearSpatialGrid grid) ∧
  ∀ gx gy, 0 ≤ gx < GRID_WIDTH → 0 ≤ gy < GRID_HEIGHT →
    cell_ids (cell_at (ClearSpatialGrid grid) gx gy) = [].
Proof.
  assert (∀ gx gy, 0 ≤ gx < GRID_WIDTH → 0 ≤ gy < GRID_HEIGHT →
            cell_at (ClearSpatialGrid grid) gx gy =
            mkGridCell (replicate (Z.to_nat MAX_ENTITIES_PER_CELL) 0) 0) as Hcell.
  { intros gx gy Hx Hy. unfold cell_at, ClearSpatialGrid, aget.
    destruct (Z.ltb_spec gx 0); [lia |]. destruct (Z.ltb_spec gy 0); [lia |].
    rewrite !lookup_total_replicate_2 by lia. done. }
  split; [split |].
  - unfold ClearSpatialGrid. by rewrite length_replicate.
  - intros gx Hx. split.
    + unfold ClearSpatialGrid, aget. destruct (Z.ltb_spec gx 0); [lia |].
      rewrite lookup_total_replicate_2 by lia. by rewrite length_replicate.
    + intros gy Hy. rewrite Hcell by done. split; cbn.
      * unfold MAX_ENTITIES_PER_CELL. lia.
      * by rewrite length_replicate.
  - intros gx gy Hx Hy. by rewrite Hcell.
Qed.

(** One insertion: the target cell gains the id unless it is full; the other
    cells keep their ids. *)
Lemma AddToSpatialGrid_ids (grid : SpatialGrid) (id : Z) (pos : Vector2) :
  grid_ok grid →
  grid_ok (AddToSpatialGrid grid id pos) ∧
  ∀ gx gy, 0 ≤ gx < GRID_WIDTH → 0 ≤ gy < GRID_HEIGHT →
    cell_ids (cell_at (AddToSpatialGrid grid id pos) gx gy) =
    if decide (cell_of pos = (gx, gy))
    then take (Z.to_nat MAX_ENTITIES_PER_CELL)
              (cell_ids (cell_at grid gx gy) ++ [id])
    else cell_ids (cell_at grid gx gy).
Proof.
  intros [Hw Hcols]. unfold AddToSpatialGrid.
  destruct (cell_of pos) as [cx cy] eqn:Hcell.
  destruct (cell_of_range pos) as [Hcx Hcy]. rewrite Hcell in Hcx, Hcy. cbn in Hcx, Hcy.
  destruct (Hcols cx Hcx) as [Hh Hcells].
  destruct (Hcells cy Hcy) as [[Hc0 Hc1] Hclen].
  set (cell := cell_at grid cx cy) in *.
  destruct (Z.ltb_spec (cell_count cell) MAX_ENTITIES_PER_CELL) as [Hroom | Hfull].
  - assert (cell_ids (mkGridCell (aset (cell_entities cell) (cell_count cell) id)
                                 (cell_count cell + 1)) = cell_ids cell ++ [id]) as Hnew.
    { unfold cell_ids, aset. cbn. destruct (Z.ltb_spec (cell_count cell) 0); [lia |].
      replace (Z.to_nat (cell_count cell + 1)) with (Datatypes.S (Z.to_nat (cell_count cell))) by lia.
      erewrite take_S_r; [| apply list_lookup_insert_eq; lia].
      by rewrite take_insert_ge by lia. }
    split; [split |].
    + unfold set_cell. by rewrite length_aset.
    + intros gx Hx. rewrite column_set_cell. destruct (Hcols gx Hx) as [Hh' Hcells'].
      split; [done |]. intros gy Hy.
      destruct (decide ((cx, cy) = (gx, gy))) as [[= <- <-] | Hne].
      * rewrite cell_at_set_cell_eq by lia. split; cbn; [lia |].
        by rewrite length_aset.
      * rewrite cell_at_set_cell_ne by (done || lia). by apply Hcells'.
    + intros gx gy Hx Hy. case_decide as Heq.
      * injection Heq as <- <-. rewrite cell_at_set_cell_eq by lia.
        rewrite Hnew. fold cell. rewrite take_ge; [done |].
        rewrite length_app. unfold cell_ids. rewrite length_take. cbn. lia.
      * by rewrite cell_at_set_cell_ne by (done || lia).
  - split; [done |]. intros gx gy Hx Hy. case_decide as Heq; [| done].
    injection Heq as <- <-. fold cell. rewrite take_app_le; [rewrite take_ge; [done |] |].
    all: unfold cell_ids; rewrite length_take; lia.
Qed.

(** The insertion loop of [SpatialGridUpdateSystem], over any index list. *)
Lemma insert_loop_ids (pos : list Vector2) (ent : list Entity) (idx : list Z)
    (grid : SpatialGrid) :
  grid_ok grid →
  let grid' :=
    fold_left
      (fun grid i =>
         if negb (active (aget ent i)) then grid
         else AddToSpatialGrid grid i (aget pos i)) idx grid in
  grid_ok grid' ∧
  ∀ gx gy, 0 ≤ gx < GRID_WIDTH → 0 ≤ gy < GRID_HEIGHT →
    cell_ids (cell_at grid' gx gy) =
    take (Z.to_nat MAX_ENTITIES_PER_CELL)
      (cell_ids (cell_at grid gx gy) ++
       filter (λ i, active (aget ent i) = true ∧ cell_of (aget pos i) = (gx, gy)) idx).
Proof.
  revert grid. induction idx as [| i idx IH]; intros grid Hok grid'.
  - split; [done |]. intros gx gy Hx Hy. subst grid'. cbn.
    rewrite app_nil_r, take_ge; [done |].
    destruct Hok as [_ Hcols]. destruct (Hcols gx Hx) as [_ Hcells].
    destruct (Hcells gy Hy) as [? ?]. unfold cell_ids. rewrite length_take. lia.
  - subst grid'. cbn [fold_left].
    destruct (active (aget ent i)) eqn:Hact; cbn [negb].
    + destruct (AddToSpatialGrid_ids grid i (aget pos i) Hok) as [Hok1 Hids1].
      destruct (IH _ Hok1) as [Hok' Hids']. split; [done |].
      intros gx gy Hx Hy. rewrite Hids', Hids1 by done.
      rewrite filter_cons. case_decide as Hc; case_decide as Hp; try tauto.
      rewrite take_take_app. by rewrite <- app_assoc.
    + destruct (IH _ Hok) as [Hok' Hids']. split; [done |].
      intros gx gy Hx Hy. rewrite Hids' by done.
      rewrite filter_cons_False; [done |]. intros [? _]. congruence.
Qed.

(** The grid after the per-tick rebuild: each cell holds its members, at
    most [MAX_ENTITIES_PER_CELL] of them. *)
Lemma SpatialGridUpdateSystem_ids (grid : SpatialGrid) (pos : list Vector2)
    (ent : list Entity) (count : Z) :
  grid_ok (SpatialGridUpdateSystem grid pos ent count) ∧
  ∀ gx gy, 0 ≤ gx < GRID_WIDTH → 0 ≤ gy < GRID_HEIGHT →
    cell_ids (cell_at (SpatialGridUpdateSystem grid pos ent count) gx gy) =
    take (Z.to_nat MAX_ENTITIES_PER_CELL) (cell_members pos ent count (gx, gy)).
Proof.
  destruct (grid_ok_clear grid) as [Hok Hempty].
  destruct (insert_loop_ids pos ent (seqZ 0 count) _ Hok) as [Hok' Hids].
  split; [done |]. intros gx gy Hx Hy.
  unfold SpatialGridUpdateSystem. rewrite Hids, Hempty by done. done.
Qed.

Lemma query_range_bounds (p radius : num) (dim : Z) :
  0 ≤ (query_range p radius dim).1 ∧ (query_range p radius dim).2 < dim.
Proof.
  unfold query_range; cbn. split.
  - by destruct (Z.ltb_spec (to_int ((p - radius) / of_int CELL_SIZE)) 0).
  - destruct (Z.geb_spec (to_int ((p + radius) / of_int CELL_SIZE)) dim); lia.
Qed.

Lemma elem_of_query_cells (pos : Vector2) (radius : num) gx gy :
  (gx, gy) ∈ query_cells pos radius ↔
  (query_range (vx pos) radius GRID_WIDTH).1 ≤ gx
    ≤ (query_range (vx pos) radius GRID_WIDTH).2 ∧
  (query_range (vy pos) radius GRID_HEIGHT).1 ≤ gy
    ≤ (query_range (vy pos) radius GRID_HEIGHT).2.
Proof.
  unfold query_cells.
  destruct (query_range (vx pos) radius GRID_WIDTH) as [minX maxX].
  destruct (query_range (vy pos) radius GRID_HEIGHT) as [minY maxY]. cbn.
  rewrite list_elem_of_bind. split.
  - intros (y' & Hin & Hy). apply list_elem_of_bind in Hin as (x' & Hin & Hx).
    apply list_elem_of_singleton in Hin as [= -> ->].
    apply elem_of_seqZ in Hx, Hy. lia.
  - intros [Hx Hy]. exists gy. split; [| apply elem_of_seqZ; lia].
    apply list_elem_of_bind. exists gx. split; [| apply elem_of_seqZ; lia].
    by apply list_elem_of_singleton.
Qed.

Lemma query_cells_in_grid (pos : Vector2) (radius : num) gx gy :
  (gx, gy) ∈ query_cells pos radius → 0 ≤ gx < GRID_WIDTH ∧ 0 ≤ gy < GRID_HEIGHT.
Proof.
  rewrite elem_of_query_cells.
  pose proof (query_range_bounds (vx pos) radius GRID_WIDTH).
  pose proof (query_range_bounds (vy pos) radius GRID_HEIGHT). lia.
Qed.

(** The bounded output buffer: appending while fewer than [maxResults] ids
    are held keeps the first [maxResults] of what an unbounded buffer holds. *)
Lemma collect_take (maxResults : Z) (f : Z → Z) (vs : list Z) (full : list Z) :
  fold_left
    (fun out i =>
       if Z.of_nat (length out) <? maxResults then out ++ [f i] else out)
    vs (take (Z.to_nat maxResults) full) =
  take (Z.to_nat maxResults) (full ++ (f <$> vs)).
Proof.
  revert full. induction vs as [| v vs IH]; intros full.
  - cbn. by rewrite app_nil_r.
  - cbn [fold_left fmap list_fmap].
    replace (full ++ f v :: (f <$> vs)) with ((full ++ [f v]) ++ (f <$> vs))
      by (by rewrite <- app_assoc).
    rewrite <- IH. f_equal. rewrite length_take.
    destruct (Z.ltb_spec (Z.of_nat (Z.to_nat maxResults `min` length full)) maxResults).
    + rewrite !take_ge; [done | rewrite length_app; cbn; lia | lia].
    + rewrite take_app_le; [done | lia].
Qed.

Lemma collect_cell_take (maxResults : Z) (full : list Z) (cell : GridCell) :
  collect_cell maxResults (take (Z.to_nat maxResults) full) cell =
  take (Z.to_nat maxResults) (full ++ cell_reads cell).
Proof. apply collect_take. Qed.

(** [QuerySpatialGrid] returns the first [maxResults] candidates. *)
Lemma QuerySpatialGrid_take (grid : SpatialGrid) (pos : Vector2) (radius : num)
    (maxResults : Z) :
  QuerySpatialGrid grid pos radius maxResults =
  take (Z.to_nat maxResults) (query_candidates grid pos radius).
Proof.
  unfold QuerySpatialGrid, query_candidates, query_cells.
  destruct (query_range (vx pos) radius GRID_WIDTH) as [minX maxX].
  destruct (query_range (vy pos) radius GRID_HEIGHT) as [minY maxY].
  set (xs := seqZ minX (maxX - minX + 1)). set (ys := seqZ minY (maxY - minY + 1)).
  assert (∀ gy xs full,
    fold_left (fun out gx => collect_cell maxResults out (cell_at grid gx gy))
      xs (take (Z.to_nat maxResults) full) =
    take (Z.to_nat maxResults)
      (full ++ ((xs ≫= (λ gx, [(gx, gy)])) ≫= λ c, cell_reads (cell_at grid c.1 c.2))))
    as Hrow.
  { intros gy xs'. induction xs' as [| gx xs' IH]; intros full.
    - cbn. by rewrite app_nil_r.
    - cbn [fold_left]. rewrite collect_cell_take, IH.
      rewrite (bind_cons _ gx), bind_app. cbn [mbind list_bind].
      cbn. by rewrite app_nil_r, <- app_assoc. }
  assert (∀ ys full,
    fold_left
      (fun out gy =>
         fold_left (fun out gx => collect_cell maxResults out (cell_at grid gx gy))
           xs out)
      ys (take (Z.to_nat maxResults) full) =
    take (Z.to_nat maxResults)
      (full ++ ((ys ≫= (λ gy, xs ≫= (λ gx, [(gx, gy)])))
                ≫= λ c, cell_reads (cell_at grid c.1 c.2)))) as Hall.
  { intros ys'. induction ys' as [| gy ys' IH]; intros full.
    - cbn. by rewrite app_nil_r.
    - cbn [fold_left]. rewrite Hrow, IH. rewrite (bind_cons _ gy), bind_app.
      by rewrite <- app_assoc. }
  specialize (Hall ys []). by rewrite take_nil in Hall.
Qed.

(** Every id a query returns is held by a cell of the grid. *)
Lemma QuerySpatialGrid_in_cell (grid : SpatialGrid) (pos : Vector2) (radius : num)
    (maxResults id : Z) :
  grid_ok grid →
  id ∈ QuerySpatialGrid grid pos radius maxResults →
  ∃ gx gy, (gx, gy) ∈ query_cells pos radius ∧ id ∈ cell_ids (cell_at grid gx gy).
Proof.
  intros Hok. rewrite QuerySpatialGrid_take. intros Hin.
  apply elem_of_take in Hin as (k & Hin & _).
  apply list_elem_of_lookup_2 in Hin. unfold query_candidates in Hin.
  apply list_elem_of_bind in Hin as ([gx gy] & Hin & Hc). exists gx, gy.
  split; [done |]. destruct (query_cells_in_grid _ _ _ _ Hc) as [Hx Hy].
  destruct Hok as [_ Hcols]. destruct (Hcols gx Hx) as [_ Hcells].
  by rewrite <- cell_reads_ids by auto.
Qed.

Lemma cell_members_spec (pos : list Vector2) (ent : list Entity) (count : Z)
    (c : Z * Z) (id : Z) :
  id ∈ cell_members pos ent count c ↔
  0 ≤ id < count ∧ active (aget ent id) = true ∧ cell_of (aget pos id) = c.
Proof.
  unfold cell_members. rewrite list_elem_of_filter, elem_of_seqZ. intuition lia.
Qed.

Lemma NoDup_cell_members (pos : list Vector2) (ent : list Entity) (count : Z)
    (c : Z * Z) : NoDup (cell_members pos ent count c).
Proof. apply NoDup_filter, NoDup_seqZ. Qed.

Lemma cell_count_ids (c : GridCell) :
  cell_ok c → cell_count c = Z.of_nat (length (cell_ids c)).
Proof. intros [? ?]. unfold cell_ids. rewrite length_take. lia. Qed.

Lemma NoDup_query_cells (p : Vector2) (radius : num) : NoDup (query_cells p radius).
Proof.
  unfold query_cells.
  destruct (query_range (vx p) radius GRID_WIDTH) as [minX maxX].
  destruct (query_range (vy p) radius GRID_HEIGHT) as [minY maxY].
  apply NoDup_bind; [| | apply NoDup_seqZ].
  - intros y1 y2 [gx gy] _ _ H1 H2.
    apply list_elem_of_bind in H1 as (x1 & H1 & _), H2 as (x2 & H2 & _).
    apply list_elem_of_singleton in H1, H2. congruence.
  - intros gy _. apply NoDup_bind; [| | apply NoDup_seqZ].
    + intros x1 x2 [gx gy'] _ _ H1 H2.
      apply list_elem_of_singleton in H1, H2. congruence.
    + intros gx _. apply NoDup_singleton.
Qed.

(** After the rebuild no id is read twice by a query. *)
Lemma NoDup_query_candidates (grid0 : SpatialGrid) (pos : list Vector2)
    (ent : list Entity) (count : Z) (p : Vector2) (radius : num) :
  NoDup (query_candidates (SpatialGridUpdateSystem grid0 pos ent count) p radius).
Proof.
  destruct (SpatialGridUpdateSystem_ids grid0 pos ent count) as [Hok Hids].
  set (grid := SpatialGridUpdateSystem grid0 pos ent count) in *.
  assert (∀ c id, c ∈ query_cells p radius →
            id ∈ cell_reads (cell_at grid c.1 c.2) →
            id ∈ cell_members pos ent count c) as Hmem.
  { intros [gx gy] id Hc. destruct (query_cells_in_grid _ _ _ _ Hc) as [Hx Hy].
    cbn [fst snd].
    rewrite cell_reads_ids by (destruct Hok as [_ Hcols]; by apply Hcols).
    rewrite Hids by done. intros Hin.
    apply elem_of_take in Hin as (k & Hin & _). by apply list_elem_of_lookup_2 in Hin. }
  unfold query_candidates. apply NoDup_bind; [| | apply NoDup_query_cells].
  - intros c1 c2 id Hc1 Hc2 H1 H2.
    apply Hmem, cell_members_spec in H1, H2; [| done..]. destruct H1 as (_ & _ & <-).
    by destruct H2 as (_ & _ & <-).
  - intros [gx gy] Hc. destruct (query_cells_in_grid _ _ _ _ Hc) as [Hx Hy].
    cbn [fst snd].
    rewrite cell_reads_ids by (destruct Hok as [_ Hcols]; by apply Hcols).
    rewrite Hids by done.
    eapply sublist_NoDup; [| apply sublist_take]. apply NoDup_cell_members.
Qed.

(** After the rebuild a query returns only indices of active agents below
    [count], each at most once. *)
Lemma QuerySpatialGrid_ids (grid0 : SpatialGrid) (pos : list Vector2)
    (ent : list Entity) (count : Z) (p : Vector2) (radius : num)
    (maxResults id : Z) :
  id ∈ QuerySpatialGrid (SpatialGridUpdateSystem grid0 pos ent count)
         p radius maxResults →
  0 ≤ id < count ∧ active (aget ent id) = true.
Proof.
  destruct (SpatialGridUpdateSystem_ids grid0 pos ent count) as [Hok Hids].
  intros Hin. apply QuerySpatialGrid_in_cell in Hin as (gx & gy & Hc & Hin); [| done].
  apply query_cells_in_grid in Hc as [Hx Hy]. rewrite Hids in Hin by done.
  apply elem_of_take in Hin as (k & Hin & _).
  apply list_elem_of_lookup_2, cell_members_spec in Hin. tauto.
Qed.

Lemma NoDup_QuerySpatialGrid (grid0 : SpatialGrid) (pos : list Vector2)
    (ent : list Entity) (count : Z) (p : Vector2) (radius : num) (maxResults : Z) :
  NoDup (QuerySpatialGrid (SpatialGridUpdateSystem grid0 pos ent count)
           p radius maxResults).
Proof.
  rewrite QuerySpatialGrid_take.
  eapply sublist_NoDup; [| apply sublist_take]. apply NoDup_query_candidates.
Qed.

Lemma QuerySpatialGrid_length (grid0 : SpatialGrid) (pos : list Vector2)
    (ent : list Entity) (count : Z) (p : Vector2) (radius : num) (maxResults : Z) :
  Z.of_nat (length (QuerySpatialGrid (SpatialGridUpdateSystem grid0 pos ent count)
                      p radius maxResults)) ≤ Z.max count 0.
Proof.
  apply NoDup_bounded_length; [apply NoDup_QuerySpatialGrid |].
  intros k Hk. by apply QuerySpatialGrid_ids in Hk as [? _].
Qed.

(** After the rebuild a query returns an active agent as soon as it visits
    the cell of the agent, the cells it visits have no more members than their
    capacity and the output buffer is not exhausted. *)
Lemma QuerySpatialGrid_member (grid0 : SpatialGrid) (pos : list Vector2)
    (ent : list Entity) (count : Z) (p : Vector2) (radius : num)
    (maxResults i : Z) :
  let grid := SpatialGridUpdateSystem grid0 pos ent count in
  0 ≤ i < count →
  active (aget ent i) = true →
  cell_of (aget pos i) ∈ query_cells p radius →
  (∀ c, c ∈ query_cells p radius →
        Z.of_nat (length (cell_members pos ent count c)) ≤ MAX_ENTITIES_PER_CELL) →
  Z.of_nat (length (QuerySpatialGrid grid p radius maxResults)) < maxResults →
  i ∈ QuerySpatialGrid grid p radius maxResults.
Proof.
  intros grid Hi Hact Hin Hcap Hbuf.
  destruct (cell_of (aget pos i)) as [cx cy] eqn:Hcell.
  destruct (SpatialGridUpdateSystem_ids grid0 pos ent count) as [Hok Hids].
  fold grid in Hok, Hids.
  destruct (query_cells_in_grid _ _ _ _ Hin) as [Hgx Hgy].
  rewrite QuerySpatialGrid_take in Hbuf |- *. rewrite length_take in Hbuf.
  rewrite take_ge by lia.
  unfold query_candidates. apply list_elem_of_bind. exists (cx, cy).
  split; [| done]. cbn [fst snd].
  rewrite cell_reads_ids by (destruct Hok as [_ Hcols]; by apply Hcols).
  rewrite Hids by done. rewrite take_ge by (specialize (Hcap _ Hin); lia).
  by apply cell_members_spec.
Qed.

(** C10. After the rebuild of the grid, every id held by a cell is the index
    of an active agent below [count] whose clamped cell is that very cell; no
    cell holds an id twice (so each agent is held at most once, and by no
    cell but its own); hence a query returns only indices of active agents
    below [count]. *)
Theorem SpatialGridUpdateSystem_invariant (grid : SpatialGrid)
    (pos : list Vector2) (ent : list Entity) (count : Z) :
  let grid' := SpatialGridUpdateSystem grid pos ent count in
  (∀ gx gy id, 0 ≤ gx < GRID_WIDTH → 0 ≤ gy < GRID_HEIGHT →
     id ∈ cell_ids (cell_at grid' gx gy) →
     0 ≤ id < count ∧ active (aget ent id) = true ∧
     cell_of (aget pos id) = (gx, gy)) ∧
  (∀ gx gy, 0 ≤ gx < GRID_WIDTH → 0 ≤ gy < GRID_HEIGHT →
     NoDup (cell_ids (cell_at grid' gx gy))) ∧
  (∀ p radius maxResults id,
     id ∈ QuerySpatialGrid grid' p radius maxResults →
     0 ≤ id < count ∧ active (aget ent id) = true).
Proof.
  intros grid'. destruct (SpatialGridUpdateSystem_ids grid pos ent count) as [Hok Hids].
  fold grid' in Hok, Hids.
  assert (∀ gx gy id, 0 ≤ gx < GRID_WIDTH → 0 ≤ gy < GRID_HEIGHT →
     id ∈ cell_ids (cell_at grid' gx gy) →
     0 ≤ id < count ∧ active (aget ent id) = true ∧
     cell_of (aget pos id) = (gx, gy)) as Hcell.
  { intros gx gy id Hx Hy. rewrite Hids by done. intros Hin.
    apply elem_of_take in Hin as (k & Hin & _).
    apply list_elem_of_lookup_2 in Hin. by apply cell_members_spec in Hin. }
  split; [done |]. split.
  - intros gx gy Hx Hy. rewrite Hids by done.
    eapply sublist_NoDup; [| apply sublist_take]. apply NoDup_cell_members.
  - intros p radius maxResults id Hin.
    apply QuerySpatialGrid_in_cell in Hin as (gx & gy & Hc & Hin); [| done].
    apply query_cells_in_grid in Hc as [Hx Hy].
    destruct (Hcell gx gy id Hx Hy Hin) as (? & ? & ?). done.
Qed.

(** C8. Inserting into a cell that already holds [MAX_ENTITIES_PER_CELL] ids
    returns the grid as it was (the function has no other result: nothing is
    signalled); and an agent whose insertion is dropped in this way during the
    rebuild is returned by no query on the rebuilt grid. *)
Theorem AddToSpatialGrid_full_cell :
  (∀ (grid : SpatialGrid) (id : Z) (pos : Vector2),
     MAX_ENTITIES_PER_CELL ≤ cell_count (cell_at grid (cell_of pos).1 (cell_of pos).2) →
     AddToSpatialGrid grid id pos = grid) ∧
  (∀ (grid : SpatialGrid) (pos : list Vector2) (ent : list Entity) (count i : Z),
     0 ≤ i < count →
     active (aget ent i) = true →
     MAX_ENTITIES_PER_CELL ≤
       cell_count (cell_at (SpatialGridUpdateSystem grid pos ent i)
                     (cell_of (aget pos i)).1 (cell_of (aget pos i)).2) →
     ∀ p radius maxResults,
       i ∉ QuerySpatialGrid (SpatialGridUpdateSystem grid pos ent count)
             p radius maxResults).
Proof.
  split.
  - intros grid id pos Hfull. unfold AddToSpatialGrid.
    destruct (cell_of pos) as [cx cy]. cbn in Hfull.
    by destruct (Z.ltb_spec (cell_count (cell_at grid cx cy)) MAX_ENTITIES_PER_CELL);
      [lia |].
  - intros grid pos ent count i Hi Hact Hfull p radius maxResults Hin.
    destruct (SpatialGridUpdateSystem_ids grid pos ent count) as [Hok Hids].
    destruct (SpatialGridUpdateSystem_ids grid pos ent i) as [Hok0 Hids0].
    apply QuerySpatialGrid_in_cell in Hin as (gx & gy & Hc & Hin); [| done].
    apply query_cells_in_grid in Hc as [Hx Hy].
    rewrite Hids in Hin by done.
    assert (cell_of (aget pos i) = (gx, gy)) as Hcell.
    { apply elem_of_take in Hin as (k & Hin & _).
      apply list_elem_of_lookup_2, cell_members_spec in Hin. tauto. }
    rewrite Hcell in Hfull. cbn in Hfull.
    rewrite cell_count_ids in Hfull
      by (destruct Hok0 as [_ Hcols]; by apply Hcols).
    rewrite Hids0 in Hfull by done. rewrite length_take in Hfull.
    unfold cell_members in Hin, Hfull.
    replace count with (i + (count - i)) in Hin by lia.
    rewrite seqZ_app, filter_app in Hin by lia.
    rewrite take_app_le in Hin by lia.
    apply elem_of_take in Hin as (k & Hin & _).
    apply list_elem_of_lookup_2, list_elem_of_filter in Hin as [_ Hin].
    apply elem_of_seqZ in Hin. lia.
Qed.

End GridFacts.

(** * The force systems *)

Section ForceFacts.
Context {S : Scalar}.
Local Open Scope num_scope.

Lemma fold_left_ext_in {A B} (f g : A → B → A) (l : list B) (a : A) :
  (∀ a b, f a b = g a b) → fold_left f l a = fold_left g l a.
Proof.
  intros Hfg. revert a. induction l as [| b l IH]; intros a; [done |].
  cbn. by rewrite Hfg, IH.
Qed.

(** Each force system rewrites every slot of [acc] from that slot alone:
    it adds the agent's contribution, which does not depend on [acc]. *)
Lemma run_force_pointwise (f : ForceSystem) (grid : SpatialGrid)
    (pos vel acc : list Vector2) (ent : list Entity) (count : Z)
    (params : BoidParams) :
  let res := run_force grid pos vel ent count params acc f in
  length res = length acc ∧
  ∀ k, aget res k =
       if decide ((0 ≤ k < count)%Z ∧ (k < Z.of_nat (length acc))%Z)
       then add_contribution (aget acc k) (contribution f grid pos vel ent params k)
       else aget acc k.
Proof.
  intros res.
  assert (res = fold_left
            (fun l i => aset l i (add_contribution (aget l i)
                                   (contribution f grid pos vel ent params i)))
            (seqZ 0 count) acc) as ->.
  { subst res. destruct f; cbn [run_force];
      unfold BoidSeparationSystem, BoidAlignmentSystem, BoidCohesionSystem;
      apply fold_left_ext_in; intros l i; unfold contribution, accumulate;
      cbn [steering_of];
      (destruct (active (aget ent i)); cbn [negb add_contribution];
         [| by rewrite aset_aget_id]);
      match goal with |- context [match ?o with _ => _ end] => destruct o end;
      cbn [add_contribution]; by rewrite ?aset_aget_id. }
  apply (pointwise_loop_seqZ
           (λ i a, add_contribution a (contribution f grid pos vel ent params i))).
Qed.

Lemma separation_sum_none (pos : list Vector2) (ent : list Entity)
    (params : BoidParams) (i : Z) (nearby : list Z) :
  filter (λ j, j ≠ i ∧ active (aget ent j) = true ∧
               ltb (Vector2Distance (aget pos i) (aget pos j))
                   (separationRadius params) = true) nearby = [] →
  separation_sum pos ent params i nearby = (Vector2Zero, 0%Z).
Proof.
  unfold separation_sum. generalize (Vector2Zero, 0%Z).
  induction nearby as [| j nearby IH]; intros st Hq; [done |].
  rewrite filter_cons in Hq. case_decide as Hj; [done |].
  cbn [fold_left]. destruct st as [steering total].
  match goal with |- fold_left _ _ ?st' = _ =>
    assert (st' = (steering, total)) as ->; [| by apply IH] end.
  destruct (Z.eqb_spec i j); [done |].
  destruct (active (aget ent j)) eqn:Hact; [| done]. cbn.
  destruct (ltb (Vector2Distance (aget pos i) (aget pos j)) (separationRadius params))
    eqn:Hd; [| done].
  exfalso. apply Hj. auto.
Qed.

Lemma alignment_sum_none (pos vel : list Vector2) (ent : list Entity)
    (params : BoidParams) (i : Z) (nearby : list Z) :
  filter (λ j, j ≠ i ∧ active (aget ent j) = true ∧
               ltb (Vector2Distance (aget pos i) (aget pos j))
                   (perceptionRadius params) = true) nearby = [] →
  alignment_sum pos vel ent params i nearby = (Vector2Zero, 0%Z).
Proof.
  unfold alignment_sum. generalize (Vector2Zero, 0%Z).
  induction nearby as [| j nearby IH]; intros st Hq; [done |].
  rewrite filter_cons in Hq. case_decide as Hj; [done |].
  cbn [fold_left]. destruct st as [steering total].
  match goal with |- fold_left _ _ ?st' = _ =>
    assert (st' = (steering, total)) as ->; [| by apply IH] end.
  destruct (Z.eqb_spec i j); [done |].
  destruct (active (aget ent j)) eqn:Hact; [| done]. cbn.
  destruct (ltb (Vector2Distance (aget pos i) (aget pos j)) (perceptionRadius params))
    eqn:Hd; [| done].
  exfalso. apply Hj. auto.
Qed.

Lemma cohesion_sum_none (pos : list Vector2) (ent : list Entity)
    (params : BoidParams) (i : Z) (nearby : list Z) :
  filter (λ j, j ≠ i ∧ active (aget ent j) = true ∧
               ltb (Vector2Distance (aget pos i) (aget pos j))
                   (perceptionRadius params) = true) nearby = [] →
  cohesion_sum pos ent params i nearby = (Vector2Zero, 0%Z).
Proof.
  unfold cohesion_sum. generalize (Vector2Zero, 0%Z).
  induction nearby as [| j nearby IH]; intros st Hq; [done |].
  rewrite filter_cons in Hq. case_decide as Hj; [done |].
  cbn [fold_left]. destruct st as [steering total].
  match goal with |- fold_left _ _ ?st' = _ =>
    assert (st' = (steering, total)) as ->; [| by apply IH] end.
  destruct (Z.eqb_spec i j); [done |].
  destruct (active (aget ent j)) eqn:Hact; [| done]. cbn.
  destruct (ltb (Vector2Distance (aget pos i) (aget pos j)) (perceptionRadius params))
    eqn:Hd; [| done].
  exfalso. apply Hj. auto.
Qed.

(** C6. A force system leaves [acc[i]] exactly as it was when none of the
    candidates of agent [i] qualifies as a neighbour (each candidate is [i]
    itself, inactive, or at or beyond the radius of the system). *)
Theorem no_neighbour_no_force (f : ForceSystem) (grid : SpatialGrid)
    (pos vel acc : list Vector2) (ent : list Entity) (count : Z)
    (params : BoidParams) (i : Z) :
  qualifying grid pos ent i (radius_of f params) = [] →
  aget (run_force grid pos vel ent count params acc f) i = aget acc i.
Proof.
  intros Hq. destruct (run_force_pointwise f grid pos vel acc ent count params)
    as [_ Hget].
  rewrite Hget. case_decide; [| done].
  assert (steering_of f grid pos vel ent params i = None) as Hnone.
  { unfold qualifying in Hq. destruct f; cbn [steering_of radius_of] in *.
    - unfold separation_steering. by rewrite separation_sum_none.
    - unfold alignment_steering. by rewrite alignment_sum_none.
    - unfold cohesion_steering. by rewrite cohesion_sum_none. }
  unfold contribution. rewrite Hnone. by destruct (active (aget ent i)).
Qed.

Lemma run_forces_pointwise (order : list ForceSystem) (grid : SpatialGrid)
    (pos vel acc : list Vector2) (ent : list Entity) (count : Z)
    (params : BoidParams) :
  let res := run_forces order grid pos vel acc ent count params in
  length res = length acc ∧
  ∀ k, aget res k =
       if decide ((0 ≤ k < count)%Z ∧ (k < Z.of_nat (length acc))%Z)
       then fold_left add_contribution
              ((λ f, contribution f grid pos vel ent params k) <$> order)
              (aget acc k)
       else aget acc k.
Proof.
  unfold run_forces. revert acc. induction order as [| f order IH]; intros acc.
  - cbn. split; [done |]. intros k. by case_decide.
  - cbn [fold_left fmap list_fmap].
    destruct (run_force_pointwise f grid pos vel acc ent count params) as [Hlen Hget].
    destruct (IH (run_force grid pos vel ent count params acc f)) as [Hlen' Hget'].
    cbn zeta in *. split; [congruence |]. intros k.
    rewrite Hget', Hget, Hlen. by case_decide.
Qed.

End ForceFacts.

(** * Order of the force systems *)

(** Exposes the real-number operations behind the [real] scalars. *)
Ltac exact_arith :=
  change (@num real) with R in *;
  cbn [num of_int to_int add sub mul div sqrtf ltb real vx vy] in *.

Section ExactForces.
Local Existing Instance real.

Lemma real_add_contribution_comm (a : Vector2) (c1 c2 : option Vector2) :
  add_contribution (add_contribution a c1) c2 =
  add_contribution (add_contribution a c2) c1.
Proof.
  destruct c1 as [[x1 y1] |], c2 as [[x2 y2] |], a as [x y]; cbn; try done.
  unfold Vector2Add. f_equal; exact_arith; ring.
Qed.

End ExactForces.

(** C3 (as amended). Whatever the order in which the force systems run, the
    acceleration of agent [k] ends as its starting acceleration plus the
    contributions of the systems, added in the order run; a contribution is a
    function of the grid, the positions, the velocities, the flags and the
    parameters, not of the accelerations.  In exact arithmetic two orders that
    are permutations of each other therefore give the same accelerations. *)
Theorem force_order :
  (∀ (S : Scalar) (order : list ForceSystem) (grid : SpatialGrid)
     (pos vel acc : list Vector2) (ent : list Entity) (count : Z)
     (params : BoidParams) (k : Z),
     aget (run_forces order grid pos vel acc ent count params) k =
     if decide (0 ≤ k < count ∧ k < Z.of_nat (length acc))
     then fold_left add_contribution
            ((λ f, contribution f grid pos vel ent params k) <$> order)
            (aget acc k)
     else aget acc k) ∧
  (∀ (order1 order2 : list ForceSystem) (grid : SpatialGrid)
     (pos vel acc : list (@Vector2 real)) (ent : list Entity) (count : Z)
     (params : @BoidParams real),
     order1 ≡ₚ order2 →
     @run_forces real order1 grid pos vel acc ent count params =
     @run_forces real order2 grid pos vel acc ent count params).
Proof.
  split.
  - intros S order grid pos vel acc ent count params k.
    by destruct (run_forces_pointwise order grid pos vel acc ent count params)
      as [_ ->].
  - intros order1 order2 grid pos vel acc ent count params Hperm.
    destruct (@run_forces_pointwise real order1 grid pos vel acc ent count params)
      as [Hlen1 Hget1].
    destruct (@run_forces_pointwise real order2 grid pos vel acc ent count params)
      as [Hlen2 Hget2].
    apply aget_ext; [congruence |]. intros k. rewrite Hget1, Hget2.
    case_decide; [| done]. apply fold_left_commute.
    + apply real_add_contribution_comm.
    + by apply fmap_Permutation.
Qed.

(** C3 (as stated) fails in binary32: with two agents five units apart the
    orders separation-alignment-cohesion and separation-cohesion-alignment
    leave agent 0 with accelerations that differ in the last bits, because
    float addition is not associative. *)
Lemma force_order_counterexample :
  active (aget Scenario.two_active 0) = true ∧
  vy (aget (Scenario.forces_a [Separation; Alignment; Cohesion]) 0) ≠
  vy (aget (Scenario.forces_a [Separation; Cohesion; Alignment]) 0).
Proof. split; [reflexivity |]. vm_compute. discriminate. Qed.

(** * The integrator *)

Section PhysicsFacts.
Context {S : Scalar}.

(** The velocity part of [PhysicsSystem] does not depend on the positions:
    each active slot becomes the limited sum of velocity and acceleration. *)
Lemma PhysicsSystem_velocity (pos vel acc : list Vector2) (ent : list Entity)
    (count : Z) (maxSpeed : num) :
  let vel' := (PhysicsSystem pos vel acc ent count maxSpeed).2 in
  length vel' = length vel ∧
  ∀ k, aget vel' k =
       if decide (0 ≤ k < count ∧ k < Z.of_nat (length vel))
       then if active (aget ent k)
            then Vector2Limit (Vector2Add (aget vel k) (aget acc k)) maxSpeed
            else aget vel k
       else aget vel k.
Proof.
  intros vel'.
  assert (vel' = fold_left
            (fun l i => aset l i
               ((λ i v, if active (aget ent i)
                        then Vector2Limit (Vector2Add v (aget acc i)) maxSpeed
                        else v) i (aget l i)))
            (seqZ 0 count) vel) as ->.
  { subst vel'. unfold PhysicsSystem. generalize (seqZ 0 count) as idx.
    intros idx. revert pos vel. induction idx as [| i idx IH]; intros pos vel.
    - done.
    - cbn [fold_left]. destruct (active (aget ent i)); cbn [negb].
      + rewrite IH. f_equal.
        apply (aset_aget_aset vel i _ (λ v, Vector2Limit v maxSpeed)).
      + rewrite IH. by rewrite aset_aget_id. }
  apply (pointwise_loop_seqZ
           (λ i v, if active (aget ent i)
                   then Vector2Limit (Vector2Add v (aget acc i)) maxSpeed
                   else v)).
Qed.

End PhysicsFacts.

(** * Queries in exact arithmetic *)

Section ExactQuery.
Local Existing Instance real.
Local Open Scope R_scope.

Lemma Rtrunc_le (a b : R) : a <= b → (Exact.Rtrunc a ≤ Exact.Rtrunc b)%Z.
Proof.
  intros Hab. unfold Exact.Rtrunc.
  destruct (Rle_dec 0 a), (Rle_dec 0 b); try lra.
  - by apply Zfloor_le.
  - pose proof (Zceil_bound a). pose proof (Zfloor_bound b).
    assert (Zceil a < Zfloor b + 1)%Z; [| lia].
    apply lt_IZR. rewrite plus_IZR.
    assert (IZR (Zceil a) < 1); [| assert (0 <= IZR (Zfloor b)); [| lra]].
    + lra.
    + apply IZR_le. by apply (Zfloor_lub 0).
  - by apply Zceil_le.
Qed.

Lemma Rtrunc_nonneg (a : R) (n : Z) :
  0 <= a → a < IZR n + 1 → (0 ≤ Exact.Rtrunc a ≤ n)%Z.
Proof.
  intros Ha Hn. unfold Exact.Rtrunc. destruct (Rle_dec 0 a); [| lra].
  pose proof (Zfloor_bound a). split.
  - by apply (Zfloor_lub 0).
  - assert (Zfloor a < n + 1)%Z; [| lia]. apply lt_IZR. rewrite plus_IZR. lra.
Qed.

Lemma R_to_int_cases (a : R) :
  Exact.R_to_int a = Exact.Rtrunc a ∨ Exact.R_to_int a = INT_MIN.
Proof.
  unfold Exact.R_to_int.
  destruct (Z.leb_spec INT_MIN (Exact.Rtrunc a)), (Z.leb_spec (Exact.Rtrunc a) INT_MAX);
    cbn; auto.
Qed.

Lemma R_to_int_in_range (a : R) :
  (INT_MIN ≤ Exact.Rtrunc a ≤ INT_MAX)%Z → Exact.R_to_int a = Exact.Rtrunc a.
Proof.
  intros Hr. unfold Exact.R_to_int.
  destruct (Z.leb_spec INT_MIN (Exact.Rtrunc a)), (Z.leb_spec (Exact.Rtrunc a) INT_MAX);
    cbn; lia.
Qed.

(** The cell index of a coordinate inside the world needs no clamping. *)
Lemma real_cell_index (q : R) (extent dim : Z) :
  (0 < dim ≤ INT_MAX)%Z →
  0 <= q <= IZR extent → IZR extent < IZR CELL_SIZE * IZR dim →
  clamp_cell (to_int (q / of_int CELL_SIZE)%num) dim = Exact.Rtrunc (q / IZR CELL_SIZE) ∧
  (0 ≤ Exact.Rtrunc (q / IZR CELL_SIZE) < dim)%Z.
Proof.
  intros Hdim Hq Hext. exact_arith.
  assert (0 < IZR CELL_SIZE) as Hcs by (unfold CELL_SIZE; lra).
  assert (0 ≤ Exact.Rtrunc (q / IZR CELL_SIZE) ≤ dim - 1)%Z as Hr.
  { apply Rtrunc_nonneg.
    - apply Rmult_le_pos; [lra |]. apply Rlt_le. by apply Rinv_0_lt_compat.
    - rewrite minus_IZR. apply (Rmult_lt_reg_r (IZR CELL_SIZE)); [done |].
      unfold Rdiv. rewrite Rmult_assoc, Rinv_l by lra. lra. }
  rewrite R_to_int_in_range by (unfold INT_MIN, INT_MAX in *; lia).
  split; [apply clamp_cell_id |]; lia.
Qed.

(** On one axis: a coordinate inside the world and within [radius] of the
    centre of a query falls into the cell range of the query. *)
Lemma real_query_range_covers (p radius q : R) (extent dim : Z) :
  (0 < dim ≤ INT_MAX)%Z →
  0 <= q <= IZR extent → IZR extent < IZR CELL_SIZE * IZR dim →
  p - radius <= q <= p + radius →
  (p + radius) / IZR CELL_SIZE < IZR INT_MAX + 1 →
  ((query_range p radius dim).1
     ≤ clamp_cell (to_int (q / of_int CELL_SIZE)%num) dim
     ≤ (query_range p radius dim).2)%Z.
Proof.
  intros Hdim Hq Hext Hnear Hfit.
  destruct (real_cell_index q extent dim Hdim Hq Hext) as [-> Hc].
  assert (0 < IZR CELL_SIZE) as Hcs by (unfold CELL_SIZE; lra).
  assert (0 < / IZR CELL_SIZE) as Hinv by (by apply Rinv_0_lt_compat).
  unfold query_range. exact_arith. cbn [fst snd]. split.
  - pose proof (R_to_int_cases ((p - radius) / IZR CELL_SIZE)) as Hle.
    assert (INT_MIN < 0)%Z by (unfold INT_MIN; lia).
    assert (Exact.Rtrunc ((p - radius) / IZR CELL_SIZE)
            ≤ Exact.Rtrunc (q / IZR CELL_SIZE))%Z as Hmono.
    { apply Rtrunc_le. unfold Rdiv. apply Rmult_le_compat_r; lra. }
    destruct (Z.ltb_spec (Exact.R_to_int ((p - radius) / IZR CELL_SIZE)) 0); lia.
  - assert (Exact.Rtrunc (q / IZR CELL_SIZE)
            ≤ Exact.Rtrunc ((p + radius) / IZR CELL_SIZE))%Z as Hmono.
    { apply Rtrunc_le. unfold Rdiv. apply Rmult_le_compat_r; lra. }
    assert (Exact.Rtrunc ((p + radius) / IZR CELL_SIZE) ≤ INT_MAX)%Z as Hmax.
    { apply Rtrunc_nonneg; [| done].
      apply Rmult_le_pos; [lra | lra]. }
    rewrite R_to_int_in_range by (unfold INT_MIN, INT_MAX in *; lia).
    destruct (Z.geb_spec (Exact.Rtrunc ((p + radius) / IZR CELL_SIZE)) dim); lia.
Qed.

(** An exact distance bounds both coordinate differences. *)
Lemma real_distance_axes (v1 v2 : Vector2) (radius : R) :
  Vector2Distance v1 v2 <= radius →
  (vx v2 - radius <= vx v1 <= vx v2 + radius) ∧
  (vy v2 - radius <= vy v1 <= vy v2 + radius).
Proof.
  destruct v1 as [x1 y1], v2 as [x2 y2]. unfold Vector2Distance. exact_arith.
  intros Hd.
  remember (x1 - x2) as dx eqn:Hdx. remember (y1 - y2) as dy eqn:Hdy.
  assert (0 <= dx * dx + dy * dy) as HD by nra.
  pose proof (sqrt_pos (dx * dx + dy * dy)) as Hs0.
  pose proof (sqrt_sqrt _ HD) as Hss.
  set (s := sqrt (dx * dx + dy * dy)) in *.
  assert (- radius <= dx <= radius ∧ - radius <= dy <= radius) as [? ?] by nra.
  lra.
Qed.

(** In exact arithmetic, the cell of a position inside the world and within
    [radius] of the centre of a query is among the cells the query visits,
    provided the cell index of the far corner of the query box fits in
    [int]. *)
Lemma real_cell_in_query (q p : Vector2) (radius : R) :
  0 <= vx q <= IZR SCREEN_WIDTH →
  0 <= vy q <= IZR SCREEN_HEIGHT →
  Vector2Distance q p <= radius →
  (vx p + radius) / IZR CELL_SIZE < IZR INT_MAX + 1 →
  (vy p + radius) / IZR CELL_SIZE < IZR INT_MAX + 1 →
  cell_of q ∈ query_cells p radius.
Proof.
  intros Hx Hy Hdist Hfx Hfy.
  destruct (real_distance_axes _ _ _ Hdist) as [Hnx Hny].
  unfold cell_of. apply elem_of_query_cells. split.
  - apply (real_query_range_covers _ _ _ SCREEN_WIDTH); try done.
    rewrite GRID_WIDTH_eq. unfold SCREEN_WIDTH, CELL_SIZE. lra.
  - apply (real_query_range_covers _ _ _ SCREEN_HEIGHT); try done.
    rewrite GRID_HEIGHT_eq. unfold SCREEN_HEIGHT, CELL_SIZE. lra.
Qed.

End ExactQuery.

(** C1 (as stated) fails for an agent outside the world: at (3000, 100) it
    is stored in the clamped cell (51, 2), yet a query of radius 10 centred on
    its own position starts at column 59 and ends at the clamped column 51, so
    it visits no cell and returns nothing. *)
Lemma QuerySpatialGrid_superset_counterexample :
  let pos := [Scenario.vec 3000 100] in
  let ent := [mkEntity true] in
  let grid := @SpatialGridUpdateSystem binary32 [] pos ent 1 in
  cell_ids (cell_at grid 51 2) = [0] ∧
  @Vector2Distance binary32 (aget pos 0) (Scenario.vec 3000 100) = S754_zero false ∧
  @query_range binary32 (B32.b32_of_int 3000) (B32.b32_of_int 10) GRID_WIDTH = (59, 51) ∧
  @QuerySpatialGrid binary32 grid (Scenario.vec 3000 100) (B32.b32_of_int 10) NEARBY_MAX = [].
Proof. vm_compute. done. Qed.

(** * Boundary wrap (binary32) *)

Lemma SFltb_irrefl (f : spec_float) : SFltb f f = false.
Proof.
  unfold SFltb. destruct f as [[] | [] | | [] m e]; cbn; try done.
  all: by rewrite Z.compare_refl, Pos.compare_cont_refl.
Qed.

Section WrapFacts.
Local Existing Instance binary32.
Local Open Scope num_scope.

Lemma wrap_axis_cases (q : num) (extent : Z) :
  wrap_axis q extent =
  if q <? of_int 0 then of_int extent
  else if q >? of_int extent then of_int 0 else q.
Proof.
  unfold wrap_axis. destruct (q <? of_int 0); [| done].
  cbn [ltb binary32]. by rewrite SFltb_irrefl.
Qed.

Lemma wrap_axis_zero (extent : Z) : wrap_axis (of_int 0) extent = of_int 0.
Proof.
  rewrite wrap_axis_cases. cbn [ltb binary32]. rewrite SFltb_irrefl.
  by destruct (SFltb _ _).
Qed.

Lemma wrap_axis_extent (extent : Z) : wrap_axis (of_int extent) extent = of_int extent.
Proof.
  rewrite wrap_axis_cases. cbn [ltb binary32]. rewrite SFltb_irrefl.
  by destruct (SFltb _ _).
Qed.

Lemma wrap_axis_idempotent (q : num) (extent : Z) :
  wrap_axis (wrap_axis q extent) extent = wrap_axis q extent.
Proof.
  rewrite (wrap_axis_cases q). destruct (q <? of_int 0) eqn:Hneg.
  - apply wrap_axis_extent.
  - destruct (q >? of_int extent) eqn:Hbig.
    + apply wrap_axis_zero.
    + by rewrite wrap_axis_cases, Hneg, Hbig.
Qed.

Lemma WrapAroundSystem_pointwise (pos : list Vector2) (ent : list Entity)
    (count width height : Z) :
  let pos' := WrapAroundSystem pos ent count width height in
  length pos' = length pos ∧
  ∀ k, aget pos' k =
       if decide ((0 ≤ k < count)%Z ∧ (k < Z.of_nat (length pos))%Z)
       then if active (aget ent k)
            then wrap_position (aget pos k) width height else aget pos k
       else aget pos k.
Proof.
  intros pos'.
  assert (pos' = fold_left
            (fun l i => aset l i
               ((λ i v, if active (aget ent i)
                        then wrap_position v width height else v) i (aget l i)))
            (seqZ 0 count) pos) as ->.
  { subst pos'. unfold WrapAroundSystem. apply fold_left_ext_in. intros l i.
    destruct (active (aget ent i)); cbn [negb]; [done |].
    by rewrite aset_aget_id. }
  apply (pointwise_loop_seqZ
           (λ i v, if active (aget ent i) then wrap_position v width height else v)).
Qed.

(** C5 (as amended). [WrapAroundSystem] wraps the two axes of every active
    agent independently; an axis strictly below 0 becomes the extent, an axis
    strictly above the extent becomes 0, any other value is kept: exactly 0
    stays 0 and exactly the extent stays the extent.  Running the system a
    second time changes nothing. *)
Theorem WrapAroundSystem_spec (pos : list Vector2) (ent : list Entity)
    (count width height : Z) :
  let pos' := WrapAroundSystem pos ent count width height in
  (∀ i, (0 ≤ i < count)%Z → (i < Z.of_nat (length pos))%Z →
        active (aget ent i) = true →
        aget pos' i = mkVector2 (wrap_axis (vx (aget pos i)) width)
                                (wrap_axis (vy (aget pos i)) height)) ∧
  (∀ q extent,
     wrap_axis q extent =
     if q <? of_int 0 then of_int extent
     else if q >? of_int extent then of_int 0 else q) ∧
  (∀ extent, wrap_axis (of_int 0) extent = of_int 0 ∧
             wrap_axis (of_int extent) extent = of_int extent) ∧
  WrapAroundSystem pos' ent count width height = pos'.
Proof.
  intros pos'.
  destruct (WrapAroundSystem_pointwise pos ent count width height) as [Hlen Hget].
  fold pos' in Hlen, Hget.
  split; [| split; [| split]].
  - intros i Hi Hl Hact. by rewrite Hget, decide_True, Hact.
  - apply wrap_axis_cases.
  - intros extent. split; [apply wrap_axis_zero | apply wrap_axis_extent].
  - destruct (WrapAroundSystem_pointwise pos' ent count width height) as [Hlen' Hget'].
    apply aget_ext; [done |]. intros k. rewrite Hget', Hlen, Hget.
    case_decide; [| done]. destruct (active (aget ent k)); [| done].
    unfold wrap_position. cbn [vx vy]. by rewrite !wrap_axis_idempotent.
Qed.

End WrapFacts.

(** C5 (as stated) fails at the boundary: an agent whose x coordinate is
    exactly 0 keeps it (it is not moved to the extent 2560), and one whose x
    coordinate is exactly 2560 keeps it (it is not moved to 0). *)
Lemma WrapAroundSystem_counterexample :
  let wrapped p :=
    @WrapAroundSystem binary32 [p] [mkEntity true] 1 SCREEN_WIDTH SCREEN_HEIGHT in
  vx (aget (wrapped (Scenario.vec 0 700)) 0) = B32.b32_of_int 0 ∧
  B32.b32_of_int 0 ≠ B32.b32_of_int SCREEN_WIDTH ∧
  vx (aget (wrapped (Scenario.vec 2560 700)) 0) = B32.b32_of_int SCREEN_WIDTH.
Proof. vm_compute. repeat split; discriminate. Qed.

(** * Rounding never produces a zero from a positive mantissa (binary32) *)

Section RoundingFacts.

Lemma shr_m_shr_record_of_loc (m : Z) (l : location) :
  shr_m (shr_record_of_loc m l) = m.
Proof. by destruct l as [| []]. Qed.

Lemma shr_m_shr_1 (mrs : shr_record) :
  0 ≤ shr_m mrs → shr_m (shr_1 mrs) = Z.div2 (shr_m mrs).
Proof. destruct mrs as [[| [p | p |] | [p | p |]] r s]; cbn; done || lia. Qed.

Lemma shr_m_iter_pos (p : positive) (mrs : shr_record) :
  0 ≤ shr_m mrs →
  shr_m (SpecFloat.iter_pos shr_1 p mrs) = Z.shiftr (shr_m mrs) (Zpos p).
Proof.
  revert mrs. induction p as [p IH | p IH |]; intros mrs Hm; cbn [SpecFloat.iter_pos].
  - assert (0 ≤ shr_m (shr_1 mrs)) as H1
      by (rewrite shr_m_shr_1 by done; rewrite Z.div2_nonneg; done).
    rewrite IH; [rewrite IH by done |].
    + rewrite shr_m_shr_1 by done. rewrite Z.div2_spec, !Z.shiftr_shiftr by lia.
      f_equal. lia.
    + rewrite IH by done. apply Z.shiftr_nonneg. done.
  - rewrite IH; [rewrite IH by done |].
    + rewrite !Z.shiftr_shiftr by lia. f_equal. lia.
    + rewrite IH by done. by apply Z.shiftr_nonneg.
  - rewrite shr_m_shr_1 by done. by rewrite Z.div2_spec.
Qed.

Lemma digits2_pos_lower (m : positive) :
  2 ^ (Zpos (digits2_pos m) - 1) ≤ Zpos m.
Proof.
  induction m as [m IH | m IH |]; cbn [digits2_pos]; [| | done].
  - rewrite Pos2Z.inj_succ.
    replace (Z.succ (Z.pos (digits2_pos m)) - 1) with (Z.succ (Z.pos (digits2_pos m) - 1)) by lia.
    rewrite Z.pow_succ_r by lia. lia.
  - rewrite Pos2Z.inj_succ.
    replace (Z.succ (Z.pos (digits2_pos m)) - 1) with (Z.succ (Z.pos (digits2_pos m) - 1)) by lia.
    rewrite Z.pow_succ_r by lia. lia.
Qed.

Lemma shr_fexp_positive (m e : Z) (l : location) :
  0 < m → emin B32.prec B32.emax ≤ e →
  0 < shr_m (shr_fexp B32.prec B32.emax m e l).1 ∧
  emin B32.prec B32.emax ≤ (shr_fexp B32.prec B32.emax m e l).2.
Proof.
  intros Hm He. unfold shr_fexp, shr, fexp, emin, B32.prec, B32.emax in *.
  destruct m as [| m | m]; [lia | | lia]. cbn [Zdigits2].
  pose proof (digits2_pos_lower m) as Hd.
  destruct (Z.max (Z.pos (digits2_pos m) + e - 24) (3 - 128 - 24) - e) as [| n | n] eqn:Hn;
    cbn [fst snd]; rewrite ?shr_m_shr_record_of_loc; try (split; lia).
  rewrite shr_m_iter_pos by (rewrite shr_m_shr_record_of_loc; lia).
  rewrite shr_m_shr_record_of_loc. split; [| lia].
  rewrite Z.shiftr_div_pow2 by lia.
  apply Z.div_str_pos. split; [lia |].
  transitivity (2 ^ (Z.pos (digits2_pos m) - 1)); [| done].
  apply Z.pow_le_mono_r; lia.
Qed.

Lemma round_nearest_even_ge (m : Z) (l : location) : m ≤ round_nearest_even m l.
Proof.
  unfold round_nearest_even. destruct l as [| []]; try lia.
  destruct (Z.even m); lia.
Qed.

(** The result of [binary_round_aux] is always [rounded] and carries the
    given sign; from a positive mantissa at an exponent not below [emin] it is
    never a zero. *)
Lemma binary_round_aux_rounded (sx : bool) (mx ex : Z) (lx : location) :
  rounded (binary_round_aux B32.prec B32.emax sx mx ex lx).
Proof.
  unfold binary_round_aux.
  destruct (shr_fexp B32.prec B32.emax mx ex lx) as [mrs' e'].
  set (m1 := round_nearest_even (shr_m mrs') (loc_of_shr_record mrs')).
  destruct (shr_fexp B32.prec B32.emax m1 e' loc_Exact) as [mrs'' e''] eqn:Hs.
  destruct (shr_m mrs'') as [| m | m]; try done.
  destruct (Z.leb_spec e'' (B32.emax - B32.prec)); [| done]. cbn.
  unfold shr_fexp, shr in Hs.
  destruct (fexp B32.prec B32.emax (Zdigits2 m1 + e') - e') as [| n | n] eqn:Hn;
    injection Hs as _ <-; unfold fexp in *; lia.
Qed.

Lemma binary_round_aux_sign (sx : bool) (mx ex : Z) (lx : location) :
  match binary_round_aux B32.prec B32.emax sx mx ex lx with
  | S754_zero s | S754_infinity s | S754_finite s _ _ => s = sx
  | S754_nan => True
  end.
Proof.
  unfold binary_round_aux.
  destruct (shr_fexp B32.prec B32.emax mx ex lx) as [mrs' e'].
  destruct (shr_fexp _ _ _ e' loc_Exact) as [mrs'' e''].
  destruct (shr_m mrs''); try done. by destruct (_ <=? _).
Qed.

Lemma binary_round_aux_nonzero (sx : bool) (mx ex : Z) (lx : location) :
  0 < mx → emin B32.prec B32.emax ≤ ex →
  is_zero (binary_round_aux B32.prec B32.emax sx mx ex lx) = false.
Proof.
  intros Hm He. unfold binary_round_aux.
  pose proof (shr_fexp_positive mx ex lx Hm He) as [Hm1 He1].
  destruct (shr_fexp B32.prec B32.emax mx ex lx) as [mrs' e']. cbn [fst snd] in *.
  pose proof (round_nearest_even_ge (shr_m mrs') (loc_of_shr_record mrs')) as Hr.
  set (m1 := round_nearest_even (shr_m mrs') (loc_of_shr_record mrs')) in *.
  assert (0 < m1) as Hm1' by lia.
  pose proof (shr_fexp_positive m1 e' loc_Exact Hm1' He1) as [Hm2 _].
  destruct (shr_fexp B32.prec B32.emax m1 e' loc_Exact) as [mrs'' e'']. cbn [fst snd] in *.
  destruct (shr_m mrs''); [lia | | done]. by destruct (_ <=? _).
Qed.

End RoundingFacts.

(** * The magnitude guards of [Vector2Limit] and [Vector2SetMag] (binary32) *)

Section MagnitudeFacts.
Local Existing Instance binary32.
Local Open Scope num_scope.

Lemma SFmul_rounded (f1 f2 : spec_float) : rounded (f1 * f2).
Proof.
  destruct f1 as [| | | s1 m1 e1], f2 as [| | | s2 m2 e2]; cbn; try done.
  apply binary_round_aux_rounded.
Qed.

Lemma SFmul_self_nonneg (f : spec_float) : nonneg_or_nan (f * f).
Proof.
  destruct f as [[] | [] | | s m e]; cbn; try done.
  pose proof (binary_round_aux_sign (xorb s s) (Z.pos (m * m)) (e + e) loc_Exact) as Hs.
  destruct (binary_round_aux _ _ _ _ _ _); cbn; try done; by destruct s.
Qed.

Lemma SFadd_rounded (f1 f2 : spec_float) :
  rounded f1 → rounded f2 → rounded (f1 + f2).
Proof.
  destruct f1 as [[] | [] | | s1 m1 e1], f2 as [[] | [] | | s2 m2 e2];
    cbn; try done.
  intros _ _. unfold binary_normalize.
  destruct (_ + _)%Z; [done | |]; unfold binary_round;
    destruct (shl_align _ _ _); apply binary_round_aux_rounded.
Qed.

Lemma SFltb_above_nonneg (c f : spec_float) :
  nonneg_or_nan c → (c <? f) = true →
  f = S754_infinity false ∨ ∃ m e, f = S754_finite false m e.
Proof.
  destruct c as [[] | [] | | [] mc ec], f as [[] | [] | | [] m e];
    cbn; try done; eauto.
  all: unfold SFltb; cbn; intros _; by repeat case_match.
Qed.

Lemma SFltb_zero_nonneg (c : spec_float) (s : bool) :
  nonneg_or_nan c → (c <? S754_zero s) = false.
Proof. by destruct c as [[] | [] | | [] mc ec]. Qed.

Lemma SFsqrt_nonzero (m : positive) (e : Z) :
  (emin B32.prec B32.emax ≤ e)%Z →
  is_zero (sqrtf (S754_finite false m e)) = false.
Proof.
  intros He. cbn [sqrtf binary32 SFsqrt].
  destruct (SFsqrt_core_binary B32.prec B32.emax (Z.pos m) e) as [[mz ez] lz] eqn:Hcore.
  unfold SFsqrt_core_binary in Hcore.
  set (e' := Z.min (fexp B32.prec B32.emax (Z.div2 (Zdigits2 (Z.pos m) + e + 1)))
                   (Z.div2 e)) in *.
  assert (emin B32.prec B32.emax ≤ e' ∧ 2 * e' ≤ e)%Z as [He' Hs].
  { subst e'. clear Hcore. rewrite !Z.div2_div.
    pose proof (Z.div_mod e 2 ltac:(lia)). pose proof (Z.mod_pos_bound e 2 ltac:(lia)).
    unfold fexp, emin, B32.prec, B32.emax in *. lia. }
  set (m' := match (e - 2 * e')%Z with
             | Z.pos _ => Z.shiftl (Z.pos m) (e - 2 * e')
             | 0%Z => Z.pos m
             | Z.neg _ => 0%Z
             end) in *.
  assert (0 < m')%Z as Hm'.
  { subst m'. destruct (e - 2 * e')%Z eqn:Hd; [lia | | lia].
    rewrite Z.shiftl_mul_pow2 by lia. apply Z.mul_pos_pos; [lia |].
    apply Z.pow_pos_nonneg; lia. }
  pose proof (Z.sqrtrem_spec m' ltac:(lia)) as Hspec.
  destruct (Z.sqrtrem m') as [q r]. injection Hcore as <- <- _.
  apply binary_round_aux_nonzero; [nia | done].
Qed.

(** C9. [Vector2Limit] and [Vector2SetMag] divide only by the value given by
    [Vector2Limit_divisor] and [Vector2SetMag_divisor]; on every input that
    value, when there is one, is not a zero; and a vector whose two
    components are zero is returned unchanged by both. *)
Theorem magnitude_guards :
  (∀ (v : Vector2) (max : num),
     Vector2Limit v max =
     match Vector2Limit_divisor v max with
     | Some d => mkVector2 ((vx v / d) * max) ((vy v / d) * max)
     | None => v
     end) ∧
  (∀ (v : Vector2) (mag : num),
     Vector2SetMag v mag =
     match Vector2SetMag_divisor v mag with
     | Some d => mkVector2 ((vx v / d) * mag) ((vy v / d) * mag)
     | None => v
     end) ∧
  (∀ (v : Vector2) (max d : num),
     Vector2Limit_divisor v max = Some d → is_zero d = false) ∧
  (∀ (v : Vector2) (mag d : num),
     Vector2SetMag_divisor v mag = Some d → is_zero d = false) ∧
  (∀ (v : Vector2) (m : num),
     is_zero (vx v) = true → is_zero (vy v) = true →
     Vector2SetMag v m = v ∧ Vector2Limit v m = v).
Proof.
  split; [| split; [| split; [| split]]].
  - intros v max. unfold Vector2Limit, Vector2Limit_divisor.
    by destruct (_ <? _).
  - intros v mag. unfold Vector2SetMag, Vector2SetMag_divisor.
    by destruct (_ <? _).
  - intros [x y] max d. unfold Vector2Limit_divisor. cbn [vx vy].
    assert (rounded (x * x + y * y)) as Hr
      by (apply SFadd_rounded; apply SFmul_rounded).
    generalize dependent (x * x + y * y). intros magSq Hr.
    destruct (max * max <? magSq) eqn:Hlt; [| done]. intros [= <-].
    apply SFltb_above_nonneg in Hlt as [-> | (m & e & ->)];
      [done | | apply SFmul_self_nonneg].
    by apply SFsqrt_nonzero.
  - intros [x y] mag d. unfold Vector2SetMag_divisor. cbn [vx vy].
    generalize (sqrtf (x * x + y * y)). intros currentMag.
    destruct (of_int 0 <? currentMag) eqn:Hlt; [| done]. intros [= <-].
    by destruct currentMag as [[] | | |].
  - intros [[sx | ? | | ? ? ?] [sy | ? | | ? ? ?]] mg; cbn [vx vy is_zero];
      try done. intros _ _.
    split.
    + by destruct sx, sy.
    + unfold Vector2Limit. cbn [vx vy].
      replace (@add binary32 (@mul binary32 (S754_zero sx) (S754_zero sx))
                             (@mul binary32 (S754_zero sy) (S754_zero sy)))
        with (S754_zero false) by (by destruct sx, sy).
      by rewrite SFltb_zero_nonneg by apply SFmul_self_nonneg.
Qed.

End MagnitudeFacts.

(** * Two agents one unit apart (exact arithmetic) *)

Lemma INT_MAX_eq : INT_MAX = 2147483647.
Proof. reflexivity. Qed.

Section ExactScenario.
Local Existing Instance real.
Local Open Scope R_scope.

Lemma real_distance_sym (v1 v2 : Vector2) :
  Vector2Distance v1 v2 = Vector2Distance v2 v1.
Proof.
  destruct v1 as [x1 y1], v2 as [x2 y2]. unfold Vector2Distance. exact_arith.
  f_equal. ring.
Qed.

Lemma real_distance_self (v : Vector2) : Vector2Distance v v = 0.
Proof.
  destruct v as [x y]. unfold Vector2Distance. exact_arith.
  replace ((x - x) * (x - x) + (y - y) * (y - y)) with 0 by ring.
  apply sqrt_0.
Qed.

Lemma Rltb_true (x y : R) : x < y → Exact.Rltb x y = true.
Proof. intros. unfold Exact.Rltb. by destruct (Rlt_dec x y). Qed.

Lemma Rltb_false (x y : R) : y <= x → Exact.Rltb x y = false.
Proof. intros. unfold Exact.Rltb. destruct (Rlt_dec x y); [lra | done]. Qed.

(** The steering pipeline (set magnitude to [maxSpeed = 5], subtract a zero
    velocity, limit to [maxForce = 0.7], multiply by the weight) applied to a
    unit vector. *)
Lemma real_steer_unit (u : Vector2) (w : R) :
  Vector2Length u = 1 →
  Vector2MulScalar
    (Vector2Limit (Vector2Subtract (Vector2SetMag u (of_int 5)) Vector2Zero)
       (decimal 7 10)) w =
  scale (7 / 10 * w) u.
Proof.
  destruct u as [x y]. unfold Vector2Length. exact_arith. intros Hlen.
  assert (x * x + y * y = 1) as Hsq.
  { assert (0 <= x * x + y * y) as Hnn by nra.
    rewrite <- (sqrt_sqrt _ Hnn), Hlen. lra. }
  unfold Vector2SetMag. exact_arith. rewrite Hlen, Rltb_true by lra.
  unfold Vector2Subtract, Vector2Zero, Vector2Limit, decimal. exact_arith.
  assert ((x / 1 * 5 - 0) * (x / 1 * 5 - 0) + (y / 1 * 5 - 0) * (y / 1 * 5 - 0)
          = 5 * 5) as -> by (field_simplify; nra).
  rewrite Rltb_true by lra. rewrite sqrt_square by lra.
  unfold Vector2MulScalar, scale. f_equal; exact_arith; field.
Qed.

(** The same pipeline applied to the zero vector. *)
Lemma real_steer_zero (u : Vector2) (w : R) :
  vx u = 0 → vy u = 0 →
  Vector2MulScalar
    (Vector2Limit (Vector2Subtract (Vector2SetMag u (of_int 5)) Vector2Zero)
       (decimal 7 10)) w =
  scale 0 u.
Proof.
  destruct u as [x y]. exact_arith. intros -> ->.
  unfold Vector2SetMag. exact_arith.
  replace (0 * 0 + 0 * 0) with 0 by ring. rewrite sqrt_0, Rltb_false by lra.
  unfold Vector2Subtract, Vector2Zero, Vector2Limit, decimal. exact_arith.
  rewrite Rltb_false by lra.
  unfold Vector2MulScalar, scale. f_equal; exact_arith; ring.
Qed.

Variables (grid0 : SpatialGrid) (p0 p1 a0 a1 : Vector2).
Hypothesis in_world_p0 : in_world p0.
Hypothesis in_world_p1 : in_world p1.
Hypothesis one_apart : Vector2Distance p0 p1 = 1.

Let pos : list Vector2 := [p0; p1].
Let vel : list Vector2 := [Vector2Zero; Vector2Zero].
Let ent : list Entity := [mkEntity true; mkEntity true].
Let grid : SpatialGrid := SpatialGridUpdateSystem grid0 pos ent 2.

Lemma two_agents_pos_0 : aget pos 0 = p0.
Proof. reflexivity. Qed.

Lemma two_agents_pos_1 : aget pos 1 = p1.
Proof. reflexivity. Qed.

Lemma two_agents_nearby (i : Z) (radius : R) :
  i = 0%Z ∨ i = 1%Z → 1 <= radius <= 20 →
  let nearby := QuerySpatialGrid grid (aget pos i) radius NEARBY_MAX in
  NoDup nearby ∧ (∀ k, k ∈ nearby → k = 0%Z ∨ k = 1%Z) ∧
  0%Z ∈ nearby ∧ 1%Z ∈ nearby.
Proof using in_world_p0 in_world_p1 one_apart.
  intros Hi Hr nearby.
  assert (NoDup nearby) as Hnd by apply NoDup_QuerySpatialGrid.
  assert (∀ k, k ∈ nearby → (0 ≤ k < 2)%Z) as Hrange.
  { intros k Hk. by apply QuerySpatialGrid_ids in Hk as [? _]. }
  assert (Z.of_nat (length nearby) < NEARBY_MAX)%Z as Hlen.
  { pose proof (QuerySpatialGrid_length grid0 pos ent 2 (aget pos i) radius NEARBY_MAX).
    fold grid nearby in H. unfold NEARBY_MAX, MAX_ENTITIES_PER_CELL. lia. }
  assert (∀ k, k = 0%Z ∨ k = 1%Z → k ∈ nearby) as Hin.
  { intros k Hk. apply QuerySpatialGrid_member; try done.
    - destruct Hk as [-> | ->]; lia.
    - by destruct Hk as [-> | ->].
    - apply real_cell_in_query.
      + destruct Hk as [-> | ->]; rewrite ?two_agents_pos_0, ?two_agents_pos_1;
          [apply in_world_p0 | apply in_world_p1].
      + destruct Hk as [-> | ->]; rewrite ?two_agents_pos_0, ?two_agents_pos_1;
          [apply in_world_p0 | apply in_world_p1].
      + destruct Hk as [-> | ->], Hi as [-> | ->]; rewrite ?two_agents_pos_0, ?two_agents_pos_1;
          rewrite ?real_distance_self, ?one_apart,
                  ?(real_distance_sym p1 p0), ?one_apart; lra.
      + rewrite INT_MAX_eq. unfold CELL_SIZE.
        destruct in_world_p0 as [[? Hx0] _], in_world_p1 as [[? Hx1] _].
        unfold SCREEN_WIDTH in *.
        destruct Hi as [-> | ->]; rewrite ?two_agents_pos_0, ?two_agents_pos_1; lra.
      + rewrite INT_MAX_eq. unfold CELL_SIZE.
        destruct in_world_p0 as [_ [? Hy0]], in_world_p1 as [_ [? Hy1]].
        unfold SCREEN_HEIGHT in *.
        destruct Hi as [-> | ->]; rewrite ?two_agents_pos_0, ?two_agents_pos_1; lra.
    - intros c _. unfold cell_members.
      pose proof (length_filter
        (λ i, active (aget ent i) = true ∧ cell_of (aget pos i) = c) (seqZ 0 2)) as Hf.
      rewrite length_seqZ in Hf. unfold MAX_ENTITIES_PER_CELL. lia. }
  repeat split; try done.
  - intros k Hk. specialize (Hrange k Hk). lia.
  - apply Hin. by left.
  - apply Hin. by right.
Qed.

Lemma two_agents_distance (i j : Z) :
  (i = 0%Z ∧ j = 1%Z) ∨ (i = 1%Z ∧ j = 0%Z) →
  Vector2Distance (aget pos i) (aget pos j) = 1.
Proof using one_apart.
  intros [[-> ->] | [-> ->]]; rewrite two_agents_pos_0, two_agents_pos_1; [done |].
  by rewrite real_distance_sym.
Qed.

Lemma two_agents_active (k : Z) :
  k = 0%Z ∨ k = 1%Z → active (aget ent k) = true.
Proof. by intros [-> | ->]. Qed.

Lemma two_agents_at_rest (k : Z) :
  k = 0%Z ∨ k = 1%Z → aget vel k = Vector2Zero.
Proof. by intros [-> | ->]. Qed.

Lemma two_agents_separation (i j : Z) :
  (i = 0%Z ∧ j = 1%Z) ∨ (i = 1%Z ∧ j = 0%Z) →
  separation_steering grid pos vel ent boidParams i =
  Some (scale (21 / 10) (Vector2Subtract (aget pos i) (aget pos j))).
Proof using in_world_p0 in_world_p1 one_apart.
  intros Hij. pose proof (two_agents_distance i j Hij) as Hd.
  unfold separation_steering.
  destruct (two_agents_nearby i 10) as (Hnd & Hall & H0 & H1); [tauto | lra |].
  change (separationRadius boidParams) with (IZR 10).
  unfold separation_sum.
  rewrite (fold_left_single _ i j); [| done | | | |].
  - destruct (Z.eqb_spec i j); [lia |].
    rewrite two_agents_active by lia. cbn [negb orb].
    rewrite Hd. exact_arith.
    change (separationRadius boidParams) with (IZR 10).
    rewrite !Rltb_true by lra. cbn [andb]. cbv beta iota zeta.
    change (0 + 1)%Z with 1%Z. change (1 >? 0)%Z with true. cbv iota.
    rewrite two_agents_at_rest by lia. f_equal.
    change (maxSpeed boidParams) with (@of_int real 5).
    change (maxForce boidParams) with (@decimal real 7 10).
    change (separationWeight boidParams) with (IZR 3).
    replace (Vector2DivScalar _ _)
      with (Vector2Subtract (aget pos i) (aget pos j)).
    + rewrite real_steer_unit by exact Hd. unfold scale. f_equal; lra.
    + destruct (aget pos i) as [xi yi], (aget pos j) as [xj yj].
      unfold Vector2DivScalar, Vector2Add, Vector2Subtract, Vector2Zero.
      f_equal; exact_arith; field.
  - intros k Hk. specialize (Hall k Hk). lia.
  - destruct Hij as [[_ ->] | [_ ->]]; done.
  - lia.
  - intros [steering total]. by rewrite Z.eqb_refl.
Qed.

Lemma two_agents_alignment (i j : Z) :
  (i = 0%Z ∧ j = 1%Z) ∨ (i = 1%Z ∧ j = 0%Z) →
  alignment_steering grid pos vel ent boidParams i = Some (mkVector2 0 0).
Proof using in_world_p0 in_world_p1 one_apart.
  intros Hij. pose proof (two_agents_distance i j Hij) as Hd.
  unfold alignment_steering.
  destruct (two_agents_nearby i 20) as (Hnd & Hall & H0 & H1); [tauto | lra |].
  change (perceptionRadius boidParams) with (IZR 20).
  unfold alignment_sum.
  rewrite (fold_left_single _ i j); [| done | | | |].
  - destruct (Z.eqb_spec i j); [lia |].
    rewrite two_agents_active by lia. cbn [negb orb].
    rewrite Hd. exact_arith.
    change (perceptionRadius boidParams) with (IZR 20).
    rewrite !Rltb_true by lra. cbv beta iota zeta.
    change (0 + 1)%Z with 1%Z. change (1 >? 0)%Z with true. cbv iota.
    rewrite !two_agents_at_rest by lia. f_equal.
    change (maxSpeed boidParams) with (@of_int real 5).
    change (maxForce boidParams) with (@decimal real 7 10).
    change (alignmentWeight boidParams) with (IZR 1).
    rewrite real_steer_zero.
    + unfold scale. f_equal; exact_arith; ring.
    + unfold Vector2DivScalar, Vector2Add, Vector2Zero. exact_arith. field.
    + unfold Vector2DivScalar, Vector2Add, Vector2Zero. exact_arith. field.
  - intros k Hk. specialize (Hall k Hk). lia.
  - destruct Hij as [[_ ->] | [_ ->]]; done.
  - lia.
  - intros [steering total]. by rewrite Z.eqb_refl.
Qed.

Lemma two_agents_cohesion (i j : Z) :
  (i = 0%Z ∧ j = 1%Z) ∨ (i = 1%Z ∧ j = 0%Z) →
  cohesion_steering grid pos vel ent boidParams i =
  Some (scale (35 / 100) (Vector2Subtract (aget pos j) (aget pos i))).
Proof using in_world_p0 in_world_p1 one_apart.
  intros Hij. pose proof (two_agents_distance i j Hij) as Hd.
  unfold cohesion_steering.
  destruct (two_agents_nearby i 20) as (Hnd & Hall & H0 & H1); [tauto | lra |].
  change (perceptionRadius boidParams) with (IZR 20).
  unfold cohesion_sum.
  rewrite (fold_left_single _ i j); [| done | | | |].
  - destruct (Z.eqb_spec i j); [lia |].
    rewrite two_agents_active by lia. cbn [negb orb].
    rewrite Hd. exact_arith.
    change (perceptionRadius boidParams) with (IZR 20).
    rewrite !Rltb_true by lra. cbv beta iota zeta.
    change (0 + 1)%Z with 1%Z. change (1 >? 0)%Z with true. cbv iota.
    rewrite two_agents_at_rest by lia. f_equal.
    change (maxSpeed boidParams) with (@of_int real 5).
    change (maxForce boidParams) with (@decimal real 7 10).
    change (cohesionWeight boidParams) with (@decimal real 5 10).
    replace (Vector2Subtract (Vector2DivScalar _ _) _)
      with (Vector2Subtract (aget pos j) (aget pos i)).
    + rewrite real_steer_unit by (by rewrite <- Hd, real_distance_sym).
      unfold scale, decimal. f_equal; exact_arith; lra.
    + destruct (aget pos i) as [xi yi], (aget pos j) as [xj yj].
      unfold Vector2DivScalar, Vector2Add, Vector2Subtract, Vector2Zero.
      f_equal; exact_arith; field.
  - intros k Hk. specialize (Hall k Hk). lia.
  - destruct Hij as [[_ ->] | [_ ->]]; done.
  - lia.
  - intros [steering total]. by rewrite Z.eqb_refl.
Qed.

Variable cols : list Color.

Lemma real_length_scale (k : R) (u : Vector2) :
  0 <= k → Vector2Length u = 1 → Vector2Length (scale k u) = k.
Proof.
  destruct u as [x y]. unfold Vector2Length, scale. exact_arith. intros Hk Hlen.
  replace (k * x * (k * x) + k * y * (k * y)) with (k * k * (x * x + y * y)) by ring.
  rewrite sqrt_mult_alt by nra. rewrite Hlen, sqrt_square by done. ring.
Qed.

(** Every steering force is a limited vector multiplied by the weight of its
    system: the clamp to [maxForce] comes before the weight. *)
Lemma steering_limit_then_weight {S : Scalar} (f : ForceSystem)
    (grid' : SpatialGrid) (pos' vel' : list (@Vector2 S)) (ent' : list Entity)
    (params : @BoidParams S) (i : Z) (steering : @Vector2 S) :
  steering_of f grid' pos' vel' ent' params i = Some steering →
  ∃ u, steering =
       Vector2MulScalar (Vector2Limit u (maxForce params)) (weight_of f params).
Proof.
  destruct f; cbn [steering_of weight_of];
    unfold separation_steering, alignment_steering, cohesion_steering;
    repeat case_match; intros [= <-]; eauto.
Qed.

(** In exact arithmetic, for two active agents at rest inside the world and
    exactly one unit apart, with the default parameters: what the separation
    system leaves in [acc], and what the three systems leave at the end of the
    force phase of a tick. *)
Lemma two_agents_exact :
  let acc := AccelerationResetSystem [a0; a1] ent 2 in
  let sep := BoidSeparationSystem grid pos vel acc ent 2 boidParams in
  let s := mkStore ent pos vel [a0; a1] cols 2 in
  let after := accelerations (Tick grid0 s boidParams).2 in
  aget sep 0 = scale (21 / 10) (Vector2Subtract p0 p1) ∧
  aget sep 1 = scale (21 / 10) (Vector2Subtract p1 p0) ∧
  Vector2Length (aget sep 0) = 21 / 10 ∧
  Vector2Length (aget sep 1) = 21 / 10 ∧
  aget after 0 = scale (175 / 100) (Vector2Subtract p0 p1) ∧
  aget after 1 = scale (175 / 100) (Vector2Subtract p1 p0).
Proof using in_world_p0 in_world_p1 one_apart.
  intros acc sep s after.
  assert (acc = [Vector2Zero; Vector2Zero]) as Hacc by reflexivity.
  assert (∀ i j, (i = 0%Z ∧ j = 1%Z) ∨ (i = 1%Z ∧ j = 0%Z) →
            aget sep i = scale (21 / 10) (Vector2Subtract (aget pos i) (aget pos j)))
    as Hsep.
  { intros i j Hij.
    destruct (run_force_pointwise Separation grid pos vel acc ent 2 boidParams)
      as [_ Hget].
    cbn [run_force] in Hget. fold sep in Hget. rewrite Hget, Hacc.
    rewrite decide_True by (cbn; lia).
    unfold contribution. rewrite two_agents_active by lia. cbn [steering_of].
    rewrite (two_agents_separation i j Hij).
    replace (aget [Vector2Zero; Vector2Zero] i) with Vector2Zero
      by (by destruct Hij as [[-> _] | [-> _]]).
    unfold add_contribution, Vector2Add, Vector2Zero, scale.
    f_equal; exact_arith; ring. }
  assert (∀ i j, (i = 0%Z ∧ j = 1%Z) ∨ (i = 1%Z ∧ j = 0%Z) →
            aget after i = scale (175 / 100) (Vector2Subtract (aget pos i) (aget pos j)))
    as Hafter.
  { intros i j Hij. subst after. unfold Tick. cbn [accelerations entities
      positions velocities entityCount].
    destruct (PhysicsSystem _ _ _ _ _ _) as [pos' vel']. cbn [snd accelerations].
    fold pos vel ent grid acc.
    destruct (run_forces_pointwise main_order grid pos vel acc ent 2 boidParams)
      as [_ Hget].
    rewrite Hget, Hacc. rewrite decide_True by (cbn; lia).
    unfold main_order. cbn [fmap list_fmap fold_left].
    unfold contribution. rewrite two_agents_active by lia. cbn [steering_of].
    rewrite (two_agents_separation i j Hij), (two_agents_alignment i j Hij),
      (two_agents_cohesion i j Hij).
    replace (aget [Vector2Zero; Vector2Zero] i) with Vector2Zero
      by (by destruct Hij as [[-> _] | [-> _]]).
    destruct (aget pos i) as [xi yi], (aget pos j) as [xj yj].
    unfold add_contribution, Vector2Add, Vector2Subtract, Vector2Zero, scale.
    f_equal; exact_arith; field. }
  rewrite <- two_agents_pos_0, <- two_agents_pos_1.
  rewrite (Hsep 0%Z 1%Z), (Hsep 1%Z 0%Z), (Hafter 0%Z 1%Z), (Hafter 1%Z 0%Z) by lia.
  repeat split.
  - apply real_length_scale; [lra |]. exact (two_agents_distance 0 1 ltac:(lia)).
  - apply real_length_scale; [lra |]. exact (two_agents_distance 1 0 ltac:(lia)).
Qed.

End ExactScenario.

(** C2 (as stated) fails for the whole tick: with the default parameters the
    two agents at (100, 100) and (101, 100) end the tick with accelerations
    of about 1.75 (the separation force of 2.1 less the cohesion force of
    0.35), whose length is below 1.8 and so not close to 2.1. *)
Lemma two_agents_tick_counterexample :
  let after := accelerations (@Tick binary32 [] Scenario.store_b boidParams).2 in
  vx (aget after 0) = S754_finite true 14680063 (-23) ∧
  vy (aget after 0) = S754_zero false ∧
  vx (aget after 1) = S754_finite false 14680063 (-23) ∧
  vy (aget after 1) = S754_zero false ∧
  SFltb (@Vector2Length binary32 (aget after 0)) (@decimal binary32 18 10) = true ∧
  SFltb (@Vector2Length binary32 (aget after 1)) (@decimal binary32 18 10) = true.
Proof. vm_compute. done. Qed.

(** C2 (as amended). The steering force of every system is clamped to
    [maxForce] before it is multiplied by the weight.  In exact arithmetic,
    for two active agents at rest inside the world and exactly one unit apart,
    with the default parameters: once the separation system has run, the
    acceleration of each agent is 2.1 times the unit vector pointing away from
    the other (length [0.7 * 3.0 = 2.1], more than [maxForce]); at the end of
    the whole tick the cohesion system has added 0.35 times the opposite unit
    vector, so the acceleration is 1.75 times the unit vector pointing away.
    In binary32, for the agents at (100, 100) and (101, 100), the separation
    system leaves accelerations of 8808038 * 2^-22 (2.1 up to rounding),
    pointing away from each other. *)
Theorem two_agents_one_unit_apart :
  (∀ (S : Scalar) f grid pos vel ent params i steering,
     @steering_of S f grid pos vel ent params i = Some steering →
     ∃ u, steering =
          Vector2MulScalar (Vector2Limit u (maxForce params)) (weight_of f params)) ∧
  (∀ (grid0 : SpatialGrid) (p0 p1 a0 a1 : @Vector2 real) (cols : list Color),
     in_world p0 → in_world p1 → @Vector2Distance real p0 p1 = 1%R →
     let pos := [p0; p1] in
     let vel := [@Vector2Zero real; @Vector2Zero real] in
     let ent := [mkEntity true; mkEntity true] in
     let grid := @SpatialGridUpdateSystem real grid0 pos ent 2 in
     let acc := @AccelerationResetSystem real [a0; a1] ent 2 in
     let sep := @BoidSeparationSystem real grid pos vel acc ent 2 boidParams in
     let s := @mkStore real ent pos vel [a0; a1] cols 2 in
     let after := accelerations (@Tick real grid0 s boidParams).2 in
     aget sep 0 = scale (21 / 10) (Vector2Subtract p0 p1) ∧
     aget sep 1 = scale (21 / 10) (Vector2Subtract p1 p0) ∧
     @Vector2Length real (aget sep 0) = (21 / 10)%R ∧
     @Vector2Length real (aget sep 1) = (21 / 10)%R ∧
     aget after 0 = scale (175 / 100) (Vector2Subtract p0 p1) ∧
     aget after 1 = scale (175 / 100) (Vector2Subtract p1 p0)) ∧
  (let grid := @SpatialGridUpdateSystem binary32 [] (positions Scenario.store_b)
                 Scenario.two_active 2 in
   let sep := @BoidSeparationSystem binary32 grid (positions Scenario.store_b)
                (velocities Scenario.store_b) (accelerations Scenario.store_b)
                Scenario.two_active 2 boidParams in
   vx (aget sep 0) = S754_finite true 8808038 (-22) ∧
   vy (aget sep 0) = S754_zero false ∧
   vx (aget sep 1) = S754_finite false 8808038 (-22) ∧
   vy (aget sep 1) = S754_zero false).
Proof.
  split; [| split].
  - intros S f grid pos vel ent params i steering.
    apply steering_limit_then_weight.
  - intros grid0 p0 p1 a0 a1 cols H0 H1 Hd.
    exact (two_agents_exact grid0 p0 p1 a0 a1 H0 H1 Hd cols).
  - vm_compute. done.
Qed.

(** * The theorems at concrete inputs *)

Lemma CreateEntity_spec_witness :
  let s0 := Scenario.store_of 0 in
  let s1 := Scenario.store_of MAX_ENTITIES in
  (store_arrays_ok s0 ∧ 0 ≤ entityCount s0 ∧
   (∃ s', CreateEntity s0 (Scenario.vec 1 2) (Scenario.vec 3 4) (mkColor 1 2 3 4)
          = (0, s') ∧ entityCount s' = 1)) ∧
  (store_arrays_ok s1 ∧ 0 ≤ entityCount s1 ∧
   CreateEntity s1 (Scenario.vec 1 2) (Scenario.vec 3 4) (mkColor 1 2 3 4) = (-1, s1)).
Proof.
  intros s0 s1.
  assert (store_arrays_ok s0) as Hok0 by (repeat split; vm_compute; reflexivity).
  assert (store_arrays_ok s1) as Hok1 by (repeat split; vm_compute; reflexivity).
  assert (0 ≤ entityCount s0) as Hc0 by (cbn; lia).
  assert (0 ≤ entityCount s1) as Hc1 by (cbn; unfold MAX_ENTITIES; lia).
  split; (split; [assumption | split; [assumption |]]).
  - destruct (CreateEntity_spec s0 (Scenario.vec 1 2) (Scenario.vec 3 4)
                (mkColor 1 2 3 4) Hok0 Hc0) as [Hfree _].
    destruct Hfree as (s' & Heq & _ & _ & _ & _ & _ & Hcount & _).
    { cbn. unfold MAX_ENTITIES. lia. }
    exists s'. split; [exact Heq | exact Hcount].
  - destruct (CreateEntity_spec s1 (Scenario.vec 1 2) (Scenario.vec 3 4)
                (mkColor 1 2 3 4) Hok1 Hc1) as [_ Hfull].
    apply Hfull. cbn. lia.
Defined.

Lemma no_neighbour_no_force_witness :
  let acc := [Scenario.vec 1 1; Scenario.vec 2 2] in
  @qualifying binary32 Scenario.grid_c Scenario.pos_c Scenario.two_active 0
    (radius_of Separation boidParams) = [] ∧
  aget (@run_force binary32 Scenario.grid_c Scenario.pos_c Scenario.vel_a
          Scenario.two_active 2 boidParams acc Separation) 0 = aget acc 0.
Proof.
  intros acc.
  assert (@qualifying binary32 Scenario.grid_c Scenario.pos_c Scenario.two_active 0
            (radius_of Separation boidParams) = []) as Hq
    by (vm_compute; reflexivity).
  exact (conj Hq (@no_neighbour_no_force binary32 Separation Scenario.grid_c
                    Scenario.pos_c Scenario.vel_a acc Scenario.two_active 2
                    boidParams 0 Hq)).
Defined.

Lemma SpatialGridUpdateSystem_invariant_witness :
  @QuerySpatialGrid binary32 Scenario.grid_a (Scenario.vec 100 100)
    (B32.b32_of_int 10) NEARBY_MAX = [0; 1] ∧
  (0 ≤ 1 < 2 ∧ active (aget Scenario.two_active 1) = true).
Proof.
  assert (@QuerySpatialGrid binary32 Scenario.grid_a (Scenario.vec 100 100)
            (B32.b32_of_int 10) NEARBY_MAX = [0; 1]) as Hq
    by (vm_compute; reflexivity).
  split; [exact Hq |].
  destruct (@SpatialGridUpdateSystem_invariant binary32 [] Scenario.pos_a
              Scenario.two_active 2) as (_ & _ & Hids).
  apply (Hids (Scenario.vec 100 100) (B32.b32_of_int 10) NEARBY_MAX 1).
  fold Scenario.grid_a. rewrite Hq. apply elem_of_cons. right.
  apply elem_of_cons. by left.
Defined.

Lemma AddToSpatialGrid_full_cell_witness :
  let before := @SpatialGridUpdateSystem binary32 [] Scenario.pos_d Scenario.crowd 100 in
  let grid := @SpatialGridUpdateSystem binary32 [] Scenario.pos_d Scenario.crowd 101 in
  (0 ≤ 100 < 101 ∧ active (aget Scenario.crowd 100) = true ∧
   MAX_ENTITIES_PER_CELL ≤
     cell_count (cell_at before (cell_of (aget Scenario.pos_d 100)).1
                   (cell_of (aget Scenario.pos_d 100)).2)) ∧
  @AddToSpatialGrid binary32 before 100 (aget Scenario.pos_d 100) = before ∧
  100 ∉ @QuerySpatialGrid binary32 grid (Scenario.vec 100 100)
          (B32.b32_of_int 10) NEARBY_MAX.
Proof.
  intros before grid.
  assert (0 ≤ 100 < 101) as Hi by lia.
  assert (active (aget Scenario.crowd 100) = true) as Hact by reflexivity.
  assert (MAX_ENTITIES_PER_CELL ≤
            cell_count (cell_at before (cell_of (aget Scenario.pos_d 100)).1
                          (cell_of (aget Scenario.pos_d 100)).2)) as Hfull
    by (vm_compute; discriminate).
  destruct (@AddToSpatialGrid_full_cell binary32) as [Hnoop Hdropped].
  split; [exact (conj Hi (conj Hact Hfull)) | split].
  - apply Hnoop, Hfull.
  - apply (Hdropped [] Scenario.pos_d Scenario.crowd 101 100 Hi Hact Hfull).
Defined.

Lemma WrapAroundSystem_spec_witness :
  let pos := [Scenario.vec (-5) 2000] in
  let ent := [mkEntity true] in
  let pos' := @WrapAroundSystem binary32 pos ent 1 SCREEN_WIDTH SCREEN_HEIGHT in
  (0 ≤ 0 < 1 ∧ 0 < Z.of_nat (length pos) ∧ active (aget ent 0) = true) ∧
  aget pos' 0 =
    @mkVector2 binary32
      (@wrap_axis binary32 (vx (aget pos 0)) SCREEN_WIDTH)
      (@wrap_axis binary32 (vy (aget pos 0)) SCREEN_HEIGHT) ∧
  @wrap_axis binary32 (vx (aget pos 0)) SCREEN_WIDTH = B32.b32_of_int SCREEN_WIDTH ∧
  @wrap_axis binary32 (vy (aget pos 0)) SCREEN_HEIGHT = B32.b32_of_int 0 ∧
  @WrapAroundSystem binary32 pos' ent 1 SCREEN_WIDTH SCREEN_HEIGHT = pos'.
Proof.
  intros pos ent pos'.
  assert (0 ≤ 0 < 1) as Hi by lia.
  assert (0 < Z.of_nat (length pos)) as Hlen by (cbn; lia).
  assert (active (aget ent 0) = true) as Hact by reflexivity.
  destruct (WrapAroundSystem_spec pos ent 1 SCREEN_WIDTH SCREEN_HEIGHT)
    as (Hwrap & _ & _ & Hidem).
  split; [exact (conj Hi (conj Hlen Hact)) |].
  split; [exact (Hwrap 0 Hi Hlen Hact) |].
  split; [vm_compute; reflexivity |]. split; [vm_compute; reflexivity |].
  exact Hidem.
Defined.

Lemma magnitude_guards_witness :
  @Vector2Limit_divisor binary32 (Scenario.vec 3 4) (B32.b32_of_int 1)
    = Some (B32.b32_of_int 5) ∧
  is_zero (B32.b32_of_int 5) = false ∧
  (is_zero (vx (Scenario.vec 0 0)) = true ∧ is_zero (vy (Scenario.vec 0 0)) = true) ∧
  @Vector2SetMag binary32 (Scenario.vec 0 0) (B32.b32_of_int 5) = Scenario.vec 0 0 ∧
  @Vector2Limit binary32 (Scenario.vec 0 0) (B32.b32_of_int 5) = Scenario.vec 0 0.
Proof.
  assert (@Vector2Limit_divisor binary32 (Scenario.vec 3 4) (B32.b32_of_int 1)
          = Some (B32.b32_of_int 5)) as Hd by (vm_compute; reflexivity).
  assert (is_zero (vx (Scenario.vec 0 0)) = true) as Hx by reflexivity.
  assert (is_zero (vy (Scenario.vec 0 0)) = true) as Hy by reflexivity.
  destruct magnitude_guards as (_ & _ & Hlimit & _ & Hzero).
  split; [exact Hd |]. split; [exact (Hlimit _ _ _ Hd) |].
  split; [exact (conj Hx Hy) |].
  exact (Hzero (Scenario.vec 0 0) (B32.b32_of_int 5) Hx Hy).
Defined.

Section ExactWitnesses.
Local Existing Instance real.
Local Open Scope R_scope.

Lemma two_agents_one_unit_apart_witness :
  let p0 := mkVector2 100 100 in
  let p1 := mkVector2 101 100 in
  let s := mkStore [mkEntity true; mkEntity true] [p0; p1]
             [Vector2Zero; Vector2Zero] [mkVector2 9 9; mkVector2 8 8] [] 2 in
  (in_world p0 ∧ in_world p1 ∧ Vector2Distance p0 p1 = 1) ∧
  aget (accelerations (Tick [] s boidParams).2) 0
    = scale (175 / 100) (Vector2Subtract p0 p1) ∧
  aget (accelerations (Tick [] s boidParams).2) 1
    = scale (175 / 100) (Vector2Subtract p1 p0).
Proof.
  intros p0 p1 s.
  assert (in_world p0) as H0
    by (unfold in_world, p0, SCREEN_WIDTH, SCREEN_HEIGHT; exact_arith; lra).
  assert (in_world p1) as H1
    by (unfold in_world, p1, SCREEN_WIDTH, SCREEN_HEIGHT; exact_arith; lra).
  assert (Vector2Distance p0 p1 = 1) as Hd.
  { unfold Vector2Distance, p0, p1. exact_arith.
    replace ((100 - 101) * (100 - 101) + (100 - 100) * (100 - 100)) with 1 by ring.
    apply sqrt_1. }
  split; [exact (conj H0 (conj H1 Hd)) |].
  destruct (proj1 (proj2 two_agents_one_unit_apart) [] p0 p1 (@mkVector2 real 9 9)
              (@mkVector2 real 8 8) [] H0 H1 Hd)
    as (_ & _ & _ & _ & Ha0 & Ha1).
  split; [exact Ha0 | exact Ha1].
Defined.

Lemma force_order_witness :
  [Separation; Alignment; Cohesion] ≡ₚ [Cohesion; Alignment; Separation] ∧
  let pos := [mkVector2 100 100; mkVector2 103 104] in
  let vel := [mkVector2 1 0; mkVector2 0 1] in
  let acc := [mkVector2 0 0; mkVector2 0 0] in
  let ent := [mkEntity true; mkEntity true] in
  let grid := SpatialGridUpdateSystem [] pos ent 2 in
  run_forces [Separation; Alignment; Cohesion] grid pos vel acc ent 2 boidParams =
  run_forces [Cohesion; Alignment; Separation] grid pos vel acc ent 2 boidParams.
Proof.
  assert ([Separation; Alignment; Cohesion] ≡ₚ [Cohesion; Alignment; Separation])
    as Hperm.
  { etransitivity; [apply perm_swap |]. etransitivity; [apply perm_skip, perm_swap |].
    apply perm_swap. }
  split; [exact Hperm |]. intros pos vel acc ent grid.
  exact (proj2 force_order _ _ grid pos vel acc ent 2%Z boidParams Hperm).
Defined.

End ExactWitnesses.

(** * Rounding in binary32 *)

Section BpowFacts.
Local Open Scope R_scope.

Lemma bpow_pos (e : Z) : 0 < bpow e.
Proof. apply powerRZ_lt. lra. Qed.

Lemma bpow_plus (e1 e2 : Z) : bpow (e1 + e2) = bpow e1 * bpow e2.
Proof. apply powerRZ_add. lra. Qed.

Lemma bpow_succ (e : Z) : bpow (e + 1) = 2 * bpow e.
Proof. rewrite bpow_plus. unfold bpow at 2. change (powerRZ 2 1) with (2 * 1)%R. lra. Qed.

Lemma bpow_IZR (n : Z) : (0 ≤ n)%Z → bpow n = IZR (2 ^ n).
Proof.
  intros Hn. unfold bpow. destruct n as [| p | p]; [done | | lia].
  by rewrite <- Zpower_pos_powerRZ.
Qed.

Lemma bpow_ge_1 (n : Z) : (0 ≤ n)%Z → 1 <= bpow n.
Proof.
  intros Hn. rewrite bpow_IZR by done. apply IZR_le.
  pose proof (Z.pow_pos_nonneg 2 n). lia.
Qed.

Lemma bpow_le (e1 e2 : Z) : (e1 ≤ e2)%Z → bpow e1 <= bpow e2.
Proof.
  intros He. replace e2 with (e1 + (e2 - e1))%Z by lia. rewrite bpow_plus.
  pose proof (bpow_pos e1). pose proof (bpow_ge_1 (e2 - e1) ltac:(lia)). nra.
Qed.

Lemma F2R_shift (m e n : Z) : (0 ≤ n)%Z → F2R (m * 2 ^ n) (e - n) = F2R m e.
Proof.
  intros Hn. unfold F2R. rewrite mult_IZR, <- bpow_IZR by done.
  rewrite Rmult_assoc, <- bpow_plus. f_equal. f_equal. lia.
Qed.

End BpowFacts.

Section NearestFacts.
Local Open Scope R_scope.

Lemma inbetween_bounds (m e : Z) (l : location) (x : R) :
  inbetween m e l x → F2R m e <= x < F2R (m + 1) e.
Proof.
  destruct l; cbn.
  - intros ->. unfold F2R. rewrite plus_IZR. pose proof (bpow_pos e). split; nra.
  - intros [? _]. lra.
Qed.

Lemma round_nearest_even_cases (m : Z) (l : location) :
  round_nearest_even m l = m ∨ round_nearest_even m l = (m + 1)%Z.
Proof. destruct l as [| []]; cbn; auto. destruct (Z.even m); auto. Qed.

Lemma canon_emin (m e : Z) : canon m e → (emin B32.prec B32.emax ≤ e)%Z.
Proof. intros [[_ ?] | [_ ->]]; lia. Qed.

Lemma canon_range (m e : Z) : canon m e → (0 ≤ m < 2 ^ 24)%Z.
Proof. intros [[? _] | [? _]]; lia. Qed.

Lemma RN_mono (x1 x2 v1 v2 : R) : RN x1 v1 → RN x2 v2 → x1 <= x2 → v1 <= v2.
Proof.
  intros (m1 & e1 & l1 & Hc1 & Hi1 & ->) (m2 & e2 & l2 & Hc2 & Hi2 & ->) Hx.
  pose proof (inbetween_bounds _ _ _ _ Hi1) as Hb1.
  pose proof (inbetween_bounds _ _ _ _ Hi2) as Hb2.
  pose proof (canon_range _ _ Hc1) as Hr1. pose proof (canon_range _ _ Hc2) as Hr2.
  pose proof (canon_emin _ _ Hc1) as Hm1. pose proof (canon_emin _ _ Hc2) as Hm2.
  pose proof (bpow_pos e1) as Hp1. pose proof (bpow_pos e2) as Hp2.
  unfold F2R in *. rewrite plus_IZR in Hb1, Hb2.
  destruct (Z.lt_trichotomy e1 e2) as [Hlt | [<- | Hgt]].
  - assert (2 ^ 23 ≤ m2)%Z as Hn2 by (destruct Hc2 as [[? _] | [_ ?]]; lia).
    assert (2 * bpow e1 <= bpow e2) as Hbb
      by (rewrite <- bpow_succ; apply bpow_le; lia).
    assert (IZR (round_nearest_even m1 l1) <= 16777216) as Hu
      by (apply IZR_le; destruct (round_nearest_even_cases m1 l1); lia).
    assert (8388608 <= IZR (round_nearest_even m2 l2)) as Hl
      by (apply IZR_le; destruct (round_nearest_even_cases m2 l2); lia).
    nra.
  - assert (m1 ≤ m2)%Z as Hle.
    { assert (m1 < m2 + 1)%Z; [| lia]. apply lt_IZR. rewrite plus_IZR. nra. }
    apply Rmult_le_compat_r; [lra |]. apply IZR_le.
    destruct (Z.eq_dec m1 m2) as [<- | Hne].
    + destruct l1 as [| c1], l2 as [| c2]; cbn in Hi1, Hi2 |- *.
      * lia.
      * destruct c2; [destruct (Z.even m1) |..]; lia.
      * exfalso. destruct Hi1 as [Hi1 _]. unfold F2R in *. lra.
      * destruct Hi1 as [_ Hi1], Hi2 as [_ Hi2]. unfold F2R in *.
        destruct c1, c2; try (destruct (Z.even m1)); try lia; exfalso; lra.
    + destruct (round_nearest_even_cases m1 l1), (round_nearest_even_cases m2 l2); lia.
  - exfalso.
    assert (2 ^ 23 ≤ m1)%Z as Hn1 by (destruct Hc1 as [[? _] | [_ ?]]; lia).
    assert (2 * bpow e2 <= bpow e1) as Hbb
      by (rewrite <- bpow_succ; apply bpow_le; lia).
    assert (8388608 <= IZR m1) as Hl by (apply IZR_le; lia).
    assert (IZR m2 + 1 <= 16777216) as Hu
      by (rewrite <- (plus_IZR m2 1); apply IZR_le; lia).
    nra.
Qed.

End NearestFacts.

Section ShiftFacts.

Lemma shr_1_spec (mrs : shr_record) :
  0 ≤ shr_m mrs →
  shr_1 mrs = Build_shr_record (Z.div2 (shr_m mrs)) (Z.odd (shr_m mrs))
                (shr_r mrs || shr_s mrs).
Proof. destruct mrs as [[| [p | p |] | p] r s]; cbn; done || lia. Qed.

Lemma loc_of_shr_record_of_loc (m : Z) (l : location) :
  loc_of_shr_record (shr_record_of_loc m l) = l.
Proof. by destruct l as [| []]. Qed.

Lemma shr_1_inbetween (mrs : shr_record) (e : Z) (x : R) :
  0 ≤ shr_m mrs →
  inbetween (shr_m mrs) e (loc_of_shr_record mrs) x →
  inbetween (shr_m (shr_1 mrs)) (e + 1) (loc_of_shr_record (shr_1 mrs)) x.
Proof.
  intros Hm. rewrite shr_1_spec by done. destruct mrs as [m r s]. cbn [shr_m shr_r shr_s] in *.
  pose proof (Z.div2_odd m) as Hm2. set (m' := Z.div2 m) in *.
  pose proof (bpow_pos e) as Hp.
  destruct (Z.odd m); cbn [Z.b2z] in Hm2; rewrite Hm2; destruct r, s;
    cbn [orb loc_of_shr_record inbetween]; unfold F2R; rewrite bpow_succ;
    rewrite ?plus_IZR, ?mult_IZR, ?plus_IZR, ?mult_IZR; intros; destruct_and?;
    repeat split; nra.
Qed.

Lemma shr_iter_inbetween (p : positive) (mrs : shr_record) (e : Z) (x : R) :
  0 ≤ shr_m mrs →
  inbetween (shr_m mrs) e (loc_of_shr_record mrs) x →
  let mrs' := SpecFloat.iter_pos shr_1 p mrs in
  inbetween (shr_m mrs') (e + Zpos p) (loc_of_shr_record mrs') x.
Proof.
  assert (∀ mrs, 0 ≤ shr_m mrs → 0 ≤ shr_m (shr_1 mrs)) as H1
    by (intros ??; rewrite shr_m_shr_1 by done; by apply Z.div2_nonneg).
  assert (∀ p mrs, 0 ≤ shr_m mrs → 0 ≤ shr_m (SpecFloat.iter_pos shr_1 p mrs)) as Hn
    by (intros ???; rewrite shr_m_iter_pos by done; by apply Z.shiftr_nonneg).
  revert mrs e. induction p as [p IH | p IH |]; intros mrs e Hm Hi; cbn [SpecFloat.iter_pos].
  - replace (e + Z.pos p~1) with (e + 1 + Z.pos p + Z.pos p) by lia.
    apply IH; [auto |]. apply IH; [auto |]. by apply shr_1_inbetween.
  - replace (e + Z.pos p~0) with (e + Z.pos p + Z.pos p) by lia.
    apply IH; [auto |]. by apply IH.
  - by apply shr_1_inbetween.
Qed.

Lemma digits2_pos_upper (m : positive) : Zpos m < 2 ^ Zpos (digits2_pos m).
Proof.
  induction m as [m IH | m IH |]; cbn [digits2_pos]; [| | done];
    rewrite Pos2Z.inj_succ, Z.pow_succ_r by lia; lia.
Qed.

Lemma Zdigits2_le (m k : Z) : 0 ≤ m < 2 ^ k → 0 ≤ k → Zdigits2 m ≤ k.
Proof.
  intros [Hm Hk] Hk0. destruct m as [| m | m]; [done | | lia]. cbn.
  pose proof (digits2_pos_lower m) as Hl.
  destruct (Z.le_gt_cases (Zpos (digits2_pos m)) k) as [| Hgt]; [done |].
  assert (2 ^ k ≤ 2 ^ (Z.pos (digits2_pos m) - 1)) by (apply Z.pow_le_mono_r; lia).
  lia.
Qed.

Lemma Zdigits2_gt (m k : Z) : 2 ^ k ≤ m → 0 ≤ k → k < Zdigits2 m.
Proof.
  intros Hm Hk0. pose proof (Z.pow_pos_nonneg 2 k).
  destruct m as [| m | m]; [lia | | lia]. cbn.
  pose proof (digits2_pos_upper m) as Hu.
  destruct (Z.lt_ge_cases k (Zpos (digits2_pos m))) as [| Hge]; [done |].
  assert (2 ^ Z.pos (digits2_pos m) ≤ 2 ^ k) by (apply Z.pow_le_mono_r; lia).
  lia.
Qed.

Lemma Zdigits2_bounds (m : Z) :
  0 < m → 2 ^ (Zdigits2 m - 1) ≤ m < 2 ^ Zdigits2 m.
Proof.
  destruct m as [| m | m]; try lia. intros _. cbn.
  split; [apply digits2_pos_lower | apply digits2_pos_upper].
Qed.

(** The first step of rounding: the mantissa is cut to the exponent of the
    format, and the location follows. *)
Lemma shr_fexp_spec (m e : Z) (l : location) (x : R) :
  0 ≤ m → inbetween m e l x →
  e ≤ fexp B32.prec B32.emax (Zdigits2 m + e) →
  let r := shr_fexp B32.prec B32.emax m e l in
  canon (shr_m r.1) r.2 ∧ inbetween (shr_m r.1) r.2 (loc_of_shr_record r.1) x.
Proof.
  intros Hm Hi He. unfold shr_fexp, shr.
  set (d := Zdigits2 m) in *.
  assert (0 ≤ 0 < 2 ^ 23 ∧ 2 ^ 23 < 2 ^ 24) as Hpow by (cbn; lia).
  assert (0 < m → 2 ^ (d - 1) ≤ m < 2 ^ d) as Hd by apply Zdigits2_bounds.
  assert (m = 0 → d = 0) as Hd0 by (by intros ->).
  assert (0 ≤ d) as Hdn by (destruct m; cbn; lia).
  unfold fexp, emin, B32.prec, B32.emax in *.
  destruct (Z.max (d + e - 24) (3 - 128 - 24) - e) as [| n | n] eqn:Hn;
    cbn [fst snd]; [| | lia].
  - rewrite shr_m_shr_record_of_loc, loc_of_shr_record_of_loc. split; [| done].
    unfold canon, emin, B32.prec, B32.emax.
    destruct (Z.eq_dec d 24) as [Hd24 | Hd24].
    + left. assert (0 < m) by lia. rewrite Hd24 in Hd. cbn in Hd. lia.
    + right. split; [| lia]. split; [done |].
      destruct (Z.eq_dec m 0) as [-> | ?]; [lia |].
      assert (2 ^ d ≤ 2 ^ 23) by (apply Z.pow_le_mono_r; lia). lia.
  - split.
    + rewrite shr_m_iter_pos by (by rewrite shr_m_shr_record_of_loc).
      rewrite shr_m_shr_record_of_loc, Z.shiftr_div_pow2 by lia.
      unfold canon, emin, B32.prec, B32.emax.
      destruct (Z.le_gt_cases (3 - 128 - 24) (d + e - 24)) as [Hnorm | Hsub].
      * left. assert (Z.pos n = d - 24) as -> by lia.
        assert (0 < m) as Hm0 by lia. specialize (Hd Hm0).
        assert (2 ^ (d - 1) = 2 ^ 23 * 2 ^ (d - 24)) as Hlo
          by (rewrite <- Z.pow_add_r by lia; f_equal; lia).
        assert (2 ^ d = 2 ^ 24 * 2 ^ (d - 24)) as Hhi
          by (rewrite <- Z.pow_add_r by lia; f_equal; lia).
        pose proof (Z.pow_pos_nonneg 2 (d - 24)) as Hpp.
        split; [split |]; [| | lia].
        -- apply Z.div_le_lower_bound; lia.
        -- apply Z.div_lt_upper_bound; lia.
      * right. split; [| lia].
        pose proof (Z.pow_pos_nonneg 2 (Z.pos n)) as Hpp.
        split; [apply Z.div_pos; lia |].
        apply Z.div_lt_upper_bound; [lia |].
        destruct (Z.eq_dec m 0) as [-> | ?]; [lia |].
        assert (2 ^ d ≤ 2 ^ (Z.pos n + 23)) by (apply Z.pow_le_mono_r; lia).
        rewrite Z.pow_add_r in * by lia. lia.
    + apply shr_iter_inbetween; rewrite ?shr_m_shr_record_of_loc,
        ?loc_of_shr_record_of_loc; done.
Qed.

End ShiftFacts.

Section RoundAux.

Lemma overflow_bound (m e : Z) (x : R) :
  2 ^ 23 ≤ m → 104 ≤ e → (F2R m e <= x)%R → (bpow 127 <= x)%R.
Proof.
  intros Hm He Hx. unfold F2R in Hx.
  replace 127 with (23 + 104) by lia. rewrite bpow_plus, (bpow_IZR 23) by lia.
  pose proof (bpow_le 104 e He). pose proof (bpow_pos 104).
  assert (IZR (2 ^ 23) <= IZR m)%R by (by apply IZR_le).
  assert (0 < IZR (2 ^ 23))%R by (apply IZR_lt; lia).
  nra.
Qed.

(** [binary_round_aux] rounds to nearest, ties to even (or overflows). *)
Lemma binary_round_aux_RN (s : bool) (m e : Z) (l : location) (x : R) :
  0 ≤ m → inbetween m e l x →
  e ≤ fexp B32.prec B32.emax (Zdigits2 m + e) →
  rounds s x (binary_round_aux B32.prec B32.emax s m e l).
Proof.
  intros Hm Hi He. unfold binary_round_aux.
  pose proof (shr_fexp_spec m e l x Hm Hi He) as [Hc Hi1].
  destruct (shr_fexp B32.prec B32.emax m e l) as [mrs1 e1]. cbn [fst snd] in *.
  set (m1 := shr_m mrs1) in *. set (l1 := loc_of_shr_record mrs1) in *.
  pose proof (canon_range _ _ Hc) as Hr. pose proof (canon_emin _ _ Hc) as Hmin.
  pose proof (inbetween_bounds _ _ _ _ Hi1) as [Hlow _].
  assert (104 ≤ e1 → 2 ^ 23 ≤ m1 → (bpow 127 <= x)%R) as Hover
    by (intros; by apply (overflow_bound m1 e1)).
  assert (104 < e1 → 2 ^ 23 ≤ m1) as Hnorm
    by (unfold canon, emin, B32.prec, B32.emax in *; destruct Hc as [[? _] | [_ ?]]; lia).
  assert (RN x (F2R (round_nearest_even m1 l1) e1)) as HRN
    by (exists m1, e1, l1; done).
  set (mr := round_nearest_even m1 l1) in *.
  assert (m1 ≤ mr ≤ m1 + 1) as Hmr
    by (destruct (round_nearest_even_cases m1 l1); subst mr; lia).
  unfold shr_fexp, shr, fexp, emin, B32.prec, B32.emax in *.
  change (2 ^ 24) with 16777216 in *. change (2 ^ 23) with 8388608 in *.
  destruct (Z.eq_dec mr 16777216) as [Heq | Hne].
  - rewrite Heq in *. change (Zdigits2 16777216) with 25.
    replace (Z.max (25 + e1 - 24) (3 - 128 - 24) - e1) with 1 by lia.
    cbn [SpecFloat.iter_pos shr_record_of_loc shr_1 shr_m].
    replace (F2R 16777216 e1) with (F2R 8388608 (e1 + 1)) in HRN
      by (unfold F2R; rewrite bpow_succ; lra).
    destruct (Z.leb_spec (e1 + 1) (128 - 24)); cbn; [done |].
    split; [done |]. apply Hover; lia.
  - assert (Zdigits2 mr ≤ 24) as Hd by (apply Zdigits2_le; cbn; lia).
    destruct (Z.max (Zdigits2 mr + e1 - 24) (3 - 128 - 24) - e1) as [| n | n] eqn:Hn;
      [| lia |]; rewrite shr_m_shr_record_of_loc.
    all: destruct mr as [| mr' | mr']; [| | lia]; cbn.
    all: try (split; [done |]).
    all: try by replace 0%R with (F2R 0 e1) by (unfold F2R; lra).
    all: destruct (Z.leb_spec e1 (128 - 24)); cbn; [done |].
    all: split; [done |]; apply Hover; lia.
Qed.

End RoundAux.

Section AddSub.

Lemma iter_xO (m d : positive) : Zpos (Pos.iter xO m d) = Zpos m * 2 ^ Zpos d.
Proof.
  induction d as [| d IH] using Pos.peano_ind.
  - cbn. lia.
  - rewrite Pos.iter_succ, Pos2Z.inj_xO, IH, Pos2Z.inj_succ, Z.pow_succ_r by lia. lia.
Qed.

Lemma shl_align_spec (mx : positive) (ex ex' : Z) :
  let r := shl_align mx ex ex' in
  r.2 = Z.min ex ex' ∧ Zpos r.1 = Zpos mx * 2 ^ (ex - r.2).
Proof.
  unfold shl_align. destruct (ex' - ex) as [| d | d] eqn:Hd; cbn [fst snd].
  - split; [lia |]. replace (ex - ex) with 0 by lia. lia.
  - split; [lia |]. replace (ex - ex) with 0 by lia. lia.
  - split; [lia |]. rewrite iter_xO. f_equal. f_equal. lia.
Qed.

Lemma F2R_shl_align (mx : positive) (ex ex' : Z) :
  let r := shl_align mx ex ex' in F2R (Zpos r.1) r.2 = F2R (Zpos mx) ex.
Proof.
  destruct (shl_align_spec mx ex ex') as [He Hm]. cbn zeta. rewrite Hm.
  set (e := (shl_align mx ex ex').2) in *.
  replace e with (ex - (ex - e)) at 2 by lia. apply F2R_shift. lia.
Qed.

Lemma Zdigits2_shift (m k : Z) :
  0 < m → 0 ≤ k → Zdigits2 (m * 2 ^ k) = Zdigits2 m + k.
Proof.
  intros Hm Hk. pose proof (Zdigits2_bounds m Hm) as [Hl Hu].
  pose proof (Z.pow_pos_nonneg 2 k) as Hp.
  assert (0 < Zdigits2 m) as Hd by (destruct m; cbn; lia).
  assert (Zdigits2 (m * 2 ^ k) ≤ Zdigits2 m + k).
  { apply Zdigits2_le; [| lia]. rewrite Z.pow_add_r by lia. nia. }
  assert (Zdigits2 m + k - 1 < Zdigits2 (m * 2 ^ k)).
  { apply Zdigits2_gt; [| lia].
    replace (Zdigits2 m + k - 1) with (Zdigits2 m - 1 + k) by lia.
    rewrite Z.pow_add_r by lia. nia. }
  lia.
Qed.

Lemma binary_round_RN (s : bool) (mx : positive) (ex : Z) :
  rounds s (F2R (Zpos mx) ex) (binary_round B32.prec B32.emax s mx ex).
Proof.
  unfold binary_round.
  set (e' := fexp B32.prec B32.emax (Z.pos (digits2_pos mx) + ex)).
  pose proof (shl_align_spec mx ex e') as [He Hm].
  pose proof (F2R_shl_align mx ex e') as HF.
  destruct (shl_align mx ex e') as [mz ez]. cbn [fst snd] in *.
  rewrite <- HF. apply binary_round_aux_RN; [lia | done |].
  rewrite Hm, Zdigits2_shift by lia. cbn [Zdigits2].
  replace (Z.pos (digits2_pos mx) + (ex - ez) + ez) with (Z.pos (digits2_pos mx) + ex) by lia.
  fold e'. lia.
Qed.

Lemma F2R_opp (m e : Z) : F2R (- m) e = (- F2R m e)%R.
Proof. unfold F2R. rewrite opp_IZR. lra. Qed.

Lemma F2R_plus (m1 m2 e : Z) : F2R (m1 + m2) e = (F2R m1 e + F2R m2 e)%R.
Proof. unfold F2R. rewrite plus_IZR. lra. Qed.

Lemma F2R_pos (m : positive) (e : Z) : (0 < F2R (Zpos m) e)%R.
Proof.
  unfold F2R. apply Rmult_lt_0_compat; [| apply bpow_pos]. by apply IZR_lt.
Qed.

Lemma binary_normalize_approx (z e : Z) :
  approx (F2R z e) (binary_normalize B32.prec B32.emax z e false).
Proof.
  destruct z as [| m | m]; cbn [binary_normalize].
  - left. split; [done |]. unfold F2R. cbn. lra.
  - right. left. split; [apply F2R_pos | apply binary_round_RN].
  - assert (F2R (Z.neg m) e = - F2R (Z.pos m) e)%R as ->
      by (rewrite <- F2R_opp; done).
    pose proof (F2R_pos m e). right. right. split; [lra |].
    rewrite Ropp_involutive. apply binary_round_RN.
Qed.

Lemma B2R_finite (s : bool) (m : positive) (e : Z) :
  B2R (S754_finite s m e) = (if s then - F2R (Zpos m) e else F2R (Zpos m) e)%R.
Proof. destruct s; cbn; [apply (F2R_opp (Zpos m)) | done]. Qed.

Lemma F2R_cond_Zopp (s : bool) (m e : Z) :
  F2R (cond_Zopp s m) e = (if s then - F2R m e else F2R m e)%R.
Proof. destruct s; cbn; [apply F2R_opp | done]. Qed.

Lemma SFadd_approx (a b : spec_float) :
  is_finite a = true → is_finite b = true →
  approx (B2R a + B2R b) (SFadd B32.prec B32.emax a b).
Proof.
  destruct a as [sa | | | sa ma ea], b as [sb | | | sb mb eb]; try done; intros _ _.
  - left. split; [by destruct sa, sb |]. destruct sa, sb; cbn; lra.
  - left. split; [done |]. cbn [SFadd B2R]. lra.
  - left. split; [done |]. cbn [SFadd B2R]. lra.
  - cbn [SFadd]. set (ez := Z.min ea eb).
    pose proof (shl_align_spec ma ea ez) as [Hea _].
    pose proof (shl_align_spec mb eb ez) as [Heb _].
    pose proof (F2R_shl_align ma ea ez) as Ha.
    pose proof (F2R_shl_align mb eb ez) as Hb. cbn zeta in *.
    replace (Z.min ea ez) with ez in * by lia.
    replace (Z.min eb ez) with ez in * by lia.
    rewrite Hea in Ha. rewrite Heb in Hb.
    match goal with |- approx ?x (binary_normalize _ _ ?z _ _) =>
      replace x with (F2R z ez); [apply binary_normalize_approx |] end.
    rewrite F2R_plus, !F2R_cond_Zopp, Ha, Hb. cbn [B2R]. by rewrite !F2R_cond_Zopp.
Qed.

Lemma SFsub_approx (a b : spec_float) :
  is_finite a = true → is_finite b = true →
  approx (B2R a - B2R b) (SFsub B32.prec B32.emax a b).
Proof.
  destruct a as [sa | | | sa ma ea], b as [sb | | | sb mb eb]; try done; intros _ _.
  - left. split; [by destruct sa, sb |]. destruct sa, sb; cbn; lra.
  - left. split; [done |]. cbn [SFsub]. rewrite !B2R_finite. cbn [B2R].
    destruct sb; cbn; lra.
  - left. split; [done |]. cbn [SFsub B2R]. lra.
  - cbn [SFsub]. set (ez := Z.min ea eb).
    pose proof (shl_align_spec ma ea ez) as [Hea _].
    pose proof (shl_align_spec mb eb ez) as [Heb _].
    pose proof (F2R_shl_align ma ea ez) as Ha.
    pose proof (F2R_shl_align mb eb ez) as Hb. cbn zeta in *.
    replace (Z.min ea ez) with ez in * by lia.
    replace (Z.min eb ez) with ez in * by lia.
    rewrite Hea in Ha. rewrite Heb in Hb.
    match goal with |- approx ?x (binary_normalize _ _ ?z _ _) =>
      replace x with (F2R z ez); [apply binary_normalize_approx |] end.
    unfold Z.sub at 1. rewrite F2R_plus, F2R_opp, !F2R_cond_Zopp, Ha, Hb.
    cbn [B2R]. rewrite !F2R_cond_Zopp. lra.
Qed.

End AddSub.

Section Division.

Lemma new_location_spec (n r : Z) :
  0 < n → 0 ≤ r < n →
  match new_location n r with
  | loc_Exact => r = 0
  | loc_Inexact c =>
      0 < r ∧ match c with Lt => 2 * r < n | Eq => 2 * r = n | Gt => n < 2 * r end
  end.
Proof.
  intros Hn Hr. unfold new_location, new_location_even, new_location_odd.
  destruct (Z.even n) eqn:Hev; destruct (Z.eqb_spec r 0); try done;
    (split; [lia |]).
  - destruct (Z.compare_spec (2 * r) n); lia.
  - assert (Z.odd n = true) as Hodd by (by rewrite <- Z.negb_even, Hev).
    apply Z.odd_spec in Hodd as [k ->].
    destruct (Z.compare_spec (2 * r + 1) (2 * k + 1)); lia.
Qed.

Lemma Zdigits2_nonneg (m : Z) : 0 ≤ Zdigits2 m.
Proof. destruct m; cbn; lia. Qed.

Lemma SFdiv_core_binary_spec (m1 m2 : positive) (e1 e2 : Z) :
  let r := SFdiv_core_binary B32.prec B32.emax (Zpos m1) e1 (Zpos m2) e2 in
  0 ≤ r.1.1 ∧
  inbetween r.1.1 r.1.2 r.2 (F2R (Zpos m1) e1 / F2R (Zpos m2) e2) ∧
  r.1.2 ≤ fexp B32.prec B32.emax (Zdigits2 r.1.1 + r.1.2).
Proof.
  unfold SFdiv_core_binary.
  set (d1 := Zdigits2 (Zpos m1)). set (d2 := Zdigits2 (Zpos m2)).
  set (e' := Z.min (fexp B32.prec B32.emax (d1 + e1 - (d2 + e2))) (e1 - e2)).
  set (s := e1 - e2 - e').
  assert (0 ≤ s) as Hs by lia.
  set (m' := match s with Z0 => Zpos m1 | Zpos _ => Z.shiftl (Zpos m1) s | Zneg _ => 0 end).
  assert (m' = Zpos m1 * 2 ^ s) as Hm'.
  { subst m'. destruct s as [| p | p]; [lia | | lia]. by rewrite Z.shiftl_mul_pow2. }
  clearbody m'.
  pose proof (Z_div_mod m' (Zpos m2) ltac:(lia)) as Hdiv.
  destruct (Z.div_eucl m' (Z.pos m2)) as [q r]. destruct Hdiv as [Hq Hr].
  cbn [fst snd].
  pose proof (Z.pow_pos_nonneg 2 s ltac:(lia) Hs) as Hps.
  assert (0 ≤ q) as Hq0 by nia.
  split; [done |]. split.
  - pose proof (new_location_spec (Zpos m2) r ltac:(lia) Hr) as Hloc.
    pose proof (bpow_pos e') as HB. pose proof (bpow_pos e2) as HB2.
    assert (0 < IZR (Zpos m2))%R as HM by (by apply IZR_lt).
    assert (F2R (Zpos m1) e1 / F2R (Zpos m2) e2
            = (IZR q + IZR r / IZR (Zpos m2)) * bpow e')%R as ->.
    { unfold F2R. replace e1 with (s + e' + e2) by lia.
      rewrite !bpow_plus, (bpow_IZR s) by done.
      assert (IZR (Zpos m1) * IZR (2 ^ s) = IZR (Zpos m2) * IZR q + IZR r)%R as Hreal
        by (rewrite <- !mult_IZR, <- plus_IZR; f_equal; lia).
      field_simplify_eq; [| lra]. nra. }
    set (t := (IZR r / IZR (Zpos m2))%R).
    assert (0 <= t < 1)%R as Ht.
    { subst t. split.
      - apply Rmult_le_pos; [apply IZR_le; lia |]. apply Rlt_le. by apply Rinv_0_lt_compat.
      - apply (Rmult_lt_reg_r (IZR (Zpos m2))); [done |].
        unfold Rdiv. rewrite Rmult_assoc, Rinv_l by lra.
        rewrite Rmult_1_r, Rmult_1_l. apply IZR_lt. lia. }
    assert (∀ a b : Z, (IZR a * t < IZR b ↔ IZR (a * r) < IZR (b * Zpos m2))%R) as Hlt.
    { intros a b. rewrite !mult_IZR. subst t. split; intros Hab.
      - apply (Rmult_lt_compat_r (IZR (Zpos m2))) in Hab; [| done].
        replace (IZR a * (IZR r / IZR (Z.pos m2)) * IZR (Z.pos m2))%R
          with (IZR a * IZR r)%R in Hab by (field; lra). done.
      - apply (Rmult_lt_reg_r (IZR (Zpos m2))); [done |].
        replace (IZR a * (IZR r / IZR (Z.pos m2)) * IZR (Z.pos m2))%R
          with (IZR a * IZR r)%R by (field; lra). done. }
    destruct (new_location (Z.pos m2) r) as [| c]; cbn [inbetween]; unfold F2R.
    + subst r. subst t. unfold Rdiv. rewrite Rmult_0_l. lra.
    + destruct Hloc as [Hr0 Hc].
      assert (0 < t)%R as Ht0.
      { subst t. apply Rmult_lt_0_compat; [by apply IZR_lt | by apply Rinv_0_lt_compat]. }
      rewrite !plus_IZR, !mult_IZR. split; [split; nra |].
      destruct c.
      * assert (2 * t = 1)%R; [| nra]. subst t.
        replace (IZR (Zpos m2)) with (2 * IZR r)%R
          by (rewrite <- (mult_IZR 2); f_equal; lia).
        field. apply Rgt_not_eq. apply IZR_lt. lia.
      * assert (IZR 2 * t < IZR 1)%R; [| nra]. apply Hlt. apply IZR_lt. lia.
      * assert (¬ (IZR 2 * t < IZR 1)%R ∧ (IZR 2 * t)%R ≠ IZR 1) as [Hn1 Hn2]; [| nra].
        split.
        -- rewrite Hlt. intros Hx%lt_IZR. lia.
        -- intros Heq. assert (2 * IZR r = IZR (Zpos m2))%R as Heq'.
           { subst t. apply (f_equal (fun y => y * IZR (Zpos m2))%R) in Heq.
             replace (2 * (IZR r / IZR (Z.pos m2)) * IZR (Z.pos m2))%R
               with (2 * IZR r)%R in Heq by (field; lra). lra. }
           rewrite <- (mult_IZR 2) in Heq'. apply eq_IZR in Heq'. lia.
  - assert (d1 - d2 + s ≤ Zdigits2 q) as Hdig.
    { pose proof (Zdigits2_nonneg q).
      destruct (Z.le_gt_cases (d1 - d2 + s) 0) as [| Hk]; [lia |].
      assert (d1 - d2 + s - 1 < Zdigits2 q); [| lia].
      apply Zdigits2_gt; [| lia].
      pose proof (Zdigits2_bounds (Zpos m1) ltac:(lia)) as [Hl1 _].
      pose proof (Zdigits2_bounds (Zpos m2) ltac:(lia)) as [_ Hu2].
      fold d1 in Hl1. fold d2 in Hu2.
      assert (0 < d1 ∧ 0 < d2) as [? ?] by (subst d1 d2; cbn; lia).
      assert (2 ^ (d1 - d2 + s - 1) * 2 ^ d2 = 2 ^ (d1 - 1) * 2 ^ s) as Hpw
        by (rewrite <- !Z.pow_add_r by lia; f_equal; lia).
      pose proof (Z.pow_pos_nonneg 2 (d1 - d2 + s - 1) ltac:(lia) ltac:(lia)).
      destruct (Z.le_gt_cases (2 ^ (d1 - d2 + s - 1)) q) as [| Hlt]; [done |].
      exfalso. nia. }
    unfold fexp, emin, B32.prec, B32.emax in *. lia.
Qed.

Lemma SFdiv_rounds (sa sb : bool) (ma mb : positive) (ea eb : Z) :
  rounds (xorb sa sb) (F2R (Zpos ma) ea / F2R (Zpos mb) eb)
    (SFdiv B32.prec B32.emax (S754_finite sa ma ea) (S754_finite sb mb eb)).
Proof.
  cbn [SFdiv]. pose proof (SFdiv_core_binary_spec ma mb ea eb) as (Hq & Hi & He).
  destruct (SFdiv_core_binary _ _ _ _ _ _) as [[mz ez] lz]. cbn [fst snd] in *.
  by apply binary_round_aux_RN.
Qed.

End Division.

Section Truncation.

Lemma b32_trunc_pos (m : positive) (e : Z) :
  B32.b32_trunc (S754_finite false m e) = Some (Zfloor (F2R (Zpos m) e)).
Proof.
  unfold B32.b32_trunc. f_equal. unfold F2R. destruct e as [| p | p].
  - unfold bpow. cbn [powerRZ]. by rewrite Rmult_1_r, ZfloorZ.
  - rewrite Z.shiftl_mul_pow2, (bpow_IZR (Zpos p)), <- mult_IZR, ZfloorZ by lia. done.
  - rewrite Z.shiftr_div_pow2 by lia. symmetry. apply Zfloor_eq.
    pose proof (Z.pow_pos_nonneg 2 (Zpos p) ltac:(lia) ltac:(lia)) as Hpp.
    pose proof (Z.div_mod (Zpos m) (2 ^ Zpos p) ltac:(lia)) as Hdm.
    pose proof (Z.mod_pos_bound (Zpos m) (2 ^ Zpos p) Hpp) as Hr.
    set (q := Zpos m / 2 ^ Zpos p) in *. set (r := Zpos m mod 2 ^ Zpos p) in *.
    assert (bpow (Zpos p) * bpow (Zneg p) = 1)%R as HPB
      by (rewrite <- bpow_plus; by replace (Zpos p + Zneg p) with 0 by lia).
    rewrite (bpow_IZR (Zpos p)) in HPB by lia.
    pose proof (bpow_pos (Zneg p)) as HB.
    rewrite Hdm, plus_IZR, mult_IZR.
    replace ((IZR (2 ^ Z.pos p) * IZR q + IZR r) * bpow (Z.neg p))%R
      with (IZR q * (IZR (2 ^ Z.pos p) * bpow (Z.neg p)) + IZR r * bpow (Z.neg p))%R
      by ring.
    rewrite HPB.
    assert (0 <= IZR r)%R by (apply IZR_le; lia).
    assert (IZR r < IZR (2 ^ Zpos p))%R by (apply IZR_lt; lia).
    split; nra.
Qed.

Lemma b32_trunc_nonneg (f : spec_float) :
  is_finite f = true → (0 <= B2R f)%R →
  B32.b32_trunc f = Some (Zfloor (B2R f)) ∧ 0 ≤ Zfloor (B2R f).
Proof.
  destruct f as [s | | | [] m e]; try done; intros _ H0.
  - cbn [B32.b32_trunc B2R]. by rewrite ZfloorZ.
  - exfalso. rewrite B2R_finite in H0. pose proof (F2R_pos m e). lra.
  - rewrite b32_trunc_pos. split; [done |]. by apply (Zfloor_lub 0).
Qed.

Lemma b32_trunc_neg (m : positive) (e : Z) :
  ∃ t, B32.b32_trunc (S754_finite true m e) = Some t ∧ t ≤ 0.
Proof.
  pose proof (b32_trunc_nonneg (S754_finite false m e) eq_refl
                (Rlt_le _ _ (F2R_pos m e))) as [Ht H0].
  cbn [B2R cond_Zopp] in H0.
  unfold B32.b32_trunc in *. injection Ht as Ht. rewrite Ht.
  eexists. split; [done |]. lia.
Qed.

Lemma b32_to_int_le (f : spec_float) (t : Z) :
  B32.b32_trunc f = Some t → INT_MIN ≤ t → B32.b32_to_int f ≤ t.
Proof.
  intros Ht Hmin. unfold B32.b32_to_int. rewrite Ht.
  destruct (Z.leb_spec INT_MIN t), (Z.leb_spec t INT_MAX); cbn; lia.
Qed.

Lemma b32_to_int_in_range (f : spec_float) (t : Z) :
  B32.b32_trunc f = Some t → INT_MIN ≤ t ≤ INT_MAX → B32.b32_to_int f = t.
Proof.
  intros Ht Hr. unfold B32.b32_to_int. rewrite Ht.
  destruct (Z.leb_spec INT_MIN t), (Z.leb_spec t INT_MAX); cbn; lia.
Qed.

Lemma b32_to_int_none (f : spec_float) :
  B32.b32_trunc f = None → B32.b32_to_int f = INT_MIN.
Proof. intros Ht. unfold B32.b32_to_int. by rewrite Ht. Qed.

Lemma rounds_false (x : R) (f : spec_float) :
  rounds false x f → is_finite f = true → (0 <= B2R f)%R ∧ RN x (B2R f).
Proof.
  destruct f as [s | | | s m e]; try done; intros [-> ?] _; (split; [| done]).
  - cbn. lra.
  - apply Rlt_le, F2R_pos.
Qed.

Lemma rounds_true_to_int (x : R) (f : spec_float) :
  rounds true x f → B32.b32_to_int f ≤ 0.
Proof.
  assert (INT_MIN ≤ 0) by (unfold INT_MIN; lia).
  destruct f as [s | s | | s m e]; cbn [rounds].
  - intros _. rewrite (b32_to_int_in_range _ 0); [lia | reflexivity |].
    unfold INT_MIN, INT_MAX. lia.
  - intros _. rewrite b32_to_int_none; [lia | reflexivity].
  - intros [].
  - intros [-> _]. destruct (b32_trunc_neg m e) as (t & Ht & Hle).
    unfold B32.b32_to_int. rewrite Ht.
    destruct (Z.leb_spec INT_MIN t), (Z.leb_spec t INT_MAX); cbn; lia.
Qed.

Lemma RN_zero : RN 0 0.
Proof.
  exists 0, (emin B32.prec B32.emax), loc_Exact. split; [| split].
  - right. change (2 ^ 23) with 8388608. lia.
  - cbn [inbetween]. unfold F2R. lra.
  - cbn [round_nearest_even]. unfold F2R. lra.
Qed.

Lemma RN_valid (m : positive) (e : Z) :
  valid_binary B32.prec B32.emax (S754_finite false m e) = true →
  RN (F2R (Zpos m) e) (F2R (Zpos m) e).
Proof.
  cbn [valid_binary]. unfold bounded, canonical_mantissa.
  intros [Hc%Z.eqb_eq _]%andb_prop.
  pose proof (shr_fexp_spec (Zpos m) e loc_Exact (F2R (Zpos m) e)
                ltac:(lia) eq_refl) as Hs.
  cbn [Zdigits2] in Hs. rewrite Hc in Hs. specialize (Hs ltac:(lia)).
  unfold shr_fexp in Hs. cbn [Zdigits2] in Hs. rewrite Hc, Z.sub_diag in Hs.
  cbn [shr fst snd shr_m shr_record_of_loc] in Hs. destruct Hs as [Hcanon _].
  exists (Zpos m), e, loc_Exact. done.
Qed.

Lemma RN_float_ok (q : spec_float) :
  float_ok q = true → (0 <= B2R q)%R → RN (B2R q) (B2R q).
Proof.
  unfold float_ok. destruct q as [s | | | [] m e]; try done; cbn [is_finite andb].
  - intros _ _. apply RN_zero.
  - intros _. rewrite B2R_finite. pose proof (F2R_pos m e). lra.
  - intros Hv _. by apply RN_valid.
Qed.

End Truncation.

Section B32Query.
Local Existing Instance binary32.
Local Open Scope num_scope.

Local Abbreviation cellq f := (@div binary32 f (@of_int binary32 CELL_SIZE)).

Lemma cell_size_float : of_int CELL_SIZE = S754_finite false 13107200 (-18).
Proof. by vm_compute. Qed.

Lemma cell_size_value : F2R 13107200 (-18) = 50%R.
Proof.
  change 13107200 with (50 * 2 ^ 18)%Z. change (-18) with (0 - 18)%Z.
  rewrite F2R_shift by lia. unfold F2R, bpow. cbn [powerRZ]. lra.
Qed.

Lemma div_cell_zero (s : bool) : S754_zero s / of_int CELL_SIZE = S754_zero s.
Proof. rewrite cell_size_float. by destruct s. Qed.

Lemma div_cell_rounds (s : bool) (m : positive) (e : Z) :
  rounds s (F2R (Zpos m) e / 50) (S754_finite s m e / of_int CELL_SIZE).
Proof.
  rewrite cell_size_float, <- cell_size_value.
  replace s with (xorb s false) at 1 by (by destruct s). apply SFdiv_rounds.
Qed.

Lemma div_cell_not_finite (f : spec_float) :
  is_finite f = false → B32.b32_trunc (f / of_int CELL_SIZE) = None.
Proof. rewrite cell_size_float. by destruct f as [| [] | |]. Qed.

Lemma b32_trunc_finite (f : spec_float) (t : Z) :
  B32.b32_trunc f = Some t → is_finite f = true.
Proof. by destruct f. Qed.

Lemma bpow_127_large : (IZR INT_MAX / 50 < bpow 127)%R.
Proof.
  rewrite (bpow_IZR 127) by lia. unfold INT_MAX.
  assert (IZR (2 ^ 31 - 1) < IZR (2 ^ 127))%R by (apply IZR_lt; lia).
  assert (0 <= IZR (2 ^ 31 - 1))%R by (apply IZR_le; lia). lra.
Qed.

(** The quotient of a nonnegative float by the cell size: a nonnegative
    float that is the rounded quotient, unless it overflows. *)
Lemma div_cell_nonneg (f : spec_float) (t : Z) :
  is_finite f = true → (0 <= B2R f)%R →
  B32.b32_trunc (f / of_int CELL_SIZE) = Some t →
  RN (B2R f / 50) (B2R (f / of_int CELL_SIZE)) ∧
  t = Zfloor (B2R (f / of_int CELL_SIZE)) ∧ 0 ≤ t.
Proof.
  intros Hf H0 Ht. pose proof (b32_trunc_finite _ _ Ht) as Hfin.
  assert ((0 <= B2R (f / of_int CELL_SIZE)%num)%R ∧
          RN (B2R f / 50) (B2R (f / of_int CELL_SIZE))) as [Hs HRN].
  { destruct f as [s | | | [] m e]; try done.
    - rewrite div_cell_zero in *. cbn [B2R]. unfold Rdiv. rewrite Rmult_0_l.
      split; [lra | apply RN_zero].
    - exfalso. rewrite B2R_finite in H0. pose proof (F2R_pos m e). lra.
    - pose proof (div_cell_rounds false m e) as Hr.
      by apply rounds_false in Hr. }
  destruct (b32_trunc_nonneg _ Hfin Hs) as [Ht' Hpos].
  rewrite Ht in Ht'. injection Ht' as ->. done.
Qed.

Lemma float_ok_finite (q : spec_float) : float_ok q = true → is_finite q = true.
Proof. unfold float_ok. by intros [? _]%andb_prop. Qed.

Lemma INT_MIN_neg : (INT_MIN < 0)%Z.
Proof. unfold INT_MIN. lia. Qed.

(** The cell index of a coordinate inside the world is computed without
    overflow and needs no clamping. *)
Lemma b32_cell_index (q : spec_float) (extent dim t : Z) (M : positive) (E : Z) :
  float_ok q = true → (0 <= B2R q <= IZR extent)%R →
  (extent ≤ INT_MAX)%Z →
  of_int extent = S754_finite false M E → F2R (Zpos M) E = IZR extent →
  B32.b32_trunc (of_int extent / of_int CELL_SIZE) = Some t → (t < dim)%Z →
  ∃ c, B32.b32_trunc (q / of_int CELL_SIZE) = Some c ∧ (0 ≤ c < dim)%Z.
Proof.
  intros Hok [H0 Hle] Hext HM HME Ht Htd.
  pose proof (float_ok_finite q Hok) as Hfin.
  assert (B2R (of_int extent) = IZR extent) as Hval by (by rewrite HM).
  destruct (div_cell_nonneg (@of_int binary32 extent) t) as (HRNmax & -> & Htpos);
    [by rewrite HM | rewrite Hval; lra | done |].
  destruct (B32.b32_trunc (cellq q)) as [c |] eqn:Hc.
  - destruct (div_cell_nonneg q c) as (HRN & -> & Hcpos); try done.
    eexists. split; [done |]. split; [done |].
    eapply Z.le_lt_trans; [| exact Htd]. apply Zfloor_le.
    eapply RN_mono; [exact HRN | exact HRNmax |]. rewrite Hval. lra.
  - exfalso. destruct q as [s | | | [] m e]; try done.
    + rewrite B2R_finite in H0. pose proof (F2R_pos m e). lra.
    + pose proof (div_cell_rounds false m e) as Hr.
      destruct (cellq (S754_finite false m e)) as [| s' | |]; try done.
      destruct Hr as [_ Hbig]. pose proof bpow_127_large as Hlarge.
      cbn [B2R cond_Zopp] in Hle.
      assert (IZR extent <= IZR INT_MAX)%R by (by apply IZR_le). lra.
Qed.

(** The lower end of the cell range of a query is not above the cell of a
    coordinate that is not below the lower end of the query box. *)
Lemma b32_query_lo (p radius q : spec_float) (c : Z) :
  is_finite p = true → is_finite radius = true → float_ok q = true →
  (0 <= B2R q)%R → (B2R p - B2R radius <= B2R q)%R →
  B32.b32_trunc (q / of_int CELL_SIZE) = Some c →
  (to_int ((p - radius) / of_int CELL_SIZE) ≤ c)%Z.
Proof.
  intros Hp Hr Hok H0 Hle Hc.
  pose proof (float_ok_finite q Hok) as Hfin.
  destruct (div_cell_nonneg q c Hfin H0 Hc) as (HRNq & Hceq & Hc0).
  pose proof (SFsub_approx p radius Hp Hr) as Happ.
  pose proof INT_MIN_neg as Hmin.
  change (@sub binary32 p radius) with (SFsub B32.prec B32.emax p radius).
  destruct (SFsub B32.prec B32.emax p radius) as [s | s | | [] m e].
  - rewrite div_cell_zero. cbn [to_int binary32].
    rewrite (b32_to_int_in_range _ 0%Z); [done | done |].
    unfold INT_MIN, INT_MAX. lia.
  - cbn [to_int binary32]. rewrite b32_to_int_none; [lia |].
    by apply div_cell_not_finite.
  - cbn [to_int binary32]. rewrite b32_to_int_none; [lia |].
    by apply div_cell_not_finite.
  - pose proof (rounds_true_to_int _ _ (div_cell_rounds true m e)) as Hneg.
    cbn [to_int binary32]. lia.
  - assert (F2R (Zpos m) e <= B2R q)%R as Hfq.
    { destruct Happ as [[_ Hex] | [[Hx Hrd] | [Hx Hrd]]].
      - cbn [B2R cond_Zopp] in Hex. lra.
      - destruct Hrd as [_ HRN].
        apply (RN_mono _ _ _ _ HRN (RN_float_ok q Hok H0)). lra.
      - by destruct Hrd as [? _]. }
    cbn [to_int binary32].
    destruct (B32.b32_trunc (cellq (S754_finite false m e))) as [tg |] eqn:Htg.
    + destruct (div_cell_nonneg (S754_finite false m e) tg) as (HRNg & Htgeq & Htg0);
        [done | apply Rlt_le, F2R_pos | done |].
      transitivity tg; [apply b32_to_int_le; [done | lia] |].
      rewrite Htgeq, Hceq. apply Zfloor_le.
      eapply RN_mono; [exact HRNg | exact HRNq |]. cbn [B2R cond_Zopp]. lra.
    + rewrite b32_to_int_none by done. lia.
Qed.

(** The upper end of the cell range of a query is not below the cell of a
    coordinate that is not above the upper end of the query box, provided the
    cast of the upper end is defined. *)
Lemma b32_query_hi (p radius q : spec_float) (c : Z) :
  is_finite p = true → is_finite radius = true → float_ok q = true →
  (0 <= B2R q <= B2R p + B2R radius)%R →
  B32.b32_trunc (q / of_int CELL_SIZE) = Some c →
  cast_defined ((p + radius) / of_int CELL_SIZE) →
  (c ≤ to_int ((p + radius) / of_int CELL_SIZE))%Z.
Proof.
  intros Hp Hr Hok [H0 Hle] Hc (t & Ht & Htr).
  pose proof (float_ok_finite q Hok) as Hfin.
  destruct (div_cell_nonneg q c Hfin H0 Hc) as (HRNq & Hceq & Hc0).
  pose proof (SFadd_approx p radius Hp Hr) as Happ.
  cbn [to_int binary32]. rewrite (b32_to_int_in_range _ t) by done.
  revert Ht Happ. change (@add binary32 p radius) with (SFadd B32.prec B32.emax p radius).
  set (f := SFadd B32.prec B32.emax p radius). intros Ht Happ.
  assert (is_finite f = true) as Hff.
  { destruct (is_finite f) eqn:Hf; [done |].
    by rewrite div_cell_not_finite in Ht. }
  assert (B2R q <= B2R f)%R as Hqf.
  { destruct Happ as [[_ Hex] | [[Hx Hrd] | [Hx Hrd]]].
    - lra.
    - apply rounds_false in Hrd as [_ HRN]; [| done].
      apply (RN_mono _ _ _ _ (RN_float_ok q Hok H0) HRN). lra.
    - lra. }
  destruct (div_cell_nonneg f t Hff ltac:(lra) Ht) as (HRNf & Hteq & Ht0).
  rewrite Hteq, Hceq. apply Zfloor_le.
  eapply RN_mono; [exact HRNq | exact HRNf |]. lra.
Qed.

(** On one axis: a coordinate inside the world and within [radius] of the
    centre of a query falls into the cell range of the query. *)
Lemma b32_query_range_covers (p radius q : spec_float) (extent dim t : Z)
    (M : positive) (E : Z) :
  float_ok q = true → is_finite p = true → is_finite radius = true →
  (0 <= B2R q <= IZR extent)%R → (extent ≤ INT_MAX)%Z →
  of_int extent = S754_finite false M E → F2R (Zpos M) E = IZR extent →
  B32.b32_trunc (of_int extent / of_int CELL_SIZE) = Some t →
  (t < dim ≤ INT_MAX)%Z →
  (B2R p - B2R radius <= B2R q <= B2R p + B2R radius)%R →
  cast_defined ((p + radius) / of_int CELL_SIZE) →
  ((query_range p radius dim).1
     ≤ clamp_cell (to_int (q / of_int CELL_SIZE)) dim
     ≤ (query_range p radius dim).2)%Z.
Proof.
  intros Hok Hp Hr Hq Hext HM HME Ht Hdim Hnear Hcast.
  destruct (b32_cell_index q extent dim t M E) as (c & Hc & Hcr); try done; [lia |].
  pose proof (b32_query_lo p radius q c Hp Hr Hok ltac:(lra) ltac:(lra) Hc) as Hlo.
  pose proof (b32_query_hi p radius q c Hp Hr Hok ltac:(lra) Hc Hcast) as Hhi.
  pose proof INT_MIN_neg as Hmin.
  assert (to_int (cellq q) = c) as ->
    by (cbn [to_int binary32]; apply b32_to_int_in_range; [done | lia]).
  rewrite clamp_cell_id by lia.
  unfold query_range. cbn [fst snd].
  destruct (Z.ltb_spec (to_int (cellq (@sub binary32 p radius))) 0),
    (Z.geb_spec (to_int (cellq (@add binary32 p radius))) dim); lia.
Qed.

Lemma screen_width_float :
  of_int SCREEN_WIDTH = S754_finite false 10485760 (-12) ∧
  F2R 10485760 (-12) = IZR SCREEN_WIDTH ∧
  B32.b32_trunc (of_int SCREEN_WIDTH / of_int CELL_SIZE) = Some 51%Z.
Proof.
  split; [by vm_compute |]. split; [| by vm_compute].
  change 10485760%Z with (SCREEN_WIDTH * 2 ^ 12)%Z. change (-12)%Z with (0 - 12)%Z.
  rewrite F2R_shift by lia. unfold F2R, bpow. cbn [powerRZ]. lra.
Qed.

Lemma screen_height_float :
  of_int SCREEN_HEIGHT = S754_finite false 11796480 (-13) ∧
  F2R 11796480 (-13) = IZR SCREEN_HEIGHT ∧
  B32.b32_trunc (of_int SCREEN_HEIGHT / of_int CELL_SIZE) = Some 28%Z.
Proof.
  split; [by vm_compute |]. split; [| by vm_compute].
  change 11796480%Z with (SCREEN_HEIGHT * 2 ^ 13)%Z. change (-13)%Z with (0 - 13)%Z.
  rewrite F2R_shift by lia. unfold F2R, bpow. cbn [powerRZ]. lra.
Qed.

(** On binary32, the cell of a position inside the world and within
    [radius] of the centre of a query is among the cells the query visits,
    provided the casts of the far corner of the query box are defined. *)
Lemma b32_cell_in_query (q p : Vector2) (radius : spec_float) :
  float_ok (vx q) = true → float_ok (vy q) = true →
  in_world (Vector2_value q) →
  is_finite (vx p) = true → is_finite (vy p) = true → is_finite radius = true →
  (@Vector2Distance real (Vector2_value q) (Vector2_value p) <= B2R radius)%R →
  cast_defined ((vx p + radius) / of_int CELL_SIZE) →
  cast_defined ((vy p + radius) / of_int CELL_SIZE) →
  cell_of q ∈ query_cells p radius.
Proof.
  intros Hqx Hqy [Hwx Hwy] Hpx Hpy Hr Hdist Hcx Hcy.
  destruct (real_distance_axes _ _ _ Hdist) as [Hnx Hny].
  destruct screen_width_float as (HMw & HFw & Htw).
  destruct screen_height_float as (HMh & HFh & Hth).
  unfold cell_of. apply elem_of_query_cells. split.
  - apply (b32_query_range_covers _ _ _ SCREEN_WIDTH GRID_WIDTH 51%Z 10485760 (-12)%Z);
      done.
  - apply (b32_query_range_covers _ _ _ SCREEN_HEIGHT GRID_HEIGHT 28%Z 11796480 (-13)%Z);
      done.
Qed.

(** C1 (as amended). In binary32, after the rebuild of the grid a query returns every active
    agent that lies inside the world rectangle and whose exact Euclidean
    distance to the centre (a point with finite coordinates, anywhere) is at
    most the radius, provided that the two casts of the upper corner of the
    query are defined, that no cell the query visits has more members than
    its capacity and that the output buffer is not filled.  The roundings of
    [p - r], [p + r] and of the divisions by the cell size never lose a
    cell. *)
Theorem b32_QuerySpatialGrid_superset (grid0 : SpatialGrid) (pos : list Vector2)
    (ent : list Entity) (count : Z) (p : Vector2) (radius : spec_float)
    (maxResults i : Z) :
  let grid := SpatialGridUpdateSystem grid0 pos ent count in
  (0 ≤ i < count)%Z →
  active (aget ent i) = true →
  float_ok (vx (aget pos i)) = true → float_ok (vy (aget pos i)) = true →
  in_world (Vector2_value (aget pos i)) →
  is_finite (vx p) = true → is_finite (vy p) = true → is_finite radius = true →
  (@Vector2Distance real (Vector2_value (aget pos i)) (Vector2_value p) <= B2R radius)%R →
  cast_defined ((vx p + radius) / of_int CELL_SIZE) →
  cast_defined ((vy p + radius) / of_int CELL_SIZE) →
  (∀ c, c ∈ query_cells p radius →
        (Z.of_nat (length (cell_members pos ent count c)) ≤ MAX_ENTITIES_PER_CELL)%Z) →
  (Z.of_nat (length (QuerySpatialGrid grid p radius maxResults)) < maxResults)%Z →
  i ∈ QuerySpatialGrid grid p radius maxResults.
Proof.
  intros grid Hi Hact Hqx Hqy Hw Hpx Hpy Hr Hdist Hcx Hcy Hcap Hbuf.
  apply QuerySpatialGrid_member; try done.
  by apply b32_cell_in_query.
Qed.

End B32Query.

Lemma B2R_scaled_int (f : spec_float) (z k : Z) :
  f = S754_finite false (Z.to_pos (z * 2 ^ k)) (0 - k) → 0 < z → 0 ≤ k →
  B2R f = IZR z.
Proof.
  intros -> Hz Hk. cbn [B2R cond_Zopp].
  pose proof (Z.pow_pos_nonneg 2 k ltac:(lia) Hk).
  rewrite Z2Pos.id by nia. rewrite F2R_shift by done.
  unfold F2R, bpow. cbn [powerRZ]. lra.
Qed.

Section Validity.

Lemma Zdigits2_24 (m : Z) : 2 ^ 23 ≤ m < 2 ^ 24 → Zdigits2 m = 24.
Proof.
  intros Hm. pose proof (Zdigits2_le m 24 ltac:(lia) ltac:(lia)).
  pose proof (Zdigits2_gt m 23 ltac:(lia) ltac:(lia)). lia.
Qed.

(** A canonical pair is a fixed point of the exponent function. *)
Lemma canon_fexp (m e : Z) :
  canon m e → fexp B32.prec B32.emax (Zdigits2 m + e) = e.
Proof.
  unfold canon, fexp, emin, B32.prec, B32.emax. intros [[Hm He] | [Hm He]].
  - rewrite Zdigits2_24 by done. lia.
  - pose proof (Zdigits2_le m 23 Hm ltac:(lia)). lia.
Qed.

Lemma fexp_canon (m : positive) (e : Z) :
  fexp B32.prec B32.emax (Zdigits2 (Zpos m) + e) = e → canon (Zpos m) e.
Proof.
  intros Hc.
  pose proof (shr_fexp_spec (Zpos m) e loc_Exact (F2R (Zpos m) e)
                ltac:(lia) eq_refl ltac:(lia)) as Hs.
  unfold shr_fexp in Hs. rewrite Hc, Z.sub_diag in Hs.
  cbn [shr fst snd shr_m shr_record_of_loc] in Hs. by destruct Hs as [Hcanon _].
Qed.

Lemma valid_canon (s : bool) (m : positive) (e : Z) :
  valid_binary B32.prec B32.emax (S754_finite s m e) = true ↔
  canon (Zpos m) e ∧ e ≤ 104.
Proof.
  cbn [valid_binary]. unfold bounded, canonical_mantissa.
  rewrite andb_true_iff, Z.eqb_eq, Z.leb_le.
  change (Z.pos (digits2_pos m)) with (Zdigits2 (Zpos m)).
  change (B32.emax - B32.prec) with 104. split.
  - intros [Hc He]. split; [by apply fexp_canon | done].
  - intros [Hc He]. split; [by apply canon_fexp | done].
Qed.

(** The result of a rounding is a float of the format. *)
Lemma binary_round_aux_valid (s : bool) (m e : Z) (l : location) :
  0 ≤ m → e ≤ fexp B32.prec B32.emax (Zdigits2 m + e) →
  valid_binary B32.prec B32.emax (binary_round_aux B32.prec B32.emax s m e l) = true.
Proof.
  intros Hm He. unfold binary_round_aux.
  assert (∃ x, inbetween m e l x) as [x Hi].
  { destruct l as [| []]; cbn [inbetween].
    - by eexists.
    - exists (F2R m e + bpow e / 2)%R. pose proof (bpow_pos e).
      unfold F2R. rewrite !plus_IZR, !mult_IZR. repeat split; nra.
    - exists (F2R m e + bpow e / 4)%R. pose proof (bpow_pos e).
      unfold F2R. rewrite !plus_IZR, !mult_IZR. repeat split; nra.
    - exists (F2R m e + 3 * bpow e / 4)%R. pose proof (bpow_pos e).
      unfold F2R. rewrite !plus_IZR, !mult_IZR. repeat split; nra. }
  pose proof (shr_fexp_spec m e l x Hm Hi He) as [Hc _].
  destruct (shr_fexp B32.prec B32.emax m e l) as [mrs1 e1]. cbn [fst snd] in *.
  set (m1 := shr_m mrs1) in *. set (l1 := loc_of_shr_record mrs1) in *.
  pose proof (canon_range _ _ Hc) as Hr. pose proof (canon_emin _ _ Hc) as Hmin.
  set (mr := round_nearest_even m1 l1) in *.
  assert (m1 ≤ mr ≤ m1 + 1) as Hmr
    by (destruct (round_nearest_even_cases m1 l1); subst mr; lia).
  assert (mr < 2 ^ 24 → canon mr e1) as Hcr.
  { intros Hlt. unfold canon in *. destruct Hc as [[? ?] | [? ?]]; [left; lia |].
    destruct (Z.eq_dec mr (2 ^ 23)); [left | right]; lia. }
  unfold shr_fexp, shr.
  destruct (Z.eq_dec mr 16777216) as [Heq | Hne].
  - rewrite Heq in *. change (Zdigits2 16777216) with 25.
    unfold fexp, emin, B32.prec, B32.emax in *.
    replace (Z.max (25 + e1 - 24) (3 - 128 - 24) - e1) with 1 by lia.
    cbn [SpecFloat.iter_pos shr_record_of_loc shr_1 shr_m].
    destruct (Z.leb_spec (e1 + 1) (128 - 24)); [| done].
    apply (valid_canon s). split; [| lia]. left. unfold emin, B32.prec, B32.emax. lia.
  - specialize (Hcr ltac:(change (2 ^ 24) with 16777216 in *; lia)).
    rewrite (canon_fexp _ _ Hcr), Z.sub_diag. cbn [fst snd].
    rewrite shr_m_shr_record_of_loc.
    destruct mr as [| mr' | mr']; [done | | lia].
    destruct (Z.leb_spec e1 (B32.emax - B32.prec)); [| done].
    apply (valid_canon s). split; [done |]. unfold B32.emax, B32.prec in *. lia.
Qed.

Lemma binary_round_valid (s : bool) (mx : positive) (ex : Z) :
  valid_binary B32.prec B32.emax (binary_round B32.prec B32.emax s mx ex) = true.
Proof.
  unfold binary_round.
  set (e' := fexp B32.prec B32.emax (Z.pos (digits2_pos mx) + ex)).
  pose proof (shl_align_spec mx ex e') as [He Hm].
  destruct (shl_align mx ex e') as [mz ez]. cbn [fst snd] in *.
  apply binary_round_aux_valid; [lia |].
  rewrite Hm, Zdigits2_shift by lia. cbn [Zdigits2].
  replace (Z.pos (digits2_pos mx) + (ex - ez) + ez) with (Z.pos (digits2_pos mx) + ex) by lia.
  fold e'. lia.
Qed.

Lemma binary_normalize_valid (z e : Z) (s : bool) :
  valid_binary B32.prec B32.emax (binary_normalize B32.prec B32.emax z e s) = true.
Proof. destruct z; [done | apply binary_round_valid..]. Qed.

Lemma b32_of_int_valid (z : Z) :
  valid_binary B32.prec B32.emax (B32.b32_of_int z) = true.
Proof. apply binary_normalize_valid. Qed.

End Validity.

Section Comparison.
Local Open Scope R_scope.

(** Canonical pairs are ordered as their values are: first by exponent,
    then by mantissa. *)
Lemma canon_lt (m1 e1 m2 e2 : Z) :
  canon m1 e1 → canon m2 e2 → (0 < m2)%Z →
  F2R m1 e1 < F2R m2 e2 ↔ (e1 < e2 ∨ (e1 = e2 ∧ m1 < m2))%Z.
Proof.
  intros Hc1 Hc2 Hpos.
  pose proof (canon_range _ _ Hc1) as Hr1. pose proof (canon_range _ _ Hc2) as Hr2.
  pose proof (canon_emin _ _ Hc1) as Hm1. pose proof (canon_emin _ _ Hc2) as Hm2.
  pose proof (bpow_pos e1) as Hp1. pose proof (bpow_pos e2) as Hp2.
  assert (0 <= IZR m1 <= 16777215) as Hb1 by (split; apply IZR_le; lia).
  assert (1 <= IZR m2 <= 16777215) as Hb2 by (split; apply IZR_le; lia).
  unfold F2R.
  destruct (Z.lt_trichotomy e1 e2) as [Hlt | [<- | Hgt]].
  - split; [by left |]. intros _.
    assert (2 ^ 23 ≤ m2)%Z as Hn2 by (destruct Hc2 as [[? _] | [_ ?]]; lia).
    assert (8388608 <= IZR m2) by (apply IZR_le; lia).
    assert (2 * bpow e1 <= bpow e2) as Hbb
      by (rewrite <- bpow_succ; apply bpow_le; lia).
    nra.
  - split.
    + intros Hlt. right. split; [done |]. apply lt_IZR. nra.
    + intros [? | [_ Hlt]]; [lia |]. apply IZR_lt in Hlt. nra.
  - split; [| lia]. intros Hlt. exfalso.
    destruct (Z.eq_dec m1 0%Z) as [-> | Hne]; [unfold canon in Hc1; lia |].
    assert (2 ^ 23 ≤ m1)%Z as Hn1 by (destruct Hc1 as [[? _] | [_ ?]]; lia).
    assert (8388608 <= IZR m1) by (apply IZR_le; lia).
    assert (2 * bpow e2 <= bpow e1) as Hbb
      by (rewrite <- bpow_succ; apply bpow_le; lia).
    nra.
Qed.

Lemma float_ok_canon (s : bool) (m : positive) (e : Z) :
  float_ok (S754_finite s m e) = true → canon (Zpos m) e ∧ (e ≤ 104)%Z.
Proof. unfold float_ok. cbn [is_finite andb]. apply valid_canon. Qed.

Lemma Pos_compare_cont_Eq (p q : positive) : Pos.compare_cont Eq p q = (Zpos p ?= Zpos q)%Z.
Proof. reflexivity. Qed.

(** On floats of the format, [<] is the order of the values. *)
Lemma SFltb_spec (a b : spec_float) :
  float_ok a = true → float_ok b = true →
  SFltb a b = true ↔ B2R a < B2R b.
Proof.
  intros Ha Hb. unfold SFltb.
  destruct a as [sa | | | sa ma ea], b as [sb | | | sb mb eb]; try done.
  - cbn. split; [done | lra].
  - cbn [SFcompare]. rewrite B2R_finite. cbn [B2R]. pose proof (F2R_pos mb eb).
    destruct sb; split; try done; lra.
  - cbn [SFcompare]. rewrite B2R_finite. cbn [B2R]. pose proof (F2R_pos ma ea).
    destruct sa; split; try done; lra.
  - apply float_ok_canon in Ha as [Hca _], Hb as [Hcb _].
    pose proof (canon_lt _ _ _ _ Hca Hcb ltac:(lia)) as Hab.
    pose proof (canon_lt _ _ _ _ Hcb Hca ltac:(lia)) as Hba.
    pose proof (F2R_pos ma ea). pose proof (F2R_pos mb eb).
    rewrite !B2R_finite. cbn [SFcompare].
    destruct sa, sb.
    + destruct (Z.compare_spec ea eb) as [-> | Hlt | Hgt].
      * rewrite Pos_compare_cont_Eq.
        destruct (Z.compare_spec (Zpos ma) (Zpos mb)) as [Heq | Hlt | Hgt]; cbn.
        -- injection Heq as ->. split; [done | lra].
        -- split; [done |]. intros Hx.
           assert (F2R (Zpos mb) eb < F2R (Zpos ma) eb) as Hy by lra.
           apply Hba in Hy. lia.
        -- split; [intros _ | done].
           assert (F2R (Zpos mb) eb < F2R (Zpos ma) eb); [apply Hba; lia | lra].
      * cbn. split; [done |]. intros Hx.
        assert (F2R (Zpos mb) eb < F2R (Zpos ma) ea) as Hy by lra.
        apply Hba in Hy. lia.
      * cbn. split; [intros _ | done].
        assert (F2R (Zpos mb) eb < F2R (Zpos ma) ea); [apply Hba; lia | lra].
    + split; [intros _; lra | done].
    + split; [done | lra].
    + destruct (Z.compare_spec ea eb) as [-> | Hlt | Hgt].
      * rewrite Pos_compare_cont_Eq.
        destruct (Z.compare_spec (Zpos ma) (Zpos mb)) as [Heq | Hlt | Hgt].
        -- injection Heq as ->. split; [done | lra].
        -- split; [intros _; apply Hab; lia | done].
        -- split; [done |]. intros Hx%Hab. lia.
      * split; [intros _; apply Hab; lia | done].
      * split; [done |]. intros Hx%Hab. lia.
Qed.

(** A float of the format is below [2^128] in magnitude. *)
Lemma float_ok_bound (s : bool) (m : positive) (e : Z) :
  float_ok (S754_finite s m e) = true → F2R (Zpos m) e < bpow 128.
Proof.
  intros [Hc He]%float_ok_canon. pose proof (canon_range _ _ Hc) as Hr.
  unfold F2R. replace 128%Z with (24 + 104)%Z by lia.
  rewrite bpow_plus, (bpow_IZR 24) by lia.
  pose proof (bpow_le e 104 He). pose proof (bpow_pos e).
  assert (IZR (Zpos m) <= IZR (2 ^ 24) - 1)
    by (rewrite <- minus_IZR; apply IZR_le; lia).
  assert (0 < IZR (Zpos m)) by (by apply IZR_lt). nra.
Qed.

End Comparison.

Section IntegerFloats.
Local Open Scope R_scope.

Lemma RN_unique (x v : R) : RN x x → RN x v → v = x.
Proof.
  intros Hx Hv. pose proof (RN_mono _ _ _ _ Hx Hv ltac:(lra)).
  pose proof (RN_mono _ _ _ _ Hv Hx ltac:(lra)). lra.
Qed.

(** A positive integer below [2^24] is a float. *)
Lemma RN_small_int (z : Z) : (0 < z < 2 ^ 24)%Z → RN (IZR z) (IZR z).
Proof.
  intros Hz. pose proof (Zdigits2_bounds z ltac:(lia)) as [Hl Hu].
  set (d := Zdigits2 z) in *.
  assert (0 < d ≤ 24)%Z as Hd.
  { split; [subst d; destruct z; cbn; lia |]. apply Zdigits2_le; lia. }
  assert (F2R (z * 2 ^ (24 - d)) (0 - (24 - d)) = IZR z) as HF.
  { rewrite F2R_shift by lia. unfold F2R, bpow. cbn [powerRZ]. lra. }
  exists (z * 2 ^ (24 - d))%Z, (0 - (24 - d))%Z, loc_Exact.
  split; [| split; [cbn [inbetween]; by rewrite HF | by cbn [round_nearest_even]]].
  left. unfold emin, B32.prec, B32.emax. split; [| lia].
  assert (2 ^ (d - 1) * 2 ^ (24 - d) = 2 ^ 23)%Z as H1
    by (rewrite <- Z.pow_add_r by lia; f_equal; lia).
  assert (2 ^ d * 2 ^ (24 - d) = 2 ^ 24)%Z as H2
    by (rewrite <- Z.pow_add_r by lia; f_equal; lia).
  pose proof (Z.pow_pos_nonneg 2 (24 - d) ltac:(lia) ltac:(lia)). nia.
Qed.

(** [(float)z] is exact for a nonnegative integer below [2^24]. *)
Lemma b32_of_int_exact (z : Z) :
  (0 ≤ z < 2 ^ 24)%Z →
  float_ok (B32.b32_of_int z) = true ∧ B2R (B32.b32_of_int z) = IZR z.
Proof.
  intros Hz. pose proof (b32_of_int_valid z) as Hv.
  pose proof (binary_normalize_approx z 0) as Happ.
  fold (B32.b32_of_int z) in Happ.
  assert (F2R z 0 = IZR z) as HF by (unfold F2R, bpow; cbn [powerRZ]; lra).
  rewrite HF in Happ.
  destruct (Z.eq_dec z 0%Z) as [-> | Hne]; [by split |].
  assert (0 < IZR z) as Hpos by (apply IZR_lt; lia).
  destruct Happ as [[Hfin Hex] | [[_ Hr] | [Hneg _]]]; [| | lra].
  - split; [| done]. unfold float_ok. by rewrite Hfin, Hv.
  - destruct (B32.b32_of_int z) as [s | s | | s m e]; cbn [rounds] in Hr; try done.
    + destruct Hr as [_ Hr]. pose proof (RN_unique _ _ (RN_small_int z ltac:(lia)) Hr). lra.
    + exfalso. destruct Hr as [_ Hbig]. rewrite (bpow_IZR 127) in Hbig by lia.
      apply le_IZR in Hbig. lia.
    + destruct Hr as [-> Hr]. split; [unfold float_ok; by rewrite Hv |].
      cbn [B2R cond_Zopp]. apply RN_unique; [| done]. apply RN_small_int. lia.
Qed.

End IntegerFloats.

Section Multiplication.

Lemma Zdigits2_mul (m1 m2 : positive) :
  Zdigits2 (Zpos m1) + Zdigits2 (Zpos m2) - 1 ≤ Zdigits2 (Zpos (m1 * m2)).
Proof.
  pose proof (Zdigits2_bounds (Zpos m1) ltac:(lia)) as [H1 _].
  pose proof (Zdigits2_bounds (Zpos m2) ltac:(lia)) as [H2 _].
  set (d1 := Zdigits2 (Zpos m1)) in *. set (d2 := Zdigits2 (Zpos m2)) in *.
  assert (0 < d1 ∧ 0 < d2) as [? ?] by (subst d1 d2; cbn; lia).
  assert (d1 + d2 - 2 < Zdigits2 (Zpos (m1 * m2))); [| lia].
  apply Zdigits2_gt; [| lia].
  replace (d1 + d2 - 2) with ((d1 - 1) + (d2 - 1)) by lia.
  rewrite Z.pow_add_r, Pos2Z.inj_mul by lia.
  pose proof (Z.pow_pos_nonneg 2 (d1 - 1) ltac:(lia) ltac:(lia)).
  pose proof (Z.pow_pos_nonneg 2 (d2 - 1) ltac:(lia) ltac:(lia)). nia.
Qed.

Lemma SFmul_precondition (m1 m2 : positive) (e1 e2 : Z) :
  canon (Zpos m1) e1 → canon (Zpos m2) e2 →
  e1 + e2 ≤ fexp B32.prec B32.emax (Zdigits2 (Zpos (m1 * m2)) + (e1 + e2)).
Proof.
  intros Hc1 Hc2. pose proof (Zdigits2_mul m1 m2) as Hd.
  assert (0 < Zdigits2 (Zpos m1) ∧ 0 < Zdigits2 (Zpos m2)) as [? ?] by (cbn; lia).
  unfold canon, fexp, emin, B32.prec, B32.emax in *.
  destruct Hc1 as [[Hm1 He1] | [Hm1 He1]], Hc2 as [[Hm2 He2] | [Hm2 He2]];
    try rewrite (Zdigits2_24 (Zpos m1)) in * by done;
    try rewrite (Zdigits2_24 (Zpos m2)) in * by done; lia.
Qed.

(** The product of two floats of the format is the rounded product. *)
Lemma SFmul_rounds (sa sb : bool) (ma mb : positive) (ea eb : Z) :
  float_ok (S754_finite sa ma ea) = true → float_ok (S754_finite sb mb eb) = true →
  rounds (xorb sa sb) (F2R (Zpos ma) ea * F2R (Zpos mb) eb)
    (SFmul B32.prec B32.emax (S754_finite sa ma ea) (S754_finite sb mb eb)) ∧
  valid_binary B32.prec B32.emax
    (SFmul B32.prec B32.emax (S754_finite sa ma ea) (S754_finite sb mb eb)) = true.
Proof.
  intros [Hca _]%float_ok_canon [Hcb _]%float_ok_canon. cbn [SFmul].
  pose proof (SFmul_precondition _ _ _ _ Hca Hcb) as Hpre. split.
  - apply binary_round_aux_RN; [lia | | done]. cbn [inbetween]. unfold F2R.
    rewrite Pos2Z.inj_mul, mult_IZR, bpow_plus. ring.
  - apply binary_round_aux_valid; [lia | done].
Qed.

Lemma RN_bpow (e : Z) : emin B32.prec B32.emax + 23 ≤ e → RN (bpow e) (bpow e).
Proof.
  intros He.
  assert (F2R (2 ^ 23) (e - 23) = bpow e) as HF.
  { unfold F2R. rewrite <- (bpow_IZR 23), <- bpow_plus by lia. f_equal. lia. }
  exists (2 ^ 23), (e - 23), loc_Exact.
  split; [left; lia |]. by split.
Qed.

End Multiplication.

(** * Further properties of the grid, the systems and the frame *)

Section GridCompleteness.
Context {S : Scalar}.

(** X2. The output of a query never exceeds the buffer, and every id it returns
    is read from a cell inside the grid. *)
Theorem QuerySpatialGrid_bounds (grid : SpatialGrid) (p : Vector2) (radius : num)
    (maxResults : Z) :
  Z.of_nat (length (QuerySpatialGrid grid p radius maxResults)) ≤ Z.max 0 maxResults ∧
  (∀ c, c ∈ query_cells p radius → 0 ≤ c.1 < GRID_WIDTH ∧ 0 ≤ c.2 < GRID_HEIGHT) ∧
  (grid_ok grid →
   ∀ id, id ∈ QuerySpatialGrid grid p radius maxResults →
         ∃ gx gy, 0 ≤ gx < GRID_WIDTH ∧ 0 ≤ gy < GRID_HEIGHT ∧
                  id ∈ cell_ids (cell_at grid gx gy)).
Proof.
  split; [| split].
  - rewrite QuerySpatialGrid_take, length_take. lia.
  - intros [gx gy] Hc. by apply query_cells_in_grid in Hc.
  - intros Hok id Hin.
    apply QuerySpatialGrid_in_cell in Hin as (gx & gy & Hc & Hin); [| done].
    apply query_cells_in_grid in Hc as [Hx Hy]. eauto.
Qed.

(** X3. A query on a grid that has just been cleared returns nothing. *)
Theorem ClearSpatialGrid_query (grid : SpatialGrid) (p : Vector2) (radius : num)
    (maxResults : Z) :
  QuerySpatialGrid (ClearSpatialGrid grid) p radius maxResults = [].
Proof.
  destruct (grid_ok_clear grid) as [Hok Hempty].
  destruct (QuerySpatialGrid (ClearSpatialGrid grid) p radius maxResults)
    as [| id l] eqn:Hq; [done |].
  assert (id ∈ QuerySpatialGrid (ClearSpatialGrid grid) p radius maxResults) as Hin
    by (rewrite Hq; apply elem_of_cons; by left).
  apply QuerySpatialGrid_in_cell in Hin as (gx & gy & Hc & Hin); [| done].
  apply query_cells_in_grid in Hc as [Hx Hy].
  rewrite Hempty in Hin by done. by apply elem_of_nil in Hin.
Qed.

(** X4. Inserting into a cell that is not full appends the id to that cell and
    changes no other cell. *)
Theorem AddToSpatialGrid_append (grid : SpatialGrid) (id : Z) (pos : Vector2) :
  grid_ok grid →
  cell_count (cell_at grid (cell_of pos).1 (cell_of pos).2) < MAX_ENTITIES_PER_CELL →
  let grid' := AddToSpatialGrid grid id pos in
  grid_ok grid' ∧
  cell_ids (cell_at grid' (cell_of pos).1 (cell_of pos).2) =
    cell_ids (cell_at grid (cell_of pos).1 (cell_of pos).2) ++ [id] ∧
  cell_count (cell_at grid' (cell_of pos).1 (cell_of pos).2) =
    cell_count (cell_at grid (cell_of pos).1 (cell_of pos).2) + 1 ∧
  ∀ gx gy, 0 ≤ gx < GRID_WIDTH → 0 ≤ gy < GRID_HEIGHT → (gx, gy) ≠ cell_of pos →
    cell_ids (cell_at grid' gx gy) = cell_ids (cell_at grid gx gy).
Proof.
  intros Hok Hfree grid'.
  destruct (AddToSpatialGrid_ids grid id pos Hok) as [Hok' Hids].
  fold grid' in Hok', Hids.
  pose proof (cell_of_range pos) as [Hx Hy].
  destruct (cell_of pos) as [cx cy] eqn:Hcell. cbn [fst snd] in *.
  assert (cell_ok (cell_at grid cx cy)) as Hc
    by (destruct Hok as [_ Hcols]; by apply Hcols).
  assert (cell_ok (cell_at grid' cx cy)) as Hc'
    by (destruct Hok' as [_ Hcols]; by apply Hcols).
  pose proof (cell_count_ids _ Hc) as Hn. pose proof (cell_count_ids _ Hc') as Hn'.
  assert (cell_ids (cell_at grid' cx cy) = cell_ids (cell_at grid cx cy) ++ [id]) as Heq.
  { rewrite Hids by done. rewrite decide_True by done.
    apply take_ge. rewrite length_app. cbn. lia. }
  split; [done |]. split; [done |]. split.
  - rewrite Hn', Heq, length_app, Hn. cbn. lia.
  - intros gx gy Hgx Hgy Hne. rewrite Hids by done. by rewrite decide_False.
Qed.

(** X5. When no cell has more members than it can hold, the rebuilt grid holds
    every active agent: each cell holds exactly the active agents whose
    position falls into it, in index order. *)
Theorem SpatialGridUpdateSystem_complete (grid : SpatialGrid) (pos : list Vector2)
    (ent : list Entity) (count : Z) :
  (∀ c, Z.of_nat (length (cell_members pos ent count c)) ≤ MAX_ENTITIES_PER_CELL) →
  let grid' := SpatialGridUpdateSystem grid pos ent count in
  (∀ gx gy, 0 ≤ gx < GRID_WIDTH → 0 ≤ gy < GRID_HEIGHT →
     cell_ids (cell_at grid' gx gy) = cell_members pos ent count (gx, gy)) ∧
  (∀ i, 0 ≤ i < count → active (aget ent i) = true →
     i ∈ cell_ids (cell_at grid' (cell_of (aget pos i)).1 (cell_of (aget pos i)).2)).
Proof.
  intros Hcap grid'.
  destruct (SpatialGridUpdateSystem_ids grid pos ent count) as [_ Hids].
  fold grid' in Hids.
  assert (∀ gx gy, 0 ≤ gx < GRID_WIDTH → 0 ≤ gy < GRID_HEIGHT →
     cell_ids (cell_at grid' gx gy) = cell_members pos ent count (gx, gy)) as Hall.
  { intros gx gy Hx Hy. rewrite Hids by done. apply take_ge.
    specialize (Hcap (gx, gy)). lia. }
  split; [done |]. intros i Hi Hact.
  pose proof (cell_of_range (aget pos i)) as [Hx Hy].
  rewrite Hall by done. apply cell_members_spec.
  by destruct (cell_of (aget pos i)).
Qed.

(** X6. A query on the rebuilt grid returns no id twice, hence no more ids than
    there are agents. *)
Theorem QuerySpatialGrid_distinct (grid : SpatialGrid) (pos : list Vector2)
    (ent : list Entity) (count : Z) (p : Vector2) (radius : num) (maxResults : Z) :
  let res := QuerySpatialGrid (SpatialGridUpdateSystem grid pos ent count)
               p radius maxResults in
  NoDup res ∧ Z.of_nat (length res) ≤ Z.max count 0.
Proof.
  split; [apply NoDup_QuerySpatialGrid | apply QuerySpatialGrid_length].
Qed.

End GridCompleteness.

Section ResetAndPhysics.
Context {S : Scalar}.

Lemma AccelerationResetSystem_slots (acc : list Vector2) (ent : list Entity)
    (count : Z) :
  let acc' := AccelerationResetSystem acc ent count in
  length acc' = length acc ∧
  ∀ k, aget acc' k =
       if decide (0 ≤ k < count ∧ k < Z.of_nat (length acc))
       then if active (aget ent k) then Vector2Zero else aget acc k
       else aget acc k.
Proof.
  intros acc'.
  assert (acc' = fold_left
            (fun l i => aset l i
               ((λ i v, if active (aget ent i) then Vector2Zero else v) i (aget l i)))
            (seqZ 0 count) acc) as ->.
  { subst acc'. unfold AccelerationResetSystem. apply fold_left_ext_in. intros l i.
    destruct (active (aget ent i)); cbn [negb]; [done |]. by rewrite aset_aget_id. }
  apply (pointwise_loop_seqZ (λ i v, if active (aget ent i) then Vector2Zero else v)).
Qed.

(** X7. [AccelerationResetSystem] sets the acceleration of every active
    agent below [count] to zero, leaves every other slot (inactive, or from
    [count] on) as it was, keeps the length of the array, and changes nothing
    when run a second time. *)
Theorem AccelerationResetSystem_spec (acc : list Vector2) (ent : list Entity)
    (count : Z) :
  let acc' := AccelerationResetSystem acc ent count in
  length acc' = length acc ∧
  (∀ k, 0 ≤ k < count → k < Z.of_nat (length acc) → active (aget ent k) = true →
        aget acc' k = Vector2Zero) ∧
  (∀ k, ¬ (0 ≤ k < count ∧ active (aget ent k) = true) → aget acc' k = aget acc k) ∧
  AccelerationResetSystem acc' ent count = acc'.
Proof.
  intros acc'.
  destruct (AccelerationResetSystem_slots acc ent count) as [Hlen Hget].
  fold acc' in Hlen, Hget.
  split; [done |]. split; [| split].
  - intros k Hk Hl Hact. by rewrite Hget, decide_True, Hact.
  - intros k Hk. rewrite Hget. case_decide as Hd; [| done].
    destruct (active (aget ent k)) eqn:Hact; [| done]. exfalso. apply Hk. lia.
  - destruct (AccelerationResetSystem_slots acc' ent count) as [Hlen' Hget'].
    apply aget_ext; [done |]. intros k. rewrite Hget', Hlen, Hget.
    case_decide; [| done]. by destruct (active (aget ent k)).
Qed.

(** The loop of [PhysicsSystem] over any list of distinct indices: the
    positions it returns are those of a loop that adds to each slot the
    velocity the slot ends with. *)
Lemma physics_loop_positions (idx : list Z) (pos vel acc : list Vector2)
    (ent : list Entity) (maxSpeed : num) :
  NoDup idx →
  let step := (fun '(pos, vel) i =>
       if negb (active (aget ent i)) then (pos, vel)
       else
         let vel := aset vel i (Vector2Add (aget vel i) (aget acc i)) in
         let vel := aset vel i (Vector2Limit (aget vel i) maxSpeed) in
         let pos := aset pos i (Vector2Add (aget pos i) (aget vel i)) in
         (pos, vel)) in
  let res := fold_left step idx (pos, vel) in
  length res.1 = length pos ∧
  (∀ k, k ∉ idx → aget res.2 k = aget vel k) ∧
  ∀ k, aget res.1 k =
       if decide (k ∈ idx ∧ 0 ≤ k < Z.of_nat (length pos))
       then if active (aget ent k)
            then Vector2Add (aget pos k) (aget res.2 k) else aget pos k
       else aget pos k.
Proof.
  intros Hnd step. revert pos vel.
  induction Hnd as [| i idx Hni Hnd IH]; intros pos vel res.
  - split; [done |]. split; [done |]. intros k.
    rewrite decide_False; [done |]. intros [Hk _]. by apply elem_of_nil in Hk.
  - subst res. cbn [fold_left].
    destruct (active (aget ent i)) eqn:Hact; cbn [step negb].
    + rewrite Hact. cbn [negb].
      set (vel1 := aset vel i (Vector2Add (aget vel i) (aget acc i))).
      set (vel2 := aset vel1 i (Vector2Limit (aget vel1 i) maxSpeed)).
      set (pos1 := aset pos i (Vector2Add (aget pos i) (aget vel2 i))).
      destruct (IH pos1 vel2) as (Hlen & Hvel & Hget).
      fold step in Hlen, Hvel, Hget.
      set (res := fold_left step idx (pos1, vel2)) in *.
      subst pos1. rewrite length_aset in Hlen, Hget.
      split; [done |]. split.
      * intros k Hk. rewrite not_elem_of_cons in Hk. destruct Hk as [Hki Hk].
        rewrite Hvel by done. subst vel2 vel1. by rewrite !aget_aset_ne.
      * intros k. rewrite Hget.
        destruct (decide (k = i)) as [-> | Hne].
        -- rewrite decide_False by (intros [? _]; done).
           rewrite (Hvel i Hni).
           case_decide as Hk.
           ++ destruct Hk as [_ Hk]. rewrite Hact. apply aget_aset_eq; lia.
           ++ assert (i < 0 ∨ Z.of_nat (length pos) ≤ i) as [Hneg | Hge].
              { destruct (decide (i < 0)); [by left | right].
                destruct (decide (Z.of_nat (length pos) ≤ i)); [done |].
                exfalso. apply Hk. split; [apply elem_of_cons; by left | lia]. }
              ** unfold aset at 1. by destruct (Z.ltb_spec i 0); [| lia].
              ** by rewrite aset_out_of_range.
        -- rewrite (aget_aset_ne _ i k) by done.
           assert (k ∈ i :: idx ↔ k ∈ idx) as Hiff by (rewrite elem_of_cons; tauto).
           repeat case_decide; try done; tauto.
    + rewrite Hact. cbn [negb].
      destruct (IH pos vel) as (Hlen & Hvel & Hget).
      fold step in Hlen, Hvel, Hget.
      set (res := fold_left step idx (pos, vel)) in *.
      split; [done |]. split.
      * intros k Hk. rewrite not_elem_of_cons in Hk. destruct Hk as [_ Hk]. auto.
      * intros k. rewrite Hget.
        destruct (decide (k = i)) as [-> | Hne].
        -- rewrite decide_False by (intros [? _]; done).
           case_decide; [by rewrite Hact | done].
        -- assert (k ∈ i :: idx ↔ k ∈ idx) as Hiff by (rewrite elem_of_cons; tauto).
           repeat case_decide; try done; tauto.
Qed.

Lemma PhysicsSystem_slots (pos vel acc : list Vector2) (ent : list Entity)
    (count : Z) (maxSpeed : num) :
  let res := PhysicsSystem pos vel acc ent count maxSpeed in
  length res.1 = length pos ∧
  ∀ k, aget res.1 k =
       if decide (0 ≤ k < count ∧ k < Z.of_nat (length pos))
       then if active (aget ent k)
            then Vector2Add (aget pos k) (aget res.2 k) else aget pos k
       else aget pos k.
Proof.
  intros res.
  destruct (physics_loop_positions (seqZ 0 count) pos vel acc ent maxSpeed
              (NoDup_seqZ _ _)) as (Hlp & _ & Hgp).
  change (fold_left _ (seqZ 0 count) (pos, vel)) with res in Hlp, Hgp.
  split; [done |]. intros k. rewrite Hgp.
  repeat case_decide; try done; rewrite elem_of_seqZ in *; lia.
Qed.

(** X8. [PhysicsSystem] gives each active agent below [count] the limited
    sum of its velocity and its acceleration as new velocity and moves it by
    that new velocity; the positions and velocities of all other slots, and
    the lengths of both arrays, are left as they were. *)
Theorem PhysicsSystem_spec (pos vel acc : list Vector2) (ent : list Entity)
    (count : Z) (maxSpeed : num) :
  let res := PhysicsSystem pos vel acc ent count maxSpeed in
  length res.1 = length pos ∧ length res.2 = length vel ∧
  (∀ k, 0 ≤ k < count → k < Z.of_nat (length pos) → k < Z.of_nat (length vel) →
        active (aget ent k) = true →
        aget res.2 k = Vector2Limit (Vector2Add (aget vel k) (aget acc k)) maxSpeed ∧
        aget res.1 k = Vector2Add (aget pos k) (aget res.2 k)) ∧
  (∀ k, ¬ (0 ≤ k < count ∧ active (aget ent k) = true) →
        aget res.1 k = aget pos k ∧ aget res.2 k = aget vel k).
Proof.
  intros res.
  destruct (PhysicsSystem_velocity pos vel acc ent count maxSpeed) as [Hlv Hgv].
  destruct (PhysicsSystem_slots pos vel acc ent count maxSpeed) as [Hlp Hgp].
  fold res in Hlv, Hgv, Hlp, Hgp.
  split; [done |]. split; [done |]. split.
  - intros k Hk Hp Hv Hact. split.
    + by rewrite Hgv, decide_True, Hact.
    + by rewrite Hgp, decide_True, Hact.
  - intros k Hk. split.
    + rewrite Hgp. case_decide as Hd; [| done].
      destruct (active (aget ent k)) eqn:Hact; [| done]. exfalso. apply Hk. lia.
    + rewrite Hgv. case_decide as Hd; [| done].
      destruct (active (aget ent k)) eqn:Hact; [| done]. exfalso. apply Hk. lia.
Qed.

End ResetAndPhysics.

Lemma filter_none {A} (P : A → Prop) `{∀ x, Decision (P x)} (l : list A) :
  (∀ x, x ∈ l → ¬ P x) → filter P l = [].
Proof.
  induction l as [| a l IH]; intros Hl; [done |].
  rewrite filter_cons. rewrite decide_False by (apply Hl, elem_of_cons; by left).
  apply IH. intros x Hx. apply Hl, elem_of_cons. by right.
Qed.

Section FrameFacts.
Context {S : Scalar}.

Lemma WrapAroundSystem_slots (pos : list Vector2) (ent : list Entity)
    (count width height : Z) :
  let pos' := WrapAroundSystem pos ent count width height in
  length pos' = length pos ∧
  ∀ k, aget pos' k =
       if decide (0 ≤ k < count ∧ k < Z.of_nat (length pos))
       then if active (aget ent k)
            then wrap_position (aget pos k) width height else aget pos k
       else aget pos k.
Proof.
  intros pos'.
  assert (pos' = fold_left
            (fun l i => aset l i
               ((λ i v, if active (aget ent i)
                        then wrap_position v width height else v) i (aget l i)))
            (seqZ 0 count) pos) as ->.
  { subst pos'. unfold WrapAroundSystem. apply fold_left_ext_in. intros l i.
    destruct (active (aget ent i)); cbn [negb]; [done |].
    by rewrite aset_aget_id. }
  apply (pointwise_loop_seqZ
           (λ i v, if active (aget ent i) then wrap_position v width height else v)).
Qed.

(** What one frame does to the acceleration of an agent. *)
Lemma Tick_acceleration (grid : SpatialGrid) (s : Store) (params : BoidParams) (k : Z) :
  let grid' := SpatialGridUpdateSystem grid (positions s) (entities s) (entityCount s) in
  aget (accelerations (Tick grid s params).2) k =
  if decide (0 ≤ k < entityCount s ∧ k < Z.of_nat (length (accelerations s)))
  then fold_left add_contribution
         ((λ f, contribution f grid' (positions s) (velocities s) (entities s) params k)
            <$> main_order)
         (if active (aget (entities s) k) then Vector2Zero
          else aget (accelerations s) k)
  else aget (accelerations s) k.
Proof.
  intros grid'. unfold Tick. fold grid'.
  destruct (PhysicsSystem _ _ _ _ _ _) as [pos vel]. cbn [snd accelerations].
  destruct (AccelerationResetSystem_slots (accelerations s) (entities s) (entityCount s))
    as [Hlr Hgr].
  destruct (run_forces_pointwise main_order grid' (positions s) (velocities s)
              (AccelerationResetSystem (accelerations s) (entities s) (entityCount s))
              (entities s) (entityCount s) params) as [_ Hgf].
  rewrite Hgf, Hlr, Hgr. by case_decide.
Qed.

(** X9. A frame keeps the flags, the colours, the count and the lengths of the
    arrays, and leaves the position, the velocity and the acceleration of
    every inactive agent and of every slot from [entityCount] on as they
    were. *)
Theorem Tick_frame (grid : SpatialGrid) (s : Store) (params : BoidParams) :
  let s' := (Tick grid s params).2 in
  entities s' = entities s ∧ colors s' = colors s ∧
  entityCount s' = entityCount s ∧
  (store_arrays_ok s → store_arrays_ok s') ∧
  ∀ k, ¬ (0 ≤ k < entityCount s ∧ active (aget (entities s) k) = true) →
       aget (positions s') k = aget (positions s) k ∧
       aget (velocities s') k = aget (velocities s) k ∧
       aget (accelerations s') k = aget (accelerations s) k.
Proof.
  intros s'.
  pose proof (Tick_acceleration grid s params) as Hacc. cbn zeta in Hacc.
  fold s' in Hacc. subst s'. unfold Tick in *.
  set (grid' := SpatialGridUpdateSystem grid (positions s) (entities s) (entityCount s)) in *.
  set (acc1 := AccelerationResetSystem (accelerations s) (entities s) (entityCount s)) in *.
  set (acc2 := run_forces main_order grid' (positions s) (velocities s) acc1
                 (entities s) (entityCount s) params) in *.
  destruct (AccelerationResetSystem_slots (accelerations s) (entities s) (entityCount s))
    as [Hlr _]. fold acc1 in Hlr.
  destruct (run_forces_pointwise main_order grid' (positions s) (velocities s) acc1
              (entities s) (entityCount s) params) as [Hlf _]. fold acc2 in Hlf.
  destruct (PhysicsSystem_slots (positions s) (velocities s) acc2 (entities s)
              (entityCount s) (maxSpeed params)) as (Hlp & Hgp).
  destruct (PhysicsSystem_velocity (positions s) (velocities s) acc2 (entities s)
              (entityCount s) (maxSpeed params)) as (Hlv & Hgv).
  destruct (PhysicsSystem _ _ _ _ _ _) as [pos vel]. cbn [fst snd] in *.
  destruct (WrapAroundSystem_slots pos (entities s) (entityCount s)
              SCREEN_WIDTH SCREEN_HEIGHT) as [Hlw Hgw].
  cbn [entities colors entityCount positions velocities accelerations].
  split; [done |]. split; [done |]. split; [done |]. split.
  - intros (He & Hp & Hv & Ha & Hc). unfold store_arrays_ok.
    cbn [entities colors entityCount positions velocities accelerations].
    repeat split; congruence.
  - intros k Hk.
    assert (aget pos k = aget (positions s) k) as Hpk.
    { rewrite Hgp. case_decide as Hd; [| done].
      destruct (active (aget (entities s) k)) eqn:Hact; [| done].
      exfalso. apply Hk. lia. }
    split; [| split].
    + rewrite Hgw. case_decide as Hd; [| done].
      destruct (active (aget (entities s) k)) eqn:Hact; [| done].
      exfalso. apply Hk. lia.
    + rewrite Hgv. case_decide as Hd; [| done].
      destruct (active (aget (entities s) k)) eqn:Hact; [| done].
      exfalso. apply Hk. lia.
    + rewrite Hacc. case_decide as Hd; [| done].
      destruct (active (aget (entities s) k)) eqn:Hact; [exfalso; apply Hk; lia |].
      unfold contribution. rewrite Hact. done.
Qed.

(** X10. An agent with no other active agent below [entityCount] feels no force:
    a frame leaves it with a zero acceleration. *)
Theorem Tick_lone_agent (grid : SpatialGrid) (s : Store) (params : BoidParams) (i : Z) :
  0 ≤ i < entityCount s → i < Z.of_nat (length (accelerations s)) →
  active (aget (entities s) i) = true →
  (∀ j, 0 ≤ j < entityCount s → j ≠ i → active (aget (entities s) j) = false) →
  aget (accelerations (Tick grid s params).2) i = Vector2Zero.
Proof.
  intros Hi Hlen Hact Halone.
  rewrite Tick_acceleration, decide_True, Hact by done.
  set (grid' := SpatialGridUpdateSystem grid (positions s) (entities s) (entityCount s)).
  assert (∀ f, contribution f grid' (positions s) (velocities s) (entities s) params i
               = None) as Hnone.
  { intros f. unfold contribution. rewrite Hact.
    assert (∀ radius,
      filter (λ j, j ≠ i ∧ active (aget (entities s) j) = true ∧
                   ltb (Vector2Distance (aget (positions s) i) (aget (positions s) j))
                       radius = true)
        (QuerySpatialGrid grid' (aget (positions s) i) radius NEARBY_MAX) = []) as Hq.
    { intros radius. apply filter_none. intros j Hin (Hne & Hj & _).
      apply QuerySpatialGrid_ids in Hin as [Hr _].
      rewrite (Halone j Hr Hne) in Hj. done. }
    destruct f; cbn [steering_of].
    - unfold separation_steering. by rewrite separation_sum_none.
    - unfold alignment_steering. by rewrite alignment_sum_none.
    - unfold cohesion_steering. by rewrite cohesion_sum_none. }
  unfold main_order. cbn [fmap list_fmap fold_left]. by rewrite !Hnone.
Qed.

End FrameFacts.

Section InitFacts.
Context {S : Scalar}.
Local Open Scope num_scope.

(** The position, the velocity and the colour [CreateRandomEntity] passes
    to [CreateEntity] when its first draw is call number [n]. *)
Lemma create_entities_state (rand : Z → Z → Z → Z) (n : nat) :
  (Z.of_nat n ≤ MAX_ENTITIES)%Z →
  let st := create_entities rand (Z.of_nat n) (0%Z, initial_store) in
  st.1 = (5 * Z.of_nat n)%Z ∧ entityCount st.2 = Z.of_nat n ∧
  store_arrays_ok st.2 ∧
  ∀ k, (0 ≤ k < Z.of_nat n)%Z →
    active (aget (entities st.2) k) = true ∧
    aget (positions st.2) k =
      mkVector2 (of_int (rand (5 * k)%Z 20%Z (SCREEN_WIDTH - 20)%Z) * of_int 1)
                (of_int (rand (5 * k + 1)%Z 20%Z (SCREEN_HEIGHT - 20)%Z) * of_int 1) ∧
    aget (velocities st.2) k =
      mkVector2 (of_int (rand (5 * k + 2)%Z (-4)%Z 4%Z) * decimal 25 100)
                (of_int (rand (5 * k + 3)%Z (-4)%Z 4%Z) * decimal 25 100) ∧
    aget (accelerations st.2) k = Vector2Zero ∧
    aget (colors st.2) k = GetRandomColor (rand (5 * k + 4)%Z 0%Z 4%Z).
Proof.
  induction n as [| n IH]; intros Hn st.
  - subst st. unfold create_entities. change (seqZ 0 (Z.of_nat 0)) with (@nil Z).
    cbn [fold_left fst snd]. split; [done |]. split; [done |].
    split; [| intros k; lia].
    unfold store_arrays_ok, initial_store.
    cbn [entities positions velocities accelerations colors].
    by rewrite !length_replicate.
  - subst st. unfold create_entities in *.
    replace (Z.of_nat (Datatypes.S n)) with (Z.of_nat n + 1)%Z by lia.
    rewrite seqZ_app by lia. rewrite fold_left_app.
    destruct (IH ltac:(lia)) as (Hcalls & Hcount & Hok & Hslots). clear IH.
    destruct (fold_left _ (seqZ 0 (Z.of_nat n)) (0%Z, initial_store)) as [calls s].
    cbn [fst snd] in *. subst calls.
    change (seqZ (0 + Z.of_nat n) 1) with [(0 + Z.of_nat n)%Z]. cbn [fold_left].
    unfold CreateRandomEntity, CreateEntity. rewrite Hcount.
    destruct (Z.geb_spec (Z.of_nat n) MAX_ENTITIES) as [| _]; [lia |].
    cbn [fst snd entities positions velocities accelerations colors entityCount].
    destruct Hok as (He & Hp & Hv & Ha & Hc).
    split; [lia |]. split; [done |]. split.
    { unfold store_arrays_ok.
      cbn [entities positions velocities accelerations colors].
      by rewrite !length_aset. }
    intros k Hk. destruct (decide (k = Z.of_nat n)) as [-> | Hne].
    + assert (Z.to_nat (Z.of_nat n) < Z.to_nat MAX_ENTITIES)%nat as Hlt by lia.
      assert (0 ≤ Z.of_nat n)%Z as Hn0 by lia.
      rewrite !aget_aset_eq by (done || congruence). done.
    + rewrite !(aget_aset_ne _ (Z.of_nat n) k) by done. apply Hslots. lia.
Qed.

(** X11. The first loop of [main] fills the store: whatever the generator
    returns, it creates [MAX_ENTITIES] active agents with zero
    acceleration, and a further [CreateEntity] fails. *)
Theorem init_entities_full (rand : Z → Z → Z → Z) :
  let s := init_entities rand in
  entityCount s = MAX_ENTITIES ∧ store_arrays_ok s ∧
  (∀ k, (0 ≤ k < MAX_ENTITIES)%Z →
        active (aget (entities s) k) = true ∧
        aget (accelerations s) k = Vector2Zero) ∧
  ∀ position velocity color,
    CreateEntity s position velocity color = ((-1)%Z, s).
Proof.
  intros s. subst s. unfold init_entities.
  assert (Z.of_nat (Z.to_nat MAX_ENTITIES) = MAX_ENTITIES) as Hmax
    by (apply Z2Nat.id; unfold MAX_ENTITIES; lia).
  pose proof (create_entities_state rand (Z.to_nat MAX_ENTITIES)) as Hst.
  rewrite Hmax in Hst. specialize (Hst (Z.le_refl _)).
  destruct Hst as (_ & Hcount & Hok & Hslots).
  set (s := (create_entities rand MAX_ENTITIES (0%Z, initial_store)).2) in *.
  clearbody s.
  split; [exact Hcount |]. split; [exact Hok |]. split.
  - intros k Hk. destruct (Hslots k Hk) as (Ha & _ & _ & Hz & _).
    exact (conj Ha Hz).
  - intros position velocity color. unfold CreateEntity. rewrite Hcount.
    destruct (Z.geb_spec MAX_ENTITIES MAX_ENTITIES) as [_ | Hlt]; [reflexivity | lia].
Qed.

End InitFacts.

(** * Further properties in binary32 *)

Section B32Facts.
Local Existing Instance binary32.
Local Open Scope num_scope.

Local Abbreviation cellq f := (@div binary32 f (@of_int binary32 CELL_SIZE)).

(** X15. In binary32 the cell index computed for a coordinate,
    [(int)(a / CELL_SIZE)], does not decrease when the nonnegative coordinate
    grows and is never negative: rounding the division never swaps two
    agents across a cell border. *)
Theorem b32_cell_index_monotone (a b : spec_float) :
  is_finite a = true → is_finite b = true →
  (0 <= B2R a <= B2R b)%R →
  cast_defined (b / of_int CELL_SIZE) →
  (0 ≤ to_int (a / of_int CELL_SIZE) ≤ to_int (b / of_int CELL_SIZE))%Z.
Proof.
  intros Ha Hb [H0 Hab] (tb & Htb & Hrange).
  destruct (div_cell_nonneg b tb Hb ltac:(lra) Htb) as (HRNb & Htbeq & Htb0).
  cbn [to_int binary32]. rewrite (b32_to_int_in_range (cellq b) tb) by done.
  destruct (B32.b32_trunc (cellq a)) as [ta |] eqn:Hta.
  - destruct (div_cell_nonneg a ta Ha H0 Hta) as (HRNa & Htaeq & Hta0).
    assert (ta ≤ tb)%Z.
    { rewrite Htaeq, Htbeq. apply Zfloor_le.
      eapply RN_mono; [exact HRNa | exact HRNb |]. lra. }
    rewrite (b32_to_int_in_range (cellq a) ta); [lia | done |].
    pose proof INT_MIN_neg. lia.
  - exfalso. destruct a as [s | | | [] m e]; try done.
    + rewrite B2R_finite in H0. pose proof (F2R_pos m e). lra.
    + pose proof (div_cell_rounds false m e) as Hr.
      destruct (cellq (S754_finite false m e)) as [| s' | |]; try done.
      destruct Hr as [_ Hbig]. cbn [B2R cond_Zopp] in Hab.
      pose proof (RN_mono _ _ _ _ (RN_bpow 127 ltac:(by cbn)) HRNb ltac:(lra)) as Hge.
      assert (2 ^ 127 ≤ tb)%Z.
      { rewrite Htbeq. apply Zfloor_lub. by rewrite <- bpow_IZR. }
      unfold INT_MAX in Hrange. lia.
Qed.

(** X16. In binary32 a position inside the world rectangle is filed under the
    cell with the indices [(int)(x / CELL_SIZE)] and [(int)(y / CELL_SIZE)]
    themselves: the clamp of [AddToSpatialGrid] changes nothing, and the
    indices are at most [SCREEN_WIDTH / CELL_SIZE] and
    [SCREEN_HEIGHT / CELL_SIZE]. *)
Theorem b32_cell_of_in_world (q : Vector2) :
  float_ok (vx q) = true → float_ok (vy q) = true →
  in_world (Vector2_value q) →
  cell_of q = (to_int (vx q / of_int CELL_SIZE), to_int (vy q / of_int CELL_SIZE)) ∧
  (0 ≤ (cell_of q).1 ≤ SCREEN_WIDTH / CELL_SIZE)%Z ∧
  (0 ≤ (cell_of q).2 ≤ SCREEN_HEIGHT / CELL_SIZE)%Z.
Proof.
  intros Hx Hy [Hwx Hwy]. cbn [Vector2_value vx vy] in Hwx, Hwy.
  destruct screen_width_float as (HMw & HFw & Htw).
  destruct screen_height_float as (HMh & HFh & Hth).
  destruct (b32_cell_index (vx q) SCREEN_WIDTH GRID_WIDTH 51%Z 10485760 (-12)%Z)
    as (cx & Hcx & Hrx); try done.
  destruct (b32_cell_index (vy q) SCREEN_HEIGHT 29%Z 28%Z 11796480 (-13)%Z)
    as (cy & Hcy & Hry); try done.
  pose proof INT_MIN_neg as Hmin.
  assert (to_int (cellq (vx q)) = cx) as Hix.
  { cbn [to_int binary32]. apply b32_to_int_in_range; [done |].
    rewrite GRID_WIDTH_eq in Hrx. unfold INT_MAX. lia. }
  assert (to_int (cellq (vy q)) = cy) as Hiy.
  { cbn [to_int binary32]. apply b32_to_int_in_range; [done |].
    unfold INT_MAX. lia. }
  unfold cell_of. cbn [fst snd]. rewrite Hix, Hiy.
  rewrite !clamp_cell_id by (rewrite ?GRID_HEIGHT_eq; lia).
  rewrite GRID_WIDTH_eq in Hrx.
  change (SCREEN_WIDTH / CELL_SIZE)%Z with 51%Z.
  change (SCREEN_HEIGHT / CELL_SIZE)%Z with 28%Z. split; [done | lia].
Qed.

Lemma b32_wrap_axis_in_world (q : spec_float) (extent : Z) :
  (0 ≤ extent < 2 ^ 24)%Z →
  valid_binary B32.prec B32.emax q = true → q ≠ S754_nan →
  float_ok (wrap_axis q extent) = true ∧
  (0 <= B2R (wrap_axis q extent) <= IZR extent)%R.
Proof.
  intros Hext Hv Hnan.
  destruct (b32_of_int_exact extent Hext) as [Hok_e Hval_e].
  destruct (b32_of_int_exact 0 ltac:(lia)) as [Hok_0 Hval_0].
  assert (0 <= IZR extent)%R by (apply IZR_le; lia).
  rewrite wrap_axis_cases. cbn [ltb of_int binary32].
  destruct (SFltb q (B32.b32_of_int 0)) eqn:Hneg.
  - split; [done | lra].
  - destruct (SFltb (B32.b32_of_int extent) q) eqn:Hbig.
    + split; [done | rewrite Hval_0; lra].
    + assert (float_ok q = true) as Hq.
      { unfold float_ok. rewrite Hv, andb_true_r.
        destruct q as [s | [] | | s m e]; try done.
        apply float_ok_finite in Hok_e.
        by destruct (B32.b32_of_int extent). }
      split; [done |].
      pose proof (SFltb_spec q _ Hq Hok_0) as H1.
      pose proof (SFltb_spec _ q Hok_e Hq) as H2.
      rewrite Hneg in H1. rewrite Hbig in H2. rewrite Hval_0 in H1.
      rewrite Hval_e in H2. split.
      * destruct (Rle_dec 0 (B2R q)) as [| Hn]; [done |].
        assert (B2R q < 0)%R as Hlt by lra. apply H1 in Hlt. done.
      * destruct (Rle_dec (B2R q) (IZR extent)) as [| Hn]; [done |].
        assert (IZR extent < B2R q)%R as Hlt by lra. apply H2 in Hlt. done.
Qed.

(** X17. In binary32, after the wrap every active agent whose coordinates are
    floats other than NaN (infinities included) has finite coordinates inside
    the rectangle [0, width] x [0, height]. *)
Theorem b32_WrapAroundSystem_in_world (pos : list Vector2) (ent : list Entity)
    (count width height i : Z) :
  (0 ≤ width < 2 ^ 24)%Z → (0 ≤ height < 2 ^ 24)%Z →
  (0 ≤ i < count)%Z → (i < Z.of_nat (length pos))%Z →
  active (aget ent i) = true →
  valid_binary B32.prec B32.emax (vx (aget pos i)) = true →
  valid_binary B32.prec B32.emax (vy (aget pos i)) = true →
  vx (aget pos i) ≠ S754_nan → vy (aget pos i) ≠ S754_nan →
  let p := aget (WrapAroundSystem pos ent count width height) i in
  float_ok (vx p) = true ∧ float_ok (vy p) = true ∧
  (0 <= B2R (vx p) <= IZR width)%R ∧ (0 <= B2R (vy p) <= IZR height)%R.
Proof.
  intros Hw Hh Hi Hl Hact Hvx Hvy Hnx Hny p.
  destruct (WrapAroundSystem_pointwise pos ent count width height) as [_ Hget].
  subst p. rewrite Hget, decide_True, Hact by done.
  unfold wrap_position. cbn [vx vy].
  destruct (b32_wrap_axis_in_world _ width Hw Hvx Hnx) as [? ?].
  destruct (b32_wrap_axis_in_world _ height Hh Hvy Hny) as [? ?]. done.
Qed.

Lemma SFltb_infinity (f : spec_float) : SFltb (S754_infinity false) f = false.
Proof. by destruct f as [[] | [] | | [] m e]. Qed.

(** X18. In binary32 [Vector2Limit] returns every vector unchanged, however
    long, when the limit is so large ([|max| >= 2^64]) that [max * max]
    overflows to infinity: the comparison [magSq > max * max] is then
    false. *)
Theorem b32_Vector2Limit_overflow (v : Vector2) (max : spec_float) :
  float_ok max = true → (bpow 64 <= Rabs (B2R max))%R →
  Vector2Limit v max = v.
Proof.
  intros Hok Hbig.
  assert (max * max = S754_infinity false) as Hsq.
  { destruct max as [s | | | s m e]; try done.
    - exfalso. cbn [B2R] in Hbig. rewrite Rabs_R0 in Hbig. pose proof (bpow_pos 64). lra.
    - destruct (SFmul_rounds s s m m e e Hok Hok) as [Hr Hv].
      change (@mul binary32 (S754_finite s m e) (S754_finite s m e))
        with (SFmul B32.prec B32.emax (S754_finite s m e) (S754_finite s m e)).
      assert (bpow 64 <= F2R (Zpos m) e)%R as Hm.
      { rewrite B2R_finite in Hbig. pose proof (F2R_pos m e).
        destruct s; [rewrite Rabs_Ropp in Hbig |]; rewrite Rabs_pos_eq in Hbig; lra. }
      assert (bpow 128 <= F2R (Zpos m) e * F2R (Zpos m) e)%R as Hsq.
      { replace 128%Z with (64 + 64)%Z by lia. rewrite bpow_plus.
        pose proof (bpow_pos 64). nra. }
      replace (xorb s s) with false in Hr by (by destruct s).
      pose proof (RN_bpow 128 ltac:(by cbn)) as H128.
      destruct (SFmul _ _ _ _) as [s' | s' | | s' m' e'] eqn:Hmul;
        cbn [rounds] in Hr; try done.
      + exfalso. destruct Hr as [_ Hr].
        pose proof (RN_mono _ _ _ _ H128 Hr Hsq). pose proof (bpow_pos 128). lra.
      + by destruct Hr as [-> _].
      + exfalso. destruct Hr as [_ Hr].
        pose proof (RN_mono _ _ _ _ H128 Hr Hsq) as Hge.
        assert (float_ok (S754_finite s' m' e') = true) as Hok'
          by (unfold float_ok; by rewrite Hv).
        pose proof (float_ok_bound _ _ _ Hok'). lra. }
  unfold Vector2Limit. rewrite Hsq. cbn [ltb binary32].
  by rewrite SFltb_infinity.
Qed.

(** The distance of a finite point from itself is [+0]. *)
Lemma b32_distance_self (p : Vector2) :
  is_finite (vx p) = true → is_finite (vy p) = true →
  Vector2Distance p p = S754_zero false.
Proof.
  assert (∀ x, is_finite x = true →
               ∃ s, @sub binary32 x x = S754_zero s) as Hsub.
  { intros [[] | | | s m e]; try done; intros _; cbn [sub binary32 SFsub]; eauto.
    unfold cond_Zopp. destruct s; rewrite ?Z.sub_opp_r, ?Z.add_opp_diag_l, ?Z.sub_diag;
      cbn; eauto. }
  intros Hx Hy. unfold Vector2Distance.
  destruct (Hsub _ Hx) as [sx ->]. destruct (Hsub _ Hy) as [sy ->].
  by destruct sx, sy.
Qed.

(** X19. In binary32, agents at the same finite position do not repel each
    other: when every other active candidate of agent [i] is at the position
    of [i] itself, [BoidSeparationSystem] leaves [acc[i]] as it was, because
    it skips a neighbour at distance zero. *)
Theorem b32_separation_skips_coincident (grid : SpatialGrid)
    (pos vel acc : list Vector2) (ent : list Entity) (count : Z)
    (params : BoidParams) (i : Z) :
  is_finite (vx (aget pos i)) = true → is_finite (vy (aget pos i)) = true →
  (∀ j, j ∈ QuerySpatialGrid grid (aget pos i) (separationRadius params) NEARBY_MAX →
        j ≠ i → active (aget ent j) = true → aget pos j = aget pos i) →
  aget (BoidSeparationSystem grid pos vel acc ent count params) i = aget acc i.
Proof.
  intros Hx Hy Hsame.
  destruct (run_force_pointwise Separation grid pos vel acc ent count params)
    as [_ Hget]. cbn [run_force] in Hget. rewrite Hget.
  case_decide; [| done].
  assert (separation_steering grid pos vel ent params i = None) as Hnone.
  { unfold separation_steering.
    set (nearby := QuerySpatialGrid grid (aget pos i) (separationRadius params) NEARBY_MAX) in *.
    assert (separation_sum pos ent params i nearby = (Vector2Zero, 0%Z)) as ->; [| done].
    unfold separation_sum. generalize (@Vector2Zero binary32, 0%Z).
    induction nearby as [| j nearby IH]; intros st; [done |].
    cbn [fold_left]. destruct st as [steering total].
    match goal with |- fold_left _ _ ?st' = _ =>
      assert (st' = (steering, total)) as -> end.
    { destruct (Z.eqb_spec i j) as [| Hne]; [done |].
      destruct (active (aget ent j)) eqn:Hact; [| done]. cbn [negb orb].
      rewrite (Hsame j) by (done || apply elem_of_cons; by left).
      rewrite b32_distance_self by done.
      by rewrite andb_false_r. }
    apply IH. intros k Hk. apply Hsame. apply elem_of_cons. by right. }
  unfold contribution. cbn [steering_of]. rewrite Hnone.
  by destruct (active (aget ent i)).
Qed.

(** The product of a small positive integer and 1 is the integer. *)
Lemma b32_mul_one (r : Z) :
  (0 < r < 2 ^ 24)%Z →
  float_ok (of_int r * of_int 1) = true ∧ B2R (of_int r * of_int 1) = IZR r.
Proof.
  intros Hr.
  destruct (b32_of_int_exact r ltac:(lia)) as [Hok Hval].
  assert (0 < IZR r)%R as Hpos by (apply IZR_lt; lia).
  cbn [of_int binary32] in *.
  change (B32.b32_of_int 1) with (S754_finite false 8388608 (-23)).
  assert (float_ok (S754_finite false 8388608 (-23)) = true) as Hok1 by reflexivity.
  assert (F2R 8388608 (-23) = 1%R) as Hone.
  { change 8388608%Z with (1 * 2 ^ 23)%Z. change (-23)%Z with (0 - 23)%Z.
    rewrite F2R_shift by lia. unfold F2R, bpow. cbn [powerRZ]. lra. }
  destruct (B32.b32_of_int r) as [s | | | s m e]; try done.
  rewrite B2R_finite in Hval. pose proof (F2R_pos m e).
  destruct s; [lra |].
  destruct (SFmul_rounds false false m 8388608 e (-23) Hok Hok1) as [Hrd Hv].
  rewrite Hone, Rmult_1_r, Hval in Hrd. cbn [xorb] in Hrd.
  change (@mul binary32 (S754_finite false m e) (S754_finite false 8388608 (-23)))
    with (SFmul B32.prec B32.emax (S754_finite false m e) (S754_finite false 8388608 (-23))).
  pose proof (RN_small_int r Hr) as Hrr.
  destruct (SFmul _ _ _ _) as [s' | s' | | s' m' e']; cbn [rounds] in Hrd; try done.
  - destruct Hrd as [_ Hrd]. pose proof (RN_unique _ _ Hrr Hrd). lra.
  - exfalso. destruct Hrd as [_ Hbig]. rewrite (bpow_IZR 127) in Hbig by lia.
    apply le_IZR in Hbig. lia.
  - destruct Hrd as [-> Hrd]. split; [unfold float_ok; by rewrite Hv |].
    cbn [B2R cond_Zopp]. by apply RN_unique.
Qed.

(** The product of an integer between -4 and 4 and 0.25 is exact. *)
Lemma b32_mul_quarter (r : Z) :
  (-4 ≤ r ≤ 4)%Z →
  float_ok (of_int r * decimal 25 100) = true ∧
  (4 * B2R (of_int r * decimal 25 100)%num = IZR r)%R.
Proof.
  intros Hr.
  assert (∀ (z a : Z) (f : spec_float),
            f = S754_finite false (Z.to_pos (z * 2 ^ a)) (-2 - a) →
            (0 < z)%Z → (0 ≤ a)%Z → (4 * B2R f = IZR z)%R) as Hpos.
  { intros z a f -> Hz Ha. cbn [B2R cond_Zopp].
    pose proof (Z.pow_pos_nonneg 2 a ltac:(lia) Ha).
    rewrite Z2Pos.id by nia. rewrite F2R_shift by done.
    unfold F2R, bpow. cbn [powerRZ]. change (Pos.to_nat 2) with 2%nat. cbn [pow]. lra. }
  assert (∀ (z a : Z) (f : spec_float),
            f = S754_finite true (Z.to_pos (z * 2 ^ a)) (-2 - a) →
            (0 < z)%Z → (0 ≤ a)%Z → (4 * B2R f = IZR (- z))%R) as Hneg.
  { intros z a f -> Hz Ha. rewrite B2R_finite, opp_IZR.
    specialize (Hpos z a _ eq_refl Hz Ha). cbn [B2R cond_Zopp] in Hpos. lra. }
  assert (r = -4 ∨ r = -3 ∨ r = -2 ∨ r = -1 ∨ r = 0 ∨ r = 1 ∨ r = 2 ∨ r = 3 ∨ r = 4)%Z
    as Hcases by lia.
  destruct Hcases as [-> | [-> | [-> | [-> | [-> | [-> | [-> | [-> | ->]]]]]]]];
    (split; [reflexivity |]).
  - by apply (Hneg 4%Z 21%Z).
  - by apply (Hneg 3%Z 22%Z).
  - by apply (Hneg 2%Z 22%Z).
  - by apply (Hneg 1%Z 23%Z).
  - assert (@mul binary32 (of_int 0) (decimal 25 100) = S754_zero false) as ->
      by reflexivity.
    cbn [B2R]. lra.
  - by apply (Hpos 1%Z 23%Z).
  - by apply (Hpos 2%Z 22%Z).
  - by apply (Hpos 3%Z 22%Z).
  - by apply (Hpos 4%Z 21%Z).
Qed.

(** X20. If the generator keeps to the bounds it is given, the first loop of
    [main] starts every agent, in binary32, at the point whose coordinates
    are exactly the integers drawn, at least 20 inside the border of the
    world, with velocity components that are exactly a quarter of the
    integers drawn, between -1 and 1. *)
Theorem b32_init_entities_in_world (rand : Z → Z → Z → Z) (k : Z) :
  (∀ n lo hi, (lo ≤ hi)%Z → (lo ≤ rand n lo hi ≤ hi)%Z) →
  (0 ≤ k < MAX_ENTITIES)%Z →
  let p := aget (positions (init_entities rand)) k in
  let v := aget (velocities (init_entities rand)) k in
  float_ok (vx p) = true ∧ float_ok (vy p) = true ∧
  B2R (vx p) = IZR (rand (5 * k)%Z 20%Z (SCREEN_WIDTH - 20)%Z) ∧
  B2R (vy p) = IZR (rand (5 * k + 1)%Z 20%Z (SCREEN_HEIGHT - 20)%Z) ∧
  (20 <= B2R (vx p) <= IZR SCREEN_WIDTH - 20)%R ∧
  (20 <= B2R (vy p) <= IZR SCREEN_HEIGHT - 20)%R ∧
  float_ok (vx v) = true ∧ float_ok (vy v) = true ∧
  (4 * B2R (vx v) = IZR (rand (5 * k + 2)%Z (-4)%Z 4%Z))%R ∧
  (4 * B2R (vy v) = IZR (rand (5 * k + 3)%Z (-4)%Z 4%Z))%R ∧
  (-1 <= B2R (vx v) <= 1)%R ∧ (-1 <= B2R (vy v) <= 1)%R.
Proof.
  intros Hrand Hk p v. subst p v. unfold init_entities.
  assert (Z.of_nat (Z.to_nat MAX_ENTITIES) = MAX_ENTITIES) as Hmax
    by (apply Z2Nat.id; unfold MAX_ENTITIES; lia).
  pose proof (create_entities_state rand (Z.to_nat MAX_ENTITIES)) as Hst.
  rewrite Hmax in Hst. specialize (Hst (Z.le_refl _)).
  destruct Hst as (_ & _ & _ & Hslots).
  set (s := (create_entities rand MAX_ENTITIES (0%Z, initial_store)).2) in *.
  clearbody s. destruct (Hslots k Hk) as (_ & -> & -> & _). clear Hslots.
  cbn [vx vy].
  pose proof (Hrand (5 * k)%Z 20%Z (SCREEN_WIDTH - 20)%Z ltac:(by cbn)) as Hx.
  pose proof (Hrand (5 * k + 1)%Z 20%Z (SCREEN_HEIGHT - 20)%Z ltac:(by cbn)) as Hy.
  pose proof (Hrand (5 * k + 2)%Z (-4)%Z 4%Z ltac:(lia)) as Hvx.
  pose proof (Hrand (5 * k + 3)%Z (-4)%Z 4%Z ltac:(lia)) as Hvy.
  set (rx := rand (5 * k)%Z 20%Z (SCREEN_WIDTH - 20)%Z) in *.
  set (ry := rand (5 * k + 1)%Z 20%Z (SCREEN_HEIGHT - 20)%Z) in *.
  set (rvx := rand (5 * k + 2)%Z (-4)%Z 4%Z) in *.
  set (rvy := rand (5 * k + 3)%Z (-4)%Z 4%Z) in *.
  unfold SCREEN_WIDTH, SCREEN_HEIGHT in *.
  destruct (b32_mul_one rx ltac:(lia)) as [Hox Hbx].
  destruct (b32_mul_one ry ltac:(lia)) as [Hoy Hby].
  destruct (b32_mul_quarter rvx Hvx) as [Hovx Hbvx].
  destruct (b32_mul_quarter rvy Hvy) as [Hovy Hbvy].
  assert (20 <= IZR rx <= 2540)%R
    by (split; [apply (IZR_le 20) | apply (IZR_le _ 2540)]; lia).
  assert (20 <= IZR ry <= 1420)%R
    by (split; [apply (IZR_le 20) | apply (IZR_le _ 1420)]; lia).
  assert (-4 <= IZR rvx <= 4)%R
    by (split; [apply (IZR_le (-4)) | apply (IZR_le _ 4)]; lia).
  assert (-4 <= IZR rvy <= 4)%R
    by (split; [apply (IZR_le (-4)) | apply (IZR_le _ 4)]; lia).
  rewrite Hbx, Hby.
  repeat split; try assumption; lra.
Qed.

End B32Facts.

(** * Rounding errors of the speed limit (binary32) *)

Section SquareRoot.

Lemma sqrt_lower (a b : R) : (0 <= a → a * a < b → a < sqrt b)%R.
Proof.
  intros Ha Hab. rewrite <- (sqrt_square a) at 1 by done.
  apply sqrt_lt_1_alt. split; [nra | done].
Qed.

Lemma sqrt_upper (a b : R) : (0 <= a → 0 <= b → b < a * a → sqrt b < a)%R.
Proof.
  intros Ha Hb Hab. rewrite <- (sqrt_square a) by done.
  apply sqrt_lt_1_alt. split; [done | done].
Qed.

Lemma sqrt_F2R_even (m e : Z) :
  0 ≤ m → sqrt (F2R m (2 * e)) = (sqrt (IZR m) * bpow e)%R.
Proof.
  intros Hm. unfold F2R. replace (2 * e) with (e + e) by lia.
  rewrite bpow_plus. pose proof (bpow_pos e).
  rewrite sqrt_mult_alt by (apply IZR_le; lia).
  rewrite sqrt_square by lra. done.
Qed.

Lemma SFsqrt_core_binary_spec (m : positive) (e : Z) :
  let r := SFsqrt_core_binary B32.prec B32.emax (Zpos m) e in
  0 ≤ r.1.1 ∧
  inbetween r.1.1 r.1.2 r.2 (sqrt (F2R (Zpos m) e)) ∧
  r.1.2 ≤ fexp B32.prec B32.emax (Zdigits2 r.1.1 + r.1.2).
Proof.
  unfold SFsqrt_core_binary.
  set (d := Zdigits2 (Zpos m)).
  set (e' := Z.min (fexp B32.prec B32.emax (Z.div2 (d + e + 1))) (Z.div2 e)).
  set (s := e - 2 * e').
  assert (2 * Z.div2 e ≤ e) as Hdiv2.
  { rewrite Z.div2_div. pose proof (Z.mul_div_le e 2 ltac:(lia)). lia. }
  assert (0 ≤ s) as Hs by lia.
  set (m' := match s with Z0 => Zpos m | Zpos _ => Z.shiftl (Zpos m) s | Zneg _ => 0 end).
  assert (m' = Zpos m * 2 ^ s) as Hm'.
  { subst m'. destruct s as [| p | p]; [lia | | lia]. by rewrite Z.shiftl_mul_pow2. }
  clearbody m'.
  pose proof (Z.pow_pos_nonneg 2 s ltac:(lia) Hs) as Hps.
  assert (0 < m') as Hm0 by nia.
  pose proof (Z.sqrtrem_spec m' ltac:(lia)) as Hsq.
  destruct (Z.sqrtrem m') as [q r]. destruct Hsq as [Hq Hr].
  cbn [fst snd].
  assert (0 ≤ q) as Hq0 by lia.
  split; [done |]. split.
  - assert (sqrt (F2R (Zpos m) e) = (sqrt (IZR m') * bpow e')%R) as ->.
    { rewrite <- sqrt_F2R_even by lia. f_equal. rewrite Hm'.
      replace (2 * e') with (e - s) by lia. by rewrite F2R_shift. }
    pose proof (bpow_pos e') as HB.
    assert (IZR m' = IZR q * IZR q + IZR r)%R as Hreal
      by (rewrite <- mult_IZR, <- plus_IZR; f_equal; lia).
    assert (0 <= IZR q)%R as HQ by (apply IZR_le; lia).
    assert (0 <= IZR r <= 2 * IZR q)%R as HR.
    { split; [apply IZR_le; lia |]. rewrite <- (mult_IZR 2). apply IZR_le. lia. }
    destruct (Z.eqb_spec r 0) as [-> | Hr0]; cbn [inbetween]; unfold F2R.
    + rewrite Hreal, Rplus_0_r, sqrt_square by done. done.
    + assert (1 <= IZR r)%R as HR1 by (apply IZR_le; lia).
      assert (IZR q < sqrt (IZR m') < IZR q + 1)%R as Hbetween.
      { split; [apply sqrt_lower; nra | apply sqrt_upper; nra]. }
      rewrite !plus_IZR, !mult_IZR. split; [split; nra |].
      destruct (Z.leb_spec r q) as [Hle | Hgt].
      * assert (sqrt (IZR m') < IZR q + / 2)%R; [| nra].
        apply sqrt_upper; [lra | nra |].
        assert (IZR r <= IZR q)%R by (by apply IZR_le). nra.
      * assert (IZR q + / 2 < sqrt (IZR m'))%R; [| nra].
        apply sqrt_lower; [lra |].
        assert (IZR q + 1 <= IZR r)%R by (rewrite <- plus_IZR; apply IZR_le; lia).
        nra.
  - set (D := Z.div2 (d + e + 1)).
    assert (2 * D ≤ d + e + 1) as HD.
    { subst D. rewrite Z.div2_div. pose proof (Z.mul_div_le (d + e + 1) 2 ltac:(lia)). lia. }
    assert (D ≤ Zdigits2 q + e') as Hdig.
    { pose proof (Zdigits2_nonneg q).
      destruct (Z.le_gt_cases (D - e') 0) as [| Hk]; [lia |].
      assert (D - e' - 1 < Zdigits2 q); [| lia].
      apply Zdigits2_gt; [| lia].
      pose proof (Zdigits2_bounds (Zpos m) ltac:(lia)) as [Hl _]. fold d in Hl.
      assert (0 < d) as Hd0 by (subst d; cbn; lia).
      assert (2 ^ (D - e' - 1) * 2 ^ (D - e' - 1) ≤ 2 ^ (d - 1) * 2 ^ s) as Hpw.
      { rewrite <- !Z.pow_add_r by lia. apply Z.pow_le_mono_r; lia. }
      pose proof (Z.pow_pos_nonneg 2 (D - e' - 1) ltac:(lia) ltac:(lia)) as Hp1.
      assert (2 ^ (D - e' - 1) * 2 ^ (D - e' - 1) < (q + 1) * (q + 1)) by nia.
      nia. }
    assert (fexp B32.prec B32.emax D ≤ fexp B32.prec B32.emax (Zdigits2 q + e')).
    { unfold fexp. lia. }
    assert (e' ≤ fexp B32.prec B32.emax D) by (subst e' D; lia).
    lia.
Qed.

Lemma SFsqrt_rounds (m : positive) (e : Z) :
  rounds false (sqrt (F2R (Zpos m) e))
    (SFsqrt B32.prec B32.emax (S754_finite false m e)) ∧
  valid_binary B32.prec B32.emax
    (SFsqrt B32.prec B32.emax (S754_finite false m e)) = true.
Proof.
  cbn [SFsqrt].
  pose proof (SFsqrt_core_binary_spec m e) as (Hm & Hin & He).
  destruct (SFsqrt_core_binary _ _ _ _) as [[mz ez] lz]. cbn [fst snd] in *.
  split; [by apply binary_round_aux_RN | by apply binary_round_aux_valid].
Qed.

End SquareRoot.

Section ErrorBounds.
Local Existing Instance binary32.

Lemma bpow_opp (e : Z) : bpow (- e) = (/ bpow e)%R.
Proof.
  pose proof (bpow_pos e). apply (Rmult_eq_reg_r (bpow e)); [| lra].
  rewrite <- bpow_plus, Rinv_l by lra. by replace (- e + e) with 0 by lia.
Qed.

Lemma RN_error (x v : R) :
  RN x v → (0 <= x ∧ Rabs (v - x) <= bpow (-24) * x + bpow (-150))%R.
Proof.
  intros (m & e & l & Hc & Hin & ->).
  pose proof (inbetween_bounds _ _ _ _ Hin) as Hb.
  pose proof (bpow_pos e) as HB. pose proof (bpow_pos (-24)) as HE.
  pose proof (bpow_pos (-150)) as HU.
  pose proof (canon_range _ _ Hc) as Hm.
  assert (0 <= IZR m)%R as HM by (apply IZR_le; lia).
  assert (0 <= x)%R as Hx by (unfold F2R in Hb; nra).
  split; [done |].
  assert (Rabs (F2R (round_nearest_even m l) e - x) <= bpow e / 2)%R as Hhalf.
  { apply Rabs_le.
    destruct l as [| []]; cbn [inbetween round_nearest_even] in *;
      unfold F2R in *.
    - subst x. lra.
    - destruct Hin as [_ Hin]. unfold F2R in Hin.
      rewrite plus_IZR, mult_IZR in Hin.
      destruct (Z.even m); rewrite ?plus_IZR; lra.
    - destruct Hin as [_ Hin]. unfold F2R in Hin.
      rewrite plus_IZR, mult_IZR in Hin. rewrite plus_IZR in Hb. lra.
    - destruct Hin as [_ Hin]. unfold F2R in Hin.
      rewrite plus_IZR, mult_IZR in Hin. rewrite plus_IZR in *. lra. }
  assert (bpow e / 2 <= bpow (-24) * x + bpow (-150))%R; [| lra].
  destruct Hc as [[Hn _] | [_ ->]].
  - assert (bpow 23 <= IZR m)%R as Hn'.
    { rewrite bpow_IZR by lia. apply IZR_le. lia. }
    assert (bpow (-24) * bpow 23 = / 2)%R as Hhalf'.
    { rewrite <- bpow_plus. change (-24 + 23) with (- (1)). rewrite bpow_opp.
      f_equal. change 1 with (0 + 1). rewrite bpow_succ. unfold bpow. cbn [powerRZ]. lra. }
    unfold F2R in Hb.
    assert (bpow e / 2 <= bpow (-24) * (IZR m * bpow e))%R; [| nra].
    replace (bpow e / 2)%R with (bpow (-24) * bpow 23 * bpow e)%R
      by (rewrite Hhalf'; lra).
    rewrite Rmult_assoc. apply Rmult_le_compat_l; [lra |].
    apply Rmult_le_compat_r; lra.
  - change (emin B32.prec B32.emax) with (-150 + 1). rewrite bpow_succ. nra.
Qed.

Lemma rounds_near (s : bool) (x : R) (f : spec_float) :
  (0 < x < bpow 127)%R → rounds s x f →
  valid_binary B32.prec B32.emax f = true →
  near (if s then - x else x)%R f.
Proof.
  intros Hx Hr Hv. unfold near, float_ok.
  destruct f as [s' | s' | | s' m e]; cbn [rounds is_finite andb B2R] in *.
  - destruct Hr as [-> Hr]. split; [done |].
    destruct (RN_error _ _ Hr) as [_ He].
    rewrite Rminus_0_l in He. rewrite Rabs_Ropp in He.
    rewrite Rminus_0_l, Rabs_Ropp. rewrite (Rabs_pos_eq x) in He by lra.
    destruct s; rewrite ?Rabs_Ropp, (Rabs_pos_eq x) by lra;
      (split; [done | split; lra]).
  - destruct Hr as [_ Hr]. lra.
  - done.
  - destruct Hr as [-> Hr]. split; [done |].
    destruct (RN_error _ _ Hr) as [_ He].
    pose proof (F2R_pos m e) as Hp.
    rewrite F2R_cond_Zopp.
    destruct s; rewrite ?Rabs_Ropp, (Rabs_pos_eq x) by lra.
    + replace (- F2R (Z.pos m) e - - x)%R with (- (F2R (Z.pos m) e - x))%R by lra.
      rewrite Rabs_Ropp. split; [done | split; lra].
    + split; [done | split; lra].
Qed.

Lemma approx_near (x : R) (f : spec_float) :
  (Rabs x < bpow 127)%R → approx x f →
  valid_binary B32.prec B32.emax f = true → near x f.
Proof.
  intros Hx [[Hf Hval] | [[Hpos Hr] | [Hneg Hr]]] Hv.
  - split; [unfold float_ok; by rewrite Hf, Hv |].
    rewrite Hval, Rminus_diag, Rabs_R0.
    pose proof (bpow_pos (-24)). pose proof (bpow_pos (-150)).
    pose proof (Rabs_pos x). split; [nra | split; lra].
  - rewrite Rabs_pos_eq in Hx by lra.
    by apply (rounds_near false x f).
  - rewrite <- Rabs_Ropp, Rabs_pos_eq in Hx by lra.
    pose proof (rounds_near true (- x) f) as Hn. cbn beta iota in Hn.
    rewrite Ropp_involutive in Hn. apply Hn; [lra | done | done].
Qed.

Lemma near_zero (s : bool) : near 0 (S754_zero s).
Proof.
  split; [done |]. cbn [B2R]. rewrite Rminus_diag, Rabs_R0.
  pose proof (bpow_pos (-24)). pose proof (bpow_pos (-150)).
  split; [nra | split; lra].
Qed.

(** What [near] says about a nonnegative exact value. *)
Lemma near_nonneg (x : R) (f : spec_float) :
  near x f → (0 <= x)%R →
  float_ok f = true ∧
  (0 <= B2R f ∧ (1 - bpow (-24)) * x - bpow (-150) <= B2R f
   ∧ B2R f <= (1 + bpow (-24)) * x + bpow (-150))%R.
Proof.
  intros (Hok & He & Hs & _) Hx. split; [done |].
  rewrite (Rabs_pos_eq x) in He by done.
  specialize (Hs Hx). unfold Rabs in He. destruct (Rcase_abs _); lra.
Qed.

(** What [near] says about the magnitude. *)
Lemma near_abs (x : R) (f : spec_float) :
  near x f →
  float_ok f = true ∧
  (Rabs (B2R f) <= (1 + bpow (-24)) * Rabs x + bpow (-150))%R.
Proof.
  intros (Hok & He & _). split; [done |].
  pose proof (Rabs_triang (B2R f - x) x) as Ht.
  replace (B2R f - x + x)%R with (B2R f) in Ht by lra. lra.
Qed.

Lemma b32_mul_near (a b : spec_float) :
  float_ok a = true → float_ok b = true →
  (Rabs (B2R a * B2R b) < bpow 127)%R →
  near (B2R a * B2R b) (@mul binary32 a b).
Proof.
  intros Ha Hb Hx. change (@mul binary32 a b) with (SFmul B32.prec B32.emax a b).
  destruct a as [sa | sa | | sa ma ea]; try done;
    destruct b as [sb | sb | | sb mb eb]; try done;
    cbn [SFmul B2R]; rewrite ?Rmult_0_l, ?Rmult_0_r; try apply near_zero.
  destruct (SFmul_rounds sa sb ma mb ea eb Ha Hb) as [Hr Hv].
  pose proof (F2R_pos ma ea) as Hpa. pose proof (F2R_pos mb eb) as Hpb.
  cbn [B2R] in Hx. rewrite !F2R_cond_Zopp in *.
  assert (0 < F2R (Z.pos ma) ea * F2R (Z.pos mb) eb < bpow 127)%R as Hrange.
  { split; [nra |]. revert Hx.
    destruct sa, sb; intros Hx;
      [replace (- F2R (Z.pos ma) ea * - F2R (Z.pos mb) eb)%R
         with (F2R (Z.pos ma) ea * F2R (Z.pos mb) eb)%R in Hx by lra
      |replace (- F2R (Z.pos ma) ea * F2R (Z.pos mb) eb)%R
         with (- (F2R (Z.pos ma) ea * F2R (Z.pos mb) eb))%R in Hx by lra;
       rewrite Rabs_Ropp in Hx
      |replace (F2R (Z.pos ma) ea * - F2R (Z.pos mb) eb)%R
         with (- (F2R (Z.pos ma) ea * F2R (Z.pos mb) eb))%R in Hx by lra;
       rewrite Rabs_Ropp in Hx
      |]; rewrite Rabs_pos_eq in Hx by nra; done. }
  pose proof (rounds_near _ _ _ Hrange Hr Hv) as Hn.
  destruct sa, sb; cbn [xorb] in Hn;
    [replace (- F2R (Z.pos ma) ea * - F2R (Z.pos mb) eb)%R
       with (F2R (Z.pos ma) ea * F2R (Z.pos mb) eb)%R by lra
    |replace (- F2R (Z.pos ma) ea * F2R (Z.pos mb) eb)%R
       with (- (F2R (Z.pos ma) ea * F2R (Z.pos mb) eb))%R by lra
    |replace (F2R (Z.pos ma) ea * - F2R (Z.pos mb) eb)%R
       with (- (F2R (Z.pos ma) ea * F2R (Z.pos mb) eb))%R by lra
    |]; done.
Qed.

Lemma SFadd_valid (a b : spec_float) :
  float_ok a = true → float_ok b = true →
  valid_binary B32.prec B32.emax (SFadd B32.prec B32.emax a b) = true.
Proof.
  unfold float_ok. intros Ha Hb.
  destruct a as [sa | sa | | sa ma ea]; try done;
    destruct b as [sb | sb | | sb mb eb]; try done; cbn [SFadd].
  - by destruct sa, sb.
  - apply binary_normalize_valid.
Qed.

Lemma b32_add_near (a b : spec_float) :
  float_ok a = true → float_ok b = true →
  (Rabs (B2R a + B2R b) < bpow 127)%R →
  near (B2R a + B2R b) (@add binary32 a b).
Proof.
  intros Ha Hb Hx. change (@add binary32 a b) with (SFadd B32.prec B32.emax a b).
  apply approx_near; [done | | by apply SFadd_valid].
  apply SFadd_approx; by apply float_ok_finite.
Qed.

Lemma b32_div_near (a b : spec_float) :
  float_ok a = true → float_ok b = true → B2R b ≠ 0%R →
  (Rabs (B2R a / B2R b) < bpow 127)%R →
  near (B2R a / B2R b) (@div binary32 a b).
Proof.
  intros Ha Hb Hb0 Hx. change (@div binary32 a b) with (SFdiv B32.prec B32.emax a b).
  destruct b as [sb | sb | | sb mb eb]; try done.
  destruct a as [sa | sa | | sa ma ea]; try done.
  { cbn [SFdiv B2R]. unfold Rdiv. rewrite Rmult_0_l. apply near_zero. }
  pose proof (SFdiv_rounds sa sb ma mb ea eb) as Hr.
  assert (valid_binary B32.prec B32.emax
            (SFdiv B32.prec B32.emax (S754_finite sa ma ea) (S754_finite sb mb eb))
          = true) as Hv.
  { cbn [SFdiv].
    pose proof (SFdiv_core_binary_spec ma mb ea eb) as (Hm & _ & He).
    destruct (SFdiv_core_binary _ _ _ _ _ _) as [[mz ez] lz]. cbn [fst snd] in *.
    by apply binary_round_aux_valid. }
  pose proof (F2R_pos ma ea) as Hpa. pose proof (F2R_pos mb eb) as Hpb.
  assert (0 < F2R (Z.pos ma) ea / F2R (Z.pos mb) eb)%R as Hq
    by (by apply Rdiv_lt_0_compat).
  cbn [B2R] in *. rewrite !F2R_cond_Zopp in *.
  set (u := F2R (Z.pos ma) ea) in *. set (v := F2R (Z.pos mb) eb) in *.
  assert ((if sa then - u else u) / (if sb then - v else v)
          = if xorb sa sb then - (u / v) else u / v)%R as Heq
    by (destruct sa, sb; cbn [xorb]; field; lra).
  rewrite Heq in *.
  apply rounds_near; [| done | done].
  split; [done |]. destruct (xorb sa sb); rewrite ?Rabs_Ropp in Hx;
    by rewrite Rabs_pos_eq in Hx by lra.
Qed.

Lemma b32_sqrt_near (a : spec_float) :
  float_ok a = true → (0 < B2R a)%R →
  near (sqrt (B2R a)) (@sqrtf binary32 a).
Proof.
  intros Ha Hpos. change (@sqrtf binary32 a) with (SFsqrt B32.prec B32.emax a).
  destruct a as [sa | sa | | sa ma ea]; try done; cbn [B2R] in Hpos; try lra.
  pose proof (F2R_pos ma ea) as Hp.
  rewrite F2R_cond_Zopp in Hpos. destruct sa; [lra |].
  destruct (SFsqrt_rounds ma ea) as [Hr Hv].
  cbn [B2R cond_Zopp].
  apply (rounds_near false); [| done | done].
  split; [by apply sqrt_lt_R0 |].
  pose proof (float_ok_bound _ _ _ Ha) as Hbound.
  apply sqrt_upper; [pose proof (bpow_pos 127); lra | lra |].
  rewrite <- bpow_plus. eapply Rlt_le_trans; [exact Hbound |].
  apply bpow_le. lia.
Qed.

End ErrorBounds.

Section LimitArithmetic.
Local Open Scope R_scope.

Lemma Rabs_sq_le (a b : R) : Rabs a <= b → a * a <= b * b.
Proof.
  intros H. pose proof (Rabs_pos a).
  replace (a * a) with (Rabs a * Rabs a); [nra |].
  rewrite <- Rabs_mult. apply Rabs_pos_eq. nra.
Qed.

Lemma limit_keep_bound (e h L2 M T S Bmm : R) :
  0 < e <= / 100 → 0 <= h <= e * e * (M * M) → 0 <= M → 0 <= L2 →
  (1 - e) * L2 - 2 * h <= T → 0 <= T →
  (1 - e) * T - h <= S → S <= Bmm → Bmm <= (1 + e) * (M * M) + h →
  L2 <= (M * (1 + 8 * e)) * (M * (1 + 8 * e)).
Proof.
  intros He Hh HM HL HT HT0 HS HSm Hmm.
  assert ((1 - e) * ((1 - e) * L2) <= (1 + e) * (M * M) + 4 * h) as H1.
  { assert ((1 - e) * ((1 - e) * L2 - 2 * h) <= (1 - e) * T) by (apply Rmult_le_compat_l; lra).
    nra. }
  assert (0 <= M * M) as HMM by nra.
  assert ((1 + e) * (M * M) + 4 * h <= (1 + 2 * e) * (M * M)) as H2 by nra.
  assert ((1 + 2 * e) <= (1 - e) * (1 - e) * ((1 + 8 * e) * (1 + 8 * e))) as H3 by nra.
  assert (0 < (1 - e) * (1 - e)) as H4 by nra.
  apply (Rmult_le_reg_l ((1 - e) * (1 - e))); [done |].
  nra.
Qed.

Lemma limit_divisor (e h x y M T S Bmm r g : R) :
  0 < e <= / 100 → 0 <= h → h <= e * e * (M * M) → 2 * h <= e * e * M →
  0 < M →
  (1 - e) * (x * x + y * y) - 2 * h <= T → 0 <= T →
  (1 - e) * T - h <= S →
  (1 - e) * (M * M) - h <= Bmm → Bmm < S →
  0 <= r → r * r = S →
  (1 - e) * r - h <= g →
  0 < g ∧ x * x + y * y <= (1 + 4 * e) * (1 + 4 * e) * (g * g).
Proof.
  intros He Hh0 HhM2 HhM HM HT HT0 HS Hmm HmS Hr0 Hr Hg.
  assert (0 < M * M) as HMM by (apply Rmult_lt_0_compat; lra).
  assert (0 < e * e <= e * / 100) as Hee.
  { split; [apply Rmult_lt_0_compat; lra | apply Rmult_le_compat_l; lra]. }
  assert ((1 - e - e * e) * (M * M) < S) as HS1.
  { clear - HhM2 Hmm HmS. lra. }
  assert (0 < (1 - e) * M) as HeM by (apply Rmult_lt_0_compat; lra).
  assert ((1 - e) * M < r) as Hr1.
  { destruct (Rlt_le_dec ((1 - e) * M) r) as [| Hle]; [done |]. exfalso.
    assert (r * r <= (1 - e) * M * ((1 - e) * M)) by (apply Rmult_le_compat; lra).
    clear - H Hr HS1 HMM He Hee. nra. }
  assert (0 < r) as Hrpos by lra.
  assert (h <= e * r) as Hhr.
  { assert (e * ((1 - e) * M) <= e * r) by (apply Rmult_le_compat_l; lra).
    assert (e * e * M <= e * M)
      by (apply Rmult_le_compat_r; [lra |]; clear - He; nra).
    clear - H H0 HhM Hh0 He Hee HM. nra. }
  assert ((1 - 2 * e) * r <= g) as Hg1 by (clear - Hg Hhr; lra).
  assert (0 < (1 - 2 * e) * r) as Her by (apply Rmult_lt_0_compat; lra).
  assert (0 < g) as Hgpos by lra.
  split; [done |].
  assert (h <= 2 * (e * e) * S) as HhS.
  { assert (e * e * (M * M) <= e * e * (2 * S)); [| lra].
    apply Rmult_le_compat_l; [lra |]. clear - HS1 HMM He Hee. nra. }
  assert ((1 - e) * ((1 - e) * (x * x + y * y)) <= (1 + 6 * (e * e)) * (r * r)) as HL.
  { assert ((1 - e) * ((1 - e) * (x * x + y * y) - 2 * h) <= (1 - e) * T)
      by (apply Rmult_le_compat_l; lra).
    rewrite Hr. clear - H HS HhS Hh0 He. nra. }
  assert ((1 - 2 * e) * r * ((1 - 2 * e) * r) <= g * g) as Hgg
    by (apply Rmult_le_compat; lra).
  set (d := (1 - e) * (1 - e) * ((1 - 2 * e) * (1 - 2 * e))).
  assert (0 < d) as Hd by (subst d; clear - He; nra).
  assert (1 + 6 * (e * e) <= (1 + 4 * e) * (1 + 4 * e) * d) as H3
    by (subst d; clear - He; nra).
  assert (0 < (1 - 2 * e) * (1 - 2 * e)) as H4 by (clear - He; nra).
  assert ((1 + 6 * (e * e)) * ((1 - 2 * e) * r * ((1 - 2 * e) * r))
          <= (1 + 6 * (e * e)) * (g * g)) as H5
    by (apply Rmult_le_compat_l; lra).
  assert ((1 - 2 * e) * (1 - 2 * e) * ((1 - e) * ((1 - e) * (x * x + y * y)))
          <= (1 - 2 * e) * (1 - 2 * e) * ((1 + 6 * (e * e)) * (r * r))) as H6
    by (apply Rmult_le_compat_l; lra).
  assert (0 <= g * g) as Hgg0 by (apply Rmult_le_pos; lra).
  assert ((1 + 6 * (e * e)) * (g * g) <= (1 + 4 * e) * (1 + 4 * e) * d * (g * g)) as H7
    by (apply Rmult_le_compat_r; lra).
  apply (Rmult_le_reg_l d); [done |]. subst d. clear - H5 H6 H7. lra.
Qed.

Lemma limit_quotient (e x y g : R) :
  0 < e → 0 < g → x * x + y * y <= (1 + 4 * e) * (1 + 4 * e) * (g * g) →
  Rabs x / g <= 1 + 4 * e.
Proof.
  intros He Hg Hxy.
  apply (Rmult_le_reg_r g); [done |].
  unfold Rdiv. rewrite Rmult_assoc, Rinv_l, Rmult_1_r by lra.
  pose proof (Rabs_pos x) as Hx.
  assert (Rabs x * Rabs x = x * x) as Hsq
    by (rewrite <- Rabs_mult; apply Rabs_pos_eq; nra).
  destruct (Rle_lt_dec (Rabs x) ((1 + 4 * e) * g)) as [| Hgt]; [done |]. exfalso.
  assert (0 <= (1 + 4 * e) * g) by (apply Rmult_le_pos; lra).
  assert ((1 + 4 * e) * g * ((1 + 4 * e) * g) < Rabs x * Rabs x)
    by (apply Rmult_le_0_lt_compat; lra).
  assert (0 <= y * y) by nra. lra.
Qed.

Lemma limit_scale_bound (e h x y M g qx qy wx wy : R) :
  0 < e <= / 100 → 0 <= h → 2 * h <= e * e * M → 2 * h * (1 + e) <= e * e →
  0 < M → 0 < g →
  x * x + y * y <= (1 + 4 * e) * (1 + 4 * e) * (g * g) →
  Rabs qx <= (1 + e) * (Rabs x / g) + h →
  Rabs qy <= (1 + e) * (Rabs y / g) + h →
  Rabs wx <= (1 + e) * (Rabs qx * M) + h →
  Rabs wy <= (1 + e) * (Rabs qy * M) + h →
  wx * wx + wy * wy <= (M * (1 + 8 * e)) * (M * (1 + 8 * e)).
Proof.
  intros He Hh0 HhM Hh1 HM Hgpos Hxy Hqx Hqy Hwx Hwy.
  pose proof (limit_quotient e x y g ltac:(lra) Hgpos Hxy) as Hax1.
  assert (y * y + x * x <= (1 + 4 * e) * (1 + 4 * e) * (g * g)) as Hyx by lra.
  pose proof (limit_quotient e y x g ltac:(lra) Hgpos Hyx) as Hay1.
  set (ax := Rabs x / g) in *. set (ay := Rabs y / g) in *.
  assert (0 <= ax) as Hax
    by (apply Rmult_le_pos; [apply Rabs_pos | apply Rlt_le, Rinv_0_lt_compat; lra]).
  assert (0 <= ay) as Hay
    by (apply Rmult_le_pos; [apply Rabs_pos | apply Rlt_le, Rinv_0_lt_compat; lra]).
  assert (ax * g = Rabs x) as Hxg by (subst ax; field; lra).
  assert (ay * g = Rabs y) as Hyg by (subst ay; field; lra).
  assert ((ax * ax + ay * ay) * (g * g) = x * x + y * y) as HA.
  { replace (x * x) with (Rabs x * Rabs x)
      by (rewrite <- Rabs_mult; apply Rabs_pos_eq; nra).
    replace (y * y) with (Rabs y * Rabs y)
      by (rewrite <- Rabs_mult; apply Rabs_pos_eq; nra).
    rewrite <- Hxg, <- Hyg. ring. }
  assert (0 < g * g) as Hgg by (apply Rmult_lt_0_compat; lra).
  set (A := ax * ax + ay * ay) in *.
  assert (A <= (1 + 4 * e) * (1 + 4 * e)) as HA2.
  { apply (Rmult_le_reg_r (g * g)); [done | lra]. }
  set (K := (1 + e) * (1 + e) * M).
  set (c := (1 + e) * h * M + h).
  assert (0 <= (1 + e) * h * M) as HhM0
    by (apply Rmult_le_pos; [apply Rmult_le_pos |]; lra).
  assert (0 <= c) as Hc0 by (subst c; lra).
  assert (0 < K) as HK0
    by (subst K; apply Rmult_lt_0_compat; [apply Rmult_lt_0_compat |]; lra).
  assert (Rabs wx <= K * ax + c) as Hwx1.
  { subst K c. pose proof (Rabs_pos qx).
    assert (Rabs qx * M <= ((1 + e) * ax + h) * M) by (apply Rmult_le_compat_r; lra).
    assert ((1 + e) * (Rabs qx * M) <= (1 + e) * (((1 + e) * ax + h) * M))
      by (apply Rmult_le_compat_l; lra).
    clear - H1 Hwx. lra. }
  assert (Rabs wy <= K * ay + c) as Hwy1.
  { subst K c. pose proof (Rabs_pos qy).
    assert (Rabs qy * M <= ((1 + e) * ay + h) * M) by (apply Rmult_le_compat_r; lra).
    assert ((1 + e) * (Rabs qy * M) <= (1 + e) * (((1 + e) * ay + h) * M))
      by (apply Rmult_le_compat_l; lra).
    clear - H1 Hwy. lra. }
  apply Rabs_sq_le in Hwx1, Hwy1.
  assert (2 * c <= 2 * (e * e) * M) as Hc1.
  { subst c. assert (2 * h * (1 + e) * M <= e * e * M)
      by (apply Rmult_le_compat_r; lra). clear - H HhM. lra. }
  assert (K * (1 + 4 * e) + 2 * c <= M * (1 + 8 * e)) as Htot.
  { assert ((1 + e) * (1 + e) * (1 + 4 * e) + 2 * (e * e) <= 1 + 8 * e)
      by (clear - He; nra).
    assert (M * ((1 + e) * (1 + e) * (1 + 4 * e) + 2 * (e * e)) <= M * (1 + 8 * e))
      by (apply Rmult_le_compat_l; lra).
    subst K. clear - H0 Hc1. lra. }
  assert (wx * wx + wy * wy
          <= (K * (1 + 4 * e) + 2 * c) * (K * (1 + 4 * e) + 2 * c)) as Hsum.
  { assert (0 <= K * K) by (apply Rmult_le_pos; lra).
    assert (0 <= K * c) by (apply Rmult_le_pos; lra).
    assert (0 <= c * c) by (apply Rmult_le_pos; lra).
    assert (K * K * A <= K * K * ((1 + 4 * e) * (1 + 4 * e)))
      by (apply Rmult_le_compat_l; lra).
    assert (K * c * ax <= K * c * (1 + 4 * e)) by (apply Rmult_le_compat_l; lra).
    assert (K * c * ay <= K * c * (1 + 4 * e)) by (apply Rmult_le_compat_l; lra).
    subst A. clear - Hwx1 Hwy1 H H0 H1 H2 H3 H4. lra. }
  etransitivity; [exact Hsum |].
  assert (0 <= K * (1 + 4 * e)) by (apply Rmult_le_pos; lra).
  apply Rmult_le_compat; lra.
Qed.

End LimitArithmetic.

Section LimitBound.
Local Existing Instance binary32.

Lemma bpow_lt (e1 e2 : Z) : e1 < e2 → (bpow e1 < bpow e2)%R.
Proof.
  intros H. replace e2 with (e1 + 1 + (e2 - e1 - 1)) by lia.
  rewrite bpow_plus, bpow_succ.
  pose proof (bpow_pos e1). pose proof (bpow_ge_1 (e2 - e1 - 1) ltac:(lia)). nra.
Qed.

Lemma bpow_small_facts :
  (0 < bpow (-24) <= / 100 ∧ bpow (-21) = 8 * bpow (-24) ∧ 0 < bpow (-150) ∧
   4 * bpow (-150) <= bpow (-24) * bpow (-24) ∧
   ∀ M, bpow (-40) <= M →
        bpow (-150) <= bpow (-24) * bpow (-24) * (M * M) ∧
        2 * bpow (-150) <= bpow (-24) * bpow (-24) * M)%R.
Proof.
  pose proof (bpow_pos (-24)) as He. pose proof (bpow_pos (-150)) as Hh.
  assert (bpow (-24) * bpow (-24) = bpow (-48))%R as Hee
    by (by rewrite <- bpow_plus).
  split; [split; [done |] | split; [| split; [done | split]]].
  - apply Rle_trans with (bpow (-7)); [apply bpow_le; lia |].
    change (-7) with (- (7)). rewrite bpow_opp, bpow_IZR by lia.
    apply Rinv_le_contravar; [lra |]. apply IZR_le. lia.
  - change (-21) with (3 + -24). rewrite bpow_plus, bpow_IZR by lia.
    f_equal.
  - rewrite Hee. change (-48) with (2 + -150 + 100).
    rewrite (bpow_plus _ 100), bpow_plus, (bpow_IZR 2) by lia.
    pose proof (bpow_ge_1 100 ltac:(lia)). change (IZR (2 ^ 2)) with 4%R. nra.
  - intros M HM. rewrite Hee.
    pose proof (bpow_pos (-40)) as H40. pose proof (bpow_pos (-48)) as H48.
    assert (bpow (-80) <= M * M)%R as HMM.
    { change (-80) with (-40 + -40). rewrite bpow_plus.
      apply Rmult_le_compat; lra. }
    split.
    + apply Rle_trans with (bpow (-48) * bpow (-80))%R;
        [| apply Rmult_le_compat_l; lra].
      rewrite <- bpow_plus. apply bpow_le. lia.
    + apply Rle_trans with (bpow (-48) * bpow (-40))%R;
        [| apply Rmult_le_compat_l; lra].
      rewrite <- bpow_plus. change (-150) with (-151 + 1) at 1.
      rewrite <- bpow_succ. apply bpow_le. lia.
Qed.

Lemma sqrt_le_of_sq (a b : R) : (0 <= b → a <= b * b → sqrt a <= b)%R.
Proof.
  intros Hb Hab. rewrite <- (sqrt_square b) by done. by apply sqrt_le_1_alt.
Qed.

Lemma Rabs_mul_self_bound (x : R) (k : Z) :
  (Rabs x <= bpow k → 0 <= x * x <= bpow (k + k))%R.
Proof.
  intros Hx. pose proof (Rabs_pos x).
  assert (x * x = Rabs x * Rabs x)%R as ->
    by (rewrite <- Rabs_mult; symmetry; apply Rabs_pos_eq; nra).
  rewrite bpow_plus. split; [nra |]. apply Rmult_le_compat; lra.
Qed.

(** The error analysis of [Vector2Limit]: with components of magnitude at
    most [2^60] and a limit between [2^-40] and [2^60], nothing overflows, and
    the squared length of the result is at most the square of
    [max * (1 + 8 * 2^-24)]. *)
Lemma b32_Vector2Limit_squares (v : Vector2) (max : spec_float) :
  float_ok (vx v) = true → float_ok (vy v) = true → float_ok max = true →
  (Rabs (B2R (vx v)) <= bpow 60)%R → (Rabs (B2R (vy v)) <= bpow 60)%R →
  (bpow (-40) <= B2R max <= bpow 60)%R →
  let w := Vector2Limit v max in
  float_ok (vx w) = true ∧ float_ok (vy w) = true ∧
  (B2R (vx w) * B2R (vx w) + B2R (vy w) * B2R (vy w)
   <= B2R max * (1 + 8 * bpow (-24)) * (B2R max * (1 + 8 * bpow (-24))))%R.
Proof.
  intros Hvx Hvy Hmax Hx Hy HM w.
  destruct bpow_small_facts as (He & H21 & Hh & H4h & HhM).
  destruct (HhM _ (proj1 HM)) as [HhM2 HhM1].
  set (e := bpow (-24)) in *. set (h := bpow (-150)) in *.
  set (x := B2R (vx v)) in *. set (y := B2R (vy v)) in *. set (M := B2R max) in *.
  pose proof (bpow_pos (-40)) as H40. pose proof (bpow_pos 60) as H60.
  assert (0 < M)%R as HM0 by lra.
  pose proof (Rabs_mul_self_bound x 60 Hx) as Hxx.
  pose proof (Rabs_mul_self_bound y 60 Hy) as Hyy.
  assert (Rabs M <= bpow 60)%R as HMabs by (rewrite Rabs_pos_eq; lra).
  pose proof (Rabs_mul_self_bound M 60 HMabs) as HMM.
  change (60 + 60) with 120 in *.
  pose proof (bpow_lt 120 127 ltac:(lia)) as H120.
  assert (bpow 120 + bpow 120 + bpow 120 + bpow 120 = bpow 122)%R as H122.
  { change 122 with (120 + 1 + 1). rewrite !bpow_succ. lra. }
  assert (2 * bpow 122 <= bpow 127)%R as H122'.
  { rewrite <- bpow_succ. apply bpow_le. lia. }
  pose proof (bpow_ge_1 120 ltac:(lia)) as H120'.
  (* the squares and their sum *)
  destruct (near_nonneg _ _ (b32_mul_near (vx v) (vx v) Hvx Hvx
              ltac:(fold x; rewrite Rabs_pos_eq; lra)) ltac:(fold x; lra))
    as (Hxxok & Hxx0 & Hxxl & Hxxu).
  destruct (near_nonneg _ _ (b32_mul_near (vy v) (vy v) Hvy Hvy
              ltac:(fold y; rewrite Rabs_pos_eq; lra)) ltac:(fold y; lra))
    as (Hyyok & Hyy0 & Hyyl & Hyyu).
  fold x e h in Hxxl, Hxxu. fold y e h in Hyyl, Hyyu.
  set (xx := @mul binary32 (vx v) (vx v)) in *.
  set (yy := @mul binary32 (vy v) (vy v)) in *.
  assert (e * (x * x) <= bpow 120 ∧ e * (y * y) <= bpow 120)%R as [Hexx Heyy].
  { split; (apply Rle_trans with (1 * bpow 120)%R; [| lra]);
      apply Rmult_le_compat; lra. }
  assert (h <= 1)%R as Hh1 by (clear - He Hh H4h; nra).
  assert (2 * h * (1 + e) <= e * e)%R as Hh2 by (clear - He Hh H4h; nra).
  destruct (near_nonneg _ _ (b32_add_near xx yy Hxxok Hyyok
              ltac:(rewrite Rabs_pos_eq; lra)) ltac:(lra))
    as (Hsok & Hs0 & Hsl & Hsu).
  fold e h in Hsl, Hsu.
  set (s := @add binary32 xx yy) in *.
  destruct (near_nonneg _ _ (b32_mul_near max max Hmax Hmax
              ltac:(fold M; rewrite Rabs_pos_eq; lra)) ltac:(fold M; lra))
    as (Hmmok & Hmm0 & Hmml & Hmmu).
  fold M e h in Hmml, Hmmu.
  set (mm := @mul binary32 max max) in *.
  assert (0 <= M * (1 + 8 * e))%R as Hbound0 by nra.
  subst w. unfold Vector2Limit.
  change (@ltb binary32 (@mul binary32 max max)
            (@add binary32 (@mul binary32 (vx v) (vx v))
               (@mul binary32 (vy v) (vy v))))
    with (SFltb mm s).
  destruct (SFltb mm s) eqn:Hlt.
  - apply (SFltb_spec mm s Hmmok Hsok) in Hlt.
    assert (0 < B2R s)%R as Hspos by lra.
    destruct (near_nonneg _ _ (b32_sqrt_near s Hsok Hspos) (sqrt_pos _))
      as (Hgok & Hg0 & Hgl & _).
    fold e h in Hgl.
    set (mag := @sqrtf binary32 s) in *.
    destruct (limit_divisor e h x y M (B2R xx + B2R yy) (B2R s) (B2R mm)
                (sqrt (B2R s)) (B2R mag)) as [Hgpos Hxy];
      try lra; [apply sqrt_pos | apply sqrt_sqrt; lra |].
    assert (y * y + x * x <= (1 + 4 * e) * (1 + 4 * e) * (B2R mag * B2R mag))%R
      as Hyx by lra.
    pose proof (limit_quotient e x y _ ltac:(lra) Hgpos Hxy) as Hqx.
    pose proof (limit_quotient e y x _ ltac:(lra) Hgpos Hyx) as Hqy.
    assert (∀ t, Rabs (t / B2R mag) = Rabs t / B2R mag)%R as Habs.
    { intros t. unfold Rdiv. rewrite Rabs_mult, (Rabs_pos_eq (/ B2R mag)); [done |].
      apply Rlt_le, Rinv_0_lt_compat. lra. }
    destruct (near_abs _ _ (b32_div_near (vx v) mag Hvx Hgok ltac:(lra)
                ltac:(fold x; rewrite Habs; lra))) as [Hqxok Hqxu].
    destruct (near_abs _ _ (b32_div_near (vy v) mag Hvy Hgok ltac:(lra)
                ltac:(fold y; rewrite Habs; lra))) as [Hqyok Hqyu].
    fold x e h in Hqxu. fold y e h in Hqyu. rewrite Habs in Hqxu, Hqyu.
    set (qx := @div binary32 (vx v) mag) in *.
    set (qy := @div binary32 (vy v) mag) in *.
    assert (∀ q a, (Rabs q <= (1 + e) * a + h → a <= 1 + 4 * e →
                    Rabs (q * M) < bpow 127)%R) as Hprod.
    { intros q a Hq Ha. rewrite Rabs_mult, (Rabs_pos_eq M) by lra.
      pose proof (Rabs_pos q).
      assert ((1 + e) * a <= (1 + e) * (1 + 4 * e))%R
        by (apply Rmult_le_compat_l; lra).
      assert ((1 + e) * (1 + 4 * e) <= 2)%R by (clear - He; nra).
      assert (Rabs q <= 4)%R by lra.
      apply Rle_lt_trans with (4 * bpow 60)%R; [apply Rmult_le_compat; lra |].
      replace (4 * bpow 60)%R with (bpow 62)
        by (change 62 with (60 + 1 + 1); rewrite !bpow_succ; lra).
      apply bpow_lt. lia. }
    destruct (near_abs _ _ (b32_mul_near qx max Hqxok Hmax
                (Hprod _ _ Hqxu Hqx))) as [Hwxok Hwxu].
    destruct (near_abs _ _ (b32_mul_near qy max Hqyok Hmax
                (Hprod _ _ Hqyu Hqy))) as [Hwyok Hwyu].
    fold M e h in Hwxu, Hwyu.
    rewrite Rabs_mult, (Rabs_pos_eq M) in Hwxu, Hwyu by lra.
    cbn [vx vy]. split; [done | split; [done |]].
    apply (limit_scale_bound e h x y M (B2R mag) (B2R qx) (B2R qy)); try done; lra.
  - assert (¬ (B2R mm < B2R s)%R) as Hnlt.
    { intros Hc. apply (SFltb_spec mm s Hmmok Hsok) in Hc. congruence. }
    split; [done | split; [done |]]. fold x y.
    apply (limit_keep_bound e h (x * x + y * y) M (B2R xx + B2R yy) (B2R s) (B2R mm));
      try lra.
Qed.

(** X21. In binary32 [Vector2Limit] keeps its promise up to rounding: for a
    vector with components of magnitude at most [2^60] and a limit between
    [2^-40] and [2^60], the result has finite components and its exact length
    is at most [max * (1 + 2^-21)]. *)
Theorem b32_Vector2Limit_bound (v : Vector2) (max : spec_float) :
  float_ok (vx v) = true → float_ok (vy v) = true → float_ok max = true →
  (Rabs (B2R (vx v)) <= bpow 60)%R → (Rabs (B2R (vy v)) <= bpow 60)%R →
  (bpow (-40) <= B2R max <= bpow 60)%R →
  let w := Vector2Limit v max in
  float_ok (vx w) = true ∧ float_ok (vy w) = true ∧
  (@Vector2Length real (Vector2_value w) <= B2R max * (1 + bpow (-21)))%R.
Proof.
  intros Hvx Hvy Hmax Hx Hy HM w.
  destruct (b32_Vector2Limit_squares v max Hvx Hvy Hmax Hx Hy HM)
    as (Hwx & Hwy & Hsq).
  fold w in Hwx, Hwy, Hsq.
  destruct bpow_small_facts as (He & H21 & _).
  split; [done | split; [done |]].
  rewrite H21. unfold Vector2Length, Vector2_value. exact_arith.
  apply sqrt_le_of_sq; [| done].
  pose proof (bpow_pos (-40)). apply Rmult_le_pos; lra.
Qed.


End LimitBound.


(** * Both sides of the scaling of [Vector2Limit] and [Vector2SetMag]
    (binary32) *)

Section ScaleArithmetic.
Local Open Scope R_scope.

(** The computed length [g] of a vector and its exact squared length [L2]:
    when neither the squares nor the root fall into the subnormal range, [g]
    is the exact length up to a relative error of [4 e]. *)
Lemma scale_divisor (e h L2 T S r g : R) :
  0 < e <= / 100 → 0 <= h → h <= 2 * (e * e) * S → h <= e * r →
  0 < r → r * r = S → 0 <= L2 → 0 <= T →
  (1 - e) * L2 - 2 * h <= T → T <= (1 + e) * L2 + 2 * h →
  (1 - e) * T - h <= S → S <= (1 + e) * T + h →
  (1 - e) * r - h <= g → g <= (1 + e) * r + h →
  0 < g ∧
  (1 - 4 * e) * (1 - 4 * e) * (g * g) <= L2 ∧
  L2 <= (1 + 4 * e) * (1 + 4 * e) * (g * g).
Proof.
  intros He Hh0 HhS Hhr Hrpos Hr HL0 HT0 HTl HTu HSl HSu Hgl Hgu.
  assert (0 < e * e <= e * / 100) as Hee.
  { split; [apply Rmult_lt_0_compat; lra | apply Rmult_le_compat_l; lra]. }
  assert ((1 - 2 * e) * r <= g) as Hg1 by (clear - Hgl Hhr; lra).
  assert (g <= (1 + 2 * e) * r) as Hg2 by (clear - Hgu Hhr; lra).
  assert (0 < (1 - 2 * e) * r) as Her by (apply Rmult_lt_0_compat; lra).
  assert (0 < g) as Hgpos by lra.
  split; [done |].
  assert (0 < r * r) as Hrr by (apply Rmult_lt_0_compat; lra).
  assert ((1 - 2 * e) * r * ((1 - 2 * e) * r) <= g * g) as Hgg1
    by (apply Rmult_le_compat; lra).
  assert (g * g <= (1 + 2 * e) * r * ((1 + 2 * e) * r)) as Hgg2
    by (apply Rmult_le_compat; lra).
  assert (0 < g * g) as Hgg0 by (apply Rmult_lt_0_compat; lra).
  split.
  - (* g^2 <= (1+2e)^2 S <= (1+2e)^2 ((1+e)^2 L2 + (2(1+e)+1) h) *)
    assert ((1 + e) * T <= (1 + e) * ((1 + e) * L2 + 2 * h)) as H1
      by (apply Rmult_le_compat_l; lra).
    assert (r * r <= (1 + e) * (1 + e) * L2 + 4 * h) as H2.
    { rewrite Hr. clear - H1 HSu He Hh0 Hee. nra. }
    assert (4 * h <= 8 * (e * e) * (r * r)) as H3 by (rewrite Hr; lra).
    assert ((1 - 8 * (e * e)) * (r * r) <= (1 + e) * (1 + e) * L2) as H4
      by (clear - H2 H3; lra).
    set (d := (1 + 2 * e) * (1 + 2 * e)).
    assert (0 < d) as Hd by (subst d; clear - He; nra).
    assert (g * g <= d * (r * r)) as H5 by (subst d; clear - Hgg2; lra).
    assert ((1 - 8 * (e * e)) * (g * g) <= (1 - 8 * (e * e)) * (d * (r * r))) as H6
      by (apply Rmult_le_compat_l; [clear - He Hee; lra | done]).
    assert (d * ((1 - 8 * (e * e)) * (r * r)) <= d * ((1 + e) * (1 + e) * L2)) as H7
      by (apply Rmult_le_compat_l; lra).
    assert ((1 - 4 * e) * (1 - 4 * e) * (d * ((1 + e) * (1 + e)))
            <= 1 - 8 * (e * e)) as H8 by (subst d; clear - He; nra).
    assert ((1 - 4 * e) * (1 - 4 * e) * (d * ((1 + e) * (1 + e))) * (g * g)
            <= (1 - 8 * (e * e)) * (g * g)) as H9
      by (apply Rmult_le_compat_r; lra).
    assert (0 < d * ((1 + e) * (1 + e))) as H10
      by (apply Rmult_lt_0_compat; [done | clear - He; nra]).
    apply (Rmult_le_reg_l (d * ((1 + e) * (1 + e)))); [done |].
    clear - H6 H7 H9. lra.
  - assert ((1 - e) * ((1 - e) * L2 - 2 * h) <= (1 - e) * T) as H1
      by (apply Rmult_le_compat_l; lra).
    assert ((1 - e) * ((1 - e) * L2) <= (1 + 6 * (e * e)) * (r * r)) as HL.
    { rewrite Hr. clear - H1 HSl HhS Hh0 He. nra. }
    set (d := (1 - e) * (1 - e) * ((1 - 2 * e) * (1 - 2 * e))).
    assert (0 < d) as Hd by (subst d; clear - He; nra).
    assert (1 + 6 * (e * e) <= (1 + 4 * e) * (1 + 4 * e) * d) as H3
      by (subst d; clear - He; nra).
    assert (0 < (1 - 2 * e) * (1 - 2 * e)) as H4 by (clear - He; nra).
    assert ((1 + 6 * (e * e)) * ((1 - 2 * e) * r * ((1 - 2 * e) * r))
            <= (1 + 6 * (e * e)) * (g * g)) as H5
      by (apply Rmult_le_compat_l; lra).
    assert ((1 - 2 * e) * (1 - 2 * e) * ((1 - e) * ((1 - e) * L2))
            <= (1 - 2 * e) * (1 - 2 * e) * ((1 + 6 * (e * e)) * (r * r))) as H6
      by (apply Rmult_le_compat_l; lra).
    assert ((1 + 6 * (e * e)) * (g * g) <= (1 + 4 * e) * (1 + 4 * e) * d * (g * g)) as H7
      by (apply Rmult_le_compat_r; lra).
    apply (Rmult_le_reg_l d); [done |]. subst d. clear - H5 H6 H7. lra.
Qed.

(** The lower bound that goes with [limit_scale_bound]. *)
Lemma scale_lower_bound (e h x y M g qx qy wx wy : R) :
  0 < e <= / 100 → 0 <= h → 2 * h <= e * e * M → 2 * h * (1 + e) <= e * e →
  0 < M → 0 < g →
  (1 - 4 * e) * (1 - 4 * e) * (g * g) <= x * x + y * y →
  (1 - e) * (Rabs x / g) - h <= Rabs qx →
  (1 - e) * (Rabs y / g) - h <= Rabs qy →
  (1 - e) * (Rabs qx * M) - h <= Rabs wx →
  (1 - e) * (Rabs qy * M) - h <= Rabs wy →
  (M * (1 - 8 * e)) * (M * (1 - 8 * e)) <= wx * wx + wy * wy.
Proof.
  intros He Hh0 HhM Hh1 HM Hgpos Hxy Hqx Hqy Hwx Hwy.
  set (ax := Rabs x / g) in *. set (ay := Rabs y / g) in *.
  assert (0 <= ax) as Hax
    by (apply Rmult_le_pos; [apply Rabs_pos | apply Rlt_le, Rinv_0_lt_compat; lra]).
  assert (0 <= ay) as Hay
    by (apply Rmult_le_pos; [apply Rabs_pos | apply Rlt_le, Rinv_0_lt_compat; lra]).
  assert (ax * g = Rabs x) as Hxg by (subst ax; field; lra).
  assert (ay * g = Rabs y) as Hyg by (subst ay; field; lra).
  assert ((ax * ax + ay * ay) * (g * g) = x * x + y * y) as HA.
  { replace (x * x) with (Rabs x * Rabs x)
      by (rewrite <- Rabs_mult; apply Rabs_pos_eq; nra).
    replace (y * y) with (Rabs y * Rabs y)
      by (rewrite <- Rabs_mult; apply Rabs_pos_eq; nra).
    rewrite <- Hxg, <- Hyg. ring. }
  assert (0 < g * g) as Hgg by (apply Rmult_lt_0_compat; lra).
  set (A := ax * ax + ay * ay) in *.
  assert ((1 - 4 * e) * (1 - 4 * e) <= A) as HA2.
  { apply (Rmult_le_reg_r (g * g)); [done | lra]. }
  set (K := (1 - e) * (1 - e) * M).
  set (c := (1 - e) * h * M + h).
  assert (0 <= (1 - e) * h * M) as HhM0
    by (apply Rmult_le_pos; [apply Rmult_le_pos |]; lra).
  assert (0 <= c) as Hc0 by (subst c; lra).
  assert (0 < K) as HK0
    by (subst K; apply Rmult_lt_0_compat; [apply Rmult_lt_0_compat |]; lra).
  assert (K * ax <= Rabs wx + c) as Hwx1.
  { subst K c.
    assert (((1 - e) * ax - h) * M <= Rabs qx * M) by (apply Rmult_le_compat_r; lra).
    assert ((1 - e) * (((1 - e) * ax - h) * M) <= (1 - e) * (Rabs qx * M))
      by (apply Rmult_le_compat_l; lra).
    clear - H0 Hwx. lra. }
  assert (K * ay <= Rabs wy + c) as Hwy1.
  { subst K c.
    assert (((1 - e) * ay - h) * M <= Rabs qy * M) by (apply Rmult_le_compat_r; lra).
    assert ((1 - e) * (((1 - e) * ay - h) * M) <= (1 - e) * (Rabs qy * M))
      by (apply Rmult_le_compat_l; lra).
    clear - H0 Hwy. lra. }
  (* the length of [w] *)
  set (n := sqrt (wx * wx + wy * wy)).
  assert (0 <= wx * wx ∧ 0 <= wy * wy) as [Hwx2 Hwy2] by (split; nra).
  assert (0 <= n) as Hn0 by apply sqrt_pos.
  assert (n * n = wx * wx + wy * wy) as Hn by (apply sqrt_sqrt; lra).
  assert (∀ t, t * t <= n * n → Rabs t <= n) as Hcomp.
  { intros t Ht. destruct (Rle_lt_dec (Rabs t) n) as [| Hgt]; [done |]. exfalso.
    assert (n * n < Rabs t * Rabs t) by (apply Rmult_le_0_lt_compat; lra).
    assert (Rabs t * Rabs t = t * t)
      by (rewrite <- Rabs_mult; apply Rabs_pos_eq; nra).
    lra. }
  assert (Rabs wx <= n) as Hwxn by (apply Hcomp; lra).
  assert (Rabs wy <= n) as Hwyn by (apply Hcomp; lra).
  pose proof (Rabs_pos wx) as Hwx0. pose proof (Rabs_pos wy) as Hwy0.
  assert (Rabs wx * Rabs wx = wx * wx) as Habx
    by (rewrite <- Rabs_mult; apply Rabs_pos_eq; nra).
  assert (Rabs wy * Rabs wy = wy * wy) as Haby
    by (rewrite <- Rabs_mult; apply Rabs_pos_eq; nra).
  assert (0 <= K * ax ∧ 0 <= K * ay) as [HKax HKay]
    by (split; apply Rmult_le_pos; lra).
  assert (K * ax * (K * ax) <= (Rabs wx + c) * (Rabs wx + c)) as Hsx
    by (apply Rmult_le_compat; lra).
  assert (K * ay * (K * ay) <= (Rabs wy + c) * (Rabs wy + c)) as Hsy
    by (apply Rmult_le_compat; lra).
  assert (K * K * A <= (n + 2 * c) * (n + 2 * c)) as Hsum.
  { assert (c * Rabs wx <= c * n) by (apply Rmult_le_compat_l; lra).
    assert (c * Rabs wy <= c * n) by (apply Rmult_le_compat_l; lra).
    assert (0 <= c * c) by (apply Rmult_le_pos; lra).
    subst A. clear - Hsx Hsy H H0 H1 Habx Haby Hn. nra. }
  assert (0 <= K * K) as HKK by (apply Rmult_le_pos; lra).
  assert (K * K * ((1 - 4 * e) * (1 - 4 * e)) <= K * K * A) as HKA
    by (apply Rmult_le_compat_l; lra).
  assert (K * (1 - 4 * e) <= n + 2 * c) as Hlin.
  { destruct (Rle_lt_dec (K * (1 - 4 * e)) (n + 2 * c)) as [| Hgt]; [done |]. exfalso.
    assert ((n + 2 * c) * (n + 2 * c) < K * (1 - 4 * e) * (K * (1 - 4 * e)))
      by (apply Rmult_le_0_lt_compat; lra).
    clear - H Hsum HKA. lra. }
  assert (2 * c <= 2 * (e * e) * M) as Hc1.
  { subst c. assert (2 * h * (1 + e) * M <= e * e * M)
      by (apply Rmult_le_compat_r; lra).
    assert (0 <= e * (h * M)) by (apply Rmult_le_pos; [lra | apply Rmult_le_pos; lra]).
    clear - H H0 HhM. lra. }
  assert (M * (1 - 8 * e) <= K * (1 - 4 * e) - 2 * c) as Htot.
  { assert (1 - 8 * e <= (1 - e) * (1 - e) * (1 - 4 * e) - 2 * (e * e))
      by (clear - He; nra).
    assert (M * (1 - 8 * e) <= M * ((1 - e) * (1 - e) * (1 - 4 * e) - 2 * (e * e)))
      by (apply Rmult_le_compat_l; lra).
    subst K. clear - H0 Hc1. lra. }
  assert (0 <= M * (1 - 8 * e)) by (apply Rmult_le_pos; lra).
  rewrite <- Hn. apply Rmult_le_compat; lra.
Qed.

(** Which branch [Vector2Limit] takes for a clearly short and for a clearly
    long vector. *)
Lemma limit_small_kept (e h L2 M T S Bmm : R) :
  0 < e <= / 100 → 0 <= h <= e * e * (M * M) → 0 <= M → 0 <= L2 → 0 <= T →
  T <= (1 + e) * L2 + 2 * h → S <= (1 + e) * T + h →
  (1 - e) * (M * M) - h <= Bmm →
  L2 <= (M * (1 - 8 * e)) * (M * (1 - 8 * e)) →
  S <= Bmm.
Proof.
  intros He Hh HM HL HT0 HT HS Hmm Hsmall.
  assert (0 <= M * M) as HMM by nra.
  assert ((1 + e) * T <= (1 + e) * ((1 + e) * L2 + 2 * h)) as H1
    by (apply Rmult_le_compat_l; lra).
  assert ((1 + e) * (1 + e) * L2
          <= (1 + e) * (1 + e) * (M * (1 - 8 * e) * (M * (1 - 8 * e)))) as H2
    by (apply Rmult_le_compat_l; [clear - He; nra | done]).
  assert ((1 + e) * (1 + e) * ((1 - 8 * e) * (1 - 8 * e)) + 5 * (e * e) <= 1 - e) as H3
    by (clear - He; nra).
  assert (((1 + e) * (1 + e) * ((1 - 8 * e) * (1 - 8 * e)) + 5 * (e * e)) * (M * M)
          <= (1 - e) * (M * M)) as H4 by (apply Rmult_le_compat_r; lra).
  assert (0 <= e * h) as H5 by (apply Rmult_le_pos; lra).
  assert (e * h <= / 100 * h) as H6 by (apply Rmult_le_compat_r; lra).
  clear - H1 H2 H4 H5 H6 HS Hmm Hh. lra.
Qed.

Lemma limit_large_scaled (e h L2 M T S Bmm : R) :
  0 < e <= / 100 → 0 <= h <= e * e * (M * M) → 0 < M → 0 <= T →
  (1 - e) * L2 - 2 * h <= T → (1 - e) * T - h <= S →
  Bmm <= (1 + e) * (M * M) + h →
  (M * (1 + 8 * e)) * (M * (1 + 8 * e)) <= L2 →
  Bmm < S.
Proof.
  intros He Hh HM HT0 HT HS Hmm Hlarge.
  assert (0 < M * M) as HMM by (apply Rmult_lt_0_compat; lra).
  assert ((1 - e) * ((1 - e) * L2 - 2 * h) <= (1 - e) * T) as H1
    by (apply Rmult_le_compat_l; lra).
  assert ((1 - e) * (1 - e) * (M * (1 + 8 * e) * (M * (1 + 8 * e)))
          <= (1 - e) * (1 - e) * L2) as H2
    by (apply Rmult_le_compat_l; [clear - He; nra | done]).
  assert (1 + e + 5 * (e * e) < (1 - e) * (1 - e) * ((1 + 8 * e) * (1 + 8 * e))) as H3
    by (clear - He; nra).
  assert ((1 + e + 5 * (e * e)) * (M * M)
          < (1 - e) * (1 - e) * ((1 + 8 * e) * (1 + 8 * e)) * (M * M)) as H4
    by (apply Rmult_lt_compat_r; lra).
  assert (0 <= e * h) as H5 by (apply Rmult_le_pos; lra).
  clear - H1 H2 H4 H5 HS Hmm Hh. lra.
Qed.

End ScaleArithmetic.

Section ScaleBounds.
Local Existing Instance binary32.

Lemma near_abs_lower (x : R) (f : spec_float) :
  near x f →
  ((1 - bpow (-24)) * Rabs x - bpow (-150) <= Rabs (B2R f))%R.
Proof.
  intros (_ & He & _).
  pose proof (Rabs_triang (x - B2R f) (B2R f)) as Ht.
  replace (x - B2R f + B2R f)%R with x in Ht by lra.
  rewrite Rabs_minus_sym in Ht. lra.
Qed.

(** The sign of a float that is [near] a product or a quotient. *)
Lemma near_sign (x : R) (f : spec_float) :
  near x f → (0 <= x * B2R f)%R.
Proof.
  intros (_ & _ & Hpos & Hneg).
  destruct (Rle_lt_dec 0 x) as [Hx | Hx].
  - specialize (Hpos Hx). by apply Rmult_le_pos.
  - specialize (Hneg ltac:(lra)).
    replace (x * B2R f)%R with ((- x) * (- B2R f))%R by lra.
    apply Rmult_le_pos; lra.
Qed.

Lemma near_zero_value (x : R) (f : spec_float) :
  near x f → x = 0%R → B2R f = 0%R.
Proof.
  intros (_ & _ & Hpos & Hneg) ->.
  specialize (Hpos ltac:(lra)). specialize (Hneg ltac:(lra)). lra.
Qed.

(** The float sum of the float squares of two components of magnitude at
    most [2^60], against the exact sum of squares. *)
Lemma b32_square_sum (a b : spec_float) :
  float_ok a = true → float_ok b = true →
  (Rabs (B2R a) <= bpow 60)%R → (Rabs (B2R b) <= bpow 60)%R →
  let e := bpow (-24) in
  let h := bpow (-150) in
  let L2 := (B2R a * B2R a + B2R b * B2R b)%R in
  let T := (B2R (@mul binary32 a a) + B2R (@mul binary32 b b))%R in
  let s := @add binary32 (@mul binary32 a a) (@mul binary32 b b) in
  float_ok s = true ∧
  (0 <= L2 ∧ 0 <= T ∧ (1 - e) * L2 - 2 * h <= T ∧ T <= (1 + e) * L2 + 2 * h ∧
   0 <= B2R s ∧ (1 - e) * T - h <= B2R s ∧ B2R s <= (1 + e) * T + h)%R.
Proof.
  intros Ha Hb Ba Bb e h L2 T s.
  destruct bpow_small_facts as (He & _ & Hh & H4h & _).
  fold e h in He, Hh, H4h.
  set (x := B2R a) in *. set (y := B2R b) in *.
  pose proof (bpow_pos 60) as H60.
  pose proof (Rabs_mul_self_bound x 60 Ba) as Hxx.
  pose proof (Rabs_mul_self_bound y 60 Bb) as Hyy.
  change (60 + 60) with 120 in *.
  pose proof (bpow_lt 120 127 ltac:(lia)) as H120.
  assert (bpow 120 + bpow 120 + bpow 120 + bpow 120 = bpow 122)%R as H122.
  { change 122 with (120 + 1 + 1). rewrite !bpow_succ. lra. }
  assert (2 * bpow 122 <= bpow 127)%R as H122'.
  { rewrite <- bpow_succ. apply bpow_le. lia. }
  pose proof (bpow_ge_1 120 ltac:(lia)) as H120'.
  destruct (near_nonneg _ _ (b32_mul_near a a Ha Ha
              ltac:(fold x; rewrite Rabs_pos_eq; lra)) ltac:(fold x; lra))
    as (Hxxok & Hxx0 & Hxxl & Hxxu).
  destruct (near_nonneg _ _ (b32_mul_near b b Hb Hb
              ltac:(fold y; rewrite Rabs_pos_eq; lra)) ltac:(fold y; lra))
    as (Hyyok & Hyy0 & Hyyl & Hyyu).
  fold x e h in Hxxl, Hxxu. fold y e h in Hyyl, Hyyu.
  assert (e * (x * x) <= bpow 120 ∧ e * (y * y) <= bpow 120)%R as [Hexx Heyy].
  { split; (apply Rle_trans with (1 * bpow 120)%R; [| lra]);
      apply Rmult_le_compat; lra. }
  assert (h <= 1)%R as Hh1 by (clear - He Hh H4h; nra).
  destruct (near_nonneg _ _ (b32_add_near _ _ Hxxok Hyyok
              ltac:(rewrite Rabs_pos_eq; lra)) ltac:(lra))
    as (Hsok & Hs0 & Hsl & Hsu).
  fold e h in Hsl, Hsu. fold s in Hsok, Hs0, Hsl, Hsu. fold T in Hsl, Hsu.
  split; [done |]. subst L2 T. repeat split; try lra.
Qed.

Lemma bpow_sqrt (k : Z) : sqrt (bpow (k + k)) = bpow k.
Proof.
  rewrite bpow_plus. apply sqrt_square. apply Rlt_le, bpow_pos.
Qed.

(** The two products of [Vector2Limit] and [Vector2SetMag],
    [(x / g) * m] and [(y / g) * m] with [g] the computed length of [(x, y)]:
    when the sum of squares is not subnormal, the exact length of the result
    is [|m|] up to a relative error of [8 * 2^-24], and each component has
    the sign of its exact value. *)
Lemma b32_scale_bounds (a b m : spec_float) :
  float_ok a = true → float_ok b = true → float_ok m = true →
  (Rabs (B2R a) <= bpow 60)%R → (Rabs (B2R b) <= bpow 60)%R →
  (bpow (-40) <= Rabs (B2R m) <= bpow 60)%R →
  let s := @add binary32 (@mul binary32 a a) (@mul binary32 b b) in
  let g := @sqrtf binary32 s in
  (bpow (-82) <= B2R s)%R →
  let wa := @mul binary32 (@div binary32 a g) m in
  let wb := @mul binary32 (@div binary32 b g) m in
  let M := Rabs (B2R m) in
  float_ok g = true ∧ (0 < B2R g)%R ∧
  float_ok wa = true ∧ float_ok wb = true ∧
  (M * (1 - 8 * bpow (-24)) * (M * (1 - 8 * bpow (-24)))
   <= B2R wa * B2R wa + B2R wb * B2R wb)%R ∧
  (B2R wa * B2R wa + B2R wb * B2R wb
   <= M * (1 + 8 * bpow (-24)) * (M * (1 + 8 * bpow (-24))))%R ∧
  (0 <= B2R a * B2R m * B2R wa)%R ∧ (0 <= B2R b * B2R m * B2R wb)%R.
Proof.
  intros Ha Hb Hm Ba Bb BM s g HS wa wb M.
  destruct (b32_square_sum a b Ha Hb Ba Bb)
    as (Hsok & HL0 & HT0 & HTl & HTu & Hs0 & Hsl & Hsu).
  fold s in Hsok, Hs0, Hsl, Hsu.
  destruct bpow_small_facts as (He & _ & Hh & H4h & HhM).
  destruct (HhM _ (proj1 BM)) as [_ HhM1]. fold M in HhM1, BM.
  set (e := bpow (-24)) in *. set (h := bpow (-150)) in *.
  set (x := B2R a) in *. set (y := B2R b) in *.
  set (T := (B2R (@mul binary32 a a) + B2R (@mul binary32 b b))%R) in *.
  pose proof (bpow_pos (-40)) as H40. pose proof (bpow_pos 60) as H60.
  pose proof (bpow_pos (-82)) as H82.
  assert (0 < M)%R as HM0 by lra.
  assert (h <= 1)%R as Hh1 by (clear - He Hh H4h; nra).
  assert (2 * h * (1 + e) <= e * e)%R as Hh2 by (clear - He Hh H4h; nra).
  assert (0 < B2R s)%R as Hspos by lra.
  (* the root *)
  destruct (near_nonneg _ _ (b32_sqrt_near s Hsok Hspos) (sqrt_pos _))
    as (Hgok & Hg0 & Hgl & Hgu).
  fold e h g in Hgl, Hgu, Hgok, Hg0.
  set (r := sqrt (B2R s)) in *.
  assert (bpow (-41) <= r)%R as Hr41.
  { rewrite <- (bpow_sqrt (-41)). by apply sqrt_le_1_alt. }
  pose proof (bpow_pos (-41)) as H41.
  assert (r * r = B2R s)%R as Hrr by (apply sqrt_sqrt; lra).
  assert (h <= e * r)%R as Hhr.
  { apply Rle_trans with (e * bpow (-41))%R; [| apply Rmult_le_compat_l; lra].
    unfold e, h. rewrite <- bpow_plus. apply bpow_le. lia. }
  assert (h <= 2 * (e * e) * B2R s)%R as HhS.
  { apply Rle_trans with (e * e * bpow (-82))%R.
    - unfold e, h. rewrite <- !bpow_plus. apply bpow_le. lia.
    - assert (0 < e * e)%R by (apply Rmult_lt_0_compat; lra).
      assert (e * e * bpow (-82) <= e * e * B2R s)%R
        by (apply Rmult_le_compat_l; lra).
      assert (0 <= e * e * B2R s)%R by (apply Rmult_le_pos; lra). lra. }
  destruct (scale_divisor e h (x * x + y * y) T (B2R s) r (B2R g))
    as (Hgpos & Hlo & Hhi); try done; try lra.
  split; [done |]. split; [done |].
  assert (y * y + x * x <= (1 + 4 * e) * (1 + 4 * e) * (B2R g * B2R g))%R
    as Hyx by lra.
  pose proof (limit_quotient e x y _ ltac:(lra) Hgpos Hhi) as Hqx.
  pose proof (limit_quotient e y x _ ltac:(lra) Hgpos Hyx) as Hqy.
  assert (∀ t, Rabs (t / B2R g) = Rabs t / B2R g)%R as Habs.
  { intros t. unfold Rdiv. rewrite Rabs_mult, (Rabs_pos_eq (/ B2R g)); [done |].
    apply Rlt_le, Rinv_0_lt_compat. lra. }
  pose proof (bpow_lt 2 127 ltac:(lia)) as H2.
  assert (bpow 2 = 4)%R as H2' by (rewrite bpow_IZR by lia; done).
  pose proof (b32_div_near a g Ha Hgok ltac:(lra)
                ltac:(fold x; rewrite Habs; lra)) as Hnqx.
  pose proof (b32_div_near b g Hb Hgok ltac:(lra)
                ltac:(fold y; rewrite Habs; lra)) as Hnqy.
  destruct (near_abs _ _ Hnqx) as [Hqxok Hqxu].
  destruct (near_abs _ _ Hnqy) as [Hqyok Hqyu].
  pose proof (near_abs_lower _ _ Hnqx) as Hqxl.
  pose proof (near_abs_lower _ _ Hnqy) as Hqyl.
  pose proof (near_sign _ _ Hnqx) as Hsqx.
  pose proof (near_sign _ _ Hnqy) as Hsqy.
  fold x e h in Hqxu, Hqxl, Hsqx. fold y e h in Hqyu, Hqyl, Hsqy.
  rewrite Habs in Hqxu, Hqyu, Hqxl, Hqyl.
  set (qx := @div binary32 a g) in *.
  set (qy := @div binary32 b g) in *.
  assert (∀ q t, (Rabs q <= (1 + e) * t + h → t <= 1 + 4 * e →
                  Rabs (q * B2R m) < bpow 127)%R) as Hprod.
  { intros q t Hq Ht. rewrite Rabs_mult. fold M.
    pose proof (Rabs_pos q).
    assert ((1 + e) * t <= (1 + e) * (1 + 4 * e))%R
      by (apply Rmult_le_compat_l; lra).
    assert ((1 + e) * (1 + 4 * e) <= 2)%R by (clear - He; nra).
    assert (Rabs q <= 4)%R by lra.
    apply Rle_lt_trans with (4 * bpow 60)%R; [apply Rmult_le_compat; lra |].
    replace (4 * bpow 60)%R with (bpow 62)
      by (change 62 with (60 + 1 + 1); rewrite !bpow_succ; lra).
    apply bpow_lt. lia. }
  pose proof (b32_mul_near qx m Hqxok Hm (Hprod _ _ Hqxu Hqx)) as Hnwx.
  pose proof (b32_mul_near qy m Hqyok Hm (Hprod _ _ Hqyu Hqy)) as Hnwy.
  destruct (near_abs _ _ Hnwx) as [Hwxok Hwxu].
  destruct (near_abs _ _ Hnwy) as [Hwyok Hwyu].
  pose proof (near_abs_lower _ _ Hnwx) as Hwxl.
  pose proof (near_abs_lower _ _ Hnwy) as Hwyl.
  pose proof (near_sign _ _ Hnwx) as Hswx.
  pose proof (near_sign _ _ Hnwy) as Hswy.
  fold e h wa in Hwxu, Hwxl, Hswx, Hwxok. fold e h wb in Hwyu, Hwyl, Hswy, Hwyok.
  rewrite Rabs_mult in Hwxu, Hwyu, Hwxl, Hwyl. fold M in Hwxu, Hwyu, Hwxl, Hwyl.
  split; [done |]. split; [done |].
  split.
  { apply (scale_lower_bound e h x y M (B2R g) (B2R qx) (B2R qy)); try done; lra. }
  split.
  { apply (limit_scale_bound e h x y M (B2R g) (B2R qx) (B2R qy)); try done; lra. }
  assert (∀ t q w : R,
            (0 <= t / B2R g * q → 0 <= q * B2R m * w →
             (q * B2R m = 0 → w = 0) → 0 <= t * B2R m * w)%R)
    as Hsign.
  { intros t q w Hq Hw Hz.
    assert (0 <= t * q)%R as Htq.
    { replace (t * q)%R with (t / B2R g * q * B2R g)%R by (field; lra).
      apply Rmult_le_pos; lra. }
    destruct (Req_dec q 0) as [-> | Hq0].
    - (* the quotient is zero: so is the product *)
      rewrite Hz by lra. lra.
    - assert (0 < q * q)%R by nra.
      assert (0 <= (t * q) * (q * B2R m * w))%R as Hp by (apply Rmult_le_pos; lra).
      replace (t * q * (q * B2R m * w))%R with (q * q * (t * B2R m * w))%R in Hp
        by ring.
      destruct (Rle_lt_dec 0 (t * B2R m * w)); [done |]. exfalso. nra. }
  split; [exact (Hsign _ _ _ Hsqx Hswx (near_zero_value _ _ Hnwx))
         | exact (Hsign _ _ _ Hsqy Hswy (near_zero_value _ _ Hnwy))].
Qed.

End ScaleBounds.

Section ScaleTheorems.
Local Existing Instance binary32.

Lemma sq_le_of_sqrt (a b : R) : (0 <= a → sqrt a <= b → a <= b * b)%R.
Proof.
  intros Ha Hab. pose proof (sqrt_pos a). rewrite <- (sqrt_sqrt a) at 1 by done.
  apply Rmult_le_compat; lra.
Qed.

Lemma sq_ge_of_sqrt (a b : R) : (0 <= a → 0 <= b → b <= sqrt a → b * b <= a)%R.
Proof.
  intros Ha Hb Hab. rewrite <- (sqrt_sqrt a) by done.
  apply Rmult_le_compat; lra.
Qed.

Lemma sqrt_ge_of_sq (a b : R) : (0 <= b → b * b <= a → b <= sqrt a)%R.
Proof.
  intros Hb Hab. rewrite <- (sqrt_square b) at 1 by done. by apply sqrt_le_1_alt.
Qed.

(** X12. In binary32, for a vector with components of magnitude at most
    [2^60] and a limit between [2^-40] and [2^60], [Vector2Limit] returns a
    vector whose exact length is at most [max * (1 - 2^-21)] unchanged, and
    turns one whose exact length is at least [max * (1 + 2^-21)] into a
    vector with finite components, of exact length between
    [max * (1 - 2^-21)] and [max * (1 + 2^-21)], each component keeping its
    sign. *)
Theorem b32_Vector2Limit_spec (v : Vector2) (max : spec_float) :
  float_ok (vx v) = true → float_ok (vy v) = true → float_ok max = true →
  (Rabs (B2R (vx v)) <= bpow 60)%R → (Rabs (B2R (vy v)) <= bpow 60)%R →
  (bpow (-40) <= B2R max <= bpow 60)%R →
  let w := Vector2Limit v max in
  ((@Vector2Length real (Vector2_value v) <= B2R max * (1 - bpow (-21)))%R →
   w = v) ∧
  ((B2R max * (1 + bpow (-21)) <= @Vector2Length real (Vector2_value v))%R →
   float_ok (vx w) = true ∧ float_ok (vy w) = true ∧
   (B2R max * (1 - bpow (-21)) <= @Vector2Length real (Vector2_value w)
    <= B2R max * (1 + bpow (-21)))%R ∧
   (0 <= B2R (vx v) * B2R (vx w))%R ∧ (0 <= B2R (vy v) * B2R (vy w))%R).
Proof.
  intros Hvx Hvy Hmax Hx Hy HM w.
  destruct bpow_small_facts as (He & H21 & Hh & H4h & HhM).
  destruct (HhM _ (proj1 HM)) as [HhM2 _].
  destruct (b32_square_sum (vx v) (vy v) Hvx Hvy Hx Hy)
    as (Hsok & HL0 & HT0 & HTl & HTu & Hs0 & Hsl & Hsu).
  rewrite !H21.
  set (e := bpow (-24)) in *. set (h := bpow (-150)) in *.
  set (x := B2R (vx v)) in *. set (y := B2R (vy v)) in *. set (M := B2R max) in *.
  set (T := (B2R (@mul binary32 (vx v) (vx v))
             + B2R (@mul binary32 (vy v) (vy v)))%R) in *.
  set (s := @add binary32 (@mul binary32 (vx v) (vx v))
              (@mul binary32 (vy v) (vy v))) in *.
  pose proof (bpow_pos (-40)) as H40. pose proof (bpow_pos 60) as H60.
  assert (0 < M)%R as HM0 by lra.
  assert (Rabs M <= bpow 60)%R as HMabs by (rewrite Rabs_pos_eq; lra).
  pose proof (Rabs_mul_self_bound M 60 HMabs) as HMM.
  change (60 + 60) with 120 in *.
  pose proof (bpow_lt 120 127 ltac:(lia)) as H120.
  destruct (near_nonneg _ _ (b32_mul_near max max Hmax Hmax
              ltac:(fold M; rewrite Rabs_pos_eq; lra)) ltac:(fold M; lra))
    as (Hmmok & Hmm0 & Hmml & Hmmu).
  fold M e h in Hmml, Hmmu.
  set (mm := @mul binary32 max max) in *.
  assert (@Vector2Length real (Vector2_value v) = sqrt (x * x + y * y)) as Hlen
    by (unfold Vector2Length, Vector2_value; exact_arith; done).
  rewrite Hlen.
  subst w. unfold Vector2Limit.
  change (@ltb binary32 (@mul binary32 max max)
            (@add binary32 (@mul binary32 (vx v) (vx v))
               (@mul binary32 (vy v) (vy v))))
    with (SFltb mm s).
  split.
  - intros Hshort.
    assert (0 <= M * (1 - 8 * e))%R as Hb0 by (apply Rmult_le_pos; lra).
    pose proof (sq_le_of_sqrt _ _ HL0 Hshort) as Hsq.
    pose proof (limit_small_kept e h (x * x + y * y) M T (B2R s) (B2R mm)
                  He (conj (Rlt_le _ _ Hh) HhM2) (Rlt_le _ _ HM0) HL0 HT0 HTu Hsu
                  Hmml Hsq) as Hle.
    destruct (SFltb mm s) eqn:Hlt; [| done].
    apply (SFltb_spec mm s Hmmok Hsok) in Hlt. lra.
  - intros Hlong.
    assert (0 <= M * (1 + 8 * e))%R as Hb0 by (apply Rmult_le_pos; lra).
    pose proof (sq_ge_of_sqrt _ _ HL0 Hb0 Hlong) as Hsq.
    pose proof (limit_large_scaled e h (x * x + y * y) M T (B2R s) (B2R mm)
                  He (conj (Rlt_le _ _ Hh) HhM2) HM0 HT0 HTl Hsl Hmmu Hsq) as Hgt.
    apply (SFltb_spec mm s Hmmok Hsok) in Hgt. rewrite Hgt.
    assert (bpow (-82) <= B2R s)%R as HS82.
    { apply (SFltb_spec mm s Hmmok Hsok) in Hgt.
      assert (bpow (-80) <= M * M)%R as H80.
      { change (-80) with (-40 + -40). rewrite bpow_plus.
        apply Rmult_le_compat; lra. }
      assert (bpow (-80) = 4 * bpow (-82))%R as H80'
        by (change (-80) with (-82 + 1 + 1); rewrite !bpow_succ; lra).
      pose proof (bpow_pos (-82)).
      assert (h <= bpow (-82))%R by (apply bpow_le; lia).
      assert (e * (M * M) <= / 100 * (M * M))%R
        by (apply Rmult_le_compat_r; lra).
      lra. }
    assert (bpow (-40) <= Rabs M <= bpow 60)%R as HMr
      by (rewrite Rabs_pos_eq; lra).
    destruct (b32_scale_bounds (vx v) (vy v) max Hvx Hvy Hmax Hx Hy HMr HS82)
      as (_ & _ & Hwx & Hwy & Hlo & Hhi & Hsx & Hsy).
    fold e M in Hlo, Hhi, Hsx, Hsy. rewrite (Rabs_pos_eq M) in Hlo, Hhi by lra.
    assert (∀ t u : R, (0 <= t * M * u → 0 <= t * u)%R) as Hpos.
    { intros t u Htu. replace (t * M * u)%R with (M * (t * u))%R in Htu by ring.
      destruct (Rle_lt_dec 0 (t * u)) as [| Hneg]; [done |]. exfalso.
      clear - HM0 Htu Hneg. nra. }
    cbn [vx vy]. split; [done | split; [done |]].
    split; [| split].
    + unfold Vector2Length, Vector2_value. exact_arith. split.
      * apply sqrt_ge_of_sq; [apply Rmult_le_pos; lra | done].
      * apply sqrt_le_of_sq; [done | done].
    + exact (Hpos _ _ Hsx).
    + exact (Hpos _ _ Hsy).
Qed.

(** X13. In binary32, for a vector with components of magnitude at most
    [2^60] and exact length at least [2^-40], and a magnitude [mag] with
    [2^-40 <= |mag| <= 2^60], [Vector2SetMag] returns a vector with finite
    components whose exact length lies between [|mag| * (1 - 2^-21)] and
    [|mag| * (1 + 2^-21)]; each component has the sign of the product of the
    component it comes from and [mag]. *)
Theorem b32_Vector2SetMag_spec (v : Vector2) (mag : spec_float) :
  float_ok (vx v) = true → float_ok (vy v) = true → float_ok mag = true →
  (Rabs (B2R (vx v)) <= bpow 60)%R → (Rabs (B2R (vy v)) <= bpow 60)%R →
  (bpow (-40) <= @Vector2Length real (Vector2_value v))%R →
  (bpow (-40) <= Rabs (B2R mag) <= bpow 60)%R →
  let w := Vector2SetMag v mag in
  float_ok (vx w) = true ∧ float_ok (vy w) = true ∧
  (Rabs (B2R mag) * (1 - bpow (-21)) <= @Vector2Length real (Vector2_value w)
   <= Rabs (B2R mag) * (1 + bpow (-21)))%R ∧
  (0 <= B2R (vx v) * B2R mag * B2R (vx w))%R ∧
  (0 <= B2R (vy v) * B2R mag * B2R (vy w))%R.
Proof.
  intros Hvx Hvy Hmag Hx Hy HL HM w.
  destruct bpow_small_facts as (He & H21 & Hh & H4h & _).
  destruct (b32_square_sum (vx v) (vy v) Hvx Hvy Hx Hy)
    as (Hsok & HL0 & HT0 & HTl & HTu & Hs0 & Hsl & Hsu).
  rewrite !H21.
  set (e := bpow (-24)) in *. set (h := bpow (-150)) in *.
  set (x := B2R (vx v)) in *. set (y := B2R (vy v)) in *.
  set (M := Rabs (B2R mag)) in *.
  set (T := (B2R (@mul binary32 (vx v) (vx v))
             + B2R (@mul binary32 (vy v) (vy v)))%R) in *.
  set (s := @add binary32 (@mul binary32 (vx v) (vx v))
              (@mul binary32 (vy v) (vy v))) in *.
  pose proof (bpow_pos (-40)) as H40.
  assert (0 < M)%R as HM0 by lra.
  assert (@Vector2Length real (Vector2_value v) = sqrt (x * x + y * y)) as Hlen
    by (unfold Vector2Length, Vector2_value; exact_arith; done).
  rewrite Hlen in HL.
  assert (bpow (-82) <= B2R s)%R as HS82.
  { pose proof (sq_ge_of_sqrt _ _ HL0 (Rlt_le _ _ H40) HL) as Hsq.
    rewrite <- bpow_plus in Hsq. change (-40 + -40) with (-80) in Hsq.
    assert (bpow (-80) = 4 * bpow (-82))%R as H80'
      by (change (-80) with (-82 + 1 + 1); rewrite !bpow_succ; lra).
    pose proof (bpow_pos (-82)).
    assert (8 * h <= bpow (-82))%R as Hh82.
    { replace (8 * h)%R with (bpow (-147))
        by (subst h; change (-147) with (-150 + 1 + 1 + 1); rewrite !bpow_succ; lra).
      apply bpow_le. lia. }
    assert (e * (x * x + y * y) <= / 100 * (x * x + y * y))%R
      by (apply Rmult_le_compat_r; lra).
    assert (e * T <= / 100 * T)%R by (apply Rmult_le_compat_r; lra).
    lra. }
  destruct (b32_scale_bounds (vx v) (vy v) mag Hvx Hvy Hmag Hx Hy HM HS82)
    as (Hgok & Hgpos & Hwx & Hwy & Hlo & Hhi & Hsx & Hsy).
  fold e M s in Hlo, Hhi, Hsx, Hsy, Hgok, Hgpos, Hwx, Hwy.
  subst w. unfold Vector2SetMag.
  change (@ltb binary32 (@of_int binary32 0)
            (@sqrtf binary32 (@add binary32 (@mul binary32 (vx v) (vx v))
                                (@mul binary32 (vy v) (vy v)))))
    with (SFltb (S754_zero false) (@sqrtf binary32 s)).
  assert (SFltb (S754_zero false) (@sqrtf binary32 s) = true) as ->.
  { apply (SFltb_spec (S754_zero false) _ eq_refl Hgok). cbn [B2R]. done. }
  cbn [vx vy]. split; [done | split; [done |]].
  split; [| done].
  unfold Vector2Length, Vector2_value. exact_arith. split.
  - apply sqrt_ge_of_sq; [apply Rmult_le_pos; lra | done].
  - apply sqrt_le_of_sq; [apply Rmult_le_pos; lra | done].
Qed.

End ScaleTheorems.

(** * The acceleration after one frame (binary32) *)

Section ForceArithmetic.
Local Open Scope R_scope.

(** The computed length [g] of a vector, whenever it is positive, is at
    least half the magnitude of each component: also when the squares
    underflow. *)
Lemma ratio_bound (e h L2 T S r g : R) :
  0 < e <= / 100 → 0 <= h → 2 * h <= S → h <= e * r →
  0 < r → r * r = S → 0 <= L2 → 0 <= T →
  (1 - e) * L2 - 2 * h <= T → (1 - e) * T - h <= S →
  (1 - e) * r - h <= g →
  0 < g ∧ L2 <= 2 * g * (2 * g).
Proof.
  intros He Hh0 HhS Hhr Hrpos Hr HL0 HT0 HTl HSl Hgl.
  assert ((1 - 2 * e) * r <= g) as Hg1 by (clear - Hgl Hhr; lra).
  assert (0 < (1 - 2 * e) * r) as Her by (apply Rmult_lt_0_compat; lra).
  assert (0 < g) as Hgpos by lra.
  split; [done |].
  assert ((1 - 2 * e) * r * ((1 - 2 * e) * r) <= g * g) as Hgg
    by (apply Rmult_le_compat; lra).
  assert ((1 - e) * ((1 - e) * L2 - 2 * h) <= (1 - e) * T) as H1
    by (apply Rmult_le_compat_l; lra).
  assert (0 <= e * h) as Heh by (apply Rmult_le_pos; lra).
  assert ((1 - e) * ((1 - e) * L2) <= 5 / 2 * (r * r)) as H2.
  { rewrite Hr. clear - H1 HSl HhS Heh. lra. }
  set (d := (1 - e) * (1 - e)).
  assert (0 < d) as Hd by (subst d; clear - He; nra).
  assert (5 / 2 <= 4 * d * ((1 - 2 * e) * (1 - 2 * e))) as H3
    by (subst d; clear - He; nra).
  assert (0 < r * r) as Hrr by (apply Rmult_lt_0_compat; lra).
  assert (5 / 2 * (r * r) <= 4 * d * ((1 - 2 * e) * (1 - 2 * e)) * (r * r)) as H4
    by (apply Rmult_le_compat_r; lra).
  assert (4 * d * ((1 - 2 * e) * r * ((1 - 2 * e) * r)) <= 4 * d * (g * g)) as H5
    by (apply Rmult_le_compat_l; lra).
  apply (Rmult_le_reg_l d); [done |]. subst d. clear - H2 H4 H5. lra.
Qed.

Lemma quotient_bound (k x y g : R) :
  0 <= k → 0 < g → x * x + y * y <= k * g * (k * g) → Rabs x / g <= k.
Proof.
  intros Hk Hg Hxy.
  apply (Rmult_le_reg_r g); [done |].
  unfold Rdiv. rewrite Rmult_assoc, Rinv_l, Rmult_1_r by lra.
  pose proof (Rabs_pos x) as Hx.
  assert (Rabs x * Rabs x = x * x) as Hsq
    by (rewrite <- Rabs_mult; apply Rabs_pos_eq; nra).
  destruct (Rle_lt_dec (Rabs x) (k * g)) as [| Hgt]; [done |]. exfalso.
  assert (0 <= k * g) by (apply Rmult_le_pos; lra).
  assert (k * g * (k * g) < Rabs x * Rabs x)
    by (apply Rmult_le_0_lt_compat; lra).
  assert (0 <= y * y) by nra. lra.
Qed.

Lemma norm_step_nonneg (k h b1 b2 d1 d2 q1 q2 na nc : R) :
  0 <= k → 0 <= h → 0 <= na → 0 <= nc →
  0 <= b1 → 0 <= b2 → 0 <= d1 → 0 <= d2 → 0 <= q1 → 0 <= q2 →
  b1 * b1 + b2 * b2 <= na * na → d1 * d1 + d2 * d2 <= nc * nc →
  q1 <= k * (b1 + d1) + h → q2 <= k * (b2 + d2) + h →
  q1 * q1 + q2 * q2 <= (k * (na + nc) + 2 * h) * (k * (na + nc) + 2 * h).
Proof.
  intros Hk Hh Hna Hnc B1 B2 D1 D2 Q1 Q2 Ha Hc Hq1 Hq2.
  assert (∀ u v n, 0 <= u → 0 <= v → 0 <= n → u * u + v * v <= n * n → u <= n)
    as Hcomp.
  { intros u v n Hu Hv Hn Huv.
    destruct (Rle_lt_dec u n) as [| Hgt]; [done |]. exfalso.
    assert (n * n < u * u) by (apply Rmult_le_0_lt_compat; lra).
    assert (0 <= v * v) by (apply Rmult_le_pos; lra). lra. }
  assert (b1 <= na) as Hb1 by (apply (Hcomp b1 b2); lra).
  assert (b2 <= na) as Hb2 by (apply (Hcomp b2 b1); lra).
  assert (d1 <= nc) as Hd1 by (apply (Hcomp d1 d2); lra).
  assert (d2 <= nc) as Hd2 by (apply (Hcomp d2 d1); lra).
  (* Cauchy-Schwarz *)
  assert (b1 * d1 + b2 * d2 <= na * nc) as Hcs.
  { destruct (Rle_lt_dec (b1 * d1 + b2 * d2) (na * nc)) as [| Hgt]; [done |].
    exfalso.
    assert (0 <= na * nc) by (apply Rmult_le_pos; lra).
    assert (na * nc * (na * nc) < (b1 * d1 + b2 * d2) * (b1 * d1 + b2 * d2))
      by (apply Rmult_le_0_lt_compat; lra).
    assert ((b1 * b1 + b2 * b2) * (d1 * d1 + d2 * d2) <= na * na * (nc * nc))
      by (apply Rmult_le_compat; try lra;
          apply Rplus_le_le_0_compat; apply Rmult_le_pos; lra).
    pose proof (Rle_0_sqr (b1 * d2 - b2 * d1)) as Hs. unfold Rsqr in Hs.
    clear - H0 H1 Hs. nra. }
  set (u1 := k * (b1 + d1) + h). set (u2 := k * (b2 + d2) + h).
  assert (0 <= k * (b1 + d1)) as Hu1 by (apply Rmult_le_pos; lra).
  assert (0 <= k * (b2 + d2)) as Hu2 by (apply Rmult_le_pos; lra).
  assert (q1 * q1 <= u1 * u1) as Hs1 by (apply Rmult_le_compat; subst u1; lra).
  assert (q2 * q2 <= u2 * u2) as Hs2 by (apply Rmult_le_compat; subst u2; lra).
  assert (u1 * u1 + u2 * u2
          <= (k * (na + nc) + 2 * h) * (k * (na + nc) + 2 * h)); [| lra].
  subst u1 u2.
  assert (0 <= k * k) as Hkk by (apply Rmult_le_pos; lra).
  assert (k * k * ((b1 + d1) * (b1 + d1) + (b2 + d2) * (b2 + d2))
          <= k * k * ((na + nc) * (na + nc))) as H1.
  { apply Rmult_le_compat_l; [done |]. clear - Ha Hc Hcs. lra. }
  assert (0 <= k * h) as Hkh by (apply Rmult_le_pos; lra).
  assert (k * h * ((b1 + d1) + (b2 + d2)) <= k * h * (2 * (na + nc))) as H2
    by (apply Rmult_le_compat_l; lra).
  assert (0 <= h * h) as Hhh by (apply Rmult_le_pos; lra).
  clear - H1 H2 Hhh. lra.
Qed.

(** The length of a vector whose components are bounded by those of two
    others, scaled and with an absolute error: a triangle inequality. *)
Lemma norm_step (k h a1 a2 c1 c2 p1 p2 na nc : R) :
  0 <= k → 0 <= h → 0 <= na → 0 <= nc →
  a1 * a1 + a2 * a2 <= na * na → c1 * c1 + c2 * c2 <= nc * nc →
  Rabs p1 <= k * (Rabs a1 + Rabs c1) + h →
  Rabs p2 <= k * (Rabs a2 + Rabs c2) + h →
  sqrt (p1 * p1 + p2 * p2) <= k * (na + nc) + 2 * h.
Proof.
  intros Hk Hh Hna Hnc Ha Hc Hp1 Hp2.
  assert (∀ t, Rabs t * Rabs t = t * t) as Hsq
    by (intros t; rewrite <- Rabs_mult; apply Rabs_pos_eq; nra).
  apply sqrt_le_of_sq.
  - apply Rplus_le_le_0_compat; [apply Rmult_le_pos; lra | lra].
  - rewrite <- (Hsq p1), <- (Hsq p2).
    apply (norm_step_nonneg k h (Rabs a1) (Rabs a2) (Rabs c1) (Rabs c2));
      try done; try apply Rabs_pos; rewrite !Hsq; done.
Qed.

End ForceArithmetic.

Section ForceFloats.
Local Existing Instance binary32.

Lemma within_le (B1 B2 : R) (v : Vector2) :
  (B1 <= B2)%R → within B1 v → within B2 v.
Proof. intros HB (? & ? & ? & ?). repeat split; try done; lra. Qed.

Lemma within_zero (B : R) : (0 <= B)%R → within B Vector2Zero.
Proof.
  intros HB. repeat split; cbn [Vector2Zero vx vy];
    change (@of_int binary32 0) with (S754_zero false); cbn [B2R];
    rewrite ?Rabs_R0; done.
Qed.

Lemma SFsub_valid (a b : spec_float) :
  float_ok a = true → float_ok b = true →
  valid_binary B32.prec B32.emax (SFsub B32.prec B32.emax a b) = true.
Proof.
  unfold float_ok. intros Ha Hb.
  destruct a as [sa | sa | | sa ma ea]; try done;
    destruct b as [sb | sb | | sb mb eb]; try done; cbn [SFsub].
  - by destruct sa, sb.
  - apply binary_normalize_valid.
Qed.

Lemma b32_sub_near (a b : spec_float) :
  float_ok a = true → float_ok b = true →
  (Rabs (B2R a - B2R b) < bpow 127)%R →
  near (B2R a - B2R b) (@sub binary32 a b).
Proof.
  intros Ha Hb Hx. change (@sub binary32 a b) with (SFsub B32.prec B32.emax a b).
  apply approx_near; [done | | by apply SFsub_valid].
  apply SFsub_approx; by apply float_ok_finite.
Qed.

(** A positive float is at least the least positive float. *)
Lemma float_pos_lower (f : spec_float) :
  float_ok f = true → (0 < B2R f)%R → (bpow (-149) <= B2R f)%R.
Proof.
  intros Hok Hpos. destruct f as [s | s | | s m e]; cbn [B2R] in *; try lra.
  destruct (float_ok_canon _ _ _ Hok) as [Hc _].
  pose proof (canon_emin _ _ Hc) as He.
  rewrite F2R_cond_Zopp in *. pose proof (F2R_pos m e) as Hp.
  destruct s; [lra |]. unfold F2R.
  assert (1 <= IZR (Z.pos m))%R by (apply IZR_le; lia).
  pose proof (bpow_le (-149) e He) as Hle. pose proof (bpow_pos (-149)).
  apply Rle_trans with (1 * bpow e)%R; [lra |].
  apply Rmult_le_compat_r; [pose proof (bpow_pos e); lra | done].
Qed.

(** A float of value zero is a zero. *)
Lemma float_zero_value (f : spec_float) :
  is_finite f = true → B2R f = 0%R → ∃ s, f = S754_zero s.
Proof.
  intros Hf Hz. destruct f as [s | s | | s m e]; try done; [by exists s |].
  cbn [B2R] in Hz. rewrite F2R_cond_Zopp in Hz. pose proof (F2R_pos m e).
  destruct s; lra.
Qed.

Lemma bpow_numbers :
  (bpow (-24) <= / 100 ∧ 0 < bpow (-24) ∧ 0 < bpow (-150) ∧ bpow (-150) <= 1 ∧
   bpow (-150) <= bpow (-24) ∧ bpow 2 = 4 ∧ bpow 1 = 2 ∧ bpow 0 = 1)%R.
Proof.
  destruct bpow_small_facts as ([He0 He] & _ & Hh & H4h & _).
  repeat split; try done.
  - apply Rle_trans with (bpow 0); [apply bpow_le; lia | by change (bpow 0) with 1%R; lra].
  - apply bpow_le. lia.
  - by rewrite bpow_IZR by lia.
  - by rewrite bpow_IZR by lia.
Qed.

(** The computed length [g] of a vector of floats of magnitude at most
    [2^60] is a finite float; it is zero or negative only as a zero, and
    when it is positive the two quotients by it are floats of magnitude at
    most 3. *)
Lemma b32_quotients (a b : spec_float) :
  float_ok a = true → float_ok b = true →
  (Rabs (B2R a) <= bpow 60)%R → (Rabs (B2R b) <= bpow 60)%R →
  let g := @sqrtf binary32
             (@add binary32 (@mul binary32 a a) (@mul binary32 b b)) in
  (SFltb (S754_zero false) g = false) ∨
  (float_ok g = true ∧ (0 < B2R g)%R ∧
   float_ok (@div binary32 a g) = true ∧ float_ok (@div binary32 b g) = true ∧
   (Rabs (B2R (@div binary32 a g)) <= 3)%R ∧
   (Rabs (B2R (@div binary32 b g)) <= 3)%R).
Proof.
  intros Ha Hb Ba Bb g.
  destruct (b32_square_sum a b Ha Hb Ba Bb)
    as (Hsok & HL0 & HT0 & HTl & HTu & Hs0 & Hsl & Hsu).
  destruct bpow_numbers as (He & He0 & Hh & Hh1 & Hhe & H4 & _).
  set (e := bpow (-24)) in *. set (h := bpow (-150)) in *.
  set (x := B2R a) in *. set (y := B2R b) in *.
  set (T := (B2R (@mul binary32 a a) + B2R (@mul binary32 b b))%R) in *.
  set (s := @add binary32 (@mul binary32 a a) (@mul binary32 b b)) in *.
  destruct (Rle_lt_or_eq_dec _ _ Hs0) as [Hspos | Hszero].
  2: { left. destruct (float_zero_value s (float_ok_finite _ Hsok) (eq_sym Hszero))
         as [sg Hsg].
       subst g. rewrite Hsg. by destruct sg. }
  right.
  pose proof (float_pos_lower s Hsok Hspos) as Hs149.
  destruct (near_nonneg _ _ (b32_sqrt_near s Hsok Hspos) (sqrt_pos _))
    as (Hgok & Hg0 & Hgl & _).
  fold e h g in Hgl, Hgok, Hg0.
  set (r := sqrt (B2R s)) in *.
  assert (r * r = B2R s)%R as Hrr by (apply sqrt_sqrt; lra).
  assert (bpow (-75) <= r)%R as Hr75.
  { rewrite <- (bpow_sqrt (-75)). apply sqrt_le_1_alt.
    apply Rle_trans with (bpow (-149)); [apply bpow_le; lia | done]. }
  pose proof (bpow_pos (-75)) as H75.
  assert (h <= e * r)%R as Hhr.
  { apply Rle_trans with (e * bpow (-75))%R; [| apply Rmult_le_compat_l; lra].
    unfold e, h. rewrite <- bpow_plus. apply bpow_le. lia. }
  assert (2 * h <= B2R s)%R as HhS.
  { replace (2 * h)%R with (bpow (-149)); [done |].
    unfold h. change (-149) with (-150 + 1). by rewrite bpow_succ. }
  destruct (ratio_bound e h (x * x + y * y) T (B2R s) r (B2R g))
    as (Hgpos & Hxy); try done; try lra.
  split; [done |]. split; [done |].
  assert (y * y + x * x <= 2 * B2R g * (2 * B2R g))%R as Hyx by lra.
  pose proof (quotient_bound 2 x y _ ltac:(lra) Hgpos Hxy) as Hqx.
  pose proof (quotient_bound 2 y x _ ltac:(lra) Hgpos Hyx) as Hqy.
  assert (∀ t, Rabs (t / B2R g) = Rabs t / B2R g)%R as Habs.
  { intros t. unfold Rdiv. rewrite Rabs_mult, (Rabs_pos_eq (/ B2R g)); [done |].
    apply Rlt_le, Rinv_0_lt_compat. lra. }
  pose proof (bpow_lt 2 127 ltac:(lia)) as H2.
  destruct (near_abs _ _ (b32_div_near a g Ha Hgok ltac:(lra)
              ltac:(fold x; rewrite Habs; lra))) as [Hqxok Hqxu].
  destruct (near_abs _ _ (b32_div_near b g Hb Hgok ltac:(lra)
              ltac:(fold y; rewrite Habs; lra))) as [Hqyok Hqyu].
  fold x e h in Hqxu. fold y e h in Hqyu. rewrite Habs in Hqxu, Hqyu.
  assert (∀ t, (0 <= t <= 2 → (1 + e) * t + h <= 3)%R) as Hthree.
  { intros t Ht. assert (e * t <= / 100 * 2)%R by (apply Rmult_le_compat; lra).
    lra. }
  assert (0 <= Rabs x / B2R g ∧ 0 <= Rabs y / B2R g)%R as [Hx0 Hy0].
  { split; (apply Rmult_le_pos; [apply Rabs_pos |]);
      apply Rlt_le, Rinv_0_lt_compat; lra. }
  pose proof (Hthree _ (conj Hx0 Hqx)). pose proof (Hthree _ (conj Hy0 Hqy)).
  repeat split; try done; lra.
Qed.

End ForceFloats.

Section ForceSums.
Local Existing Instance binary32.

Lemma near_within (x B B' : R) (f : spec_float) :
  near x f → (Rabs x <= B)%R → ((1 + bpow (-24)) * B + bpow (-150) <= B')%R →
  float_ok f = true ∧ (Rabs (B2R f) <= B')%R.
Proof.
  intros Hn Hx HB. destruct (near_abs _ _ Hn) as [Hok Hu]. split; [done |].
  destruct bpow_numbers as (_ & He0 & _).
  assert ((1 + bpow (-24)) * Rabs x <= (1 + bpow (-24)) * B)%R
    by (apply Rmult_le_compat_l; lra).
  lra.
Qed.

Lemma within_add (B1 B2 B3 : R) (u v : Vector2) :
  within B1 u → within B2 v → (B1 + B2 <= bpow 126)%R →
  ((1 + bpow (-24)) * (B1 + B2) + bpow (-150) <= B3)%R →
  within B3 (Vector2Add u v).
Proof.
  intros (Hux & Huy & Bux & Buy) (Hvx & Hvy & Bvx & Bvy) Hsum HB3.
  pose proof (bpow_lt 126 127 ltac:(lia)) as H127.
  assert (∀ a b : R, (Rabs a <= B1 → Rabs b <= B2 → Rabs (a + b) <= B1 + B2)%R)
    as Htri.
  { intros a b Ha Hb. pose proof (Rabs_triang a b). lra. }
  unfold Vector2Add, within. cbn [vx vy].
  destruct (near_within _ _ _ _
              (b32_add_near _ _ Hux Hvx
                 ltac:(pose proof (Htri _ _ Bux Bvx); lra))
              (Htri _ _ Bux Bvx) HB3) as [? ?].
  destruct (near_within _ _ _ _
              (b32_add_near _ _ Huy Hvy
                 ltac:(pose proof (Htri _ _ Buy Bvy); lra))
              (Htri _ _ Buy Bvy) HB3) as [? ?].
  done.
Qed.

Lemma within_sub (B1 B2 B3 : R) (u v : Vector2) :
  within B1 u → within B2 v → (B1 + B2 <= bpow 126)%R →
  ((1 + bpow (-24)) * (B1 + B2) + bpow (-150) <= B3)%R →
  within B3 (Vector2Subtract u v).
Proof.
  intros (Hux & Huy & Bux & Buy) (Hvx & Hvy & Bvx & Bvy) Hsum HB3.
  pose proof (bpow_lt 126 127 ltac:(lia)) as H127.
  assert (∀ a b : R, (Rabs a <= B1 → Rabs b <= B2 → Rabs (a - b) <= B1 + B2)%R)
    as Htri.
  { intros a b Ha Hb. pose proof (Rabs_triang a (- b)) as Ht.
    rewrite Rabs_Ropp in Ht. unfold Rminus. lra. }
  unfold Vector2Subtract, within. cbn [vx vy].
  destruct (near_within _ _ _ _
              (b32_sub_near _ _ Hux Hvx
                 ltac:(pose proof (Htri _ _ Bux Bvx); lra))
              (Htri _ _ Bux Bvx) HB3) as [? ?].
  destruct (near_within _ _ _ _
              (b32_sub_near _ _ Huy Hvy
                 ltac:(pose proof (Htri _ _ Buy Bvy); lra))
              (Htri _ _ Buy Bvy) HB3) as [? ?].
  done.
Qed.

(** A bound [X >= 1] absorbs one rounding when doubled. *)
Lemma round_absorbed (X : R) :
  (1 <= X → (1 + bpow (-24)) * X + bpow (-150) <= 2 * X)%R.
Proof.
  intros HX. destruct bpow_numbers as (He & He0 & Hh & Hh1 & Hhe & _).
  assert (bpow (-24) * X <= / 100 * X)%R by (apply Rmult_le_compat_r; lra).
  assert (bpow (-24) * 1 <= bpow (-24) * X)%R by (apply Rmult_le_compat_l; lra).
  lra.
Qed.

Lemma eps_value : bpow (-24) = (/ 16777216)%R.
Proof.
  change (-24) with (- (24)). rewrite bpow_opp, bpow_IZR by lia. done.
Qed.

(** [Vector2SetMag] keeps a vector of magnitude at most [2^40] within that
    bound when the magnitude asked for is at most [2^30]. *)
Lemma b32_Vector2SetMag_within (v : Vector2) (m : spec_float) :
  within (bpow 40) v → float_ok m = true → (Rabs (B2R m) <= bpow 30)%R →
  within (bpow 40) (Vector2SetMag v m).
Proof.
  intros Hv Hm Bm. pose proof Hv as (Hvx & Hvy & Bvx & Bvy).
  pose proof (bpow_le 40 60 ltac:(lia)) as H4060.
  unfold Vector2SetMag.
  change (@ltb binary32 (@of_int binary32 0) ?g) with (SFltb (S754_zero false) g).
  destruct (b32_quotients (vx v) (vy v) Hvx Hvy ltac:(lra) ltac:(lra))
    as [-> | (Hgok & Hgpos & Hqx & Hqy & Bqx & Bqy)]; [done |].
  set (g := @sqrtf binary32 _) in *.
  assert (SFltb (S754_zero false) g = true) as ->.
  { apply (SFltb_spec (S754_zero false) g eq_refl Hgok). cbn [B2R]. done. }
  pose proof (bpow_pos 30) as H30.
  assert (bpow 32 = 4 * bpow 30)%R as H32
    by (change 32 with (30 + 1 + 1); rewrite !bpow_succ; lra).
  pose proof (bpow_lt 32 127 ltac:(lia)) as H127.
  pose proof (bpow_le 32 39 ltac:(lia)) as H39.
  assert (bpow 40 = 2 * bpow 39)%R as H40
    by (change 40 with (39 + 1); rewrite bpow_succ; lra).
  pose proof (bpow_ge_1 32 ltac:(lia)) as H32'.
  assert (∀ q, (Rabs q <= 3 → Rabs (q * B2R m) <= bpow 32)%R) as Hprod.
  { intros q Hq. rewrite Rabs_mult. pose proof (Rabs_pos q). pose proof (Rabs_pos (B2R m)).
    apply Rle_trans with (3 * bpow 30)%R; [apply Rmult_le_compat; lra | lra]. }
  pose proof (round_absorbed _ H32') as Habs.
  unfold within. cbn [vx vy].
  destruct (near_within _ _ (bpow 40) _
              (b32_mul_near _ m Hqx Hm ltac:(pose proof (Hprod _ Bqx); lra))
              (Hprod _ Bqx) ltac:(lra)) as [? ?].
  destruct (near_within _ _ (bpow 40) _
              (b32_mul_near _ m Hqy Hm ltac:(pose proof (Hprod _ Bqy); lra))
              (Hprod _ Bqy) ltac:(lra)) as [? ?].
  done.
Qed.

(** A loop that either leaves the running sum alone or adds one vector of
    magnitude at most [B] and counts it: the sum of [t] terms stays within
    [2 * t * B]. *)
Lemma sum_within (B : R) (step : Vector2 * Z → Z → Vector2 * Z) (l : list Z) :
  (1 <= B <= bpow 100)%R →
  (∀ st tot j,
     step (st, tot) j = (st, tot) ∨
     ∃ u, within B u ∧ step (st, tot) j = (Vector2Add st u, (tot + 1)%Z)) →
  ∀ st0 tot0,
    (0 ≤ tot0)%Z → (tot0 + Z.of_nat (length l) ≤ 1000)%Z →
    within (2 * IZR tot0 * B) st0 →
    let r := fold_left step l (st0, tot0) in
    (tot0 ≤ r.2 ≤ tot0 + Z.of_nat (length l))%Z ∧ within (2 * IZR r.2 * B) r.1.
Proof.
  intros HB Hstep. induction l as [| j l IH]; intros st0 tot0 Ht0 Hlen Hst0.
  { cbn. split; [lia | done]. }
  cbn [fold_left]. cbn [length] in Hlen.
  destruct (Hstep st0 tot0 j) as [-> | (u & Hu & ->)].
  - destruct (IH st0 tot0 Ht0 ltac:(lia) Hst0) as [Hr Hw].
    split; [cbn [length]; lia | done].
  - assert (within (2 * IZR (tot0 + 1) * B) (Vector2Add st0 u)) as Hnew.
    { assert (0 <= IZR tot0 <= 1000)%R as Ht by (split; apply IZR_le; lia).
      pose proof (bpow_le 100 115 ltac:(lia)) as H115.
      assert (bpow 126 = 2048 * bpow 115)%R as H126.
      { change 126 with (115 + 11). rewrite bpow_plus, (bpow_IZR 11) by lia. lra. }
      pose proof (bpow_pos 115) as H115'.
      assert (IZR tot0 * B <= 1000 * bpow 100)%R as HtB
        by (apply Rmult_le_compat; lra).
      destruct bpow_numbers as (_ & He0 & Hh & Hh1 & Hhe & _).
      pose proof eps_value as Hev.
      apply (within_add (2 * IZR tot0 * B) B _ _ _ Hst0 Hu); [lra |].
      rewrite plus_IZR.
      assert (bpow (-24) * (2 * IZR tot0 * B + B) <= / 2 * B)%R as Herr.
      { replace (bpow (-24) * (2 * IZR tot0 * B + B))%R
          with (bpow (-24) * (2 * IZR tot0 + 1) * B)%R by ring.
        apply Rmult_le_compat_r; [lra |]. rewrite Hev.
        apply Rle_trans with (/ 16777216 * 2001)%R; [| lra].
        apply Rmult_le_compat_l; lra. }
      lra. }
    destruct (IH _ (tot0 + 1) ltac:(lia) ltac:(lia) Hnew) as [Hr Hw].
    split; [cbn [length]; lia | done].
Qed.

(** The average: a sum of [t] terms divided by [(float)t]. *)
Lemma div_total_within (B : R) (st : Vector2) (tot : Z) :
  (1 <= B <= bpow 100)%R → (1 ≤ tot ≤ 1000)%Z →
  within (2 * IZR tot * B) st →
  within (3 * B) (Vector2DivScalar st (@of_int binary32 tot)).
Proof.
  intros HB Htot (Hsx & Hsy & Bsx & Bsy).
  destruct (b32_of_int_exact tot ltac:(lia)) as [Hok Hval].
  change (B32.b32_of_int tot) with (@of_int binary32 tot) in Hok, Hval.
  assert (1 <= IZR tot)%R as Ht1 by (apply IZR_le; lia).
  assert (∀ a, (Rabs a <= 2 * IZR tot * B → Rabs (a / IZR tot) <= 2 * B)%R)
    as Hdiv.
  { intros a Ha. unfold Rdiv. rewrite Rabs_mult, (Rabs_pos_eq (/ IZR tot)).
    - apply (Rmult_le_reg_r (IZR tot)); [lra |].
      rewrite Rmult_assoc, Rinv_l by lra. lra.
    - apply Rlt_le, Rinv_0_lt_compat. lra. }
  pose proof (bpow_le 100 125 ltac:(lia)) as H125.
  assert (bpow 127 = 4 * bpow 125)%R as H127
    by (change 127 with (125 + 1 + 1); rewrite !bpow_succ; lra).
  pose proof (bpow_pos 125) as H125'.
  destruct bpow_numbers as (He & He0 & Hh & Hh1 & Hhe & _).
  assert ((1 + bpow (-24)) * (2 * B) + bpow (-150) <= 3 * B)%R as Hround.
  { assert (bpow (-24) * (2 * B) <= / 100 * (2 * B))%R
      by (apply Rmult_le_compat_r; lra). lra. }
  unfold Vector2DivScalar, within. cbn [vx vy].
  destruct (near_within _ _ (3 * B) _
              (b32_div_near (vx st) _ Hsx Hok ltac:(rewrite Hval; lra)
                 ltac:(rewrite Hval; pose proof (Hdiv _ Bsx); lra))
              ltac:(rewrite Hval; exact (Hdiv _ Bsx)) Hround) as [? ?].
  destruct (near_within _ _ (3 * B) _
              (b32_div_near (vy st) _ Hsy Hok ltac:(rewrite Hval; lra)
                 ltac:(rewrite Hval; pose proof (Hdiv _ Bsy); lra))
              ltac:(rewrite Hval; exact (Hdiv _ Bsy)) Hround) as [? ?].
  done.
Qed.

End ForceSums.

Section ForceBounds.
Local Existing Instance binary32.

Lemma nearby_length (grid : SpatialGrid) (p : Vector2) (radius : spec_float) :
  Z.of_nat (length (QuerySpatialGrid grid p radius NEARBY_MAX)) ≤ 900.
Proof.
  rewrite QuerySpatialGrid_take, length_take.
  unfold NEARBY_MAX, MAX_ENTITIES_PER_CELL. lia.
Qed.

Lemma alignment_sum_within (pos vel : list Vector2) (ent : list Entity)
    (params : BoidParams) (i : Z) (nearby : list Z) :
  (∀ j, within (bpow 30) (aget vel j)) →
  Z.of_nat (length nearby) ≤ 900 →
  let r := alignment_sum pos vel ent params i nearby in
  0 ≤ r.2 ≤ 900 ∧ within (2 * IZR r.2 * bpow 30) r.1.
Proof.
  intros Hvel Hlen r. subst r. unfold alignment_sum.
  pose proof (bpow_ge_1 30 ltac:(lia)) as H1.
  pose proof (bpow_le 30 100 ltac:(lia)) as H2.
  match goal with |- context [fold_left ?f _ _] =>
    destruct (sum_within (bpow 30) f nearby (conj H1 H2)) with
      (st0 := @Vector2Zero binary32) (tot0 := 0%Z) as [Hr Hw] end.
  - intros st tot j. cbn beta iota.
    destruct ((i =? j) || negb (active (aget ent j))); [by left |].
    destruct (ltb _ _); [right | by left].
    exists (aget vel j). split; [apply Hvel | done].
  - lia.
  - lia.
  - apply within_zero. lra.
  - split; [lia | done].
Qed.

Lemma cohesion_sum_within (pos : list Vector2) (ent : list Entity)
    (params : BoidParams) (i : Z) (nearby : list Z) :
  (∀ j, within (bpow 30) (aget pos j)) →
  Z.of_nat (length nearby) ≤ 900 →
  let r := cohesion_sum pos ent params i nearby in
  0 ≤ r.2 ≤ 900 ∧ within (2 * IZR r.2 * bpow 30) r.1.
Proof.
  intros Hpos Hlen r. subst r. unfold cohesion_sum.
  pose proof (bpow_ge_1 30 ltac:(lia)) as H1.
  pose proof (bpow_le 30 100 ltac:(lia)) as H2.
  match goal with |- context [fold_left ?f _ _] =>
    destruct (sum_within (bpow 30) f nearby (conj H1 H2)) with
      (st0 := @Vector2Zero binary32) (tot0 := 0%Z) as [Hr Hw] end.
  - intros st tot j. cbn beta iota.
    destruct ((i =? j) || negb (active (aget ent j))); [by left |].
    destruct (ltb _ _); [right | by left].
    exists (aget pos j). split; [apply Hpos | done].
  - lia.
  - lia.
  - apply within_zero. lra.
  - split; [lia | done].
Qed.

(** The unit vectors the separation system adds have components of
    magnitude at most 3, also when the squared distance underflows. *)
Lemma separation_term_within (p q : Vector2) :
  within (bpow 30) p → within (bpow 30) q →
  SFltb (S754_zero false) (Vector2Distance p q) = true →
  within 3 (Vector2DivScalar (Vector2Subtract p q) (Vector2Distance p q)).
Proof.
  intros Hp Hq Hpos.
  pose proof (bpow_pos 30) as H30.
  assert (bpow 32 = 4 * bpow 30)%R as H32
    by (change 32 with (30 + 1 + 1); rewrite !bpow_succ; lra).
  pose proof (bpow_le 32 126 ltac:(lia)) as H126.
  pose proof (bpow_le 32 60 ltac:(lia)) as H60.
  pose proof (bpow_ge_1 30 ltac:(lia)) as H30'.
  pose proof (round_absorbed (bpow 30 + bpow 30) ltac:(lra)) as Habs.
  destruct (within_sub (bpow 30) (bpow 30) (bpow 32) p q Hp Hq ltac:(lra) ltac:(lra))
    as (Hdx & Hdy & Bdx & Bdy).
  unfold Vector2Subtract in Hdx, Hdy, Bdx, Bdy. cbn [vx vy] in Hdx, Hdy, Bdx, Bdy.
  destruct (b32_quotients _ _ Hdx Hdy ltac:(lra) ltac:(lra))
    as [Hzero | (_ & _ & Hqx & Hqy & Bqx & Bqy)].
  - unfold Vector2Distance in Hpos. rewrite Hzero in Hpos. done.
  - unfold within, Vector2DivScalar, Vector2Subtract, Vector2Distance.
    cbn [vx vy]. done.
Qed.

Lemma separation_sum_within (pos : list Vector2) (ent : list Entity)
    (params : BoidParams) (i : Z) (nearby : list Z) :
  (∀ j, within (bpow 30) (aget pos j)) →
  Z.of_nat (length nearby) ≤ 900 →
  let r := separation_sum pos ent params i nearby in
  0 ≤ r.2 ≤ 900 ∧ within (2 * IZR r.2 * 3) r.1.
Proof.
  intros Hpos Hlen r. subst r. unfold separation_sum.
  pose proof (bpow_ge_1 100 ltac:(lia)) as H1.
  assert (3 <= bpow 100)%R as H2.
  { apply Rle_trans with (bpow 2); [rewrite bpow_IZR by lia; cbn; lra |].
    apply bpow_le. lia. }
  match goal with |- context [fold_left ?f _ _] =>
    destruct (sum_within 3 f nearby ltac:(lra)) with
      (st0 := @Vector2Zero binary32) (tot0 := 0%Z) as [Hr Hw] end.
  - intros st tot j. cbn beta iota.
    destruct ((i =? j) || negb (active (aget ent j))); [by left |].
    destruct (ltb _ (separationRadius params)); cbn [andb]; [| by left].
    destruct (ltb (of_int 0) _) eqn:Hgt; [right | by left].
    eexists. split; [| reflexivity].
    apply separation_term_within; [apply Hpos | apply Hpos | exact Hgt].
  - lia.
  - lia.
  - apply within_zero. lra.
  - split; [lia | done].
Qed.

End ForceBounds.

Section ForceTail.
Local Existing Instance binary32.

Lemma length_value (v : Vector2) :
  @Vector2Length real (Vector2_value v)
  = sqrt (B2R (vx v) * B2R (vx v) + B2R (vy v) * B2R (vy v)).
Proof. unfold Vector2Length, Vector2_value. exact_arith. done. Qed.

(** A component is no longer than the vector. *)
Lemma component_le_length (x y n : R) :
  (0 <= n → x * x + y * y <= n * n → Rabs x <= n ∧ Rabs y <= n)%R.
Proof.
  intros Hn Hxy.
  assert (∀ t u, (t * t + u * u <= n * n → Rabs t <= n)%R) as Hcomp.
  { intros t u Ht. destruct (Rle_lt_dec (Rabs t) n) as [| Hgt]; [done |]. exfalso.
    pose proof (Rabs_pos t).
    assert (n * n < Rabs t * Rabs t)%R by (apply Rmult_le_0_lt_compat; lra).
    assert (Rabs t * Rabs t = t * t)%R
      by (rewrite <- Rabs_mult; apply Rabs_pos_eq; nra).
    assert (0 <= u * u)%R by nra. lra. }
  split; [apply (Hcomp x y); lra | apply (Hcomp y x); lra].
Qed.

(** The end of every steering computation: set the magnitude, subtract the
    velocity, limit to [maxForce], multiply by the weight. *)
Lemma steer_tail_bound (D v : Vector2) (ms mf w : spec_float) :
  within (bpow 40) D → within (bpow 30) v →
  float_ok ms = true → (Rabs (B2R ms) <= bpow 30)%R →
  float_ok mf = true → (bpow (-40) <= B2R mf <= bpow 60)%R →
  float_ok w = true → (Rabs (B2R w) <= bpow 60)%R →
  let c := Vector2MulScalar
             (Vector2Limit (Vector2Subtract (Vector2SetMag D ms) v) mf) w in
  float_ok (vx c) = true ∧ float_ok (vy c) = true ∧
  (@Vector2Length real (Vector2_value c)
   <= Rabs (B2R w) * B2R mf * (1 + 10 * bpow (-24)) + 2 * bpow (-150))%R.
Proof.
  intros HD Hv Hms Bms Hmf Bmf Hw Bw c.
  pose proof (b32_Vector2SetMag_within D ms HD Hms Bms) as Hs1.
  pose proof (bpow_pos 30) as H30. pose proof (bpow_ge_1 30 ltac:(lia)) as H30'.
  assert (bpow 40 = 1024 * bpow 30)%R as H40.
  { change 40 with (30 + 10). rewrite bpow_plus, (bpow_IZR 10) by lia. lra. }
  assert (bpow 42 = 4 * bpow 40)%R as H42
    by (change 42 with (40 + 1 + 1); rewrite !bpow_succ; lra).
  pose proof (bpow_le 42 126 ltac:(lia)) as H126.
  pose proof (bpow_le 42 60 ltac:(lia)) as H60.
  pose proof (round_absorbed (bpow 40 + bpow 30) ltac:(lra)) as Habs.
  destruct (within_sub (bpow 40) (bpow 30) (bpow 42) _ v Hs1 Hv ltac:(lra) ltac:(lra))
    as (Htx & Hty & Btx & Bty).
  set (θ := Vector2Subtract (Vector2SetMag D ms) v) in *.
  destruct (b32_Vector2Limit_squares θ mf Htx Hty Hmf ltac:(lra) ltac:(lra) Bmf)
    as (Hlx & Hly & Hsq).
  set (l := Vector2Limit θ mf) in *.
  destruct bpow_numbers as (He & He0 & Hh & Hh1 & Hhe & _).
  set (e := bpow (-24)) in *. set (h := bpow (-150)) in *.
  set (F := B2R mf) in *. set (W := Rabs (B2R w)) in *.
  pose proof (bpow_pos (-40)) as Hm40. pose proof (bpow_pos 60) as Hp60.
  pose proof (Rabs_pos (B2R w)) as HW0. fold W in HW0.
  assert (0 <= F * (1 + 8 * e))%R as Hnl0 by (apply Rmult_le_pos; lra).
  destruct (component_le_length _ _ _ Hnl0 Hsq) as [Blx Bly].
  assert (F * (1 + 8 * e) <= bpow 61)%R as Hnl61.
  { change 61 with (60 + 1). rewrite bpow_succ.
    assert (F * (8 * e) <= F * 1)%R by (apply Rmult_le_compat_l; lra). lra. }
  assert (bpow 121 = bpow 61 * bpow 60)%R as H121 by (by rewrite <- bpow_plus).
  pose proof (bpow_lt 122 127 ltac:(lia)) as H127.
  assert (bpow 122 = 2 * bpow 121)%R as H122
    by (change 122 with (121 + 1); by rewrite bpow_succ).
  pose proof (bpow_ge_1 121 ltac:(lia)) as H121'.
  assert (∀ t, (Rabs t <= F * (1 + 8 * e) → Rabs (t * B2R w) <= bpow 121)%R)
    as Hprod.
  { intros t Ht. rewrite Rabs_mult. fold W. rewrite H121.
    pose proof (Rabs_pos t). apply Rmult_le_compat; lra. }
  pose proof (b32_mul_near (vx l) w Hlx Hw ltac:(pose proof (Hprod _ Blx); lra))
    as Hnx.
  pose proof (b32_mul_near (vy l) w Hly Hw ltac:(pose proof (Hprod _ Bly); lra))
    as Hny.
  destruct (near_abs _ _ Hnx) as [Hcx Bcx]. destruct (near_abs _ _ Hny) as [Hcy Bcy].
  fold e h in Bcx, Bcy. rewrite Rabs_mult in Bcx, Bcy. fold W in Bcx, Bcy.
  subst c. unfold Vector2MulScalar. cbn [vx vy]. split; [done | split; [done |]].
  rewrite length_value. cbn [vx vy].
  assert (0 <= (1 + e) * W)%R as Hk by (apply Rmult_le_pos; lra).
  pose proof (norm_step ((1 + e) * W) h (B2R (vx l)) (B2R (vy l)) 0 0
                (B2R (@mul binary32 (vx l) w)) (B2R (@mul binary32 (vy l) w))
                (F * (1 + 8 * e)) 0 Hk (Rlt_le _ _ Hh) Hnl0 (Rle_refl 0) Hsq
                ltac:(lra)) as Hstep.
  rewrite Rabs_R0 in Hstep.
  specialize (Hstep ltac:(lra) ltac:(lra)).
  eapply Rle_trans; [exact Hstep |].
  assert ((1 + e) * (1 + 8 * e) <= 1 + 10 * e)%R as Hc by (clear - He He0; nra).
  assert (0 <= W * F)%R as HWF by (apply Rmult_le_pos; lra).
  assert (W * F * ((1 + e) * (1 + 8 * e)) <= W * F * (1 + 10 * e))%R
    by (apply Rmult_le_compat_l; lra).
  lra.
Qed.

End ForceTail.

Section ForceSteering.
Local Existing Instance binary32.

(** The steering force of each system is a finite vector no longer than
    [|weight| * maxForce], up to rounding. *)
Lemma steering_bound (f : ForceSystem) (grid : SpatialGrid)
    (pos vel : list Vector2) (ent : list Entity) (params : BoidParams) (i : Z)
    (u : Vector2) :
  (∀ j, within (bpow 30) (aget pos j)) → (∀ j, within (bpow 30) (aget vel j)) →
  float_ok (maxSpeed params) = true → (Rabs (B2R (maxSpeed params)) <= bpow 30)%R →
  float_ok (maxForce params) = true →
  (bpow (-40) <= B2R (maxForce params) <= bpow 60)%R →
  float_ok (weight_of f params) = true →
  (Rabs (B2R (weight_of f params)) <= bpow 60)%R →
  steering_of f grid pos vel ent params i = Some u →
  float_ok (vx u) = true ∧ float_ok (vy u) = true ∧
  (@Vector2Length real (Vector2_value u)
   <= Rabs (B2R (weight_of f params)) * B2R (maxForce params)
      * (1 + 10 * bpow (-24)) + 2 * bpow (-150))%R.
Proof.
  intros Hpos Hvel Hms Bms Hmf Bmf Hw Bw Heq.
  pose proof (bpow_ge_1 30 ltac:(lia)) as H30.
  pose proof (bpow_le 30 100 ltac:(lia)) as H100.
  assert (bpow 40 = 1024 * bpow 30)%R as H40.
  { change 40 with (30 + 10). rewrite bpow_plus, (bpow_IZR 10) by lia. lra. }
  pose proof (bpow_le 40 126 ltac:(lia)) as H126.
  assert (4 <= bpow 30)%R as H4.
  { destruct bpow_numbers as (_ & _ & _ & _ & _ & <- & _). apply bpow_le. lia. }
  destruct f; cbn [steering_of weight_of] in *.
  - unfold separation_steering in Heq.
    pose proof (separation_sum_within pos ent params i _ Hpos
                  (nearby_length grid (aget pos i) (separationRadius params)))
      as [Ht Hin].
    destruct (separation_sum _ _ _ _ _) as [st tot]. cbn [fst snd] in Ht, Hin.
    destruct (Z.gtb_spec tot 0); [| done]. injection Heq as <-.
    apply steer_tail_bound; try done.
    eapply within_le; [| apply (div_total_within 3 st tot); [| lia | done]]; lra.
  - unfold alignment_steering in Heq.
    pose proof (alignment_sum_within pos vel ent params i _ Hvel
                  (nearby_length grid (aget pos i) (perceptionRadius params)))
      as [Ht Hin].
    destruct (alignment_sum _ _ _ _ _ _) as [st tot]. cbn [fst snd] in Ht, Hin.
    destruct (Z.gtb_spec tot 0); [| done]. injection Heq as <-.
    apply steer_tail_bound; try done.
    eapply within_le; [| apply (div_total_within (bpow 30) st tot); [| lia | done]];
      lra.
  - unfold cohesion_steering in Heq.
    pose proof (cohesion_sum_within pos ent params i _ Hpos
                  (nearby_length grid (aget pos i) (perceptionRadius params)))
      as [Ht Hin].
    destruct (cohesion_sum _ _ _ _ _) as [st tot]. cbn [fst snd] in Ht, Hin.
    destruct (Z.gtb_spec tot 0); [| done]. injection Heq as <-.
    apply steer_tail_bound; try done.
    pose proof (round_absorbed (3 * bpow 30 + bpow 30) ltac:(lra)) as Habs.
    apply (within_sub (3 * bpow 30) (bpow 30)); [| apply Hpos | lra | lra].
    apply (div_total_within (bpow 30) st tot); [lra | lia | done].
Qed.

(** Adding one steering force to the acceleration. *)
Lemma add_contribution_bound (a : Vector2) (c : option Vector2) (b g : R) :
  (0 <= b)%R → (0 <= g)%R → (b + g <= bpow 126)%R →
  float_ok (vx a) = true → float_ok (vy a) = true →
  (@Vector2Length real (Vector2_value a) <= b)%R →
  (∀ u, c = Some u →
        float_ok (vx u) = true ∧ float_ok (vy u) = true ∧
        (@Vector2Length real (Vector2_value u) <= g)%R) →
  let a' := add_contribution a c in
  float_ok (vx a') = true ∧ float_ok (vy a') = true ∧
  (@Vector2Length real (Vector2_value a')
   <= (1 + bpow (-24)) * (b + g) + 2 * bpow (-150))%R.
Proof.
  intros Hb Hg Hsum Hax Hay Na Hc a'. subst a'.
  destruct bpow_numbers as (He & He0 & Hh & Hh1 & Hhe & _).
  set (e := bpow (-24)) in *. set (h := bpow (-150)) in *.
  destruct c as [u |]; cbn [add_contribution].
  2:{ split; [done | split; [done |]].
      assert (0 <= e * (b + g))%R by (apply Rmult_le_pos; lra). lra. }
  destruct (Hc u eq_refl) as (Hux & Huy & Nu). clear Hc.
  rewrite length_value in Na, Nu.
  assert (∀ x y, 0 <= x * x + y * y)%R as Hnn by (intros; nra).
  pose proof (sq_le_of_sqrt _ _ (Hnn _ _) Na) as Sa.
  pose proof (sq_le_of_sqrt _ _ (Hnn _ _) Nu) as Su.
  destruct (component_le_length _ _ _ Hb Sa) as [Bax Bay].
  destruct (component_le_length _ _ _ Hg Su) as [Bux Buy].
  pose proof (bpow_lt 126 127 ltac:(lia)) as H127.
  assert (∀ s t : R, (Rabs s <= b → Rabs t <= g → Rabs (s + t) < bpow 127)%R)
    as Htri.
  { intros s t Hs Ht. pose proof (Rabs_triang s t). lra. }
  pose proof (b32_add_near _ _ Hax Hux (Htri _ _ Bax Bux)) as Hnx.
  pose proof (b32_add_near _ _ Hay Huy (Htri _ _ Bay Buy)) as Hny.
  destruct (near_abs _ _ Hnx) as [Hcx Bcx]. destruct (near_abs _ _ Hny) as [Hcy Bcy].
  fold e h in Bcx, Bcy.
  unfold Vector2Add. cbn [vx vy]. split; [done | split; [done |]].
  rewrite length_value. cbn [vx vy].
  apply (norm_step (1 + e) h (B2R (vx a)) (B2R (vy a)) (B2R (vx u)) (B2R (vy u)));
    try lra.
  - pose proof (Rabs_triang (B2R (vx a)) (B2R (vx u))).
    assert ((1 + e) * Rabs (B2R (vx a) + B2R (vx u))
            <= (1 + e) * (Rabs (B2R (vx a)) + Rabs (B2R (vx u))))%R
      by (apply Rmult_le_compat_l; lra). lra.
  - pose proof (Rabs_triang (B2R (vy a)) (B2R (vy u))).
    assert ((1 + e) * Rabs (B2R (vy a) + B2R (vy u))
            <= (1 + e) * (Rabs (B2R (vy a)) + Rabs (B2R (vy u))))%R
      by (apply Rmult_le_compat_l; lra). lra.
Qed.

(** The three roundings of the accumulation and the one of each weighting
    stay below a relative [2^-20] and an absolute [2^-140]. *)
Lemma accumulated_bound (e h F W1 W2 W3 g1 g2 g3 : R) :
  (0 < e <= / 100 → 0 < h → 0 <= F → 0 <= W1 → 0 <= W2 → 0 <= W3 →
   g1 <= W1 * F * (1 + 10 * e) + 2 * h →
   g2 <= W2 * F * (1 + 10 * e) + 2 * h →
   g3 <= W3 * F * (1 + 10 * e) + 2 * h →
   (1 + e) * ((1 + e) * ((1 + e) * (0 + g1) + 2 * h + g2) + 2 * h + g3) + 2 * h
   <= F * (W1 + W2 + W3) * (1 + 16 * e) + 16 * h)%R.
Proof.
  intros He Hh HF H1 H2 H3 G1 G2 G3.
  assert (0 <= W1 * F)%R as P1 by (apply Rmult_le_pos; lra).
  assert (0 <= W2 * F)%R as P2 by (apply Rmult_le_pos; lra).
  assert (0 <= W3 * F)%R as P3 by (apply Rmult_le_pos; lra).
  set (p1 := (W1 * F)%R) in *. set (p2 := (W2 * F)%R) in *.
  set (p3 := (W3 * F)%R) in *.
  replace (F * (W1 + W2 + W3))%R with (p1 + p2 + p3)%R by (subst p1 p2 p3; ring).
  clearbody p1 p2 p3. clear H1 H2 H3 HF W1 W2 W3 F.
  set (x1 := ((1 + e) * (1 + 10 * e))%R).
  set (x2 := ((1 + e) * x1)%R). set (x3 := ((1 + e) * x2)%R).
  assert (1 <= x1 <= 1 + 12 * e)%R as X1 by (subst x1; clear - He; nra).
  assert (1 <= x2 <= 1 + 14 * e)%R as X2 by (subst x2; clear - He X1; nra).
  assert (1 <= x3 <= 1 + 16 * e)%R as X3 by (subst x3; clear - He X2; nra).
  assert (e * h <= / 100 * h)%R as Heh by (apply Rmult_le_compat_r; lra).
  assert ((1 + e) * g1 <= x1 * p1 + (1 + e) * (2 * h))%R as S1.
  { subst x1. rewrite Rmult_assoc, <- Rmult_plus_distr_l.
    apply Rmult_le_compat_l; lra. }
  set (u1 := ((1 + e) * (0 + g1) + 2 * h)%R).
  assert (u1 <= x1 * p1 + 5 * h)%R as U1 by (subst u1; lra).
  assert ((1 + e) * (u1 + g2) <= (1 + e) * (x1 * p1 + 5 * h + (p2 * (1 + 10 * e) + 2 * h)))%R
    as S2 by (apply Rmult_le_compat_l; lra).
  set (u2 := ((1 + e) * (u1 + g2) + 2 * h)%R).
  assert (u2 <= x2 * p1 + x1 * p2 + 10 * h)%R as U2.
  { subst u2 x2 x1. clear - S2 Heh He Hh. lra. }
  assert ((1 + e) * (u2 + g3)
          <= (1 + e) * (x2 * p1 + x1 * p2 + 10 * h + (p3 * (1 + 10 * e) + 2 * h)))%R
    as S3 by (apply Rmult_le_compat_l; lra).
  assert ((1 + e) * (u2 + g3) + 2 * h <= x3 * p1 + x2 * p2 + x1 * p3 + 15 * h)%R
    as U3.
  { subst x3 x2 x1. clear - S3 Heh He Hh. lra. }
  assert (x3 * p1 <= (1 + 16 * e) * p1)%R by (apply Rmult_le_compat_r; lra).
  assert (x2 * p2 <= (1 + 16 * e) * p2)%R by (apply Rmult_le_compat_r; lra).
  assert (x1 * p3 <= (1 + 16 * e) * p3)%R by (apply Rmult_le_compat_r; lra).
  subst u2 u1. lra.
Qed.

End ForceSteering.

Section ForceFrame.
Local Existing Instance binary32.

Lemma within_aget (B : R) (l : list Vector2) (j : Z) :
  (0 <= B)%R → Forall (within B) l → within B (aget l j).
Proof.
  intros HB Hl. unfold aget. destruct (j <? 0); [by apply within_zero |].
  rewrite list_lookup_total_alt.
  destruct (l !! Z.to_nat j) as [v |] eqn:Hv; cbn [default].
  - by eapply Forall_lookup_1.
  - by apply within_zero.
Qed.

Lemma Vector2Zero_length : @Vector2Length real (Vector2_value Vector2Zero) = 0%R.
Proof.
  rewrite length_value.
  destruct (within_zero 0 (Rle_refl 0)) as (_ & _ & Bx & By).
  assert (∀ t, (Rabs t <= 0 → t = 0)%R) as Hz
    by (intros t; unfold Rabs; destruct (Rcase_abs t); lra).
  rewrite (Hz _ Bx), (Hz _ By), Rmult_0_l, Rplus_0_l. apply sqrt_0.
Qed.

(** X14. In binary32, after one frame the acceleration of an active agent
    has finite components and a length of at most
    [maxForce * (|separationWeight| + |alignmentWeight| + |cohesionWeight|)],
    up to a relative [2^-20] and an absolute [2^-140], provided the
    components of all positions and velocities are finite floats of
    magnitude at most [2^30], [maxSpeed] is one too, [maxForce] is a finite
    float between [2^-40] and [2^60] and the weights are finite floats of
    magnitude at most [2^60]. *)
Theorem b32_Tick_acceleration_bound (grid : SpatialGrid) (s : Store)
    (params : BoidParams) (i : Z) :
  Forall (within (bpow 30)) (positions s) →
  Forall (within (bpow 30)) (velocities s) →
  float_ok (maxSpeed params) = true → (Rabs (B2R (maxSpeed params)) <= bpow 30)%R →
  float_ok (maxForce params) = true →
  (bpow (-40) <= B2R (maxForce params) <= bpow 60)%R →
  (∀ f, float_ok (weight_of f params) = true ∧
        (Rabs (B2R (weight_of f params)) <= bpow 60)%R) →
  0 ≤ i < entityCount s → i < Z.of_nat (length (accelerations s)) →
  active (aget (entities s) i) = true →
  let a := aget (accelerations (Tick grid s params).2) i in
  float_ok (vx a) = true ∧ float_ok (vy a) = true ∧
  (@Vector2Length real (Vector2_value a)
   <= B2R (maxForce params)
      * (Rabs (B2R (separationWeight params)) + Rabs (B2R (alignmentWeight params))
         + Rabs (B2R (cohesionWeight params)))
      * (1 + bpow (-20)) + bpow (-140))%R.
Proof.
  intros Hpos Hvel Hms Bms Hmf Bmf Hw Hi Hlen Hact a. subst a.
  rewrite Tick_acceleration, decide_True, Hact by done.
  unfold main_order. cbn [fmap list_fmap fold_left]. unfold contribution.
  rewrite Hact.
  pose proof (bpow_pos 30) as H30.
  assert (∀ j, within (bpow 30) (aget (positions s) j)) as Hpos'
    by (intros j; apply within_aget; [lra | done]).
  assert (∀ j, within (bpow 30) (aget (velocities s) j)) as Hvel'
    by (intros j; apply within_aget; [lra | done]).
  set (grid' := SpatialGridUpdateSystem _ _ _ _).
  assert (∀ f u,
    steering_of f grid' (positions s) (velocities s) (entities s) params i = Some u →
    float_ok (vx u) = true ∧ float_ok (vy u) = true ∧
    (@Vector2Length real (Vector2_value u)
     <= Rabs (B2R (weight_of f params)) * B2R (maxForce params)
        * (1 + 10 * bpow (-24)) + 2 * bpow (-150))%R) as Hst.
  { intros f u. destruct (Hw f) as [Hwf Bwf]. by apply steering_bound. }
  destruct (Hw Separation) as [_ B1], (Hw Alignment) as [_ B2],
    (Hw Cohesion) as [_ B3].
  pose proof (Hst Separation) as S1. pose proof (Hst Alignment) as S2.
  pose proof (Hst Cohesion) as S3. clear Hst.
  cbn [weight_of steering_of] in B1, B2, B3, S1, S2, S3.
  cbn [steering_of].
  destruct bpow_numbers as (He & He0 & Hh & Hh1 & Hhe & _).
  assert (bpow (-20) = 16 * bpow (-24))%R as H20.
  { change (-20) with (-24 + 4). rewrite bpow_plus, (bpow_IZR 4) by lia.
    change (IZR (2 ^ 4)) with 16%R. lra. }
  assert (16 * bpow (-150) <= bpow (-140))%R as H140.
  { change (-140) with (-150 + 10). rewrite bpow_plus, (bpow_IZR 10) by lia.
    change (IZR (2 ^ 10)) with 1024%R. lra. }
  rewrite H20.
  set (e := bpow (-24)) in *. set (h := bpow (-150)) in *.
  set (F := B2R (maxForce params)) in *.
  set (W1 := Rabs (B2R (separationWeight params))) in *.
  set (W2 := Rabs (B2R (alignmentWeight params))) in *.
  set (W3 := Rabs (B2R (cohesionWeight params))) in *.
  pose proof (Rabs_pos (B2R (separationWeight params))) as P1. fold W1 in P1.
  pose proof (Rabs_pos (B2R (alignmentWeight params))) as P2. fold W2 in P2.
  pose proof (Rabs_pos (B2R (cohesionWeight params))) as P3. fold W3 in P3.
  pose proof (bpow_pos (-40)) as Hm40.
  assert (bpow 120 = bpow 60 * bpow 60)%R as H120 by (by rewrite <- bpow_plus).
  pose proof (bpow_ge_1 120 ltac:(lia)) as H120'.
  assert (bpow 126 = 64 * bpow 120)%R as H126.
  { change 126 with (120 + 6). rewrite bpow_plus, (bpow_IZR 6) by lia.
    change (IZR (2 ^ 6)) with 64%R. lra. }
  assert (∀ W, (0 <= W <= bpow 60 →
                0 <= W * F * (1 + 10 * e) + 2 * h <= 2 * bpow 120)%R) as Hg.
  { intros W HW.
    assert (0 <= W * F <= bpow 120)%R as HWF.
    { split; [apply Rmult_le_pos; lra |]. rewrite H120.
      apply Rmult_le_compat; lra. }
    assert (0 <= W * F * (10 * e) <= W * F * (/ 10))%R
      by (split; [apply Rmult_le_pos; lra | apply Rmult_le_compat_l; lra]).
    lra. }
  pose proof (Hg W1 ltac:(lra)) as G1. pose proof (Hg W2 ltac:(lra)) as G2.
  pose proof (Hg W3 ltac:(lra)) as G3. clear Hg.
  set (g1 := (W1 * F * (1 + 10 * e) + 2 * h)%R) in *.
  set (g2 := (W2 * F * (1 + 10 * e) + 2 * h)%R) in *.
  set (g3 := (W3 * F * (1 + 10 * e) + 2 * h)%R) in *.
  assert (∀ X, (0 <= X → 0 <= e * X <= / 100 * X)%R) as HeX.
  { intros X HX. split; [apply Rmult_le_pos; lra | apply Rmult_le_compat_r; lra]. }
  set (b1 := ((1 + e) * (0 + g1) + 2 * h)%R).
  assert (0 <= b1 <= 3 * bpow 120)%R as Hb1
    by (subst b1; pose proof (HeX (0 + g1)%R ltac:(lra)); lra).
  set (b2 := ((1 + e) * (b1 + g2) + 2 * h)%R).
  assert (0 <= b2 <= 6 * bpow 120)%R as Hb2
    by (subst b2; pose proof (HeX (b1 + g2)%R ltac:(lra)); lra).
  set (c1 := separation_steering _ _ _ _ _ _) in *.
  set (c2 := alignment_steering _ _ _ _ _ _) in *.
  set (c3 := cohesion_steering _ _ _ _ _ _) in *.
  destruct (add_contribution_bound Vector2Zero c1 0 g1 (Rle_refl 0) ltac:(lra)
              ltac:(lra) eq_refl eq_refl ltac:(rewrite Vector2Zero_length; lra) S1)
    as (A1x & A1y & N1). fold b1 in N1.
  destruct (add_contribution_bound _ c2 b1 g2 ltac:(lra) ltac:(lra)
              ltac:(lra) A1x A1y N1 S2) as (A2x & A2y & N2). fold b2 in N2.
  destruct (add_contribution_bound _ c3 b2 g3 ltac:(lra) ltac:(lra)
              ltac:(lra) A2x A2y N2 S3) as (A3x & A3y & N3).
  split; [done | split; [done |]].
  eapply Rle_trans; [exact N3 |].
  pose proof (accumulated_bound e h F W1 W2 W3 g1 g2 g3 ltac:(lra) Hh ltac:(lra)
                P1 P2 P3 ltac:(subst g1; lra) ltac:(subst g2; lra)
                ltac:(subst g3; lra)) as Hacc.
  clear - Hacc H140. subst b2 b1 e h. lra.
Qed.

End ForceFrame.


(** * The further theorems at concrete inputs *)

Lemma b32_QuerySpatialGrid_superset_witness :
  let pos := [Scenario.vec 100 100] in
  let ent := [mkEntity true] in
  let p := Scenario.vec 103 104 in
  let radius := B32.b32_of_int 5 in
  let grid := @SpatialGridUpdateSystem binary32 [] pos ent 1 in
  ((0 ≤ 0 < 1)%Z ∧ active (aget ent 0) = true ∧
   float_ok (vx (aget pos 0)) = true ∧ float_ok (vy (aget pos 0)) = true ∧
   in_world (Vector2_value (aget pos 0)) ∧
   is_finite (vx p) = true ∧ is_finite (vy p) = true ∧ is_finite radius = true ∧
   (@Vector2Distance real (Vector2_value (aget pos 0)) (Vector2_value p) <= B2R radius)%R ∧
   cast_defined (@div binary32 (@add binary32 (vx p) radius) (@of_int binary32 CELL_SIZE)) ∧
   cast_defined (@div binary32 (@add binary32 (vy p) radius) (@of_int binary32 CELL_SIZE))) ∧
  0%Z ∈ @QuerySpatialGrid binary32 grid p radius NEARBY_MAX.
Proof.
  intros pos ent p radius grid.
  assert (0 ≤ 0 < 1)%Z as Hi by lia.
  assert (active (aget ent 0) = true) as Hact by reflexivity.
  assert (float_ok (vx (aget pos 0)) = true) as Hqx by reflexivity.
  assert (float_ok (vy (aget pos 0)) = true) as Hqy by reflexivity.
  assert (B2R (B32.b32_of_int 100) = 100%R) as H100
    by (by apply (B2R_scaled_int _ 100 17)).
  assert (B2R (B32.b32_of_int 103) = 103%R) as H103
    by (by apply (B2R_scaled_int _ 103 17)).
  assert (B2R (B32.b32_of_int 104) = 104%R) as H104
    by (by apply (B2R_scaled_int _ 104 17)).
  assert (B2R radius = 5%R) as H5 by (by apply (B2R_scaled_int _ 5 21)).
  assert (in_world (Vector2_value (aget pos 0))) as Hw.
  { unfold in_world, Vector2_value. cbn [vx vy].
    change (vx (aget pos 0)) with (B32.b32_of_int 100).
    change (vy (aget pos 0)) with (B32.b32_of_int 100).
    rewrite H100. unfold SCREEN_WIDTH, SCREEN_HEIGHT. lra. }
  assert (is_finite (vx p) = true) as Hpx by reflexivity.
  assert (is_finite (vy p) = true) as Hpy by reflexivity.
  assert (is_finite radius = true) as Hr by reflexivity.
  assert (@Vector2Distance real (Vector2_value (aget pos 0)) (Vector2_value p)
          <= B2R radius)%R as Hd.
  { unfold Vector2Distance, Vector2_value. cbn [vx vy]. exact_arith.
    change (vx (aget pos 0)) with (B32.b32_of_int 100).
    change (vy (aget pos 0)) with (B32.b32_of_int 100).
    change (vx p) with (B32.b32_of_int 103).
    change (vy p) with (B32.b32_of_int 104).
    rewrite H100, H103, H104, H5.
    replace ((100 - 103) * (100 - 103) + (100 - 104) * (100 - 104))%R
      with (5 * 5)%R by ring.
    rewrite sqrt_square; lra. }
  assert (cast_defined (@div binary32 (@add binary32 (vx p) radius)
                          (@of_int binary32 CELL_SIZE))) as Hcx
    by (exists 2%Z; split; [reflexivity | unfold INT_MIN, INT_MAX; lia]).
  assert (cast_defined (@div binary32 (@add binary32 (vy p) radius)
                          (@of_int binary32 CELL_SIZE))) as Hcy
    by (exists 2%Z; split; [reflexivity | unfold INT_MIN, INT_MAX; lia]).
  split.
  { exact (conj Hi (conj Hact (conj Hqx (conj Hqy (conj Hw (conj Hpx (conj Hpy
             (conj Hr (conj Hd (conj Hcx Hcy)))))))))). }
  apply (b32_QuerySpatialGrid_superset [] pos ent 1 p radius NEARBY_MAX 0
           Hi Hact Hqx Hqy Hw Hpx Hpy Hr Hd Hcx Hcy).
  - intros c _. unfold cell_members.
    pose proof (length_filter
      (λ i, active (aget ent i) = true ∧ @cell_of binary32 (aget pos i) = c)
      (seqZ 0 1)) as Hf.
    rewrite length_seqZ in Hf. unfold MAX_ENTITIES_PER_CELL. lia.
  - pose proof (@QuerySpatialGrid_length binary32 [] pos ent 1 p radius NEARBY_MAX) as Hl.
    unfold NEARBY_MAX, MAX_ENTITIES_PER_CELL in *. lia.
Defined.

Lemma AddToSpatialGrid_append_witness :
  let pos := Scenario.vec 100 100 in
  (grid_ok Scenario.grid_a ∧
   cell_count (cell_at Scenario.grid_a (@cell_of binary32 pos).1 (@cell_of binary32 pos).2)
     < MAX_ENTITIES_PER_CELL) ∧
  cell_ids (cell_at (@AddToSpatialGrid binary32 Scenario.grid_a 7 pos) 2 2) = [0; 1; 7].
Proof.
  intros pos.
  assert (grid_ok Scenario.grid_a) as Hok
    by apply (@SpatialGridUpdateSystem_ids binary32 [] Scenario.pos_a
                Scenario.two_active 2).
  assert (cell_count (cell_at Scenario.grid_a (@cell_of binary32 pos).1
                        (@cell_of binary32 pos).2) < MAX_ENTITIES_PER_CELL) as Hfree
    by (vm_compute; reflexivity).
  split; [exact (conj Hok Hfree) |].
  destruct (@AddToSpatialGrid_append binary32 Scenario.grid_a 7 pos Hok Hfree)
    as (_ & Hids & _).
  change ((@cell_of binary32 pos).1) with 2 in Hids.
  change ((@cell_of binary32 pos).2) with 2 in Hids.
  rewrite Hids. vm_compute. reflexivity.
Defined.

Lemma SpatialGridUpdateSystem_complete_witness :
  (∀ c, Z.of_nat (length (@cell_members binary32 Scenario.pos_a Scenario.two_active 2 c))
        ≤ MAX_ENTITIES_PER_CELL) ∧
  cell_ids (cell_at Scenario.grid_a 2 2)
    = @cell_members binary32 Scenario.pos_a Scenario.two_active 2 (2, 2) ∧
  1 ∈ cell_ids (cell_at Scenario.grid_a 2 2).
Proof.
  assert (∀ c, Z.of_nat (length (@cell_members binary32 Scenario.pos_a
                                   Scenario.two_active 2 c))
               ≤ MAX_ENTITIES_PER_CELL) as Hroom.
  { intros c. unfold cell_members.
    pose proof (length_filter
      (λ i, active (aget Scenario.two_active i) = true
            ∧ @cell_of binary32 (aget Scenario.pos_a i) = c) (seqZ 0 2)) as Hf.
    rewrite length_seqZ in Hf. unfold MAX_ENTITIES_PER_CELL. lia. }
  split; [exact Hroom |].
  destruct (@SpatialGridUpdateSystem_complete binary32 [] Scenario.pos_a
              Scenario.two_active 2 Hroom) as [Hcells Hfiled].
  split.
  - apply Hcells; (split; [lia | reflexivity]).
  - apply (Hfiled 1); [lia | reflexivity].
Defined.

Lemma Tick_lone_agent_witness :
  let ent := [mkEntity true; mkEntity false] in
  let s := @mkStore binary32 ent [Scenario.vec 100 100; Scenario.vec 101 100]
             [Scenario.vec 1 0; Scenario.vec 0 1] [Scenario.vec 7 7; Scenario.vec 9 9]
             [mkColor 0 0 0 255; mkColor 0 0 0 255] 2 in
  (0 ≤ 0 < entityCount s ∧ 0 < Z.of_nat (length (accelerations s)) ∧
   active (aget (entities s) 0) = true ∧
   (∀ j, 0 ≤ j < entityCount s → j ≠ 0 → active (aget (entities s) j) = false)) ∧
  aget (accelerations (@Tick binary32 [] s boidParams).2) 0 = Vector2Zero.
Proof.
  intros ent s.
  assert (0 ≤ 0 < entityCount s) as Hi by (cbn; lia).
  assert (0 < Z.of_nat (length (accelerations s))) as Hlen by (cbn; lia).
  assert (active (aget (entities s) 0) = true) as Hact by reflexivity.
  assert (∀ j, 0 ≤ j < entityCount s → j ≠ 0 → active (aget (entities s) j) = false)
    as Hothers.
  { intros j Hj Hne. cbn in Hj. assert (j = 1) as -> by lia. reflexivity. }
  split; [exact (conj Hi (conj Hlen (conj Hact Hothers))) |].
  exact (@Tick_lone_agent binary32 [] s boidParams 0 Hi Hlen Hact Hothers).
Defined.

Lemma b32_cell_index_monotone_witness :
  let a := B32.b32_of_int 100 in
  let b := B32.b32_of_int 120 in
  (is_finite a = true ∧ is_finite b = true ∧ (0 <= B2R a <= B2R b)%R ∧
   cast_defined (@div binary32 b (@of_int binary32 CELL_SIZE))) ∧
  (0 ≤ @to_int binary32 (@div binary32 a (@of_int binary32 CELL_SIZE))
     ≤ @to_int binary32 (@div binary32 b (@of_int binary32 CELL_SIZE)))%Z.
Proof.
  intros a b.
  assert (is_finite a = true) as Ha by reflexivity.
  assert (is_finite b = true) as Hb by reflexivity.
  assert (0 <= B2R a <= B2R b)%R as Hle.
  { unfold a, b. rewrite (B2R_scaled_int _ 100 17), (B2R_scaled_int _ 120 17) by done.
    lra. }
  assert (cast_defined (@div binary32 b (@of_int binary32 CELL_SIZE))) as Hc
    by (exists 2%Z; split; [reflexivity | unfold INT_MIN, INT_MAX; lia]).
  split; [exact (conj Ha (conj Hb (conj Hle Hc))) |].
  exact (b32_cell_index_monotone a b Ha Hb Hle Hc).
Defined.

Lemma b32_cell_of_in_world_witness :
  let q := Scenario.vec 2560 1440 in
  (float_ok (vx q) = true ∧ float_ok (vy q) = true ∧ in_world (Vector2_value q)) ∧
  @cell_of binary32 q
    = (@to_int binary32 (@div binary32 (vx q) (@of_int binary32 CELL_SIZE)),
       @to_int binary32 (@div binary32 (vy q) (@of_int binary32 CELL_SIZE))).
Proof.
  intros q.
  assert (float_ok (vx q) = true) as Hx by reflexivity.
  assert (float_ok (vy q) = true) as Hy by reflexivity.
  assert (in_world (Vector2_value q)) as Hw.
  { unfold in_world, Vector2_value, q, Scenario.vec. cbn [vx vy].
    rewrite (B2R_scaled_int _ 2560 12), (B2R_scaled_int _ 1440 13) by done.
    unfold SCREEN_WIDTH, SCREEN_HEIGHT. lra. }
  split; [exact (conj Hx (conj Hy Hw)) |].
  exact (proj1 (b32_cell_of_in_world q Hx Hy Hw)).
Defined.

Lemma b32_WrapAroundSystem_in_world_witness :
  let pos := [Scenario.vec (-5) 2000] in
  let ent := [mkEntity true] in
  let p := aget (@WrapAroundSystem binary32 pos ent 1 SCREEN_WIDTH SCREEN_HEIGHT) 0 in
  ((0 ≤ SCREEN_WIDTH < 2 ^ 24)%Z ∧ (0 ≤ SCREEN_HEIGHT < 2 ^ 24)%Z ∧
   (0 ≤ 0 < 1)%Z ∧ (0 < Z.of_nat (length pos))%Z ∧ active (aget ent 0) = true ∧
   valid_binary B32.prec B32.emax (vx (aget pos 0)) = true ∧
   valid_binary B32.prec B32.emax (vy (aget pos 0)) = true ∧
   vx (aget pos 0) ≠ S754_nan ∧ vy (aget pos 0) ≠ S754_nan) ∧
  (0 <= B2R (vx p) <= IZR SCREEN_WIDTH)%R ∧ (0 <= B2R (vy p) <= IZR SCREEN_HEIGHT)%R.
Proof.
  intros pos ent p.
  assert (0 ≤ SCREEN_WIDTH < 2 ^ 24)%Z as Hw by (unfold SCREEN_WIDTH; lia).
  assert (0 ≤ SCREEN_HEIGHT < 2 ^ 24)%Z as Hh by (unfold SCREEN_HEIGHT; lia).
  assert (0 ≤ 0 < 1)%Z as Hi by lia.
  assert (0 < Z.of_nat (length pos))%Z as Hlen by (cbn; lia).
  assert (active (aget ent 0) = true) as Hact by reflexivity.
  assert (valid_binary B32.prec B32.emax (vx (aget pos 0)) = true) as Hvx
    by reflexivity.
  assert (valid_binary B32.prec B32.emax (vy (aget pos 0)) = true) as Hvy
    by reflexivity.
  assert (vx (aget pos 0) ≠ S754_nan) as Hnx by discriminate.
  assert (vy (aget pos 0) ≠ S754_nan) as Hny by discriminate.
  split.
  { exact (conj Hw (conj Hh (conj Hi (conj Hlen (conj Hact (conj Hvx (conj Hvy
             (conj Hnx Hny)))))))). }
  exact (proj2 (proj2 (b32_WrapAroundSystem_in_world pos ent 1 SCREEN_WIDTH
                         SCREEN_HEIGHT 0 Hw Hh Hi Hlen Hact Hvx Hvy Hnx Hny))).
Defined.

Lemma b32_Vector2Limit_overflow_witness :
  let max := S754_finite false 8388608 41 in
  let v := @mkVector2 binary32 (S754_finite false 8388608 50) (S754_zero false) in
  (float_ok max = true ∧ (bpow 64 <= Rabs (B2R max))%R) ∧
  @Vector2Limit binary32 v max = v.
Proof.
  intros max v.
  assert (float_ok max = true) as Hok by reflexivity.
  assert (bpow 64 <= Rabs (B2R max))%R as Hbig.
  { unfold max. cbn [B2R cond_Zopp].
    change 8388608%Z with (1 * 2 ^ 23)%Z. change 41%Z with (64 - 23)%Z.
    rewrite F2R_shift by lia. unfold F2R. rewrite Rmult_1_l.
    rewrite Rabs_pos_eq; [lra |]. pose proof (bpow_pos 64). lra. }
  split; [exact (conj Hok Hbig) |].
  exact (b32_Vector2Limit_overflow v max Hok Hbig).
Defined.

Lemma b32_separation_skips_coincident_witness :
  let pos := [Scenario.vec 100 100; Scenario.vec 100 100] in
  let grid := @SpatialGridUpdateSystem binary32 [] pos Scenario.two_active 2 in
  let acc := [Scenario.vec 7 7; Scenario.vec 9 9] in
  (is_finite (vx (aget pos 0)) = true ∧ is_finite (vy (aget pos 0)) = true ∧
   (∀ j, j ∈ @QuerySpatialGrid binary32 grid (aget pos 0)
               (separationRadius boidParams) NEARBY_MAX →
         j ≠ 0 → active (aget Scenario.two_active j) = true →
         aget pos j = aget pos 0)) ∧
  aget (@BoidSeparationSystem binary32 grid pos Scenario.vel_a acc
          Scenario.two_active 2 boidParams) 0 = aget acc 0.
Proof.
  intros pos grid acc.
  assert (is_finite (vx (aget pos 0)) = true) as Hx by reflexivity.
  assert (is_finite (vy (aget pos 0)) = true) as Hy by reflexivity.
  assert (∀ j, j ∈ @QuerySpatialGrid binary32 grid (aget pos 0)
                     (separationRadius boidParams) NEARBY_MAX →
               j ≠ 0 → active (aget Scenario.two_active j) = true →
               aget pos j = aget pos 0) as Hsame.
  { intros j Hj Hne _.
    assert (@QuerySpatialGrid binary32 grid (aget pos 0)
              (separationRadius boidParams) NEARBY_MAX = [0; 1]) as Hq
      by (vm_compute; reflexivity).
    rewrite Hq in Hj. apply elem_of_cons in Hj as [-> | Hj]; [done |].
    apply elem_of_cons in Hj as [-> | Hj].
    { change (aget pos 1) with (Scenario.vec 100 100).
      change (aget pos 0) with (Scenario.vec 100 100). reflexivity. }
    apply elem_of_nil in Hj. destruct Hj. }
  split; [exact (conj Hx (conj Hy Hsame)) |].
  exact (b32_separation_skips_coincident grid pos Scenario.vel_a acc
           Scenario.two_active 2 boidParams 0 Hx Hy Hsame).
Defined.

Lemma b32_init_entities_in_world_witness :
  let rand := λ _ lo _ : Z, lo in
  let p := aget (positions (@init_entities binary32 rand)) 0 in
  ((∀ n lo hi, (lo ≤ hi)%Z → (lo ≤ rand n lo hi ≤ hi)%Z) ∧ (0 ≤ 0 < MAX_ENTITIES)%Z) ∧
  B2R (vx p) = 20%R ∧ B2R (vy p) = 20%R.
Proof.
  intros rand p.
  assert (∀ n lo hi, (lo ≤ hi)%Z → (lo ≤ rand n lo hi ≤ hi)%Z) as Hrand
    by (intros n lo hi Hle; unfold rand; lia).
  assert (0 ≤ 0 < MAX_ENTITIES)%Z as Hk by (unfold MAX_ENTITIES; lia).
  split; [exact (conj Hrand Hk) |].
  destruct (b32_init_entities_in_world rand 0 Hrand Hk) as (_ & _ & Hx & Hy & _).
  split; [exact Hx | exact Hy].
Defined.

Lemma small_int_float (z : Z) :
  0 ≤ z < 2 ^ 24 →
  float_ok (B32.b32_of_int z) = true ∧
  (Rabs (B2R (B32.b32_of_int z)) <= bpow 58)%R ∧
  (0 < z → (bpow (-40) <= B2R (B32.b32_of_int z) <= bpow 60)%R).
Proof.
  intros Hz. destruct (b32_of_int_exact z Hz) as [Hok ->].
  split; [done |].
  assert (0 <= IZR z <= IZR (2 ^ 24))%R as Hr by (split; apply IZR_le; lia).
  rewrite <- bpow_IZR in Hr by lia.
  pose proof (bpow_le 24 58 ltac:(lia)). pose proof (bpow_le 58 60 ltac:(lia)).
  split; [rewrite Rabs_pos_eq; lra |].
  intros Hpos. split; [| lra].
  apply Rle_trans with (bpow 0); [apply bpow_le; lia |].
  change (bpow 0) with 1%R. apply IZR_le. lia.
Qed.

Lemma b32_Vector2Limit_bound_witness :
  let v := Scenario.vec 30 40 in
  let max := B32.b32_of_int 5 in
  let w := @Vector2Limit binary32 v max in
  (float_ok (vx v) = true ∧ float_ok (vy v) = true ∧ float_ok max = true ∧
   (Rabs (B2R (vx v)) <= bpow 60)%R ∧ (Rabs (B2R (vy v)) <= bpow 60)%R ∧
   (bpow (-40) <= B2R max <= bpow 60)%R) ∧
  (@Vector2Length real (Vector2_value w) <= B2R max * (1 + bpow (-21)))%R.
Proof.
  intros v max w.
  pose proof (bpow_le 58 60 ltac:(lia)) as H58.
  destruct (small_int_float 30 ltac:(lia)) as (Hvx & Bvx & _).
  destruct (small_int_float 40 ltac:(lia)) as (Hvy & Bvy & _).
  destruct (small_int_float 5 ltac:(lia)) as (Hmax & _ & HM).
  specialize (HM ltac:(lia)).
  assert (Rabs (B2R (vx v)) <= bpow 60)%R as Bvx'
    by (change (vx v) with (B32.b32_of_int 30); lra).
  assert (Rabs (B2R (vy v)) <= bpow 60)%R as Bvy'
    by (change (vy v) with (B32.b32_of_int 40); lra).
  split; [exact (conj Hvx (conj Hvy (conj Hmax (conj Bvx' (conj Bvy' HM))))) |].
  exact (proj2 (proj2 (b32_Vector2Limit_bound v max Hvx Hvy Hmax Bvx' Bvy' HM))).
Defined.


Lemma b32_Vector2Limit_spec_witness :
  let v := Scenario.vec 30 40 in
  let max := B32.b32_of_int 5 in
  let w := @Vector2Limit binary32 v max in
  (float_ok (vx v) = true ∧ float_ok (vy v) = true ∧ float_ok max = true ∧
   (Rabs (B2R (vx v)) <= bpow 60)%R ∧ (Rabs (B2R (vy v)) <= bpow 60)%R ∧
   (bpow (-40) <= B2R max <= bpow 60)%R ∧
   (B2R max * (1 + bpow (-21)) <= @Vector2Length real (Vector2_value v))%R) ∧
  (B2R max * (1 - bpow (-21)) <= @Vector2Length real (Vector2_value w)
   <= B2R max * (1 + bpow (-21)))%R.
Proof.
  intros v max w.
  pose proof (bpow_le 58 60 ltac:(lia)) as H58.
  destruct (small_int_float 30 ltac:(lia)) as (Hvx & Bvx & _).
  destruct (small_int_float 40 ltac:(lia)) as (Hvy & Bvy & _).
  destruct (small_int_float 5 ltac:(lia)) as (Hmax & _ & HM).
  specialize (HM ltac:(lia)).
  assert (Rabs (B2R (vx v)) <= bpow 60)%R as Bvx'
    by (change (vx v) with (B32.b32_of_int 30); lra).
  assert (Rabs (B2R (vy v)) <= bpow 60)%R as Bvy'
    by (change (vy v) with (B32.b32_of_int 40); lra).
  assert (B2R max * (1 + bpow (-21)) <= @Vector2Length real (Vector2_value v))%R
    as Hlong.
  { unfold Vector2Length, Vector2_value. exact_arith.
    change (vx v) with (B32.b32_of_int 30). change (vy v) with (B32.b32_of_int 40).
    unfold max.
    rewrite (proj2 (b32_of_int_exact 30 ltac:(lia))),
      (proj2 (b32_of_int_exact 40 ltac:(lia))),
      (proj2 (b32_of_int_exact 5 ltac:(lia))).
    replace (30 * 30 + 40 * 40)%R with (50 * 50)%R by lra.
    rewrite sqrt_square by lra.
    pose proof (bpow_le (-21) 0 ltac:(lia)) as H21. change (bpow 0) with 1%R in H21.
    lra. }
  split.
  { exact (conj Hvx (conj Hvy (conj Hmax (conj Bvx' (conj Bvy' (conj HM Hlong)))))). }
  destruct (proj2 (b32_Vector2Limit_spec v max Hvx Hvy Hmax Bvx' Bvy' HM) Hlong)
    as (_ & _ & Hlen & _).
  exact Hlen.
Defined.

Lemma b32_Vector2SetMag_spec_witness :
  let v := Scenario.vec 3 4 in
  let mag := B32.b32_of_int 5 in
  let w := @Vector2SetMag binary32 v mag in
  (float_ok (vx v) = true ∧ float_ok (vy v) = true ∧ float_ok mag = true ∧
   (Rabs (B2R (vx v)) <= bpow 60)%R ∧ (Rabs (B2R (vy v)) <= bpow 60)%R ∧
   (bpow (-40) <= @Vector2Length real (Vector2_value v))%R ∧
   (bpow (-40) <= Rabs (B2R mag) <= bpow 60)%R) ∧
  (Rabs (B2R mag) * (1 - bpow (-21)) <= @Vector2Length real (Vector2_value w)
   <= Rabs (B2R mag) * (1 + bpow (-21)))%R.
Proof.
  intros v mag w.
  pose proof (bpow_le 58 60 ltac:(lia)) as H58.
  destruct (small_int_float 3 ltac:(lia)) as (Hvx & Bvx & _).
  destruct (small_int_float 4 ltac:(lia)) as (Hvy & Bvy & _).
  destruct (small_int_float 5 ltac:(lia)) as (Hmag & _ & HM).
  specialize (HM ltac:(lia)).
  assert (Rabs (B2R (vx v)) <= bpow 60)%R as Bvx'
    by (change (vx v) with (B32.b32_of_int 3); lra).
  assert (Rabs (B2R (vy v)) <= bpow 60)%R as Bvy'
    by (change (vy v) with (B32.b32_of_int 4); lra).
  assert (bpow (-40) <= @Vector2Length real (Vector2_value v))%R as Hlen.
  { unfold Vector2Length, Vector2_value. exact_arith.
    change (vx v) with (B32.b32_of_int 3). change (vy v) with (B32.b32_of_int 4).
    rewrite (proj2 (b32_of_int_exact 3 ltac:(lia))),
      (proj2 (b32_of_int_exact 4 ltac:(lia))).
    replace (3 * 3 + 4 * 4)%R with (5 * 5)%R by lra.
    rewrite sqrt_square by lra.
    pose proof (bpow_le (-40) 0 ltac:(lia)) as H0. change (bpow 0) with 1%R in H0.
    lra. }
  assert (bpow (-40) <= Rabs (B2R mag) <= bpow 60)%R as HM'.
  { unfold mag. pose proof (bpow_pos (-40)). rewrite Rabs_pos_eq; lra. }
  split.
  { exact (conj Hvx (conj Hvy (conj Hmag (conj Bvx' (conj Bvy' (conj Hlen HM')))))). }
  destruct (b32_Vector2SetMag_spec v mag Hvx Hvy Hmag Bvx' Bvy' Hlen HM')
    as (_ & _ & Hres & _).
  exact Hres.
Defined.

Lemma int_vec_within (x y : Z) :
  0 ≤ x < 2 ^ 24 → 0 ≤ y < 2 ^ 24 → within (bpow 30) (Scenario.vec x y).
Proof.
  intros Hx Hy.
  destruct (small_int_float x Hx) as (Hx1 & _).
  destruct (small_int_float y Hy) as (Hy1 & _).
  destruct (b32_of_int_exact x Hx) as [_ Bx], (b32_of_int_exact y Hy) as [_ By].
  assert (∀ z, 0 ≤ z < 2 ^ 24 → (Rabs (IZR z) <= bpow 30)%R) as Hb.
  { intros z Hz. rewrite Rabs_pos_eq by (apply IZR_le; lia).
    rewrite bpow_IZR by lia. apply IZR_le. lia. }
  unfold within, Scenario.vec. cbn [vx vy]. rewrite Bx, By. auto.
Qed.

Lemma finite_float_range (m : positive) (e : Z) :
  -40 ≤ e ≤ 36 → Z.pos m < 2 ^ 24 →
  (bpow (-40) <= B2R (S754_finite false m e) <= bpow 60)%R.
Proof.
  intros He Hm. cbn [B2R cond_Zopp]. unfold F2R.
  assert (1 <= IZR (Z.pos m) <= bpow 24)%R as Hm'.
  { rewrite bpow_IZR by lia. split; apply IZR_le; lia. }
  pose proof (bpow_le (-40) e ltac:(lia)). pose proof (bpow_le e 36 ltac:(lia)).
  pose proof (bpow_pos (-40)). pose proof (bpow_pos e).
  change 60 with (24 + 36). rewrite bpow_plus. split.
  - replace (bpow (-40)) with (1 * bpow (-40))%R by lra.
    apply Rmult_le_compat; lra.
  - apply Rmult_le_compat; lra.
Qed.

Lemma b32_Tick_acceleration_bound_witness :
  let s := @mkStore binary32 Scenario.two_active Scenario.pos_a Scenario.vel_a
             [Scenario.vec 7 7; Scenario.vec 9 9]
             [mkColor 0 0 0 255; mkColor 0 0 0 255] 2 in
  let params := @boidParams binary32 in
  let a := aget (accelerations (@Tick binary32 [] s params).2) 0 in
  (Forall (within (bpow 30)) (positions s) ∧
   Forall (within (bpow 30)) (velocities s) ∧
   float_ok (maxSpeed params) = true ∧ (Rabs (B2R (maxSpeed params)) <= bpow 30)%R ∧
   float_ok (maxForce params) = true ∧
   (bpow (-40) <= B2R (maxForce params) <= bpow 60)%R ∧
   (∀ f, float_ok (weight_of f params) = true ∧
         (Rabs (B2R (weight_of f params)) <= bpow 60)%R) ∧
   0 ≤ 0 < entityCount s ∧ 0 < Z.of_nat (length (accelerations s)) ∧
   active (aget (entities s) 0) = true) ∧
  float_ok (vx a) = true ∧ float_ok (vy a) = true ∧
  (@Vector2Length real (Vector2_value a)
   <= B2R (maxForce params)
      * (Rabs (B2R (separationWeight params)) + Rabs (B2R (alignmentWeight params))
         + Rabs (B2R (cohesionWeight params)))
      * (1 + bpow (-20)) + bpow (-140))%R.
Proof.
  intros s params a.
  assert (Forall (within (bpow 30)) (positions s)) as Hpos
    by (repeat (apply Forall_cons_2; [apply int_vec_within; lia |]); apply Forall_nil_2).
  assert (Forall (within (bpow 30)) (velocities s)) as Hvel
    by (repeat (apply Forall_cons_2; [apply int_vec_within; lia |]); apply Forall_nil_2).
  assert (float_ok (maxSpeed params) = true) as Hms by reflexivity.
  assert (Rabs (B2R (maxSpeed params)) <= bpow 30)%R as Bms.
  { destruct (int_vec_within 5 5 ltac:(lia) ltac:(lia)) as (_ & _ & Hb & _).
    exact Hb. }
  assert (float_ok (maxForce params) = true) as Hmf by reflexivity.
  assert (bpow (-40) <= B2R (maxForce params) <= bpow 60)%R as Bmf.
  { change (maxForce params) with (S754_finite false 11744051 (-24)).
    apply finite_float_range; lia. }
  assert (∀ f, float_ok (weight_of f params) = true ∧
               (Rabs (B2R (weight_of f params)) <= bpow 60)%R) as Hw.
  { pose proof (bpow_pos (-40)) as Hm40.
    intros f. split; [by destruct f |].
    assert (bpow (-40) <= B2R (weight_of f params) <= bpow 60)%R as Hr.
    { destruct f.
      - change (weight_of Separation params) with (S754_finite false 12582912 (-22)).
        apply finite_float_range; lia.
      - change (weight_of Alignment params) with (S754_finite false 8388608 (-23)).
        apply finite_float_range; lia.
      - change (weight_of Cohesion params) with (S754_finite false 8388608 (-24)).
        apply finite_float_range; lia. }
    rewrite Rabs_pos_eq; lra. }
  assert (0 ≤ 0 < entityCount s) as Hi by (cbn; lia).
  assert (0 < Z.of_nat (length (accelerations s))) as Hlen by (cbn; lia).
  assert (active (aget (entities s) 0) = true) as Hact by reflexivity.
  split.
  { exact (conj Hpos (conj Hvel (conj Hms (conj Bms (conj Hmf (conj Bmf
             (conj Hw (conj Hi (conj Hlen Hact))))))))). }
  exact (b32_Tick_acceleration_bound [] s params 0 Hpos Hvel Hms Bms Hmf Bmf Hw
           Hi Hlen Hact).
Defined.
